(** * document-processor: candidate extraction and evidence verification

    A shallow embedding of the candidate-extraction core of the
    document-processor backend ([app/heuristics.py], [app/models.py],
    [app/excerpts.py], [app/llm_client.py], [app/extract_candidates.py])
    together with the properties its specification states about it, and of
    the two functions that prepare its inputs, the routing of documents to
    fields ([app/routing.py]) and the ordering of the schema's fields
    ([app/schema_resolver.py]), with further properties of the code.

    Conventions of the embedding:
    - a Python [str] is a [list ascii]; the 256 characters are read as the
      code points U+0000..U+00FF and the character classes ([str.isspace],
      the regular-expression classes [\s], [\w], [\d], and [str.lower]) are
      Python's on that range;
    - a Python [int] is a [Z]; slices [l[:n]] follow Python for negative [n];
    - a score (Python [float]) is a rational [Q]: the only arithmetic done on
      scores is [0.45 * anchor_match] and comparisons with constants; a
      routing score is a quotient of two token counts, and the scores that
      are compared with each other share their denominator; the floats that
      are not numbers are the subject of [PyFloat] and [FloatScores];
    - candidates are passed by value in the first run of the orchestrator,
      where every candidate handed over is an object of its own, and as
      objects, with a store for their contents, in the run of [Obj], where
      the same object can be handed over again; for a client that does not
      read the objects the two runs agree when no object goes through a
      verification loop twice ([runs_agree]);
    - exceptions are values of [exn]; fallible code returns a [result];
    - loops with [break]/[continue] are structurally recursive functions that
      thread the loop variables;
    - a trace event keeps its step, status, references and error; the run
      id, timestamp and duration that every event also carries are left out;
    - the artifacts (schema, layout, routing) are given to the run already
      loaded; reading and writing files cannot fail in the model. *)

From Stdlib Require Import String Ascii.
From Stdlib Require Import List Bool Arith ZArith QArith Lia Lqa.
From Stdlib Require Import Sorting.Sorted Sorting.Permutation.
From Stdlib Require Import DecimalString.
Import ListNotations.

Set Implicit Arguments.
Local Open Scope Z_scope.

(* ===================================================================== *)
(** * Python strings and slices *)
(* ===================================================================== *)

Module PyStr.

Definition str := list ascii.

(** String literals: [lit "abc"] is the [str] with characters a, b, c. *)
Definition lit (s : string) : str := list_ascii_of_string s.

Definition code (c : ascii) : nat := nat_of_ascii c.

Definition in_range (lo hi : nat) (c : ascii) : bool :=
  (lo <=? code c)%nat && (code c <=? hi)%nat.

Definition one_of (codes : list nat) (c : ascii) : bool :=
  existsb (Nat.eqb (code c)) codes.

(** [str.isspace] on one character; also the regex class [\s]. *)
Definition isspace (c : ascii) : bool :=
  in_range 9 13 c || in_range 28 32 c || one_of [133; 160]%nat c.

(** The regex class [\d], and the digits [int] takes: on the characters
    of the model the ASCII digits (beyond U+00FF Python also takes the
    other decimal digits of Unicode). *)
Definition isdigit (c : ascii) : bool := in_range 48 57 c.

(** The regex class [\w]: alphanumeric characters and the underscore. *)
Definition isword (c : ascii) : bool :=
  in_range 48 57 c || in_range 65 90 c || in_range 97 122 c
  || one_of [95; 170; 178; 179; 181; 185; 186; 188; 189; 190]%nat c
  || in_range 192 214 c || in_range 216 246 c || in_range 248 255 c.

(** [str.lower] on one character.  On the characters of the model
    [str.lower] maps character by character (beyond U+00FF it also looks
    at the neighbours of a character: a capital sigma ending a word). *)
Definition lower_char (c : ascii) : ascii :=
  if in_range 65 90 c || in_range 192 214 c || in_range 216 222 c
  then ascii_of_nat (code c + 32)
  else c.

Definition lower (s : str) : str := map lower_char s.

Definition eqb_char (a b : ascii) : bool := Ascii.eqb a b.

Fixpoint eqb (a b : str) : bool :=
  match a, b with
  | [], [] => true
  | x :: a', y :: b' => eqb_char x y && eqb a' b'
  | _, _ => false
  end.

(** [s.startswith(p)]. *)
Fixpoint startswith (p s : str) : bool :=
  match p, s with
  | [], _ => true
  | _ :: _, [] => false
  | x :: p', y :: s' => eqb_char x y && startswith p' s'
  end.

(** [needle in hay]: substring test. *)
Fixpoint contains (needle hay : str) : bool :=
  startswith needle hay
  || match hay with
     | [] => false
     | _ :: hay' => contains needle hay'
     end.

Fixpoint lstrip_by (p : ascii -> bool) (s : str) : str :=
  match s with
  | [] => []
  | c :: s' => if p c then lstrip_by p s' else s
  end.

Definition rstrip_by (p : ascii -> bool) (s : str) : str :=
  rev (lstrip_by p (rev s)).

(** [s.strip()]. *)
Definition strip (s : str) : str := rstrip_by isspace (lstrip_by isspace s).

(** [len(s)] as a Python int. *)
Definition len {A} (l : list A) : Z := Z.of_nat (length l).

(** [l[:n]] for a Python int [n]: a negative [n] counts from the end. *)
Definition slice_to {A} (l : list A) (n : Z) : list A :=
  if 0 <=? n then firstn (Z.to_nat n) l
  else firstn (Z.to_nat (len l + n)) l.

(** [l[1:]]. *)
Definition tail_from_1 {A} (l : list A) : list A := tl l.

(** Truthiness of a string or list: non-empty. *)
Definition nonempty {A} (l : list A) : bool :=
  match l with [] => false | _ :: _ => true end.

(** [sep.join(parts)]. *)
Fixpoint join (sep : str) (parts : list str) : str :=
  match parts with
  | [] => []
  | [p] => p
  | p :: rest => p ++ sep ++ join sep rest
  end.

(** [int(s)] for a string of decimal digits. *)
Definition digit_value (c : ascii) : Z := Z.of_nat (code c) - 48.

Definition int_of_digits (s : str) : Z :=
  fold_left (fun acc c => 10 * acc + digit_value c) s 0.

(** [str(n)] / f-string formatting of a non-negative int. *)
Definition str_of_int (n : Z) : str :=
  list_ascii_of_string (NilZero.string_of_uint (N.to_uint (Z.to_N n))).

End PyStr.
Import PyStr.

(* ===================================================================== *)
(** * app/heuristics.py: normalisation helpers *)
(* ===================================================================== *)

Module Heuristics.

(** [re.sub(r"\s+", " ", text)]: every maximal run of whitespace becomes
    one space.  [in_run] records that the previous character belonged to
    the run being replaced. *)
Fixpoint collapse_whitespace_from (in_run : bool) (text : str) : str :=
  match text with
  | [] => []
  | c :: rest =>
      if isspace c
      then (if in_run then collapse_whitespace_from true rest
            else " "%char :: collapse_whitespace_from true rest)
      else c :: collapse_whitespace_from false rest
  end.

Definition collapse_whitespace (text : str) : str :=
  collapse_whitespace_from false text.

(** [re.sub(r"[^\w\s\-]", "", text)]. *)
Definition keeps (c : ascii) : bool :=
  isword c || isspace c || eqb_char c "-"%char.

Definition strip_punctuation (text : str) : str := filter keeps text.

Definition normalize_text (text : str) : str :=
  let text := lower text in
  let text := collapse_whitespace text in
  let text := strip_punctuation text in
  strip text.

(** [re.sub(r"\D", "", text)]. *)
Definition extract_digits (text : str) : str := filter isdigit text.

End Heuristics.
Import Heuristics.

(* ===================================================================== *)
(** * Exceptions and fallible results *)
(* ===================================================================== *)

(** The exceptions the modelled code raises or lets through.  [ValueError]
    stands for the class and its subclasses (pydantic's [ValidationError],
    [json.JSONDecodeError]); [OtherError] is any exception that is neither a
    [ValueError] nor an [LLMInvalidJSONError]. *)
Inductive exn : Type :=
| ValueError (message : str)
| LLMInvalidJSONError (field message : str)
| OtherError (kind message : str).

Inductive result (A : Type) : Type :=
| Ok (a : A)
| Raise (e : exn).
Arguments Ok {A} a.
Arguments Raise {A} e.

Definition is_ok {A} (r : result A) : bool :=
  match r with Ok _ => true | Raise _ => false end.

(** [str(e)]. [LLMInvalidJSONError.__init__] builds its text from the field
    and the message. *)
Definition exn_str (e : exn) : str :=
  match e with
  | ValueError m => m
  | LLMInvalidJSONError f m =>
      lit "Invalid JSON from LLM for field " ++ f ++ lit ": " ++ m
  | OtherError _ m => m
  end.

(** [exc.__class__.__name__]. *)
Definition exn_kind (e : exn) : str :=
  match e with
  | ValueError _ => lit "ValueError"
  | LLMInvalidJSONError _ _ => lit "LLMInvalidJSONError"
  | OtherError k _ => k
  end.

(* ===================================================================== *)
(** * app/models.py *)
(* ===================================================================== *)

Definition Qltb (a b : Q) : bool := negb (Qle_bool b a).

Definition SUPPORTED_FIELD_KEYS : list str :=
  [ lit "full_name"; lit "dob"; lit "phone"; lit "address";
    lit "insurance_member_id"; lit "allergies"; lit "medications" ].

Definition key_is_supported (v : str) : bool :=
  existsb (PyStr.eqb v) SUPPORTED_FIELD_KEYS.

(** The validators' test [not v or not v.strip()]. *)
Definition blank (v : str) : bool :=
  negb (nonempty v) || negb (nonempty (strip v)).

Inductive FieldType : Type := TString | TDate | TPhone | TStringOrList.

Inductive ExtractionMethod : Type := heuristic | llm.

Module RunOptions.
Record t : Type := make { max_llm_tokens : Z; max_fields : Z }.
End RunOptions.

Module FieldSpec.
Record t : Type := make { key : str; label : option str; type : FieldType }.

Definition new (key : str) (label : option str) (type : FieldType)
  : result t :=
  if key_is_supported key then Ok (make key label type)
  else Raise (ValueError (lit "Unsupported field key: " ++ key)).
End FieldSpec.

Module LayoutPageText.
Record t : Type := make { page : Z; full_text : str }.

Definition new (page : Z) (full_text : str) : result t :=
  if page <? 1 then Raise (ValueError (lit "Page must be >= 1"))
  else Ok (make page full_text).
End LayoutPageText.

Module LayoutDoc.
Record t : Type := make { doc_id : str; pages : list LayoutPageText.t }.
End LayoutDoc.

Module RoutingEntry.
Record t : Type := make { field : str; doc_ids : list str }.
End RoutingEntry.

Module Evidence.
Record t : Type := make { doc_id : str; page : Z; quoted_text : str }.

(** The three field validators, run when an [Evidence] is constructed. *)
Definition new (doc_id : str) (page : Z) (quoted_text : str) : result t :=
  if blank doc_id then Raise (ValueError (lit "doc_id must not be empty"))
  else if page <? 1 then Raise (ValueError (lit "Page must be >= 1"))
  else if blank quoted_text
       then Raise (ValueError (lit "quoted_text must not be empty"))
  else Ok (make doc_id page quoted_text).
End Evidence.

Module CandidateScores.
Record t : Type := make {
  anchor_match : Q;
  validator : Q;
  doc_relevance : Q;
  cross_doc_agreement : Q;
  contradiction_penalty : Q
}.

(** [_validate_score_range] on numbers: the value is refused when
    [v < 0.0 or v > 1.0].  [FloatScores._validate_score_range] reads the
    test on every float. *)
Definition _validate_score_range (v : Q) (field_name : str) : result Q :=
  if Qltb v 0 || Qltb 1 v
  then Raise (ValueError (field_name ++ lit " must be in [0, 1]"))
  else Ok v.

Definition in_range (v : Q) : bool :=
  is_ok (_validate_score_range v (lit "score")).

Definition new (anchor_match validator doc_relevance
                cross_doc_agreement contradiction_penalty : Q) : result t :=
  if in_range anchor_match && in_range validator && in_range doc_relevance
     && in_range cross_doc_agreement && in_range contradiction_penalty
  then Ok (make anchor_match validator doc_relevance
                cross_doc_agreement contradiction_penalty)
  else Raise (ValueError (lit "score must be in [0, 1]")).
End CandidateScores.

Module Candidate.
Record t : Type := make {
  field : str;
  raw_value : str;
  normalized_value : str;
  evidence : list Evidence.t;
  from_method : ExtractionMethod;
  validators : list str;
  rejected_reasons : list str;
  scores : CandidateScores.t
}.

(** Construction runs [field_must_be_supported] and
    [evidence_must_not_be_empty]. *)
Definition new (field raw_value normalized_value : str)
    (evidence : list Evidence.t) (from_method : ExtractionMethod)
    (validators rejected_reasons : list str) (scores : CandidateScores.t)
  : result t :=
  if negb (key_is_supported field)
  then Raise (ValueError (lit "Unsupported field key: " ++ field))
  else if negb (nonempty evidence)
  then Raise (ValueError (lit "evidence must not be empty"))
  else Ok (make field raw_value normalized_value evidence from_method
                validators rejected_reasons scores).

(** The property [is_accepted]: [len(self.rejected_reasons) == 0]. *)
Definition is_accepted (c : t) : bool :=
  len (rejected_reasons c) =? 0.

(** The contents of [c] after [c.rejected_reasons.append(reason)].  The
    append itself changes the object: [Obj.append_in_place]. *)
Definition append_rejected_reason (c : t) (reason : str) : t :=
  make (field c) (raw_value c) (normalized_value c) (evidence c)
       (from_method c) (validators c) (rejected_reasons c ++ [reason])
       (scores c).

Definition with_from_method (c : t) (m : ExtractionMethod) : t :=
  make (field c) (raw_value c) (normalized_value c) (evidence c)
       m (validators c) (rejected_reasons c) (scores c).
End Candidate.

(* ===================================================================== *)
(** * The regular expressions of the evidence verifier *)
(* ===================================================================== *)

(** The patterns the verifier builds are sequences of single-character
    items: a literal character, [\d], or a bracketed set such as [[-/]]. *)
Module Re.

Inductive atom : Type :=
| Chr (c : ascii)
| Digit
| OneOf (cs : list ascii).

Definition atom_matches (a : atom) (c : ascii) : bool :=
  match a with
  | Chr x => eqb_char x c
  | Digit => isdigit c
  | OneOf cs => existsb (fun x => eqb_char x c) cs
  end.

(** [re.match(pattern, s) is not None]: the pattern matches at the start. *)
Fixpoint match_here (pattern : list atom) (s : str) : bool :=
  match pattern, s with
  | [], _ => true
  | _ :: _, [] => false
  | a :: pattern', c :: s' => atom_matches a c && match_here pattern' s'
  end.

(** [re.search(pattern, s) is not None]: the pattern matches somewhere. *)
Fixpoint search (pattern : list atom) (s : str) : bool :=
  match_here pattern s
  || match s with
     | [] => false
     | _ :: s' => search pattern s'
     end.

Definition literal (s : str) : list atom := map Chr s.

End Re.

(** A character the pattern item accepts. *)
Definition atom_ok (a : Re.atom) (c : ascii) : Prop :=
  Re.atom_matches a c = true.

(* ===================================================================== *)
(** * app/extract_candidates.py: evidence checking *)
(* ===================================================================== *)

Definition AUTOFILL_THRESHOLD : Q := 75 # 100.
Definition DEFAULT_MAX_TOTAL_CHARS : Z := 8000.
Definition DEFAULT_MAX_CHARS_PER_DOC : Z := 4000.
Definition DEFAULT_MAX_PAGES_PER_DOC : Z := 3.

Definition _normalize_for_evidence_check (text : str) : str :=
  normalize_text text.

Definition _evidence_supports_string
    (normalized_value : str) (evidence_texts : list str) : bool :=
  let norm_value := _normalize_for_evidence_check normalized_value in
  existsb (fun ev_text =>
             contains norm_value (_normalize_for_evidence_check ev_text))
          evidence_texts.

(** [r"(\d{4})-(\d{2})-(\d{2})"]. *)
Definition ymd_pattern : list Re.atom :=
  [ Re.Digit; Re.Digit; Re.Digit; Re.Digit; Re.Chr "-";
    Re.Digit; Re.Digit; Re.Chr "-"; Re.Digit; Re.Digit ].

(** [re.match] of [ymd_pattern] with its three groups. *)
Definition match_ymd (normalized_value : str) : option (str * str * str) :=
  if Re.match_here ymd_pattern normalized_value
  then Some (firstn 4 normalized_value,
             firstn 2 (skipn 5 normalized_value),
             firstn 2 (skipn 8 normalized_value))
  else None.

(** The pattern [rf"{a}[-/]{b}[-/]{c}"] for digit strings [a], [b], [c]. *)
Definition date_pattern (a b c : str) : list Re.atom :=
  Re.literal a ++ [Re.OneOf ["-"; "/"]%char]
  ++ Re.literal b ++ [Re.OneOf ["-"; "/"]%char]
  ++ Re.literal c.

Definition month_names : list (str * list str) :=
  [ (lit "01", [lit "jan"; lit "january"]);
    (lit "02", [lit "feb"; lit "february"]);
    (lit "03", [lit "mar"; lit "march"]);
    (lit "04", [lit "apr"; lit "april"]);
    (lit "05", [lit "may"]);
    (lit "06", [lit "jun"; lit "june"]);
    (lit "07", [lit "jul"; lit "july"]);
    (lit "08", [lit "aug"; lit "august"]);
    (lit "09", [lit "sep"; lit "september"]);
    (lit "10", [lit "oct"; lit "october"]);
    (lit "11", [lit "nov"; lit "november"]);
    (lit "12", [lit "dec"; lit "december"]) ].

(** [d.get(k, default)] on a dict written as a literal. *)
Fixpoint dict_get {V} (d : list (str * V)) (k : str) (default : V) : V :=
  match d with
  | [] => default
  | (k', v) :: d' => if PyStr.eqb k' k then v else dict_get d' k default
  end.

(** [f"{int(s)}"]. *)
Definition unpadded (s : str) : str := str_of_int (int_of_digits s).

(** One iteration of the loop over the evidence texts in
    [_evidence_supports_date]: does this text make the function return
    [True]? *)
Definition date_in_text (year month day ev_text : str) : bool :=
  Re.search (date_pattern year month day) ev_text
  || Re.search (date_pattern year (unpadded month) (unpadded day)) ev_text
  || Re.search (date_pattern month day year) ev_text
  || Re.search (date_pattern (unpadded month) (unpadded day) year) ev_text
  || (let ev_lower := lower ev_text in
      if contains year ev_text
         && contains (lstrip_by (eqb_char "0") day) ev_text
      then let month_strs := dict_get month_names month [] in
           existsb (fun m_str => contains m_str ev_lower) month_strs
      else false).

Definition _evidence_supports_date
    (normalized_value : str) (evidence_texts : list str) : bool :=
  match match_ymd normalized_value with
  | None => false
  | Some (year, month, day) =>
      existsb (date_in_text year month day) evidence_texts
  end.

Definition _evidence_supports_phone
    (normalized_value : str) (evidence_texts : list str) : bool :=
  let norm_digits := extract_digits normalized_value in
  if len norm_digits <? 10 then false
  else
    existsb
      (fun ev_text =>
         let ev_digits := extract_digits ev_text in
         contains norm_digits ev_digits
         || (startswith (lit "1") norm_digits
             && contains (tail_from_1 norm_digits) ev_digits)
         || ((len norm_digits =? 11) && startswith (lit "1") norm_digits
             && contains (tail_from_1 norm_digits) ev_digits))
      evidence_texts.

(** [re.split(r"[,;]", s)]. *)
Fixpoint split_on (p : ascii -> bool) (s : str) : list str :=
  match s with
  | [] => [[]]
  | c :: rest =>
      if p c then [] :: split_on p rest
      else match split_on p rest with
           | piece :: pieces => (c :: piece) :: pieces
           | [] => [[c]]
           end
  end.

Definition is_list_separator (c : ascii) : bool :=
  eqb_char c ","%char || eqb_char c ";"%char.

Definition _evidence_supports_list
    (normalized_value : str) (evidence_texts : list str) : bool :=
  if contains (lit ",") normalized_value || contains (lit ";") normalized_value
  then
    let items := split_on is_list_separator normalized_value in
    let items := filter nonempty (map strip items) in
    if negb (nonempty items) then false
    else
      let combined_evidence := join (lit " ") evidence_texts in
      let norm_evidence := _normalize_for_evidence_check combined_evidence in
      forallb
        (fun item =>
           let norm_item := _normalize_for_evidence_check item in
           negb (nonempty norm_item && negb (contains norm_item norm_evidence)))
        items
  else _evidence_supports_string normalized_value evidence_texts.

(** The loop of [evidence_supports_value] that gathers the quoted texts;
    [None] when it meets an evidence item with a falsy [doc_id], [page] or
    [quoted_text] (the function then returns [False]). *)
Fixpoint collect_evidence_texts (evidence : list Evidence.t)
  : option (list str) :=
  match evidence with
  | [] => Some []
  | ev :: rest =>
      if negb (nonempty (Evidence.doc_id ev))
         || (Evidence.page ev =? 0)
         || negb (nonempty (Evidence.quoted_text ev))
      then None
      else option_map (cons (Evidence.quoted_text ev))
                      (collect_evidence_texts rest)
  end.

Definition evidence_supports_value
    (field : FieldSpec.t) (candidate : Candidate.t) : bool :=
  if negb (nonempty (Candidate.evidence candidate)) then false
  else
    match collect_evidence_texts (Candidate.evidence candidate) with
    | None => false
    | Some evidence_texts =>
        if negb (nonempty evidence_texts) then false
        else
          match FieldSpec.type field with
          | TDate =>
              _evidence_supports_date
                (Candidate.normalized_value candidate) evidence_texts
          | TPhone =>
              _evidence_supports_phone
                (Candidate.normalized_value candidate) evidence_texts
          | TStringOrList =>
              _evidence_supports_list
                (Candidate.normalized_value candidate) evidence_texts
          | TString =>
              _evidence_supports_string
                (Candidate.normalized_value candidate) evidence_texts
          end
    end.

Definition _compute_provisional_confidence (candidate : Candidate.t) : Q :=
  (45 # 100) * CandidateScores.anchor_match (Candidate.scores candidate).


(* ===================================================================== *)
(** * The date rule of the evidence verifier, as the specification words it *)
(* ===================================================================== *)

(** These definitions follow the specification's sentence on date fields,
    not the code; [_evidence_supports_date] is compared with them below. *)
Module DateRule.

(** [needle] occurs in [hay]. *)
Definition occurs_in (needle hay : str) : Prop :=
  exists before after, hay = before ++ needle ++ after.

(** One of the two separators of [[-/]]. *)
Definition separator (c : ascii) : Prop := c = "-"%char \/ c = "/"%char.

(** A run of exactly [n] decimal digits. *)
Definition digits (n : nat) (s : str) : Prop :=
  length s = n /\ Forall (fun c => isdigit c = true) s.

(** The value parses as YYYY-MM-DD: it starts with four digits, a hyphen,
    two digits, a hyphen and two digits (the parse is anchored at the start
    of the value only, as [re.match] is). *)
Definition parses_as (value year month day : str) : Prop :=
  digits 4 year /\ digits 2 month /\ digits 2 day
  /\ exists rest, value = year ++ lit "-" ++ month ++ lit "-" ++ day ++ rest.

(** The text contains [a], a separator, [b], a separator, [c]. *)
Definition written (a b c text : str) : Prop :=
  exists s1 s2, separator s1 /\ separator s2
                /\ occurs_in (a ++ [s1] ++ b ++ [s2] ++ c) text.

(** A two-digit component without its zero padding, as a number is
    printed. *)
Definition without_padding (s : str) : str := str_of_int (int_of_digits s).

(** The day's digits with the leading zeros removed. *)
Definition unpadded_day (day : str) : str :=
  lstrip_by (fun c => eqb_char "0" c) day.

Definition month_full_names : list str :=
  [ lit "january"; lit "february"; lit "march"; lit "april"; lit "may";
    lit "june"; lit "july"; lit "august"; lit "september"; lit "october";
    lit "november"; lit "december" ].

(** The two-digit numeral of month number [n]. *)
Definition two_digits (n : nat) : str :=
  [ascii_of_nat (48 + n / 10); ascii_of_nat (48 + n mod 10)].

(** [name] is the English name of month [month] (a two-digit numeral from
    01 to 12) or its three-letter abbreviation. *)
Definition month_name (month name : str) : Prop :=
  exists n full,
    nth_error month_full_names n = Some full
    /\ month = two_digits (S n)
    /\ (name = full \/ name = firstn 3 full).

(** One evidence text supports the date. *)
Definition text_supports (year month day text : str) : Prop :=
  written year month day text
  \/ written year (without_padding month) (without_padding day) text
  \/ written month day year text
  \/ written (without_padding month) (without_padding day) year text
  \/ (occurs_in year text /\ occurs_in (unpadded_day day) text
      /\ exists name, month_name month name /\ occurs_in name (lower text)).

Definition supports (value : str) (evidence_texts : list str) : Prop :=
  exists year month day,
    parses_as value year month day
    /\ exists text, In text evidence_texts
                    /\ text_supports year month day text.

End DateRule.


(* ===================================================================== *)
(** * Ordering and [sorted] *)
(* ===================================================================== *)

(** Python compares strings by code point, a proper prefix being smaller. *)
Fixpoint str_compare (a b : str) : comparison :=
  match a, b with
  | [], [] => Eq
  | [], _ :: _ => Lt
  | _ :: _, [] => Gt
  | x :: a', y :: b' =>
      match Nat.compare (code x) (code y) with
      | Eq => str_compare a' b'
      | c => c
      end
  end.

Definition is_lt (c : comparison) : bool :=
  match c with Lt => true | _ => false end.

(** [a < b] on strings. *)
Definition str_ltb (a b : str) : bool := is_lt (str_compare a b).

(** [sorted(l, key=key)]: a stable sort that only asks whether one key is
    less than another.  [insert_by] puts [x] in front of the first element
    whose key is not less than the key of [x], so that elements with equal
    keys keep the order they had in [l]. *)
Fixpoint insert_by {A K} (key : A -> K) (ltb : K -> K -> bool)
    (x : A) (l : list A) : list A :=
  match l with
  | [] => [x]
  | y :: l' =>
      if ltb (key y) (key x) then y :: insert_by key ltb x l'
      else x :: y :: l'
  end.

Fixpoint sorted_by {A K} (key : A -> K) (ltb : K -> K -> bool)
    (l : list A) : list A :=
  match l with
  | [] => []
  | x :: l' => insert_by key ltb x (sorted_by key ltb l')
  end.

(** [x] may stand before [y]: the key of [y] is not less than that of [x]. *)
Definition in_order {A K} (key : A -> K) (ltb : K -> K -> bool) (x y : A)
  : Prop :=
  ltb (key y) (key x) = false.

(** The sort key of [_sort_candidates]: a tuple compared component by
    component. *)
Definition sort_key : Type := (str * Z * str)%type.

Definition method_order (m : ExtractionMethod) : Z :=
  match m with heuristic => 0 | llm => 1 end.

Definition candidate_key (c : Candidate.t) : sort_key :=
  (Candidate.field c, method_order (Candidate.from_method c),
   Candidate.normalized_value c).

Definition key_compare (k1 k2 : sort_key) : comparison :=
  let '(f1, o1, n1) := k1 in
  let '(f2, o2, n2) := k2 in
  match str_compare f1 f2 with
  | Eq => match Z.compare o1 o2 with
          | Eq => str_compare n1 n2
          | c => c
          end
  | c => c
  end.

Definition key_ltb (k1 k2 : sort_key) : bool := is_lt (key_compare k1 k2).

Definition _sort_candidates (candidates : list Candidate.t)
  : list Candidate.t :=
  sorted_by candidate_key key_ltb candidates.


(* ===================================================================== *)
(** * app/excerpts.py *)
(* ===================================================================== *)

Module DocExcerpt.
Record t : Type := make { doc_id : str; page : Z; text : str }.
End DocExcerpt.

(** [FIELD_ALIASES] of [app/routing.py]. *)
Definition FIELD_ALIASES : list (str * list str) :=
  [ (lit "full_name", [lit "full_name"; lit "name"; lit "patient_name"]);
    (lit "dob", [lit "dob"; lit "date_of_birth"; lit "birthdate"]);
    (lit "phone", [lit "phone"; lit "mobile"; lit "telephone"]);
    (lit "address", [lit "address"; lit "street"]);
    (lit "insurance_member_id",
      [lit "insurance_member_id"; lit "member_id"; lit "policy";
       lit "insurance_id"]);
    (lit "allergies", [lit "allergies"; lit "allergy"]);
    (lit "medications", [lit "medications"; lit "meds"]) ].

(** The keyword set, as a list: it is only ever searched. *)
Definition _get_field_keywords (field : FieldSpec.t) : list str :=
  [lower (FieldSpec.key field)]
  ++ match FieldSpec.label field with
     | Some label => if nonempty label then [lower label] else []
     | None => []
     end
  ++ map lower (dict_get FIELD_ALIASES (FieldSpec.key field) []).

Definition _page_contains_keyword (page_text : str) (keywords : list str)
  : bool :=
  let text_lower := lower page_text in
  existsb (fun kw => contains kw text_lower) keywords.

Section BuildExcerpts.

Variable field : FieldSpec.t.
Variables max_total_chars max_chars_per_doc max_pages_per_doc : Z.

(** The pages of one document the inner loop runs over
    ([selected_pages]). *)
Definition selected_pages (doc : LayoutDoc.t) : list LayoutPageText.t :=
  let keywords := _get_field_keywords field in
  let sorted_pages :=
    sorted_by LayoutPageText.page Z.ltb (LayoutDoc.pages doc) in
  let matching_pages :=
    filter (fun p => _page_contains_keyword (LayoutPageText.full_text p)
                                            keywords)
           sorted_pages in
  let matching_pages :=
    if negb (nonempty matching_pages) && nonempty sorted_pages
    then firstn 1 sorted_pages
    else matching_pages in
  slice_to matching_pages max_pages_per_doc.

(** The inner loop, [for page in selected_pages], from a given
    [doc_chars_used] and [total_chars]: the excerpts it appends and the new
    [total_chars]. *)
Fixpoint excerpts_of_pages (doc_id : str) (selected : list LayoutPageText.t)
    (doc_chars_used total_chars : Z) : list DocExcerpt.t * Z :=
  match selected with
  | [] => ([], total_chars)
  | page :: rest =>
      if max_total_chars <=? total_chars then ([], total_chars)
      else if max_chars_per_doc <=? doc_chars_used then ([], total_chars)
      else
        let remaining_doc_chars := max_chars_per_doc - doc_chars_used in
        let remaining_total_chars := max_total_chars - total_chars in
        let max_for_this_page :=
          Z.min remaining_doc_chars remaining_total_chars in
        let text :=
          slice_to (LayoutPageText.full_text page) max_for_this_page in
        if nonempty text
        then
          let '(more, total) :=
            excerpts_of_pages doc_id rest
              (doc_chars_used + len text) (total_chars + len text) in
          (DocExcerpt.make doc_id (LayoutPageText.page page) text :: more,
           total)
        else excerpts_of_pages doc_id rest doc_chars_used total_chars
  end.

(** The outer loop, [for doc in routed_docs], from a given [total_chars];
    it stops at the first document that finds the total budget used up. *)
Fixpoint excerpts_of_docs (routed_docs : list LayoutDoc.t) (total_chars : Z)
  : list DocExcerpt.t :=
  match routed_docs with
  | [] => []
  | doc :: rest =>
      if max_total_chars <=? total_chars then []
      else
        let '(excerpts, total) :=
          excerpts_of_pages (LayoutDoc.doc_id doc) (selected_pages doc)
                            0 total_chars in
        excerpts ++ excerpts_of_docs rest total
  end.

Definition build_excerpts_for_field (routed_docs : list LayoutDoc.t)
  : list DocExcerpt.t :=
  excerpts_of_docs routed_docs 0.

(** Proof device: the same outer loop with the excerpts of each document
    kept apart; a document the loop does not reach has the empty block. *)
Fixpoint excerpt_blocks (routed_docs : list LayoutDoc.t) (total_chars : Z)
  : list (list DocExcerpt.t) :=
  match routed_docs with
  | [] => []
  | doc :: rest =>
      if max_total_chars <=? total_chars
      then [] :: excerpt_blocks rest total_chars
      else
        let '(block, total) :=
          excerpts_of_pages (LayoutDoc.doc_id doc) (selected_pages doc)
                            0 total_chars in
        block :: excerpt_blocks rest total
  end.

End BuildExcerpts.

(** Total length of the excerpt texts. *)
Definition total_text_length (excerpts : list DocExcerpt.t) : Z :=
  fold_right (fun e acc => len (DocExcerpt.text e) + acc) 0 excerpts.

(** [e] quotes the start of page [p] of document [doc]. *)
Definition excerpt_of_page (doc : LayoutDoc.t) (p : LayoutPageText.t)
    (e : DocExcerpt.t) : Prop :=
  DocExcerpt.doc_id e = LayoutDoc.doc_id doc
  /\ DocExcerpt.page e = LayoutPageText.page p
  /\ exists rest, LayoutPageText.full_text p = DocExcerpt.text e ++ rest.

Definition has_keyword (field : FieldSpec.t) (p : LayoutPageText.t) : Prop :=
  _page_contains_keyword (LayoutPageText.full_text p)
                         (_get_field_keywords field) = true.

(** No page of the document contains a keyword of the field. *)
Definition no_keyword_page (field : FieldSpec.t) (doc : LayoutDoc.t) : Prop :=
  forall q, In q (LayoutDoc.pages doc) -> ~ has_keyword field q.

(** What the specification asks of the excerpts taken from one routed
    document. *)
Record block_ok (field : FieldSpec.t) (max_chars_per_doc max_pages_per_doc : Z)
    (doc : LayoutDoc.t) (block : list DocExcerpt.t) : Prop := {
  block_chars : total_text_length block <= max_chars_per_doc;
  block_pages : len block <= max_pages_per_doc;
  block_ascending : StronglySorted Z.le (map DocExcerpt.page block);
  block_sources :
    Forall (fun e =>
              exists p, In p (LayoutDoc.pages doc)
                        /\ excerpt_of_page doc p e
                        /\ (has_keyword field p
                            \/ ((forall q, In q (LayoutDoc.pages doc) ->
                                           ~ has_keyword field q)
                                /\ (forall q, In q (LayoutDoc.pages doc) ->
                                       LayoutPageText.page p
                                       <= LayoutPageText.page q))))
           block;
  block_fallback_single :
    (forall q, In q (LayoutDoc.pages doc) -> ~ has_keyword field q) ->
    len block <= 1
}.


(** [picked doc ps es]: the excerpts [es] quote, in order, the start of
    some of the pages [ps], none of them with an empty text. *)
Inductive picked (doc : LayoutDoc.t)
  : list LayoutPageText.t -> list DocExcerpt.t -> Prop :=
| picked_none ps : picked doc ps []
| picked_skip p ps es : picked doc ps es -> picked doc (p :: ps) es
| picked_take p ps e es :
    picked doc ps es ->
    excerpt_of_page doc p e ->
    DocExcerpt.text e <> [] ->
    picked doc (p :: ps) (e :: es).

Definition page_le (p q : LayoutPageText.t) : Prop :=
  LayoutPageText.page p <= LayoutPageText.page q.

(* ===================================================================== *)
(** * The excerpt rule, as the specification words it *)
(* ===================================================================== *)

(** Section 4.4 of the specification: "iterate routed documents in given
    order; for each, sort its pages ascending by page number; select pages
    whose text contains any of the field's keywords (key, label, and known
    aliases, all lowercased) up to [max_pages_per_doc]; if none match, fall
    back to the document's first page only.  For each selected page, take
    a prefix of its text bounded by the minimum of remaining per-document
    budget and remaining total budget; empty slices are dropped.  Stop
    entirely once the total character budget is exhausted."  The budgets
    are natural numbers, and the cap on the pages of a document covers the
    fallback page too. *)
Module ExcerptRule.

Definition ascending (pages : list LayoutPageText.t)
  : list LayoutPageText.t :=
  sorted_by LayoutPageText.page Z.ltb pages.

Definition keyword_pages (field : FieldSpec.t) (doc : LayoutDoc.t)
  : list LayoutPageText.t :=
  filter (fun p => _page_contains_keyword (LayoutPageText.full_text p)
                                          (_get_field_keywords field))
         (ascending (LayoutDoc.pages doc)).

(** The pages selected from a document: its keyword pages or, when it has
    none, its first page; at most [max_pages] of them. *)
Definition selected (field : FieldSpec.t) (max_pages : nat)
    (doc : LayoutDoc.t) : list LayoutPageText.t :=
  firstn max_pages
    (match keyword_pages field doc with
     | [] => firstn 1 (ascending (LayoutDoc.pages doc))
     | pages => pages
     end).

(** The excerpts of the selected pages of a document, [budget] being the
    minimum of what is left of the per-document budget and of the total
    budget: a slice of [n] characters leaves [budget - n]. *)
Fixpoint quotes (doc_id : str) (budget : nat)
    (pages : list LayoutPageText.t) : list DocExcerpt.t :=
  match pages with
  | [] => []
  | page :: rest =>
      let text := firstn budget (LayoutPageText.full_text page) in
      if nonempty text
      then DocExcerpt.make doc_id (LayoutPageText.page page) text
           :: quotes doc_id (budget - length text) rest
      else quotes doc_id budget rest
  end.

(** Number of characters quoted. *)
Definition chars (excerpts : list DocExcerpt.t) : nat :=
  length (concat (map DocExcerpt.text excerpts)).

(** The excerpts of the routed documents; [max_total] is what is left of
    the total budget. *)
Fixpoint excerpts (field : FieldSpec.t) (max_total max_doc max_pages : nat)
    (routed_docs : list LayoutDoc.t) : list DocExcerpt.t :=
  match routed_docs with
  | [] => []
  | doc :: rest =>
      let block :=
        quotes (LayoutDoc.doc_id doc) (Nat.min max_doc max_total)
               (selected field max_pages doc) in
      block ++ excerpts field (max_total - chars block) max_doc max_pages rest
  end.

End ExcerptRule.

(* ===================================================================== *)
(** * app/llm_client.py: [ApiLLMClient.extract_candidates] *)
(* ===================================================================== *)

Module Message.
Record t : Type := make { role : str; content : str }.
End Message.

(** What one external call does: it returns the response text or raises. *)
Inductive api_outcome : Type :=
| ApiReturn (response : str)
| ApiRaise (e : exn).

Section ApiLLMClient.

(** The transport [_call_api] is external (the class leaves it to be
    supplied): a function of the messages, the token limit and the state of
    the outside world.  The response parser and the two prompt builders are
    pure functions of their arguments; the retry protocol below does not look
    inside them. *)
Variable World : Type.
Variable _call_api : list Message.t -> Z -> World -> api_outcome * World.
Variable _parse_llm_response : FieldSpec.t -> str -> result (list Candidate.t).
Variable _build_extraction_prompt : FieldSpec.t -> list DocExcerpt.t -> str.
Variable _build_retry_prompt : FieldSpec.t -> str -> str.

(** The body of each [try]: call the transport, parse what it returns.
    The second component is the value of [response] if the call bound it;
    the last is the list of calls made (one). *)
Definition attempt (field : FieldSpec.t) (messages : list Message.t)
    (max_tokens : Z) (w : World)
  : result (list Candidate.t) * option str * World :=
  match _call_api messages max_tokens w with
  | (ApiReturn response, w') =>
      (_parse_llm_response field response, Some response, w')
  | (ApiRaise e, w') => (Raise e, None, w')
  end.

(** The messages of the retry: the first prompt, the first response as the
    assistant's turn (the empty string if the first call did not bind
    [response]), and the corrective prompt built from the first error. *)
Definition retry_messages (field : FieldSpec.t) (excerpts : list DocExcerpt.t)
    (response : option str) (first_error : str) : list Message.t :=
  [Message.make (lit "user") (_build_extraction_prompt field excerpts)]
  ++ [Message.make (lit "assistant")
        match response with Some r => r | None => [] end]
  ++ [Message.make (lit "user") (_build_retry_prompt field first_error)].

(** [extract_candidates]: the result, the world afterwards, and the
    messages of every external call made, in order. *)
Definition extract_candidates (field : FieldSpec.t)
    (excerpts : list DocExcerpt.t) (run_options : RunOptions.t) (w : World)
  : result (list Candidate.t) * World * list (list Message.t) :=
  if negb (nonempty excerpts) then (Ok [], w, [])
  else
    let prompt := _build_extraction_prompt field excerpts in
    let messages := [Message.make (lit "user") prompt] in
    let max_tokens := RunOptions.max_llm_tokens run_options in
    match attempt field messages max_tokens w with
    | (Ok candidates, _, w1) => (Ok candidates, w1, [messages])
    | (Raise (ValueError m1), response, w1) =>
        let first_error := exn_str (ValueError m1) in
        let messages2 := retry_messages field excerpts response first_error in
        match attempt field messages2 max_tokens w1 with
        | (Ok candidates, _, w2) => (Ok candidates, w2, [messages; messages2])
        | (Raise (ValueError m2), _, w2) =>
            (Raise (LLMInvalidJSONError (FieldSpec.key field)
                                        (exn_str (ValueError m2))),
             w2, [messages; messages2])
        | (Raise e, _, w2) => (Raise e, w2, [messages; messages2])
        end
    | (Raise e, _, w1) => (Raise e, w1, [messages])
    end.

End ApiLLMClient.


(* ===================================================================== *)
(** * app/extract_candidates.py: the orchestrator *)
(* ===================================================================== *)

Definition UNSUPPORTED_BY_EVIDENCE : str := lit "unsupported_by_evidence".

(** The body of both verification loops:
    [if not evidence_supports_value(field, candidate):
         candidate.rejected_reasons.append("unsupported_by_evidence")]. *)
Definition apply_evidence_check (field : FieldSpec.t) (candidate : Candidate.t)
  : Candidate.t :=
  if negb (evidence_supports_value field candidate)
  then Candidate.append_rejected_reason candidate UNSUPPORTED_BY_EVIDENCE
  else candidate.

(** [max(iterable)] on a non-empty sequence: the first element, replaced by
    each later element that is greater. *)
Definition py_max (l : list Q) : Q :=
  match l with
  | [] => 0
  | x :: rest => fold_left (fun m y => if Qltb m y then y else m) rest x
  end.

(** The decision [should_call_llm], from the accepted heuristic
    candidates. *)
Definition should_call_llm (accepted_heuristic : list Candidate.t) : bool :=
  if negb (nonempty accepted_heuristic) then true
  else
    let best_confidence :=
      py_max (map _compute_provisional_confidence accepted_heuristic) in
    Qltb best_confidence AUTOFILL_THRESHOLD.

(** [layout_map = {doc.doc_id: doc for doc in layout}] followed by a lookup:
    of several documents with one id the last one stays in the dict. *)
Definition layout_map_get (layout : list LayoutDoc.t) (doc_id : str)
  : option LayoutDoc.t :=
  find (fun doc => PyStr.eqb (LayoutDoc.doc_id doc) doc_id) (rev layout).

Definition _get_routed_docs (field_key : str) (routing : list RoutingEntry.t)
    (layout : list LayoutDoc.t) : list LayoutDoc.t :=
  match find (fun r => PyStr.eqb (RoutingEntry.field r) field_key) routing with
  | None => []
  | Some entry =>
      if negb (nonempty (RoutingEntry.doc_ids entry)) then []
      else
        flat_map (fun doc_id =>
                    match layout_map_get layout doc_id with
                    | Some doc => [doc]
                    | None => []
                    end)
                 (RoutingEntry.doc_ids entry)
  end.

Inductive Status : Type := status_ok | status_error.

Module TraceEvent.
Record t : Type := make {
  step : str;
  status : Status;
  inputs_ref : list str;
  outputs_ref : list str;
  error : option (str * str)
}.
End TraceEvent.

Module FieldStats.
Record t : Type := make {
  heuristic_count : Z;
  llm_used : bool;
  accepted_count : Z;
  rejected_count : Z
}.
End FieldStats.

Module ResolvedSchema.
Record t : Type := make { resolved_fields : list FieldSpec.t }.
End ResolvedSchema.

(** One invocation of the generator client, as the orchestrator sees it. *)
Module LlmCall.
Record t : Type := make {
  field : FieldSpec.t;
  excerpts : list DocExcerpt.t;
  outcome : result (list Candidate.t)
}.
End LlmCall.

(** [field_stats[key] = stats]. *)
Fixpoint dict_set {V} (d : list (str * V)) (k : str) (v : V)
  : list (str * V) :=
  match d with
  | [] => [(k, v)]
  | (k', v') :: d' =>
      if PyStr.eqb k' k then (k', v) :: d' else (k', v') :: dict_set d' k v
  end.

Definition heuristic_event (field : FieldSpec.t) : TraceEvent.t :=
  TraceEvent.make (lit "field:" ++ FieldSpec.key field ++ lit ":heuristic")
                  status_ok [] [] None.

Definition llm_event (field : FieldSpec.t) (llm_error : option (str * str))
  : TraceEvent.t :=
  TraceEvent.make (lit "field:" ++ FieldSpec.key field ++ lit ":llm")
                  (match llm_error with Some _ => status_error
                                   | None => status_ok end)
                  [] [] llm_error.

Definition run_ok_event (run_id : str) : TraceEvent.t :=
  TraceEvent.make (lit "extract_candidates") status_ok
    [ lit "runs/" ++ run_id ++ lit "/artifacts/schema.json";
      lit "runs/" ++ run_id ++ lit "/artifacts/layout.json";
      lit "runs/" ++ run_id ++ lit "/artifacts/routing.json" ]
    [ lit "runs/" ++ run_id ++ lit "/artifacts/candidates.json" ]
    None.

Definition run_error_event (exc : exn) : TraceEvent.t :=
  TraceEvent.make (lit "extract_candidates") status_error [] []
                  (Some (exn_kind exc, exn_str exc)).

Definition count_if {A} (p : A -> bool) (l : list A) : Z :=
  len (filter p l).

Definition field_stats_of (heuristic_candidates field_candidates
                             : list Candidate.t) (llm_used : bool)
  : FieldStats.t :=
  FieldStats.make
    (len heuristic_candidates) llm_used
    (count_if (fun c => negb (nonempty (Candidate.rejected_reasons c)))
              field_candidates)
    (count_if (fun c => nonempty (Candidate.rejected_reasons c))
              field_candidates).

Section Orchestrator.

(** The heuristic extractor and the generator client are the orchestrator's
    collaborators.  The extractor is a function of the field and the routed
    documents that returns candidates or raises; the client is an object
    with a state of its own whose [extract_candidates] returns candidates or
    raises.  In this section the candidates are values: each candidate
    handed over is an object of its own. *)
Variable heuristic_candidates_for_field :
  FieldSpec.t -> list LayoutDoc.t -> result (list Candidate.t).
Variable Client : Type.
Variable llm_extract_candidates :
  Client -> FieldSpec.t -> list DocExcerpt.t -> RunOptions.t
  -> result (list Candidate.t) * Client.

(** What a run changes: the trace file, the client, and the artifact
    [candidates.json]; [llm_calls] records every invocation of the client. *)
Record RunState : Type := mkRunState {
  trace : list TraceEvent.t;
  client : Client;
  llm_calls : list LlmCall.t;
  candidates_json : option (list Candidate.t)
}.

Definition initial_state (c : Client) : RunState := mkRunState [] c [] None.

Definition trace_append (s : RunState) (event : TraceEvent.t) : RunState :=
  mkRunState (trace s ++ [event]) (client s) (llm_calls s) (candidates_json s).

Definition write_candidates_json (s : RunState) (data : list Candidate.t)
  : RunState :=
  mkRunState (trace s) (client s) (llm_calls s) (Some data).

Variable run_id : str.
Variable run_options : RunOptions.t.
Variable layout : list LayoutDoc.t.
Variable routing : list RoutingEntry.t.

Definition invoke_client (field : FieldSpec.t) (excerpts : list DocExcerpt.t)
    (s : RunState) : result (list Candidate.t) * RunState :=
  let '(outcome, c) :=
    llm_extract_candidates (client s) field excerpts run_options in
  (outcome,
   mkRunState (trace s) c
              (llm_calls s ++ [LlmCall.make field excerpts outcome])
              (candidates_json s)).

(** The LLM pass of one field: the [try] block, its
    [except LLMInvalidJSONError] handler and the trace event.  It returns the
    verified candidates to add to [field_candidates], or the exception that
    escapes. *)
Definition llm_pass (field : FieldSpec.t) (routed_docs : list LayoutDoc.t)
    (s : RunState) : result (list Candidate.t) * RunState :=
  let excerpts :=
    build_excerpts_for_field field DEFAULT_MAX_TOTAL_CHARS
      DEFAULT_MAX_CHARS_PER_DOC DEFAULT_MAX_PAGES_PER_DOC routed_docs in
  let '(outcome, s1) :=
    if nonempty excerpts then invoke_client field excerpts s
    else (Ok [], s) in
  match outcome with
  | Ok llm_candidates =>
      (Ok (map (apply_evidence_check field) llm_candidates),
       trace_append s1 (llm_event field None))
  | Raise (LLMInvalidJSONError f m) =>
      (Ok [],
       trace_append s1
         (llm_event field
            (Some (lit "LLMInvalidJSONError",
                   exn_str (LLMInvalidJSONError f m)))))
  | Raise e => (Raise e, s1)
  end.

(** One iteration of the loop over the fields: the candidates of the field
    and its statistics, or the exception that escapes. *)
Definition process_field (field : FieldSpec.t) (s : RunState)
  : result (list Candidate.t * FieldStats.t) * RunState :=
  let routed_docs := _get_routed_docs (FieldSpec.key field) routing layout in
  if negb (nonempty routed_docs)
  then (Ok ([], FieldStats.make 0 false 0 0), s)
  else
    match heuristic_candidates_for_field field routed_docs with
    | Raise e => (Raise e, s)
    | Ok heuristic_candidates =>
        let accepted_heuristic :=
          filter (evidence_supports_value field) heuristic_candidates in
        let field_candidates :=
          map (apply_evidence_check field) heuristic_candidates in
        let s := trace_append s (heuristic_event field) in
        if should_call_llm accepted_heuristic
        then
          match llm_pass field routed_docs s with
          | (Ok verified, s') =>
              let field_candidates := field_candidates ++ verified in
              (Ok (field_candidates,
                   field_stats_of heuristic_candidates field_candidates true),
               s')
          | (Raise e, s') => (Raise e, s')
          end
        else
          (Ok (field_candidates,
               field_stats_of heuristic_candidates field_candidates false),
           s)
    end.

Fixpoint fields_loop (fields : list FieldSpec.t)
    (all_candidates : list Candidate.t)
    (field_stats : list (str * FieldStats.t)) (s : RunState)
  : result (list Candidate.t * list (str * FieldStats.t)) * RunState :=
  match fields with
  | [] => (Ok (all_candidates, field_stats), s)
  | field :: rest =>
      match process_field field s with
      | (Ok (field_candidates, stats), s') =>
          fields_loop rest (all_candidates ++ field_candidates)
                      (dict_set field_stats (FieldSpec.key field) stats) s'
      | (Raise e, s') => (Raise e, s')
      end
  end.

Definition fields_to_process (schema : ResolvedSchema.t) : list FieldSpec.t :=
  slice_to (ResolvedSchema.resolved_fields schema)
           (RunOptions.max_fields run_options).

(** [extract_candidates_for_run], from the loaded artifacts. *)
Definition extract_candidates_for_run (schema : ResolvedSchema.t)
    (s : RunState) : result (list Candidate.t) * RunState :=
  match fields_loop (fields_to_process schema) [] [] s with
  | (Ok (all_candidates, _), s1) =>
      let all_candidates := _sort_candidates all_candidates in
      let s2 := write_candidates_json s1 all_candidates in
      let s3 := trace_append s2 (run_ok_event run_id) in
      (Ok all_candidates, s3)
  | (Raise exc, s1) => (Raise exc, trace_append s1 (run_error_event exc))
  end.

(** Where the candidates of a run come from: [c] is a heuristic candidate of
    [field], or a candidate the client returned for [field]. *)
Definition heuristic_source (field : FieldSpec.t) (c : Candidate.t) : Prop :=
  let routed_docs := _get_routed_docs (FieldSpec.key field) routing layout in
  routed_docs <> []
  /\ exists cs, heuristic_candidates_for_field field routed_docs = Ok cs
                /\ In c cs.

Definition llm_source (calls : list LlmCall.t) (field : FieldSpec.t)
    (c : Candidate.t) : Prop :=
  exists call cs, In call calls /\ LlmCall.field call = field
                  /\ LlmCall.outcome call = Ok cs /\ In c cs.

(** The record [call] is what the client answered to an invocation. *)
Definition client_call (call : LlmCall.t) : Prop :=
  exists c c',
    llm_extract_candidates c (LlmCall.field call) (LlmCall.excerpts call)
                           run_options
    = (LlmCall.outcome call, c').

(** What the LLM pass of a field does to the state and what it returns. *)
Inductive llm_pass_outcome (field : FieldSpec.t) (s : RunState)
  : result (list Candidate.t) -> RunState -> list LlmCall.t -> Prop :=
| pass_no_excerpts :
    llm_pass_outcome field s (Ok [])
      (trace_append s (llm_event field None)) []
| pass_returned excerpts cs c :
    excerpts <> [] ->
    llm_extract_candidates (client s) field excerpts run_options = (Ok cs, c) ->
    llm_pass_outcome field s (Ok (map (apply_evidence_check field) cs))
      (trace_append
         (mkRunState (trace s) c
            (llm_calls s ++ [LlmCall.make field excerpts (Ok cs)])
            (candidates_json s))
         (llm_event field None))
      [LlmCall.make field excerpts (Ok cs)]
| pass_invalid_json excerpts f m c :
    excerpts <> [] ->
    llm_extract_candidates (client s) field excerpts run_options
    = (Raise (LLMInvalidJSONError f m), c) ->
    llm_pass_outcome field s (Ok [])
      (trace_append
         (mkRunState (trace s) c
            (llm_calls s
             ++ [LlmCall.make field excerpts
                   (Raise (LLMInvalidJSONError f m))])
            (candidates_json s))
         (llm_event field
            (Some (lit "LLMInvalidJSONError",
                   exn_str (LLMInvalidJSONError f m)))))
      [LlmCall.make field excerpts (Raise (LLMInvalidJSONError f m))]
| pass_other_error excerpts e c :
    excerpts <> [] ->
    (forall f m, e <> LLMInvalidJSONError f m) ->
    llm_extract_candidates (client s) field excerpts run_options
    = (Raise e, c) ->
    llm_pass_outcome field s (Raise e)
      (mkRunState (trace s) c
         (llm_calls s ++ [LlmCall.make field excerpts (Raise e)])
         (candidates_json s))
      [LlmCall.make field excerpts (Raise e)].



End Orchestrator.


(* ===================================================================== *)
(** * Scores that are not numbers *)
(* ===================================================================== *)

(** A Python [float] is a number, an infinity or NaN.  The definitions
    above take a score to be a number; this section reads the validator of
    the scores and the escalation decision on every float.  The numbers
    are the rationals; a comparison with NaN is false and a product with
    NaN is NaN. *)
Module PyFloat.

Inductive t : Type :=
| Num (q : Q)
| Inf (negative : bool)
| NaN.

(** [a < b]. *)
Definition ltb (a b : t) : bool :=
  match a, b with
  | NaN, _ | _, NaN => false
  | Num x, Num y => Qltb x y
  | Num _, Inf negative => negb negative
  | Inf negative, Num _ => negative
  | Inf negative_a, Inf negative_b => negative_a && negb negative_b
  end.

(** [a > b]. *)
Definition gtb (a b : t) : bool := ltb b a.

(** [a * b]. *)
Definition mul (a b : t) : t :=
  match a, b with
  | NaN, _ | _, NaN => NaN
  | Num x, Num y => Num (x * y)
  | Num x, Inf negative | Inf negative, Num x =>
      if Qeq_bool x 0 then NaN else Inf (xorb negative (Qltb x 0))
  | Inf negative_a, Inf negative_b => Inf (xorb negative_a negative_b)
  end.

End PyFloat.

Module FloatScores.

(** [_validate_score_range] of [app/models.py], whose docstring is
    "Validate that a score is in [0, 1]":
    [if v < 0.0 or v > 1.0: raise ValueError(...)].  The message, which
    also shows the value, is cut after the range. *)
Definition _validate_score_range (v : PyFloat.t) (field_name : str)
  : result PyFloat.t :=
  if PyFloat.ltb v (PyFloat.Num 0) || PyFloat.gtb v (PyFloat.Num 1)
  then Raise (ValueError (field_name ++ lit " must be in [0, 1]"))
  else Ok v.

(** [0.45 * candidate.scores.anchor_match]: of a candidate the escalation
    decision reads its [anchor_match] only. *)
Definition _compute_provisional_confidence (anchor_match : PyFloat.t)
  : PyFloat.t :=
  PyFloat.mul (PyFloat.Num (45 # 100)) anchor_match.

(** [max(iterable)] on a non-empty sequence: the first element, replaced
    by each later element that is greater. *)
Definition py_max (l : list PyFloat.t) : PyFloat.t :=
  match l with
  | [] => PyFloat.Num 0
  | x :: rest =>
      fold_left (fun m y => if PyFloat.gtb y m then y else m) rest x
  end.

(** The decision [should_call_llm], from the [anchor_match] scores of the
    accepted heuristic candidates. *)
Definition should_call_llm (accepted_heuristic : list PyFloat.t) : bool :=
  if negb (nonempty accepted_heuristic) then true
  else
    let best_confidence :=
      py_max (map _compute_provisional_confidence accepted_heuristic) in
    PyFloat.ltb best_confidence (PyFloat.Num AUTOFILL_THRESHOLD).

(** The [anchor_match] of a candidate whose score is a number. *)
Definition anchor_of (c : Candidate.t) : PyFloat.t :=
  PyFloat.Num (CandidateScores.anchor_match (Candidate.scores c)).

End FloatScores.

(* ===================================================================== *)
(** * Notions used in the statements *)
(* ===================================================================== *)

(** A candidate as its constructor call leaves it: no rejection reason. *)
Definition fresh (c : Candidate.t) : Prop := Candidate.rejected_reasons c = [].

(** [m] is the greatest element of [l]. *)
Definition maximum_of (m : Q) (l : list Q) : Prop :=
  In m l /\ forall x, In x l -> (x <= m)%Q.

(** An [Evidence] that came out of its constructor. *)
Definition constructed_evidence (e : Evidence.t) : Prop :=
  exists doc_id page quoted_text,
    Evidence.new doc_id page quoted_text = Ok e.

(** A [Candidate] that came out of its constructor, with evidence items that
    came out of theirs. *)
Definition constructed_candidate (c : Candidate.t) : Prop :=
  exists field raw_value normalized_value evidence from_method validators
         rejected_reasons scores,
    Forall constructed_evidence evidence
    /\ Candidate.new field raw_value normalized_value evidence from_method
                     validators rejected_reasons scores = Ok c.

(** The invariant of the specification. *)
Definition evidence_invariant (e : Evidence.t) : Prop :=
  blank (Evidence.doc_id e) = false
  /\ blank (Evidence.quoted_text e) = false
  /\ 1 <= Evidence.page e.

Definition candidate_invariant (c : Candidate.t) : Prop :=
  Candidate.evidence c <> []
  /\ Forall evidence_invariant (Candidate.evidence c).

(* ===================================================================== *)
(** * A small run, used to instantiate the theorems *)
(* ===================================================================== *)

Module Sample.

Definition dob_field : FieldSpec.t := FieldSpec.make (lit "dob") None TDate.

Definition name_field : FieldSpec.t :=
  FieldSpec.make (lit "full_name") None TString.

Definition page1 : LayoutPageText.t :=
  LayoutPageText.make 1 (lit "Patient DOB: 1978-10-05").

Definition page2 : LayoutPageText.t :=
  LayoutPageText.make 2 (lit "Name: Jane Roe").

Definition doc : LayoutDoc.t := LayoutDoc.make (lit "doc_001") [page2; page1].

Definition layout : list LayoutDoc.t := [doc].

Definition routing : list RoutingEntry.t :=
  [ RoutingEntry.make (lit "dob") [lit "doc_001"];
    RoutingEntry.make (lit "full_name") [lit "doc_001"] ].

Definition schema : ResolvedSchema.t :=
  ResolvedSchema.make [dob_field; name_field].

Definition options : RunOptions.t := RunOptions.make 1200 7.

Definition run_id : str := lit "run-001".

Definition scores (anchor_match : Q) : CandidateScores.t :=
  CandidateScores.make anchor_match 0 0 0 0.

Definition dob_evidence : Evidence.t :=
  Evidence.make (lit "doc_001") 1 (lit "Patient DOB: 1978-10-05").

Definition name_evidence : Evidence.t :=
  Evidence.make (lit "doc_001") 2 (lit "Name: Jane Roe").

(** The heuristic candidate of the DOB scenario of the specification. *)
Definition dob_candidate : Candidate.t :=
  Candidate.make (lit "dob") (lit "1978-10-05") (lit "1978-10-05")
                 [dob_evidence] heuristic [] [] (scores 1).

(** Two generator candidates: one its evidence supports, one it does not. *)
Definition jane_candidate : Candidate.t :=
  Candidate.make (lit "full_name") (lit "Jane Roe") (lit "jane roe")
                 [name_evidence] llm [] [] (scores 1).

Definition john_candidate : Candidate.t :=
  Candidate.make (lit "full_name") (lit "John Doe") (lit "john doe")
                 [name_evidence] llm [] [] (scores 1).

(** A heuristic extractor that finds the DOB candidate and nothing else. *)
Definition heuristics (field : FieldSpec.t) (docs : list LayoutDoc.t)
  : result (list Candidate.t) :=
  if PyStr.eqb (FieldSpec.key field) (lit "dob") && nonempty docs
  then Ok [dob_candidate]
  else Ok [].

(** A generator client that counts its calls: the first fails with
    [LLMInvalidJSONError], the later ones return the two candidates. *)
Definition client (calls : nat) (field : FieldSpec.t)
    (excerpts : list DocExcerpt.t) (run_options : RunOptions.t)
  : result (list Candidate.t) * nat :=
  match calls with
  | O => (Raise (LLMInvalidJSONError (FieldSpec.key field)
                                     (lit "Invalid JSON")),
          1%nat)
  | S _ => (Ok [jane_candidate; john_candidate], S calls)
  end.

Definition run_result : result (list Candidate.t) * RunState nat :=
  extract_candidates_for_run heuristics client run_id options layout routing
                             schema (initial_state 0%nat).

Definition output : list Candidate.t :=
  match fst run_result with Ok out => out | Raise _ => [] end.


Definition parse (field : FieldSpec.t) (response : str)
  : result (list Candidate.t) :=
  if PyStr.eqb response (lit "[]") then Ok []
  else Raise (ValueError (lit "Invalid JSON")).

Definition extraction_prompt (field : FieldSpec.t)
    (excerpts : list DocExcerpt.t) : str :=
  lit "Extract " ++ FieldSpec.key field.

Definition retry_prompt (field : FieldSpec.t) (first_error : str) : str :=
  lit "Not valid JSON: " ++ first_error.

Definition excerpt : DocExcerpt.t :=
  DocExcerpt.make (lit "doc_001") 1 (lit "Patient DOB: 1978-10-05").

End Sample.


(* ===================================================================== *)
(** * app/heuristics.py: phone and date normalisation *)
(* ===================================================================== *)

Definition normalize_phone (raw : str) : str * bool :=
  let digits := extract_digits raw in
  if len digits =? 10 then (lit "1" ++ digits, true)
  else if (len digits =? 11) && startswith (lit "1") digits
       then (digits, false)
       else (digits, false).

(** The regular expressions of [normalize_date] are sequences of quantified
    character classes, some of them capturing groups: [\d{4}], [\d{1,2}],
    [[a-zA-Z]+], [\s*], [,?], [[-/]].  [BRe.match_items] is [re.match] on
    such a sequence, with the groups it captured: every quantifier is greedy
    and gives characters back, one at a time, when the rest of the pattern
    fails to match. *)
Module BRe.

Record item : Type := mk {
  cls : ascii -> bool;
  lo : nat;
  hi : option nat;
  group : bool
}.

(** The number of leading characters of [s] in the class. *)
Fixpoint count_prefix (p : ascii -> bool) (s : str) : nat :=
  match s with
  | [] => O
  | c :: rest => if p c then S (count_prefix p rest) else O
  end.

(** The most characters the item can take at the start of [s]. *)
Definition most (it : item) (s : str) : nat :=
  match hi it with
  | Some h => Nat.min h (count_prefix (cls it) s)
  | None => count_prefix (cls it) s
  end.

(** One quantified item in front of the rest of the pattern [continue]:
    try to take [n] characters, then [n - 1], ... down to [lo]. *)
Fixpoint give_back (it : item) (continue : str -> option (list str))
    (s : str) (n : nat) : option (list str) :=
  let here :=
    if (lo it <=? n)%nat
    then match continue (skipn n s) with
         | Some groups =>
             Some (if group it then firstn n s :: groups else groups)
         | None => None
         end
    else None in
  match here with
  | Some groups => Some groups
  | None => match n with
            | O => None
            | S n' => give_back it continue s n'
            end
  end.

Fixpoint match_items (pattern : list item) (s : str) : option (list str) :=
  match pattern with
  | [] => Some []
  | it :: rest => give_back it (match_items rest) s (most it s)
  end.

Definition isalpha_ascii (c : ascii) : bool :=
  in_range 65 90 c || in_range 97 122 c.

Definition is_date_sep (c : ascii) : bool :=
  eqb_char c "-"%char || eqb_char c "/"%char.

Definition is_comma (c : ascii) : bool := eqb_char c ","%char.

(** [(\d{4})], [(\d{1,2})], [([a-zA-Z]+)], [[-/]], [\s*], [\s+], [,?]. *)
Definition year4 : item := mk isdigit 4 (Some 4%nat) true.
Definition num12 : item := mk isdigit 1 (Some 2%nat) true.
Definition word : item := mk isalpha_ascii 1 None true.
Definition sep : item := mk is_date_sep 1 (Some 1%nat) false.
Definition spaces0 : item := mk isspace 0 None false.
Definition spaces1 : item := mk isspace 1 None false.
Definition comma_opt : item := mk is_comma 0 (Some 1%nat) false.

End BRe.

(** [f"{n:02d}"] for a non-negative int. *)
Definition format_02d (n : Z) : str :=
  let s := str_of_int n in
  if len s <? 2 then lit "0" ++ s else s.

(** The dict [months] of [normalize_date]. *)
Definition months : list (str * Z) :=
  [ (lit "january", 1); (lit "february", 2); (lit "march", 3);
    (lit "april", 4); (lit "may", 5); (lit "june", 6); (lit "july", 7);
    (lit "august", 8); (lit "september", 9); (lit "october", 10);
    (lit "november", 11); (lit "december", 12);
    (lit "jan", 1); (lit "feb", 2); (lit "mar", 3); (lit "apr", 4);
    (lit "jun", 6); (lit "jul", 7); (lit "aug", 8); (lit "sep", 9);
    (lit "oct", 10); (lit "nov", 11); (lit "dec", 12) ].

(** [months.get(name)]. *)
Fixpoint months_get (d : list (str * Z)) (name : str) : option Z :=
  match d with
  | [] => None
  | (k, v) :: d' => if PyStr.eqb k name then Some v else months_get d' name
  end.

(** [f"{year}-{int(month):02d}-{int(day):02d}"]. *)
Definition iso_date (year month day : str) : str :=
  year ++ lit "-" ++ format_02d (int_of_digits month)
       ++ lit "-" ++ format_02d (int_of_digits day).

(** [f"{year}-{month_num:02d}-{int(day):02d}"]. *)
Definition iso_date_named (year : str) (month_num : Z) (day : str) : str :=
  year ++ lit "-" ++ format_02d month_num
       ++ lit "-" ++ format_02d (int_of_digits day).

(** The two branches that look a month name up; [None] when the pattern
    does not match or the name is not a month ([if month_num:]). *)
Definition date_month_first (raw : str) : option str :=
  match BRe.match_items
          [BRe.word; BRe.spaces0; BRe.num12; BRe.comma_opt; BRe.spaces0;
           BRe.year4] raw with
  | Some [month_str; day; year] =>
      match months_get months (lower month_str) with
      | Some month_num =>
          if month_num =? 0 then None
          else Some (iso_date_named year month_num day)
      | None => None
      end
  | _ => None
  end.

Definition date_day_first (raw : str) : option str :=
  match BRe.match_items
          [BRe.num12; BRe.spaces1; BRe.word; BRe.spaces1; BRe.year4] raw with
  | Some [day; month_str; year] =>
      match months_get months (lower month_str) with
      | Some month_num =>
          if month_num =? 0 then None
          else Some (iso_date_named year month_num day)
      | None => None
      end
  | _ => None
  end.

Definition normalize_date (raw : str) : option str :=
  match BRe.match_items
          [BRe.year4; BRe.sep; BRe.num12; BRe.sep; BRe.num12] raw with
  | Some [year; month; day] => Some (iso_date year month day)
  | _ =>
      match BRe.match_items
              [BRe.num12; BRe.sep; BRe.num12; BRe.sep; BRe.year4] raw with
      | Some [month; day; year] => Some (iso_date year month day)
      | _ =>
          match date_month_first raw with
          | Some date => Some date
          | None => date_day_first raw
          end
      end
  end.

(** [_normalize_value_for_field] of [app/llm_client.py]. *)
Definition _normalize_value_for_field (field : FieldSpec.t) (raw_value : str)
  : str :=
  match FieldSpec.type field with
  | TDate =>
      match normalize_date raw_value with
      | Some normalized =>
          if nonempty normalized then normalized else normalize_text raw_value
      | None => normalize_text raw_value
      end
  | TPhone => fst (normalize_phone raw_value)
  | _ => normalize_text raw_value
  end.

(* ===================================================================== *)
(** * Notions for the normalisers *)
(* ===================================================================== *)

(** What a match of a pattern item looks like: characters of the class, at
    least [lo] and at most [hi] of them. *)
Definition piece_ok (it : BRe.item) (p : str) : Prop :=
  Forall (fun c => BRe.cls it c = true) p
  /\ (BRe.lo it <= length p)%nat
  /\ match BRe.hi it with
     | Some h => (length p <= h)%nat
     | None => True
     end.

(** The pieces the capturing items matched. *)
Fixpoint captures (pattern : list BRe.item) (pieces : list str) : list str :=
  match pattern, pieces with
  | it :: pattern', p :: pieces' =>
      if BRe.group it then p :: captures pattern' pieces'
      else captures pattern' pieces'
  | _, _ => []
  end.

(** One or two decimal digits. *)
Definition digits_1_2 (s : str) : Prop :=
  (1 <= length s <= 2)%nat /\ Forall (fun c => isdigit c = true) s.


(** The month and the day a numeric date is written with, as the first two
    patterns of [normalize_date] capture them. *)
Definition numeric_month_day (raw : str) : option (str * str) :=
  match BRe.match_items
          [BRe.year4; BRe.sep; BRe.num12; BRe.sep; BRe.num12] raw with
  | Some [_; month; day] => Some (month, day)
  | _ =>
      match BRe.match_items
              [BRe.num12; BRe.sep; BRe.num12; BRe.sep; BRe.year4] raw with
      | Some [month; day; _] => Some (month, day)
      | _ => None
      end
  end.

(** Two digits, the first of them a zero. *)
Definition zero_padded (s : str) : bool :=
  (len s =? 2) && startswith (lit "0") s.

(** A numeric date one of whose month and day is a single digit while the
    other is written with a leading zero, as in 1978-1-05. *)
Definition mixed_padding (raw : str) : bool :=
  match numeric_month_day raw with
  | Some (month, day) =>
      ((len month =? 1) && zero_padded day)
      || (zero_padded month && (len day =? 1))
  | None => false
  end.

(** The characters of a normalised text: lower case, kept by the
    punctuation filter, and a space if whitespace at all. *)
Definition normal_char (c : ascii) : Prop :=
  lower_char c = c /\ keeps c = true /\ (isspace c = true -> c = " "%char).

(** Two whitespace characters next to each other somewhere in [s]. *)
Fixpoint adjacent_spaces (s : str) : bool :=
  match s with
  | a :: (b :: _) as rest => (isspace a && isspace b) || adjacent_spaces rest
  | _ => false
  end.


(* ===================================================================== *)
(** * Notions for the run as a whole *)
(* ===================================================================== *)

(** The trace events of the per-field steps. *)
Definition is_field_event (event : TraceEvent.t) : Prop :=
  exists field,
    event = heuristic_event field \/ exists err, event = llm_event field err.

(** From [s] to [s'] the artifact is untouched, the trace grew by per-field
    events, and the client was invoked as [calls] says. *)
Definition effect {Client : Type} (s s' : RunState Client)
    (calls : list LlmCall.t) : Prop :=
  candidates_json s' = candidates_json s
  /\ (exists events,
         trace s' = trace s ++ events /\ Forall is_field_event events)
  /\ llm_calls s' = llm_calls s ++ calls.

Section RunNotions.

Variable heuristic_candidates_for_field :
  FieldSpec.t -> list LayoutDoc.t -> result (list Candidate.t).
Variable layout : list LayoutDoc.t.
Variable routing : list RoutingEntry.t.

(** The excerpts the orchestrator builds for a field. *)
Definition excerpts_for (field : FieldSpec.t) : list DocExcerpt.t :=
  build_excerpts_for_field field DEFAULT_MAX_TOTAL_CHARS
    DEFAULT_MAX_CHARS_PER_DOC DEFAULT_MAX_PAGES_PER_DOC
    (_get_routed_docs (FieldSpec.key field) routing layout).

(** The fields the generator client is invoked for: documents are routed to
    the field, the heuristic pass returned, its accepted candidates do not
    reach the threshold, and there are excerpts to show. *)
Definition needs_generator (field : FieldSpec.t) : bool :=
  let routed_docs := _get_routed_docs (FieldSpec.key field) routing layout in
  nonempty routed_docs
  && match heuristic_candidates_for_field field routed_docs with
     | Ok heuristic_candidates =>
         should_call_llm
           (filter (evidence_supports_value field) heuristic_candidates)
         && nonempty (excerpts_for field)
     | Raise _ => false
     end.

End RunNotions.

(** The rule of [evidence_supports_value] for a field type, on the value
    and the quoted texts. *)
Definition supports_by_type (type : FieldType) (normalized_value : str)
    (evidence_texts : list str) : bool :=
  match type with
  | TDate => _evidence_supports_date normalized_value evidence_texts
  | TPhone => _evidence_supports_phone normalized_value evidence_texts
  | TStringOrList => _evidence_supports_list normalized_value evidence_texts
  | TString => _evidence_supports_string normalized_value evidence_texts
  end.

(** The layout has a document with this id. *)
Definition in_layout (layout : list LayoutDoc.t) (doc_id : str) : bool :=
  existsb (fun doc => PyStr.eqb (LayoutDoc.doc_id doc) doc_id) layout.

(** The candidate has the sort key [k]. *)
Definition has_key (k : sort_key) (c : Candidate.t) : bool :=
  match key_compare (candidate_key c) k with Eq => true | _ => false end.


(* ===================================================================== *)
(** * app/heuristics.py: the line of a match *)
(* ===================================================================== *)

(** Position of the first and of the last occurrence of a character. *)
Fixpoint index_of (c : ascii) (s : str) : option nat :=
  match s with
  | [] => None
  | x :: rest =>
      if eqb_char x c then Some O else option_map S (index_of c rest)
  end.

Fixpoint rindex_of (c : ascii) (s : str) : option nat :=
  match s with
  | [] => None
  | x :: rest =>
      match rindex_of c rest with
      | Some i => Some (S i)
      | None => if eqb_char x c then Some O else None
      end
  end.

(** [text.find(c, start)] and [text.rfind(c, 0, stop)] for a one-character
    string [c] and positions that are not negative: the index found,
    or -1. *)
Definition str_find (c : ascii) (text : str) (start : nat) : Z :=
  match index_of c (skipn start text) with
  | Some i => Z.of_nat (start + i)
  | None => -1
  end.

Definition str_rfind (c : ascii) (text : str) (stop : nat) : Z :=
  match rindex_of c (firstn stop text) with
  | Some i => Z.of_nat i
  | None => -1
  end.

(** [text[a:b]] for [a] and [b] that are not negative. *)
Definition slice (text : str) (a b : Z) : str :=
  firstn (Z.to_nat (b - a)) (skipn (Z.to_nat a) text).

Definition newline : ascii := ascii_of_nat 10.

(** [_find_line_containing(text, match_start)]; [match_start] is the start
    of a regex match, a position in the text. *)
Definition _find_line_containing (text : str) (match_start : nat) : str :=
  let line_start := str_rfind newline text match_start in
  let line_start := if line_start =? -1 then 0 else line_start + 1 in
  let line_end := str_find newline text match_start in
  let line_end := if line_end =? -1 then len text else line_end in
  strip (slice text line_start line_end).


(* ===================================================================== *)
(** * The orchestrator on candidate objects *)
(* ===================================================================== *)

(** A [Candidate] is an object.  The verification loops append to the
    [rejected_reasons] list of the very object they were handed, and
    whoever else holds that object (the client that returned it, a list
    that contains it twice) sees the change.  The run above passes
    candidates by value and cannot show an object that is handed over more
    than once; the run of this section keeps the objects apart from their
    contents, and for a client that does not read them it agrees with the
    run above when no object goes through a verification loop twice.

    [Ref] is the identity of a candidate object and a [Store] gives every
    object its present contents; an object that is built during the run
    has, until it is handed over, the contents it is built with.  The
    extractor and the client hand over objects, and which objects they
    hand over may depend on what they did before: the extractor, a
    function of the module [heuristics], builds new objects at every call,
    and a client may keep the objects it has returned and return them
    again.  So each has a state of its own, and the client can read the
    store; the only writes to the store are the orchestrator's. *)
Module Obj.

Definition Ref : Type := nat.

Definition Store : Type := Ref -> Candidate.t.

Definition store_set (h : Store) (r : Ref) (c : Candidate.t) : Store :=
  fun r' => if Nat.eqb r' r then c else h r'.

(** [candidate.rejected_reasons.append(reason)]. *)
Definition append_in_place (h : Store) (candidate : Ref) (reason : str)
  : Store :=
  store_set h candidate (Candidate.append_rejected_reason (h candidate) reason).

(** The loop over the heuristic candidates:
    [if not evidence_supports_value(field, candidate):
         candidate.rejected_reasons.append("unsupported_by_evidence")
     else:
         accepted_heuristic.append(candidate)].
    It returns [accepted_heuristic] and the store it leaves. *)
Fixpoint check_heuristic_candidates (field : FieldSpec.t)
    (heuristic_candidates : list Ref) (h : Store) : list Ref * Store :=
  match heuristic_candidates with
  | [] => ([], h)
  | candidate :: rest =>
      if negb (evidence_supports_value field (h candidate))
      then check_heuristic_candidates field rest
             (append_in_place h candidate UNSUPPORTED_BY_EVIDENCE)
      else
        let '(accepted_heuristic, h') :=
          check_heuristic_candidates field rest h in
        (candidate :: accepted_heuristic, h')
  end.

(** The loop over the candidates of the client:
    [if not evidence_supports_value(field, candidate):
         candidate.rejected_reasons.append("unsupported_by_evidence")]. *)
Fixpoint check_llm_candidates (field : FieldSpec.t)
    (llm_candidates : list Ref) (h : Store) : Store :=
  match llm_candidates with
  | [] => h
  | candidate :: rest =>
      check_llm_candidates field rest
        (if negb (evidence_supports_value field (h candidate))
         then append_in_place h candidate UNSUPPORTED_BY_EVIDENCE
         else h)
  end.

(** One call of the heuristic extractor, with the objects it returned. *)
Module HeuristicCall.
Record t : Type := make {
  field : FieldSpec.t;
  docs : list LayoutDoc.t;
  outcome : result (list Ref)
}.
End HeuristicCall.

(** One invocation of the generator client, with the objects it
    returned. *)
Module Call.
Record t : Type := make {
  field : FieldSpec.t;
  excerpts : list DocExcerpt.t;
  outcome : result (list Ref)
}.
End Call.

(** A client that does not look at the objects. *)
Definition blind {Client : Type}
    (extract_candidates :
       Client -> FieldSpec.t -> list DocExcerpt.t -> RunOptions.t
       -> result (list Ref) * Client)
  : Client -> Store -> FieldSpec.t -> list DocExcerpt.t -> RunOptions.t
    -> result (list Ref) * Client :=
  fun c _ => extract_candidates c.

(** An extractor without a state: it hands over the same objects whenever
    it is called with the same field and documents. *)
Definition stateless
    (heuristic_candidates_for_field :
       FieldSpec.t -> list LayoutDoc.t -> result (list Ref))
  : unit -> FieldSpec.t -> list LayoutDoc.t -> result (list Ref) * unit :=
  fun e field docs => (heuristic_candidates_for_field field docs, e).

Section Run.

Variable Extractor : Type.
Variable heuristic_candidates_for_field :
  Extractor -> FieldSpec.t -> list LayoutDoc.t
  -> result (list Ref) * Extractor.
Variable Client : Type.
Variable llm_extract_candidates :
  Client -> Store -> FieldSpec.t -> list DocExcerpt.t -> RunOptions.t
  -> result (list Ref) * Client.

(** What a run changes: the trace file, the extractor, the client, the
    candidate objects and the artifact [candidates.json].
    [heuristic_calls] and [llm_calls] record every call of the extractor
    and of the client, and [handed_over] every candidate a verification
    loop went through, with the field of the loop, in the order of the
    run. *)
Record RunState : Type := mkRunState {
  trace : list TraceEvent.t;
  extractor : Extractor;
  client : Client;
  store : Store;
  candidates_json : option (list Candidate.t);
  heuristic_calls : list HeuristicCall.t;
  llm_calls : list Call.t;
  handed_over : list (FieldSpec.t * Ref)
}.

Definition initial_state (e : Extractor) (c : Client) (h : Store)
  : RunState :=
  mkRunState [] e c h None [] [] [].

Definition trace_append (s : RunState) (event : TraceEvent.t) : RunState :=
  mkRunState (trace s ++ [event]) (extractor s) (client s) (store s)
             (candidates_json s) (heuristic_calls s) (llm_calls s)
             (handed_over s).

Definition write_candidates_json (s : RunState) (data : list Candidate.t)
  : RunState :=
  mkRunState (trace s) (extractor s) (client s) (store s) (Some data)
             (heuristic_calls s) (llm_calls s) (handed_over s).

(** The state after a verification loop over [candidates] that left the
    store [h]. *)
Definition checked (s : RunState) (field : FieldSpec.t)
    (candidates : list Ref) (h : Store) : RunState :=
  mkRunState (trace s) (extractor s) (client s) h (candidates_json s)
             (heuristic_calls s) (llm_calls s)
             (handed_over s ++ map (pair field) candidates).

Variable run_id : str.
Variable run_options : RunOptions.t.
Variable layout : list LayoutDoc.t.
Variable routing : list RoutingEntry.t.

Definition invoke_extractor (field : FieldSpec.t)
    (routed_docs : list LayoutDoc.t) (s : RunState)
  : result (list Ref) * RunState :=
  let '(outcome, e) :=
    heuristic_candidates_for_field (extractor s) field routed_docs in
  (outcome,
   mkRunState (trace s) e (client s) (store s) (candidates_json s)
              (heuristic_calls s
               ++ [HeuristicCall.make field routed_docs outcome])
              (llm_calls s) (handed_over s)).

Definition invoke_client (field : FieldSpec.t) (excerpts : list DocExcerpt.t)
    (s : RunState) : result (list Ref) * RunState :=
  let '(outcome, c) :=
    llm_extract_candidates (client s) (store s) field excerpts run_options in
  (outcome,
   mkRunState (trace s) (extractor s) c (store s) (candidates_json s)
              (heuristic_calls s)
              (llm_calls s ++ [Call.make field excerpts outcome])
              (handed_over s)).

(** The LLM pass of one field.  It returns the candidates to add to
    [field_candidates], or the exception that escapes. *)
Definition llm_pass (field : FieldSpec.t) (routed_docs : list LayoutDoc.t)
    (s : RunState) : result (list Ref) * RunState :=
  let excerpts :=
    build_excerpts_for_field field DEFAULT_MAX_TOTAL_CHARS
      DEFAULT_MAX_CHARS_PER_DOC DEFAULT_MAX_PAGES_PER_DOC routed_docs in
  let '(outcome, s1) :=
    if nonempty excerpts then invoke_client field excerpts s
    else (Ok [], s) in
  match outcome with
  | Ok llm_candidates =>
      let s2 :=
        checked s1 field llm_candidates
                (check_llm_candidates field llm_candidates (store s1)) in
      (Ok llm_candidates, trace_append s2 (llm_event field None))
  | Raise (LLMInvalidJSONError f m) =>
      (Ok [],
       trace_append s1
         (llm_event field
            (Some (lit "LLMInvalidJSONError",
                   exn_str (LLMInvalidJSONError f m)))))
  | Raise e => (Raise e, s1)
  end.

(** The statistics of a field, from the objects as they are when the field
    is done. *)
Definition stats_of (s : RunState) (heuristic_candidates
                                      field_candidates : list Ref)
    (llm_used : bool) : FieldStats.t :=
  field_stats_of (map (store s) heuristic_candidates)
                 (map (store s) field_candidates) llm_used.

(** What follows the heuristic pass of a field that returned
    [heuristic_candidates]. *)
Definition after_heuristics (field : FieldSpec.t)
    (routed_docs : list LayoutDoc.t) (heuristic_candidates : list Ref)
    (s : RunState) : result (list Ref * FieldStats.t) * RunState :=
  let '(accepted_heuristic, h) :=
    check_heuristic_candidates field heuristic_candidates (store s) in
  let s := checked s field heuristic_candidates h in
  let field_candidates := heuristic_candidates in
  let s := trace_append s (heuristic_event field) in
  if should_call_llm (map (store s) accepted_heuristic)
  then
    match llm_pass field routed_docs s with
    | (Ok llm_candidates, s') =>
        let field_candidates := field_candidates ++ llm_candidates in
        (Ok (field_candidates,
             stats_of s' heuristic_candidates field_candidates true),
         s')
    | (Raise e, s') => (Raise e, s')
    end
  else
    (Ok (field_candidates,
         stats_of s heuristic_candidates field_candidates false),
     s).

(** One iteration of the loop over the fields. *)
Definition process_field (field : FieldSpec.t) (s : RunState)
  : result (list Ref * FieldStats.t) * RunState :=
  let routed_docs := _get_routed_docs (FieldSpec.key field) routing layout in
  if negb (nonempty routed_docs)
  then (Ok ([], FieldStats.make 0 false 0 0), s)
  else
    match invoke_extractor field routed_docs s with
    | (Raise e, s) => (Raise e, s)
    | (Ok heuristic_candidates, s) =>
        after_heuristics field routed_docs heuristic_candidates s
    end.

Fixpoint fields_loop (fields : list FieldSpec.t) (all_candidates : list Ref)
    (field_stats : list (str * FieldStats.t)) (s : RunState)
  : result (list Ref * list (str * FieldStats.t)) * RunState :=
  match fields with
  | [] => (Ok (all_candidates, field_stats), s)
  | field :: rest =>
      match process_field field s with
      | (Ok (field_candidates, stats), s') =>
          fields_loop rest (all_candidates ++ field_candidates)
                      (dict_set field_stats (FieldSpec.key field) stats) s'
      | (Raise e, s') => (Raise e, s')
      end
  end.

(** [_sort_candidates(all_candidates)]: the keys are read from the
    objects. *)
Definition _sort_candidates (h : Store) (candidates : list Ref) : list Ref :=
  sorted_by (fun c => candidate_key (h c)) key_ltb candidates.

(** [extract_candidates_for_run], from the loaded artifacts: it returns
    the candidate objects, and [candidates.json] holds their contents at
    the end of the run. *)
Definition extract_candidates_for_run (schema : ResolvedSchema.t)
    (s : RunState) : result (list Ref) * RunState :=
  match fields_loop (fields_to_process run_options schema) [] [] s with
  | (Ok (all_candidates, _), s1) =>
      let all_candidates := _sort_candidates (store s1) all_candidates in
      let candidates_data := map (store s1) all_candidates in
      let s2 := write_candidates_json s1 candidates_data in
      let s3 := trace_append s2 (run_ok_event run_id) in
      (Ok all_candidates, s3)
  | (Raise exc, s1) => (Raise exc, trace_append s1 (run_error_event exc))
  end.

(** [threaded c calls c']: [calls] is a sequence of invocations of the
    client that starts in state [c], each invocation made on the state the
    one before it left, and ends in state [c']. *)
Inductive threaded : Client -> list Call.t -> Client -> Prop :=
| threaded_nil c : threaded c [] c
| threaded_cons c h call c' calls c'' :
    llm_extract_candidates c h (Call.field call) (Call.excerpts call)
                           run_options
    = (Call.outcome call, c') ->
    threaded c' calls c'' ->
    threaded c (call :: calls) c''.

End Run.

(** Where the candidate objects of a run come from: a call of the
    extractor for [field] handed [c] over, or an invocation of the client
    for [field] did. *)
Definition heuristic_source (calls : list HeuristicCall.t)
    (field : FieldSpec.t) (c : Ref) : Prop :=
  exists call cs, In call calls /\ HeuristicCall.field call = field
                  /\ HeuristicCall.outcome call = Ok cs /\ In c cs.

Definition llm_source (calls : list Call.t) (field : FieldSpec.t) (c : Ref)
  : Prop :=
  exists call cs, In call calls /\ Call.field call = field
                  /\ Call.outcome call = Ok cs /\ In c cs.

(** [h] is what the verification loops recorded in [log] make of the
    objects [h0] when every object is gone through once: an object a loop
    went through for a field holds the result of the evidence check for
    that field, and every other object is untouched. *)
Definition checked_once (h0 h : Store) (log : list (FieldSpec.t * Ref))
  : Prop :=
  (forall field c, In (field, c) log ->
                   h c = apply_evidence_check field (h0 c))
  /\ (forall c, ~ In c (map snd log) -> h c = h0 c).

End Obj.

(** A run on three candidate objects, each handed over once: the
    candidates of [Sample]. *)
Module SampleObjects.

Definition objects : Obj.Store :=
  fun c =>
    match c with
    | O => Sample.dob_candidate
    | S O => Sample.jane_candidate
    | _ => Sample.john_candidate
    end.

Definition heuristics (field : FieldSpec.t) (docs : list LayoutDoc.t)
  : result (list Obj.Ref) :=
  if PyStr.eqb (FieldSpec.key field) (lit "dob") && nonempty docs
  then Ok [0%nat]
  else Ok [].

(** The first call fails with [LLMInvalidJSONError], the later ones return
    the objects 1 and 2. *)
Definition client (calls : nat) (h : Obj.Store) (field : FieldSpec.t)
    (excerpts : list DocExcerpt.t) (run_options : RunOptions.t)
  : result (list Obj.Ref) * nat :=
  match calls with
  | O => (Raise (LLMInvalidJSONError (FieldSpec.key field)
                                     (lit "Invalid JSON")),
          1%nat)
  | S _ => (Ok [1%nat; 2%nat], S calls)
  end.

Definition run_result : result (list Obj.Ref) * Obj.RunState unit nat :=
  Obj.extract_candidates_for_run (Obj.stateless heuristics) client
    Sample.run_id Sample.options Sample.layout Sample.routing Sample.schema
    (Obj.initial_state tt 0%nat objects).

End SampleObjects.

(* ===================================================================== *)
(** * app/llm_client.py: [FakeLLMClient] *)
(* ===================================================================== *)

(** The test double: a queue of scripted responses, each a list of
    candidates or an exception to raise, and the record of the calls made.
    [set_responses] copies the list of responses, not the responses: what
    the client returns are the candidate objects the test put in the
    queue. *)
Module FakeLLMClient.

Record t : Type := make {
  _responses : list (result (list Obj.Ref));
  _calls : list (FieldSpec.t * list DocExcerpt.t)
}.

Definition init : t := make [] [].

Definition set_responses (self : t)
    (responses : list (result (list Obj.Ref))) : t :=
  make responses (_calls self).

Definition get_calls (self : t) : list (FieldSpec.t * list DocExcerpt.t) :=
  _calls self.

Definition extract_candidates (self : t) (field : FieldSpec.t)
    (excerpts : list DocExcerpt.t) (run_options : RunOptions.t)
  : result (list Obj.Ref) * t :=
  let self := make (_responses self) (_calls self ++ [(field, excerpts)]) in
  match _responses self with
  | [] => (Ok [], self)
  | response :: rest => (response, make rest (_calls self))
  end.

End FakeLLMClient.

(** The [n] answers a fake client with the queue [responses] gives to its
    next [n] calls: the queue in order, then empty lists. *)
Fixpoint scripted_answers (responses : list (result (list Obj.Ref)))
    (n : nat) : list (result (list Obj.Ref)) :=
  match n with
  | O => []
  | S n' =>
      match responses with
      | [] => Ok [] :: scripted_answers [] n'
      | response :: rest => response :: scripted_answers rest n'
      end
  end.


(** Two runs with the test double in which a candidate object meets a
    verification loop in a way the run by value cannot show: an object the
    client returns twice, and an object that carries a rejection reason
    when the client returns it. *)
Module SharedObject.

Definition phone_field : FieldSpec.t :=
  FieldSpec.make (lit "phone") None TPhone.

Definition page : LayoutPageText.t :=
  LayoutPageText.make 1 (lit "Phone: 555-123-4567").

Definition doc : LayoutDoc.t := LayoutDoc.make (lit "doc_001") [page].

Definition layout : list LayoutDoc.t := [doc].

Definition routing : list RoutingEntry.t :=
  [ RoutingEntry.make (lit "phone") [lit "doc_001"];
    RoutingEntry.make (lit "full_name") [lit "doc_001"] ].

Definition phone_evidence : Evidence.t :=
  Evidence.make (lit "doc_001") 1 (lit "Phone: 555-123-4567").

(** A phone candidate its evidence supports. *)
Definition phone_candidate : Candidate.t :=
  Candidate.make (lit "phone") (lit "555-123-4567") (lit "5551234567")
                 [phone_evidence] llm [] [] (Sample.scores 1).

Definition heuristics (field : FieldSpec.t) (docs : list LayoutDoc.t)
  : result (list Obj.Ref) := Ok [].

(** [shared = Candidate(...); client.set_responses([[shared], [shared]])],
    and a schema with the phone field and then the name field. *)
Definition objects : Obj.Store := fun _ => phone_candidate.

Definition fake : FakeLLMClient.t :=
  FakeLLMClient.set_responses FakeLLMClient.init [Ok [0%nat]; Ok [0%nat]].

Definition schema : ResolvedSchema.t :=
  ResolvedSchema.make [phone_field; Sample.name_field].

Definition run_result
  : result (list Obj.Ref) * Obj.RunState unit FakeLLMClient.t :=
  Obj.extract_candidates_for_run (Obj.stateless heuristics)
    (Obj.blind FakeLLMClient.extract_candidates) Sample.run_id
    Sample.options layout routing schema
    (Obj.initial_state tt fake objects).

(** [client.set_responses([[Candidate(..., rejected_reasons=["stale"])]])],
    and a schema with the phone field only. *)
Definition stale_objects : Obj.Store :=
  fun _ => Candidate.append_rejected_reason phone_candidate (lit "stale").

Definition stale_fake : FakeLLMClient.t :=
  FakeLLMClient.set_responses FakeLLMClient.init [Ok [0%nat]].

Definition stale_run_result
  : result (list Obj.Ref) * Obj.RunState unit FakeLLMClient.t :=
  Obj.extract_candidates_for_run (Obj.stateless heuristics)
    (Obj.blind FakeLLMClient.extract_candidates) Sample.run_id
    Sample.options layout routing (ResolvedSchema.make [phone_field])
    (Obj.initial_state tt stale_fake stale_objects).

End SharedObject.

(* ===================================================================== *)
(** * The run by value and the run on objects *)
(* ===================================================================== *)

(** What a call that hands over objects hands over by value, the objects
    being as [h] has them. *)
Definition deref (h : Obj.Store) (r : result (list Obj.Ref))
  : result (list Candidate.t) :=
  match r with
  | Ok cs => Ok (map h cs)
  | Raise e => Raise e
  end.

Definition client_by_value {Client : Type} (h : Obj.Store)
    (llm_extract_candidates :
       Client -> FieldSpec.t -> list DocExcerpt.t -> RunOptions.t
       -> result (list Obj.Ref) * Client)
  : Client -> FieldSpec.t -> list DocExcerpt.t -> RunOptions.t
    -> result (list Candidate.t) * Client :=
  fun c field excerpts options =>
    let '(r, c') := llm_extract_candidates c field excerpts options in
    (deref h r, c').

Definition call_by_value (h : Obj.Store) (call : Obj.Call.t) : LlmCall.t :=
  LlmCall.make (Obj.Call.field call) (Obj.Call.excerpts call)
               (deref h (Obj.Call.outcome call)).

(** The state of a run on objects and the state of a run by value show
    the same trace, client, artifact and calls. *)
Definition same_run {Extractor Client : Type} (h : Obj.Store)
    (s_obj : Obj.RunState Extractor Client) (s_val : RunState Client)
  : Prop :=
  trace s_val = Obj.trace s_obj
  /\ client s_val = Obj.client s_obj
  /\ candidates_json s_val = Obj.candidates_json s_obj
  /\ llm_calls s_val = map (call_by_value h) (Obj.llm_calls s_obj).

(** The candidate a verification loop leaves for a logged handover. *)
Definition checked_value (h : Obj.Store) (entry : FieldSpec.t * Obj.Ref)
  : Candidate.t :=
  apply_evidence_check (fst entry) (h (snd entry)).

(* ===================================================================== *)
(** * [ApiLLMClient] as the orchestrator's client *)
(* ===================================================================== *)

(** [ApiLLMClient._call_api] as the class ships it: it raises
    [NotImplementedError] (tests replace the method). *)
Definition NOT_IMPLEMENTED : exn :=
  OtherError (lit "NotImplementedError")
    (lit "API calls not implemented. Use a mock/fake for testing.").

Definition _call_api_unpatched {World : Type} (messages : list Message.t)
    (max_tokens : Z) (w : World) : api_outcome * World :=
  (ApiRaise NOT_IMPLEMENTED, w).

Section ApiClient.

Variable World : Type.
Variable _call_api : list Message.t -> Z -> World -> api_outcome * World.
Variable _parse_llm_response : FieldSpec.t -> str -> result (list Candidate.t).
Variable _build_extraction_prompt : FieldSpec.t -> list DocExcerpt.t -> str.
Variable _build_retry_prompt : FieldSpec.t -> str -> str.

(** [llm_client.extract_candidates(field, excerpts, run_options=...)] for
    an [ApiLLMClient]: the state the orchestrator threads is the outside
    world of the transport. *)
Definition api_client (w : World) (field : FieldSpec.t)
    (excerpts : list DocExcerpt.t) (run_options : RunOptions.t)
  : result (list Candidate.t) * World :=
  let '(outcome, w', _) :=
    extract_candidates _call_api _parse_llm_response
      _build_extraction_prompt _build_retry_prompt
      field excerpts run_options w in
  (outcome, w').

End ApiClient.


(* ===================================================================== *)
(** * app/schema_resolver.py: ordering and capping the fields *)
(* ===================================================================== *)

Definition FIELD_ORDER : list str :=
  [ lit "full_name"; lit "dob"; lit "phone"; lit "address";
    lit "insurance_member_id"; lit "allergies"; lit "medications" ].

(** [field_map = {f.key: f for f in fields}] followed by a lookup: of
    several fields with one key the last one stays in the dict. *)
Definition field_map_get (fields : list FieldSpec.t) (key : str)
  : option FieldSpec.t :=
  find (fun f => PyStr.eqb (FieldSpec.key f) key) (rev fields).

(** The loop over a list of keys that collects the fields present. *)
Definition ordered_by (keys : list str) (fields : list FieldSpec.t)
  : list FieldSpec.t :=
  flat_map (fun key =>
              match field_map_get fields key with
              | Some f => [f]
              | None => []
              end) keys.

Definition _order_and_cap_fields (fields : list FieldSpec.t) (max_fields : Z)
  : list FieldSpec.t :=
  slice_to (ordered_by FIELD_ORDER fields) max_fields.

(** Some field has this key. *)
Definition has_field (fields : list FieldSpec.t) (key : str) : bool :=
  existsb (fun f => PyStr.eqb (FieldSpec.key f) key) fields.

(** [l] is [keys] with some elements left out. *)
Inductive picked_from : list str -> list str -> Prop :=
| picked_from_nil keys : picked_from [] keys
| picked_from_take k l keys :
    picked_from l keys -> picked_from (k :: l) (k :: keys)
| picked_from_skip k l keys :
    picked_from l keys -> picked_from l (k :: keys).


(* ===================================================================== *)
(** * app/routing.py *)
(* ===================================================================== *)

(** [DocIndexItem], with the fields routing reads. *)
Module DocIndexItem.
Record t : Type := make {
  doc_id : str;
  has_text_layer : bool;
  unreadable_reason : option str
}.
End DocIndexItem.

Definition N_CHARS : Z := 20000.

(** [re.sub(r"[^a-z0-9]", " ", text)]. *)
Definition is_token_char (c : ascii) : bool :=
  in_range 97 122 c || in_range 48 57 c.

Definition blank_non_tokens (text : str) : str :=
  map (fun c => if is_token_char c then c else " "%char) text.

(** [text.split()]: the maximal runs of characters that are not
    whitespace; [current] is the run being read. *)
Fixpoint split_whitespace_from (current : str) (text : str) : list str :=
  match text with
  | [] => if nonempty current then [current] else []
  | c :: rest =>
      if isspace c
      then (if nonempty current
            then current :: split_whitespace_from [] rest
            else split_whitespace_from [] rest)
      else split_whitespace_from (current ++ [c]) rest
  end.

Definition split_whitespace (text : str) : list str :=
  split_whitespace_from [] text.

(** A set of strings, as a list without repetition. *)
Definition mem (t : str) (s : list str) : bool := existsb (PyStr.eqb t) s.

Fixpoint to_set (l : list str) : list str :=
  match l with
  | [] => []
  | x :: rest => if mem x rest then to_set rest else x :: to_set rest
  end.

Definition tokenize (text : str) : list str :=
  let text := lower text in
  let text := blank_non_tokens text in
  let tokens := split_whitespace text in
  to_set (filter (fun t => 2 <=? len t) tokens).

(** The quotient is a float in the source; here it is the exact
    rational. *)
Definition score_query_doc (query doc_text : str) : Q :=
  let query_tokens := tokenize query in
  let doc_tokens := tokenize doc_text in
  if negb (nonempty query_tokens) then 0%Q
  else
    let intersection_size :=
      len (filter (fun t => mem t doc_tokens) query_tokens) in
    Qmake intersection_size (Z.to_pos (len query_tokens)).

Definition _build_field_query (field : FieldSpec.t) : str :=
  join (lit " ")
    ([FieldSpec.key field]
     ++ match FieldSpec.label field with
        | Some label => if nonempty label then [label] else []
        | None => []
        end
     ++ dict_get FIELD_ALIASES (FieldSpec.key field) []).

(** The loop of [_build_doc_text] stops at the first layout document with
    the id. *)
Definition _build_doc_text (doc_id : str) (layout_docs : list LayoutDoc.t)
  : str :=
  match find (fun ld => PyStr.eqb (LayoutDoc.doc_id ld) doc_id)
             layout_docs with
  | None => []
  | Some layout_doc =>
      let sorted_pages :=
        sorted_by LayoutPageText.page Z.ltb (LayoutDoc.pages layout_doc) in
      let full_text := concat (map LayoutPageText.full_text sorted_pages) in
      slice_to full_text N_CHARS
  end.

Definition _is_readable (doc : DocIndexItem.t) : bool :=
  DocIndexItem.has_text_layer doc
  && match DocIndexItem.unreadable_reason doc with
     | None => true
     | Some _ => false
     end.

(** The sort key [(-score, doc_id)], compared as Python compares tuples. *)
Definition score_key : Type := (Q * str)%type.

Definition score_key_ltb (a b : score_key) : bool :=
  Qltb (fst a) (fst b)
  || (Qeq_bool (fst a) (fst b) && str_ltb (snd a) (snd b)).

Definition scored_key (x : str * Q) : score_key := ((- snd x)%Q, fst x).

(** The score of a document for a query; [doc_texts] caches the text of
    each readable document under its id. *)
Definition doc_score (query : str) (layout : list LayoutDoc.t)
    (doc_id : str) : Q :=
  score_query_doc query (_build_doc_text doc_id layout).

(** The body of the loop over the fields.  The [scores] dict of the entry
    is not part of [RoutingEntry.t] here: the orchestrator never reads it;
    the entry's validator accepts the key, which is the key of a validated
    [FieldSpec]. *)
Definition route_field (readable_docs : list DocIndexItem.t)
    (layout : list LayoutDoc.t) (top_k : Z) (field : FieldSpec.t)
  : RoutingEntry.t :=
  let query := _build_field_query field in
  if negb (nonempty readable_docs)
  then RoutingEntry.make (FieldSpec.key field) []
  else
    let scored_docs :=
      map (fun doc => (DocIndexItem.doc_id doc,
                       doc_score query layout (DocIndexItem.doc_id doc)))
          readable_docs in
    let scored_docs := sorted_by scored_key score_key_ltb scored_docs in
    let top_docs := slice_to scored_docs top_k in
    RoutingEntry.make (FieldSpec.key field) (map fst top_docs).

Definition route_docs (schema : ResolvedSchema.t)
    (doc_index : list DocIndexItem.t) (layout : list LayoutDoc.t)
    (top_k : Z) : list RoutingEntry.t :=
  let readable_docs := filter _is_readable doc_index in
  let sorted_fields :=
    sorted_by FieldSpec.key str_ltb (ResolvedSchema.resolved_fields schema) in
  map (route_field readable_docs layout top_k) sorted_fields.

(** The index lists a readable document with this id. *)
Definition readable_id (doc_index : list DocIndexItem.t) (doc_id : str)
  : Prop :=
  exists item, In item doc_index /\ DocIndexItem.doc_id item = doc_id
               /\ _is_readable item = true.

(** [a] may stand before [b] in a routing entry for [query]: its score is
    greater, or the scores are equal and its id is not the greater one. *)
Definition ranked_before (query : str) (layout : list LayoutDoc.t)
    (a b : str) : Prop :=
  (doc_score query layout b < doc_score query layout a)%Q
  \/ ((doc_score query layout a == doc_score query layout b)%Q
      /\ str_ltb b a = false).


(* ===================================================================== *)
(** * Properties *)
(* ===================================================================== *)

Example normalize_text_hello :
  normalize_text (lit "  Hello,   World! ") = lit "hello world".
Proof. vm_compute. reflexivity. Qed.

Example normalize_text_dots :
  normalize_text (lit "hello...world") = lit "helloworld".
Proof. vm_compute. reflexivity. Qed.

Example normalize_text_spaced_punct :
  normalize_text (lit "a . b") = lit "a  b"
  /\ normalize_text (normalize_text (lit "a . b")) = lit "a b".
Proof. vm_compute. split; reflexivity. Qed.

Example str_of_int_examples :
  str_of_int (int_of_digits (lit "05")) = lit "5"
  /\ str_of_int (int_of_digits (lit "00")) = lit "0"
  /\ str_of_int (int_of_digits (lit "12")) = lit "12".
Proof. vm_compute. repeat split; reflexivity. Qed.

Example date_checks :
  _evidence_supports_date (lit "1978-10-05") [lit "Patient DOB: 1978-10-05"] = true
  /\ _evidence_supports_date (lit "1978-10-05") [lit "DOB 10/5/1978"] = true
  /\ _evidence_supports_date (lit "1978-10-05") [lit "born October 5, 1978"] = true
  /\ _evidence_supports_date (lit "1978-10-05") [lit "born 5 Nov 1978"] = false
  /\ _evidence_supports_date (lit "1978-10-05") [lit "1978-10-5"] = true
  /\ _evidence_supports_date (lit "1978-01-05") [lit "1978-1-05"] = false
  /\ _evidence_supports_phone (lit "15551234567") [lit "Contact: 555-123-4567"] = true
  /\ _evidence_supports_list (lit "a, b") [lit "x a y"; lit "b"] = true
  /\ _evidence_supports_string (lit "smith john") [lit "Name: Smith , John"] = false.
Proof. vm_compute. repeat split; reflexivity. Qed.

(* --------------------------------------------------------------------- *)
(** ** String search *)
(* --------------------------------------------------------------------- *)

Lemma eqb_char_true (a b : ascii) : eqb_char a b = true <-> a = b.
Proof. unfold eqb_char. apply Ascii.eqb_eq. Qed.

Lemma str_eqb_true (a b : str) : PyStr.eqb a b = true <-> a = b.
Proof.
  revert b; induction a as [|x a IH]; intros [|y b]; simpl;
    try (split; [discriminate | intros H; discriminate H]);
    try (split; reflexivity).
  rewrite andb_true_iff, eqb_char_true, IH.
  split; [intros [-> ->]; reflexivity | intros H; inversion H; auto].
Qed.

Lemma startswith_true (p s : str) :
  startswith p s = true <-> exists rest, s = p ++ rest.
Proof.
  revert s; induction p as [|x p IH]; intros s; simpl.
  - split; [intros _; exists s; reflexivity | reflexivity].
  - destruct s as [|y s].
    + split; [discriminate | intros [r H]; discriminate H].
    + rewrite andb_true_iff, eqb_char_true, IH. split.
      * intros [-> [r ->]]. exists r. reflexivity.
      * intros [r H]. inversion H; subst. split; [reflexivity | eauto].
Qed.

Lemma contains_true (needle hay : str) :
  contains needle hay = true <-> DateRule.occurs_in needle hay.
Proof.
  unfold DateRule.occurs_in.
  induction hay as [|c hay IH]; simpl.
  - rewrite orb_false_r, startswith_true. split.
    + intros [r H]. exists [], r. exact H.
    + intros [b [a H]]. destruct b; simpl in H.
      * exists a. exact H.
      * discriminate H.
  - rewrite orb_true_iff, startswith_true, IH. split.
    + intros [[r H] | [b [a H]]].
      * exists [], r. exact H.
      * exists (c :: b), a. simpl. f_equal. exact H.
    + intros [b [a H]]. destruct b as [|c' b]; simpl in H.
      * left. exists a. exact H.
      * right. inversion H; subst. exists b, a. reflexivity.
Qed.

Lemma match_here_true (pattern : list Re.atom) (s : str) :
  Re.match_here pattern s = true
  <-> exists m rest, s = m ++ rest /\ Forall2 atom_ok pattern m.
Proof.
  revert s; induction pattern as [|a pattern IH]; intros s; simpl.
  - split; [|reflexivity]. intros _. exists [], s. split; [reflexivity | constructor].
  - destruct s as [|c s].
    + split; [discriminate|]. intros [m [r [H F]]].
      inversion F; subst. discriminate H.
    + rewrite andb_true_iff, IH. split.
      * intros [Ha [m [r [-> F]]]]. exists (c :: m), r.
        split; [reflexivity | constructor; assumption].
      * intros [m [r [H F]]]. inversion F; subst.
        inversion H; subst. split; [assumption | eauto].
Qed.

Lemma search_true (pattern : list Re.atom) (s : str) :
  Re.search pattern s = true
  <-> exists m, Forall2 atom_ok pattern m /\ DateRule.occurs_in m s.
Proof.
  unfold DateRule.occurs_in.
  induction s as [|c s IH]; simpl.
  - rewrite orb_false_r, match_here_true. split.
    + intros [m [r [H F]]]. exists m. split; [exact F|]. exists [], r. exact H.
    + intros [m [F [b [a H]]]]. destruct b; simpl in H.
      * exists m, a. split; assumption.
      * discriminate H.
  - rewrite orb_true_iff, match_here_true, IH. split.
    + intros [[m [r [H F]]] | [m [F [b [a H]]]]].
      * exists m. split; [exact F|]. exists [], r. exact H.
      * exists m. split; [exact F|]. exists (c :: b), a. simpl. f_equal. exact H.
    + intros [m [F [b [a H]]]]. destruct b as [|c' b]; simpl in H.
      * left. exists m, a. split; assumption.
      * right. inversion H; subst. exists m. split; [exact F|].
        exists b, a. reflexivity.
Qed.

Lemma literal_matches (a m : str) :
  Forall2 atom_ok (Re.literal a) m <-> m = a.
Proof.
  unfold Re.literal. revert m; induction a as [|x a IH]; intros m; simpl.
  - split; [intros F; inversion F; reflexivity | intros ->; constructor].
  - split.
    + intros F. inversion F as [|? c ? m' Hc F']; subst.
      apply IH in F'. unfold atom_ok in Hc; cbn [Re.atom_matches] in Hc.
      apply eqb_char_true in Hc. subst. reflexivity.
    + intros ->. constructor.
      * unfold atom_ok; cbn [Re.atom_matches]. apply eqb_char_true. reflexivity.
      * apply IH. reflexivity.
Qed.

Lemma separator_matches (m : str) :
  Forall2 atom_ok [Re.OneOf ["-"; "/"]%char] m
  <-> exists c, DateRule.separator c /\ m = [c].
Proof.
  unfold DateRule.separator. split.
  - intros F. inversion F as [|? c ? m' Hc F']; subst. inversion F'; subst.
    exists c. split; [|reflexivity].
    unfold atom_ok in Hc; cbn [Re.atom_matches existsb] in Hc.
    rewrite orb_false_r, orb_true_iff, !eqb_char_true in Hc.
    destruct Hc; [left | right]; congruence.
  - intros [c [Hc ->]]. constructor; [|constructor].
    unfold atom_ok; cbn [Re.atom_matches existsb].
    rewrite orb_false_r, orb_true_iff, !eqb_char_true.
    destruct Hc; [left | right]; congruence.
Qed.

Lemma date_pattern_matches (a b c m : str) :
  Forall2 atom_ok (date_pattern a b c) m
  <-> exists s1 s2, DateRule.separator s1 /\ DateRule.separator s2
                    /\ m = a ++ [s1] ++ b ++ [s2] ++ c.
Proof.
  unfold date_pattern. split.
  - intros F.
    apply Forall2_app_inv_l in F. destruct F as [ma [m1 [Fa [F ->]]]].
    apply Forall2_app_inv_l in F. destruct F as [ms1 [m2 [Fs1 [F ->]]]].
    apply Forall2_app_inv_l in F. destruct F as [mb [m3 [Fb [F ->]]]].
    apply Forall2_app_inv_l in F. destruct F as [ms2 [mc [Fs2 [Fc ->]]]].
    apply literal_matches in Fa, Fb, Fc. subst.
    apply separator_matches in Fs1, Fs2.
    destruct Fs1 as [s1 [H1 ->]]. destruct Fs2 as [s2 [H2 ->]].
    exists s1, s2. repeat split; assumption.
  - intros [s1 [s2 [H1 [H2 ->]]]].
    repeat apply Forall2_app;
      try (apply literal_matches; reflexivity);
      apply separator_matches; eauto.
Qed.

Lemma search_date_pattern (a b c text : str) :
  Re.search (date_pattern a b c) text = true <-> DateRule.written a b c text.
Proof.
  rewrite search_true. unfold DateRule.written. split.
  - intros [m [F O]]. apply date_pattern_matches in F.
    destruct F as [s1 [s2 [H1 [H2 ->]]]]. exists s1, s2. auto.
  - intros [s1 [s2 [H1 [H2 O]]]]. eexists. split; [|exact O].
    apply date_pattern_matches. exists s1, s2. auto.
Qed.

(* --------------------------------------------------------------------- *)
(** ** The date rule *)
(* --------------------------------------------------------------------- *)

Lemma atom_ok_chr (x c : ascii) : atom_ok (Re.Chr x) c -> c = x.
Proof.
  unfold atom_ok; cbn [Re.atom_matches]. intros H.
  apply eqb_char_true in H. congruence.
Qed.

Lemma atom_ok_digit (c : ascii) : atom_ok Re.Digit c -> isdigit c = true.
Proof. unfold atom_ok; cbn [Re.atom_matches]. auto. Qed.

Ltac invert_Forall2 :=
  repeat match goal with
         | H : Forall2 _ (_ :: _) _ |- _ => inversion H; subst; clear H
         | H : Forall2 _ [] _ |- _ => inversion H; subst; clear H
         | H : atom_ok (Re.Chr _) _ |- _ => apply atom_ok_chr in H; subst
         | H : atom_ok Re.Digit _ |- _ => apply atom_ok_digit in H
         end.

Ltac invert_Forall :=
  repeat match goal with
         | H : Forall _ (_ :: _) |- _ => inversion H; subst; clear H
         | H : Forall _ [] |- _ => clear H
         end.

Lemma match_ymd_parses (value year month day : str) :
  match_ymd value = Some (year, month, day)
  <-> DateRule.parses_as value year month day.
Proof.
  unfold match_ymd, DateRule.parses_as, DateRule.digits. split.
  - destruct (Re.match_here ymd_pattern value) eqn:E; [|discriminate].
    apply match_here_true in E. destruct E as [m [rest [-> F]]].
    unfold ymd_pattern in F. invert_Forall2.
    cbn [app firstn skipn]. intros H. inversion H; subst; clear H.
    repeat split; auto.
    exists rest. reflexivity.
  - intros [[Ly Dy] [[Lm Dm] [[Ld Dd] [rest ->]]]].
    destruct year as [|y1 [|y2 [|y3 [|y4 [|]]]]]; try discriminate Ly.
    destruct month as [|m1 [|m2 [|]]]; try discriminate Lm.
    destruct day as [|d1 [|d2 [|]]]; try discriminate Ld.
    invert_Forall.
    cbn [app lit list_ascii_of_string Re.match_here ymd_pattern
         Re.atom_matches firstn skipn].
    repeat match goal with H : isdigit _ = true |- _ => rewrite H; clear H end.
    unfold eqb_char. rewrite Ascii.eqb_refl. reflexivity.
Qed.

Lemma month_strs_spec (month name : str) :
  In name (dict_get month_names month []) <-> DateRule.month_name month name.
Proof.
  unfold DateRule.month_name. split.
  - unfold month_names. cbn [dict_get].
    repeat match goal with
           | |- In _ (if PyStr.eqb ?k month then _ else _) -> _ =>
               let E := fresh "E" in
               destruct (PyStr.eqb k month) eqn:E;
               [ apply str_eqb_true in E; subst month;
                 cbn [In]; intros [<- | [<- | []]] | ]
           | |- In _ (if PyStr.eqb ?k month then _ else _) -> _ =>
               let E := fresh "E" in
               destruct (PyStr.eqb k month) eqn:E;
               [ apply str_eqb_true in E; subst month;
                 cbn [In]; intros [<- | []] | ]
           end;
      try (intros []).
    all: first
      [ exists 0%nat; eexists; split; [reflexivity|]; split; [reflexivity|]; (left; reflexivity) || (right; reflexivity)
      | exists 1%nat; eexists; split; [reflexivity|]; split; [reflexivity|]; (left; reflexivity) || (right; reflexivity)
      | exists 2%nat; eexists; split; [reflexivity|]; split; [reflexivity|]; (left; reflexivity) || (right; reflexivity)
      | exists 3%nat; eexists; split; [reflexivity|]; split; [reflexivity|]; (left; reflexivity) || (right; reflexivity)
      | exists 4%nat; eexists; split; [reflexivity|]; split; [reflexivity|]; (left; reflexivity) || (right; reflexivity)
      | exists 5%nat; eexists; split; [reflexivity|]; split; [reflexivity|]; (left; reflexivity) || (right; reflexivity)
      | exists 6%nat; eexists; split; [reflexivity|]; split; [reflexivity|]; (left; reflexivity) || (right; reflexivity)
      | exists 7%nat; eexists; split; [reflexivity|]; split; [reflexivity|]; (left; reflexivity) || (right; reflexivity)
      | exists 8%nat; eexists; split; [reflexivity|]; split; [reflexivity|]; (left; reflexivity) || (right; reflexivity)
      | exists 9%nat; eexists; split; [reflexivity|]; split; [reflexivity|]; (left; reflexivity) || (right; reflexivity)
      | exists 10%nat; eexists; split; [reflexivity|]; split; [reflexivity|]; (left; reflexivity) || (right; reflexivity)
      | exists 11%nat; eexists; split; [reflexivity|]; split; [reflexivity|]; (left; reflexivity) || (right; reflexivity) ].
  - intros [n [full [Hn [-> Hname]]]].
    do 12 (destruct n as [|n];
           [ inversion Hn; subst full;
             destruct Hname as [-> | ->]; vm_compute; tauto | ]).
    destruct n; discriminate Hn.
Qed.

Lemma date_in_text_spec (year month day text : str) :
  date_in_text year month day text = true
  <-> DateRule.text_supports year month day text.
Proof.
  unfold date_in_text, DateRule.text_supports.
  rewrite !orb_true_iff, !search_date_pattern.
  assert (Hlast :
    (if contains year text && contains (lstrip_by (eqb_char "0") day) text
     then existsb (fun m_str => contains m_str (lower text))
                  (dict_get month_names month [])
     else false) = true
    <-> (DateRule.occurs_in year text
         /\ DateRule.occurs_in (DateRule.unpadded_day day) text
         /\ exists name, DateRule.month_name month name
                         /\ DateRule.occurs_in name (lower text))).
  { rewrite <- !contains_true. unfold DateRule.unpadded_day.
    change (fun c => eqb_char "0" c) with (eqb_char "0").
    destruct (contains year text); cbn [andb].
    2:{ split; [discriminate | intros [H _]; discriminate H]. }
    destruct (contains (lstrip_by (eqb_char "0") day) text); cbn [andb].
    2:{ split; [discriminate | intros [_ [H _]]; discriminate H]. }
    rewrite existsb_exists. split.
    - intros [name [Hin Hc]]. repeat split; auto.
      exists name. rewrite <- month_strs_spec, <- contains_true. auto.
    - intros [_ [_ [name [Hm Hc]]]]. exists name.
      rewrite month_strs_spec, contains_true. auto. }
  rewrite Hlast. unfold unpadded, DateRule.without_padding. tauto.
Qed.

(** C9. For a date field the evidence verifier answers [True] exactly when
    the normalized value parses as YYYY-MM-DD (four digits, hyphen, two
    digits, hyphen, two digits at the start of the value) and some evidence
    text contains that date written year-month-day or month-day-year with
    [-] or [/] separators, with the zero padding of month and day or
    without it, or contains the year's digits, the day's digits without
    leading zeros, and, ignoring case, a name or three-letter abbreviation
    of that month. *)
Theorem evidence_supports_date_iff_rule :
  forall (normalized_value : str) (evidence_texts : list str),
    _evidence_supports_date normalized_value evidence_texts = true
    <-> DateRule.supports normalized_value evidence_texts.
Proof.
  intros value texts. unfold _evidence_supports_date, DateRule.supports. split.
  - destruct (match_ymd value) as [[[year month] day]|] eqn:E; [|discriminate].
    rewrite existsb_exists. intros [text [Hin Ht]].
    exists year, month, day. split.
    + apply match_ymd_parses. exact E.
    + exists text. split; [exact Hin|]. apply date_in_text_spec. exact Ht.
  - intros [year [month [day [Hp [text [Hin Ht]]]]]].
    apply match_ymd_parses in Hp. rewrite Hp.
    apply existsb_exists. exists text. split; [exact Hin|].
    apply date_in_text_spec. exact Ht.
Qed.

(** The date rule reaches [evidence_supports_value] unchanged for a date
    field whose candidate carries well-formed evidence. *)
Lemma evidence_supports_value_date (field : FieldSpec.t) (c : Candidate.t)
    (texts : list str) :
  FieldSpec.type field = TDate ->
  Candidate.evidence c <> [] ->
  collect_evidence_texts (Candidate.evidence c) = Some texts ->
  evidence_supports_value field c
  = _evidence_supports_date (Candidate.normalized_value c) texts.
Proof.
  intros Ht Hne Hc. unfold evidence_supports_value.
  rewrite Hc, Ht.
  destruct (Candidate.evidence c) as [|ev evs] eqn:E; [congruence|].
  cbn [nonempty negb].
  destruct texts as [|t ts]; [|reflexivity].
  simpl in Hc.
  destruct (negb (nonempty (Evidence.doc_id ev)) || (Evidence.page ev =? 0)
            || negb (nonempty (Evidence.quoted_text ev))); [discriminate|].
  destruct (collect_evidence_texts evs); discriminate.
Qed.

(* --------------------------------------------------------------------- *)
(** ** Sorting *)
(* --------------------------------------------------------------------- *)

Section SortedBy.

Variables (A K : Type) (key : A -> K) (ltb : K -> K -> bool).

Hypothesis ltb_asym : forall a b, ltb a b = true -> ltb b a = false.
Hypothesis ltb_negtrans :
  forall a b c, ltb b a = false -> ltb c b = false -> ltb c a = false.

Lemma insert_by_perm (x : A) (l : list A) :
  Permutation (x :: l) (insert_by key ltb x l).
Proof.
  induction l as [|y l IH]; simpl.
  - apply Permutation_refl.
  - destruct (ltb (key y) (key x)).
    + eapply perm_trans; [apply perm_swap|]. apply perm_skip. exact IH.
    + apply Permutation_refl.
Qed.

Lemma sorted_by_perm (l : list A) : Permutation l (sorted_by key ltb l).
Proof.
  induction l as [|x l IH]; simpl.
  - constructor.
  - eapply perm_trans; [apply perm_skip; exact IH | apply insert_by_perm].
Qed.

Lemma insert_by_sorted (x : A) (l : list A) :
  StronglySorted (in_order key ltb) l -> StronglySorted (in_order key ltb) (insert_by key ltb x l).
Proof.
  induction l as [|y l IH]; simpl; intros S.
  - constructor; constructor.
  - inversion S as [|? ? Sl Fy]; subst.
    destruct (ltb (key y) (key x)) eqn:E.
    + constructor; [apply IH; exact Sl|].
      eapply Permutation_Forall; [apply insert_by_perm|].
      constructor; [|exact Fy]. unfold in_order. apply ltb_asym. exact E.
    + constructor; [exact S|].
      constructor; [exact E|].
      eapply Forall_impl; [|exact Fy].
      intros z Hz. unfold in_order in *. eapply ltb_negtrans; eassumption.
Qed.

Lemma sorted_by_sorted (l : list A) :
  StronglySorted (in_order key ltb) (sorted_by key ltb l).
Proof.
  induction l as [|x l IH]; simpl.
  - constructor.
  - apply insert_by_sorted. exact IH.
Qed.

End SortedBy.

Lemma StronglySorted_nth_error {A} (R : A -> A -> Prop) (l : list A) :
  StronglySorted R l ->
  forall i j a b, (i < j)%nat ->
    nth_error l i = Some a -> nth_error l j = Some b -> R a b.
Proof.
  induction 1 as [|x l S IH F]; intros i j a b Hij Hi Hj.
  - destruct i; discriminate Hi.
  - destruct j as [|j]; [lia|].
    destruct i as [|i]; simpl in Hi, Hj.
    + inversion Hi; subst. rewrite Forall_forall in F. apply F.
      eapply nth_error_In; exact Hj.
    + eapply IH; [|exact Hi|exact Hj]. lia.
Qed.

(** [str_compare] is a total order. *)

Lemma code_inj (x y : ascii) : code x = code y -> x = y.
Proof.
  unfold code. intros H.
  rewrite <- (ascii_nat_embedding x), <- (ascii_nat_embedding y), H.
  reflexivity.
Qed.

Lemma str_compare_antisym (a b : str) :
  str_compare b a = CompOpp (str_compare a b).
Proof.
  revert b; induction a as [|x a IH]; intros [|y b]; simpl; try reflexivity.
  rewrite (Nat.compare_antisym (code x) (code y)).
  destruct (Nat.compare (code x) (code y)); simpl; auto.
Qed.

Lemma str_compare_eq (a b : str) : str_compare a b = Eq -> a = b.
Proof.
  revert b; induction a as [|x a IH]; intros [|y b]; simpl;
    try discriminate; try reflexivity.
  destruct (Nat.compare (code x) (code y)) eqn:E; try discriminate.
  apply Nat.compare_eq in E. apply code_inj in E. subst.
  intros H. f_equal. apply IH. exact H.
Qed.

Lemma str_compare_refl (a : str) : str_compare a a = Eq.
Proof.
  induction a as [|x a IH]; simpl; [reflexivity|].
  rewrite Nat.compare_refl. exact IH.
Qed.

Lemma str_compare_lt_trans (a b c : str) :
  str_compare a b = Lt -> str_compare b c = Lt -> str_compare a c = Lt.
Proof.
  revert b c; induction a as [|x a IH]; intros [|y b] [|z c]; simpl;
    try discriminate; try reflexivity.
  destruct (Nat.compare (code x) (code y)) eqn:Exy; try discriminate;
    destruct (Nat.compare (code y) (code z)) eqn:Eyz; try discriminate;
    intros H1 H2.
  - apply Nat.compare_eq in Exy, Eyz.
    rewrite Exy, Eyz, Nat.compare_refl. eapply IH; eassumption.
  - apply Nat.compare_eq in Exy. rewrite Exy, Eyz. reflexivity.
  - apply Nat.compare_eq in Eyz. rewrite <- Eyz, Exy. reflexivity.
  - apply Nat.compare_lt_iff in Exy, Eyz.
    assert (E : Nat.compare (code x) (code z) = Lt)
      by (apply Nat.compare_lt_iff; lia).
    rewrite E. reflexivity.
Qed.

(** [key_compare] is a total order as well. *)

Lemma key_compare_antisym (k1 k2 : sort_key) :
  key_compare k2 k1 = CompOpp (key_compare k1 k2).
Proof.
  destruct k1 as [[f1 o1] n1], k2 as [[f2 o2] n2]. simpl.
  rewrite (str_compare_antisym f1 f2), (Z.compare_antisym o1 o2),
    (str_compare_antisym n1 n2).
  destruct (str_compare f1 f2); simpl; auto.
  destruct (o1 ?= o2); simpl; auto.
Qed.

Lemma key_compare_eq (k1 k2 : sort_key) : key_compare k1 k2 = Eq -> k1 = k2.
Proof.
  destruct k1 as [[f1 o1] n1], k2 as [[f2 o2] n2]. simpl.
  destruct (str_compare f1 f2) eqn:Ef; try discriminate.
  destruct (o1 ?= o2) eqn:Eo; try discriminate.
  intros En. apply str_compare_eq in Ef, En. apply Z.compare_eq in Eo.
  subst. reflexivity.
Qed.

Lemma key_compare_lt_trans (k1 k2 k3 : sort_key) :
  key_compare k1 k2 = Lt -> key_compare k2 k3 = Lt -> key_compare k1 k3 = Lt.
Proof.
  destruct k1 as [[f1 o1] n1], k2 as [[f2 o2] n2], k3 as [[f3 o3] n3]. simpl.
  destruct (str_compare f1 f2) eqn:E12; try discriminate;
    destruct (str_compare f2 f3) eqn:E23; try discriminate.
  - apply str_compare_eq in E12, E23. subst. rewrite str_compare_refl.
    destruct (o1 ?= o2) eqn:O12; try discriminate;
      destruct (o2 ?= o3) eqn:O23; try discriminate; intros H1 H2.
    + apply Z.compare_eq in O12, O23. subst. rewrite Z.compare_refl.
      eapply str_compare_lt_trans; eassumption.
    + apply Z.compare_eq in O12. subst. rewrite O23. reflexivity.
    + apply Z.compare_eq in O23. subst. rewrite O12. reflexivity.
    + assert (E : (o1 ?= o3) = Lt)
        by (rewrite Z.compare_lt_iff in *; lia).
      rewrite E. reflexivity.
  - apply str_compare_eq in E12. subst. rewrite E23. reflexivity.
  - apply str_compare_eq in E23. subst. rewrite E12. reflexivity.
  - rewrite (str_compare_lt_trans _ _ _ E12 E23). reflexivity.
Qed.

Lemma key_ltb_asym (a b : sort_key) : key_ltb a b = true -> key_ltb b a = false.
Proof.
  unfold key_ltb. rewrite (key_compare_antisym a b).
  destruct (key_compare a b); simpl; congruence.
Qed.

Lemma key_ltb_negtrans (a b c : sort_key) :
  key_ltb b a = false -> key_ltb c b = false -> key_ltb c a = false.
Proof.
  unfold key_ltb. intros Hba Hcb.
  destruct (key_compare c a) eqn:Eca; simpl; try reflexivity.
  destruct (key_compare c b) eqn:Ecb; simpl in Hcb; try discriminate.
  - apply key_compare_eq in Ecb. subst. rewrite Eca in Hba. discriminate.
  - assert (Ebc : key_compare b c = Lt)
      by (rewrite (key_compare_antisym c b), Ecb; reflexivity).
    rewrite (key_compare_lt_trans _ _ _ Ebc Eca) in Hba. discriminate.
Qed.

Lemma _sort_candidates_sorted (candidates : list Candidate.t) :
  StronglySorted (in_order candidate_key key_ltb) (_sort_candidates candidates).
Proof.
  apply sorted_by_sorted; [apply key_ltb_asym | apply key_ltb_negtrans].
Qed.

Lemma _sort_candidates_perm (candidates : list Candidate.t) :
  Permutation candidates (_sort_candidates candidates).
Proof. apply sorted_by_perm. Qed.

Lemma str_ltb_irrefl (a : str) : str_ltb a a = false.
Proof. unfold str_ltb. rewrite str_compare_refl. reflexivity. Qed.

Lemma sorted_positions (candidates : list Candidate.t) (i j : nat)
    (a b : Candidate.t) :
  nth_error (_sort_candidates candidates) i = Some a ->
  nth_error (_sort_candidates candidates) j = Some b ->
  key_ltb (candidate_key a) (candidate_key b) = true ->
  (i < j)%nat.
Proof.
  intros Hi Hj Hlt.
  destruct (Nat.lt_trichotomy i j) as [H | [H | H]]; [exact H | |].
  - subst j. rewrite Hi in Hj. inversion Hj; subst b.
    apply key_ltb_asym in Hlt as Hlt'. congruence.
  - pose proof (StronglySorted_nth_error (_sort_candidates_sorted candidates)
                  H Hj Hi) as Ho.
    unfold in_order in Ho. congruence.
Qed.

(** C7. In the list [_sort_candidates] returns (the sorted output of a run),
    for candidates A at position [i] and B at position [j]: if A.field is
    less than B.field then A stands before B; if the fields are equal, A is
    a heuristic candidate and B an llm candidate, then A stands before B;
    and if field and method are equal and A stands before B, then
    B.normalized_value is not less than A.normalized_value. *)
Theorem sort_candidates_law :
  forall (candidates : list Candidate.t),
    (forall i j a b,
        nth_error (_sort_candidates candidates) i = Some a ->
        nth_error (_sort_candidates candidates) j = Some b ->
        str_ltb (Candidate.field a) (Candidate.field b) = true ->
        (i < j)%nat)
    /\ (forall i j a b,
        nth_error (_sort_candidates candidates) i = Some a ->
        nth_error (_sort_candidates candidates) j = Some b ->
        Candidate.field a = Candidate.field b ->
        Candidate.from_method a = heuristic ->
        Candidate.from_method b = llm ->
        (i < j)%nat)
    /\ (forall i j a b,
        nth_error (_sort_candidates candidates) i = Some a ->
        nth_error (_sort_candidates candidates) j = Some b ->
        Candidate.field a = Candidate.field b ->
        Candidate.from_method a = Candidate.from_method b ->
        (i < j)%nat ->
        str_ltb (Candidate.normalized_value b) (Candidate.normalized_value a)
        = false).
Proof.
  intros candidates. split; [|split]; intros i j a b Hi Hj.
  - intros Hf. eapply sorted_positions; [exact Hi | exact Hj |].
    unfold key_ltb, candidate_key, key_compare, str_ltb in *.
    destruct (str_compare (Candidate.field a) (Candidate.field b));
      try discriminate. reflexivity.
  - intros Hf Ha Hb. eapply sorted_positions; [exact Hi | exact Hj |].
    unfold key_ltb, candidate_key, key_compare.
    rewrite Hf, str_compare_refl, Ha, Hb. reflexivity.
  - intros Hf Hm Hij.
    pose proof (StronglySorted_nth_error (_sort_candidates_sorted candidates)
                  Hij Hi Hj) as Ho.
    unfold in_order, key_ltb, candidate_key, key_compare in Ho.
    rewrite Hf, str_compare_refl, Hm, Z.compare_refl in Ho. exact Ho.
Qed.

(* --------------------------------------------------------------------- *)
(** ** Excerpts *)
(* --------------------------------------------------------------------- *)

Lemma slice_to_nonneg {A} (l : list A) (n : Z) :
  0 <= n -> slice_to l n = firstn (Z.to_nat n) l.
Proof.
  intros H. unfold slice_to.
  destruct (Z.leb_spec 0 n); [reflexivity | lia].
Qed.

Lemma slice_to_len {A} (l : list A) (n : Z) :
  0 <= n -> len (slice_to l n) <= n.
Proof.
  intros H. rewrite slice_to_nonneg by exact H. unfold len.
  pose proof (firstn_le_length (Z.to_nat n) l). lia.
Qed.

Lemma slice_to_prefix {A} (l : list A) (n : Z) :
  exists rest, l = slice_to l n ++ rest.
Proof.
  unfold slice_to. destruct (0 <=? n); eexists; symmetry; apply firstn_skipn.
Qed.

Lemma nonempty_true {A} (l : list A) : nonempty l = true <-> l <> [].
Proof. destruct l; simpl; split; congruence. Qed.

Lemma total_text_length_app (a b : list DocExcerpt.t) :
  total_text_length (a ++ b) = total_text_length a + total_text_length b.
Proof.
  induction a as [|e a IH]; simpl; [reflexivity|].
  fold (total_text_length (a ++ b)). fold (total_text_length a). lia.
Qed.

Lemma excerpts_of_pages_spec (max_total max_doc : Z) (doc : LayoutDoc.t) :
  forall selected used total es total',
    excerpts_of_pages max_total max_doc (LayoutDoc.doc_id doc)
                      selected used total = (es, total') ->
    total' = total + total_text_length es
    /\ (total <= max_total -> total' <= max_total)
    /\ (used <= max_doc -> used + total_text_length es <= max_doc)
    /\ picked doc selected es.
Proof.
  induction selected as [|p rest IH]; intros used total es total' E;
    cbn [excerpts_of_pages] in E.
  - inversion E; subst. simpl. repeat split; try lia. constructor.
  - destruct (Z.leb_spec max_total total) as [Ht | Ht].
    { inversion E; subst. simpl. repeat split; try lia. constructor. }
    destruct (Z.leb_spec max_doc used) as [Hu | Hu].
    { inversion E; subst. simpl. repeat split; try lia. constructor. }
    cbv zeta in E.
    set (m := Z.min (max_doc - used) (max_total - total)) in E.
    assert (Hm : 0 <= m) by lia.
    pose proof (slice_to_len (LayoutPageText.full_text p) Hm) as Hlen.
    destruct (nonempty (slice_to (LayoutPageText.full_text p) m)) eqn:En.
    + destruct (excerpts_of_pages max_total max_doc (LayoutDoc.doc_id doc) rest
                  (used + len (slice_to (LayoutPageText.full_text p) m))
                  (total + len (slice_to (LayoutPageText.full_text p) m)))
        as [more t] eqn:Er.
      inversion E; subst; clear E.
      apply IH in Er. destruct Er as [Et [Hmax [Hdoc Hp]]].
      cbn [total_text_length fold_right DocExcerpt.text].
      fold (total_text_length more).
      repeat split; try lia.
      constructor; [exact Hp | | ].
      * unfold excerpt_of_page. cbn. repeat split; try reflexivity.
        apply slice_to_prefix.
      * cbn. apply nonempty_true. exact En.
    + apply IH in E. destruct E as [Et [Hmax [Hdoc Hp]]].
      repeat split; try assumption. constructor. exact Hp.
Qed.

Lemma picked_length (doc : LayoutDoc.t) ps es :
  picked doc ps es -> (length es <= length ps)%nat.
Proof. induction 1; simpl; lia. Qed.

Lemma picked_nonempty (doc : LayoutDoc.t) ps es :
  picked doc ps es -> Forall (fun e => DocExcerpt.text e <> []) es.
Proof. induction 1; auto. Qed.

Lemma picked_sources (doc : LayoutDoc.t) ps es :
  picked doc ps es ->
  Forall (fun e => exists p, In p ps /\ excerpt_of_page doc p e) es.
Proof.
  induction 1 as [ps | p ps es _ IH | p ps e es _ IH Hp Hn].
  - constructor.
  - eapply Forall_impl; [|exact IH].
    intros e [q [Hq He]]. exists q. split; [right; exact Hq | exact He].
  - constructor.
    + exists p. split; [left; reflexivity | exact Hp].
    + eapply Forall_impl; [|exact IH].
      intros e' [q [Hq He]]. exists q. split; [right; exact Hq | exact He].
Qed.

Lemma picked_bounded (doc : LayoutDoc.t) (lo : Z) ps es :
  Forall (fun p => lo <= LayoutPageText.page p) ps ->
  picked doc ps es ->
  Forall (Z.le lo) (map DocExcerpt.page es).
Proof.
  intros F P. induction P as [ps | p ps es _ IH | p ps e es _ IH Hp Hn];
    simpl.
  - constructor.
  - inversion F; subst. auto.
  - inversion F; subst. constructor; [|auto].
    destruct Hp as [_ [-> _]]. assumption.
Qed.

Lemma picked_ascending (doc : LayoutDoc.t) ps es :
  StronglySorted page_le ps ->
  picked doc ps es ->
  StronglySorted Z.le (map DocExcerpt.page es).
Proof.
  intros S P. induction P as [ps | p ps es _ IH | p ps e es H IH Hp Hn];
    simpl.
  - constructor.
  - inversion S; subst. auto.
  - inversion S as [|? ? Sps Fp]; subst. constructor; [auto|].
    destruct Hp as [_ [-> _]].
    eapply picked_bounded; [exact Fp | exact H].
Qed.

Lemma StronglySorted_weaken {A} (R R' : A -> A -> Prop) (l : list A) :
  (forall a b, R a b -> R' a b) ->
  StronglySorted R l -> StronglySorted R' l.
Proof.
  intros HR. induction 1 as [|x l S IH F]; constructor; auto.
  eapply Forall_impl; [|exact F]. auto.
Qed.

Lemma StronglySorted_filter_keeps {A} (R : A -> A -> Prop) (f : A -> bool) l :
  StronglySorted R l -> StronglySorted R (filter f l).
Proof.
  induction 1 as [|x l S IH F]; simpl; [constructor|].
  destruct (f x); [|exact IH].
  constructor; [exact IH|].
  rewrite Forall_forall in *. intros y Hy. apply F.
  apply filter_In in Hy. tauto.
Qed.

Lemma Forall_firstn_keeps {A} (P : A -> Prop) (n : nat) (l : list A) :
  Forall P l -> Forall P (firstn n l).
Proof.
  intros F. revert n. induction F; intros [|n]; simpl; constructor; auto.
Qed.

Lemma StronglySorted_firstn_keeps {A} (R : A -> A -> Prop) (n : nat) l :
  StronglySorted R l -> StronglySorted R (firstn n l).
Proof.
  intros S. revert n. induction S as [|x l S IH F]; intros [|n]; simpl;
    try constructor; auto.
  apply Forall_firstn_keeps. exact F.
Qed.

Lemma In_firstn {A} (x : A) (n : nat) (l : list A) :
  In x (firstn n l) -> In x l.
Proof.
  revert n; induction l as [|y l IH]; intros [|n]; simpl; try tauto.
  intros [H | H]; [left; exact H | right; eapply IH; exact H].
Qed.

Lemma sorted_pages_sorted (ps : list LayoutPageText.t) :
  StronglySorted page_le (sorted_by LayoutPageText.page Z.ltb ps).
Proof.
  eapply StronglySorted_weaken; [|apply sorted_by_sorted].
  - intros a b. unfold in_order, page_le. intros H.
    apply Z.ltb_ge in H. exact H.
  - intros a b H. apply Z.ltb_lt in H. apply Z.ltb_ge. lia.
  - intros a b c H1 H2. apply Z.ltb_ge in H1, H2. apply Z.ltb_ge. lia.
Qed.

Lemma sorted_pages_In (ps : list LayoutPageText.t) (p : LayoutPageText.t) :
  In p (sorted_by LayoutPageText.page Z.ltb ps) <-> In p ps.
Proof.
  split; apply Permutation_in;
    [apply Permutation_sym|]; apply sorted_by_perm.
Qed.

Lemma selected_pages_spec (field : FieldSpec.t) (max_pages : Z)
    (doc : LayoutDoc.t) :
  0 <= max_pages ->
  len (selected_pages field max_pages doc) <= max_pages
  /\ StronglySorted page_le (selected_pages field max_pages doc)
  /\ Forall (fun p =>
               In p (LayoutDoc.pages doc)
               /\ (has_keyword field p
                   \/ (no_keyword_page field doc
                       /\ forall q, In q (LayoutDoc.pages doc) -> page_le p q)))
            (selected_pages field max_pages doc)
  /\ (no_keyword_page field doc ->
      (length (selected_pages field max_pages doc) <= 1)%nat).
Proof.
  intros Hmax. unfold selected_pages. cbv zeta.
  set (sp := sorted_by LayoutPageText.page Z.ltb (LayoutDoc.pages doc)).
  set (kw := fun p : LayoutPageText.t =>
               _page_contains_keyword (LayoutPageText.full_text p)
                                      (_get_field_keywords field)).
  pose proof (sorted_pages_sorted (LayoutDoc.pages doc)) as Ssp. fold sp in Ssp.
  assert (Hin : forall p, In p sp <-> In p (LayoutDoc.pages doc))
    by (intros p; apply sorted_pages_In).
  split; [apply slice_to_len; exact Hmax|].
  rewrite slice_to_nonneg by exact Hmax.
  destruct (filter kw sp) as [|a matching] eqn:EF.
  - (* no page has a keyword *)
    assert (Hnone : no_keyword_page field doc).
    { intros q Hq Hk. apply Hin in Hq.
      assert (Hf : In q (filter kw sp)) by (apply filter_In; split; assumption).
      rewrite EF in Hf. destruct Hf. }
    cbn [nonempty negb andb].
    destruct sp as [|p0 sp'] eqn:Esp; cbn [nonempty firstn].
    + rewrite firstn_nil. repeat split; try constructor. simpl. lia.
    + repeat split.
      * apply StronglySorted_firstn_keeps. repeat constructor.
      * apply Forall_firstn_keeps. constructor; [|constructor].
        split; [apply Hin; left; reflexivity|].
        right. split; [exact Hnone|].
        intros q Hq. apply Hin in Hq. destruct Hq as [<- | Hq].
        -- unfold page_le. lia.
        -- inversion Ssp as [|? ? _ F]; subst.
           rewrite Forall_forall in F. apply F. exact Hq.
      * intros _. rewrite length_firstn. simpl. lia.
  - (* some page has a keyword *)
    cbn [nonempty negb andb]. rewrite <- EF. repeat split.
    + apply StronglySorted_firstn_keeps, StronglySorted_filter_keeps. exact Ssp.
    + apply Forall_firstn_keeps. apply Forall_forall. intros p Hp.
      apply filter_In in Hp. destruct Hp as [Hp Hk].
      split; [apply Hin; exact Hp | left; exact Hk].
    + intros Hnone. exfalso.
      assert (Ha : In a (filter kw sp)) by (rewrite EF; left; reflexivity).
      apply filter_In in Ha. destruct Ha as [Ha Hk].
      apply (Hnone a); [apply Hin; exact Ha | exact Hk].
Qed.

Lemma block_of_doc_ok (field : FieldSpec.t) (max_total max_doc max_pages : Z)
    (doc : LayoutDoc.t) (total : Z) (block : list DocExcerpt.t) (total' : Z) :
  0 <= max_doc -> 0 <= max_pages ->
  excerpts_of_pages max_total max_doc (LayoutDoc.doc_id doc)
                    (selected_pages field max_pages doc) 0 total
  = (block, total') ->
  block_ok field max_doc max_pages doc block.
Proof.
  intros Hdoc Hpages E.
  apply excerpts_of_pages_spec in E. destruct E as [_ [_ [Hchars Hp]]].
  destruct (selected_pages_spec field doc Hpages) as [Hlen [Hs [Hsrc Hone]]].
  pose proof (picked_length Hp) as Hl.
  constructor.
  - lia.
  - unfold len in *. lia.
  - eapply picked_ascending; eassumption.
  - apply picked_sources in Hp. rewrite Forall_forall in *.
    intros e He. destruct (Hp e He) as [p [Hin Hpe]].
    destruct (Hsrc p Hin) as [Hdocp Hwhy].
    exists p. repeat split; try assumption; try apply Hpe.
  - intros Hnone. specialize (Hone Hnone). unfold len. lia.
Qed.

Lemma empty_block_ok (field : FieldSpec.t) (max_doc max_pages : Z)
    (doc : LayoutDoc.t) :
  0 <= max_doc -> 0 <= max_pages -> block_ok field max_doc max_pages doc [].
Proof.
  intros Hd Hp. constructor.
  - simpl. exact Hd.
  - unfold len. simpl. exact Hp.
  - constructor.
  - constructor.
  - intros _. unfold len. simpl. lia.
Qed.

Lemma excerpt_blocks_concat (field : FieldSpec.t)
    (max_total max_doc max_pages : Z) :
  forall docs total,
    concat (excerpt_blocks field max_total max_doc max_pages docs total)
    = excerpts_of_docs field max_total max_doc max_pages docs total.
Proof.
  assert (Hstop : forall docs total, max_total <= total ->
            concat (excerpt_blocks field max_total max_doc max_pages docs total)
            = []).
  { induction docs as [|doc docs IH]; intros total Ht; simpl; [reflexivity|].
    destruct (Z.leb_spec max_total total); [|lia]. simpl. apply IH. exact Ht. }
  induction docs as [|doc docs IH]; intros total; simpl; [reflexivity|].
  destruct (Z.leb_spec max_total total) as [Ht | Ht].
  - simpl. apply Hstop. exact Ht.
  - destruct (excerpts_of_pages max_total max_doc (LayoutDoc.doc_id doc)
                (selected_pages field max_pages doc) 0 total) as [block t].
    simpl. rewrite IH. reflexivity.
Qed.

Lemma excerpt_blocks_spec (field : FieldSpec.t)
    (max_total max_doc max_pages : Z) :
  0 <= max_doc -> 0 <= max_pages ->
  forall docs total,
    total <= max_total ->
    Forall2 (block_ok field max_doc max_pages) docs
            (excerpt_blocks field max_total max_doc max_pages docs total)
    /\ total + total_text_length
                 (concat (excerpt_blocks field max_total max_doc max_pages
                                         docs total)) <= max_total
    /\ Forall (fun e => DocExcerpt.text e <> [])
              (concat (excerpt_blocks field max_total max_doc max_pages
                                      docs total)).
Proof.
  intros Hdoc Hpages.
  induction docs as [|doc docs IH]; intros total Ht; simpl.
  - repeat split; try constructor. lia.
  - destruct (Z.leb_spec max_total total) as [Hstop | Hgo].
    + destruct (IH total Ht) as [F [Hsum Hne]]. simpl.
      repeat split; try assumption.
      constructor; [apply empty_block_ok; assumption | exact F].
    + destruct (excerpts_of_pages max_total max_doc (LayoutDoc.doc_id doc)
                  (selected_pages field max_pages doc) 0 total)
        as [block t] eqn:E.
      pose proof (block_of_doc_ok _ _ _ _ Hdoc Hpages E) as Hb.
      apply excerpts_of_pages_spec in E.
      destruct E as [Et [Hmax [_ Hp]]].
      destruct (IH t (Hmax Ht)) as [F [Hsum Hne]].
      simpl. rewrite total_text_length_app.
      repeat split.
      * constructor; assumption.
      * lia.
      * apply Forall_app. split; [|exact Hne].
        eapply picked_nonempty; exact Hp.
Qed.

(** The code and the rule of the specification select the same pages. *)
Lemma selected_pages_rule (field : FieldSpec.t) (max_pages : Z)
    (doc : LayoutDoc.t) :
  0 <= max_pages ->
  selected_pages field max_pages doc
  = ExcerptRule.selected field (Z.to_nat max_pages) doc.
Proof.
  intros Hmax. unfold selected_pages, ExcerptRule.selected,
    ExcerptRule.keyword_pages, ExcerptRule.ascending. cbv zeta.
  rewrite slice_to_nonneg by exact Hmax. f_equal.
  destruct (filter _ (sorted_by LayoutPageText.page Z.ltb
                                (LayoutDoc.pages doc))) as [|p matching].
  - cbn [nonempty negb andb].
    destruct (sorted_by LayoutPageText.page Z.ltb (LayoutDoc.pages doc));
      reflexivity.
  - reflexivity.
Qed.

Lemma quotes_no_budget (doc_id : str) (pages : list LayoutPageText.t) :
  ExcerptRule.quotes doc_id 0 pages = [].
Proof.
  induction pages as [|p rest IH]; cbn [ExcerptRule.quotes firstn nonempty];
    [reflexivity | exact IH].
Qed.

Lemma chars_total_text_length (excerpts : list DocExcerpt.t) :
  Z.of_nat (ExcerptRule.chars excerpts) = total_text_length excerpts.
Proof.
  unfold ExcerptRule.chars.
  induction excerpts as [|e rest IH]; cbn [map concat total_text_length
                                           fold_right]; [reflexivity|].
  fold (total_text_length rest). rewrite length_app, Nat2Z.inj_add, IH.
  reflexivity.
Qed.

(** The inner loop is the rule's [quotes], with the smaller of the two
    budgets left. *)
Lemma excerpts_of_pages_rule (max_total max_doc : Z) (doc_id : str) :
  forall selected used total,
    excerpts_of_pages max_total max_doc doc_id selected used total
    = (ExcerptRule.quotes doc_id
         (Z.to_nat (Z.min (max_doc - used) (max_total - total))) selected,
       total
       + total_text_length
           (ExcerptRule.quotes doc_id
              (Z.to_nat (Z.min (max_doc - used) (max_total - total)))
              selected)).
Proof.
  induction selected as [|p rest IH]; intros used total;
    cbn [excerpts_of_pages ExcerptRule.quotes].
  - cbn. rewrite Z.add_0_r. reflexivity.
  - assert (Hstop : Z.min (max_doc - used) (max_total - total) <= 0 ->
              (ExcerptRule.quotes doc_id
                 (Z.to_nat (Z.min (max_doc - used) (max_total - total)))
                 (p :: rest)) = []).
    { intros H. replace (Z.to_nat _) with 0%nat by lia.
      apply quotes_no_budget. }
    cbn [ExcerptRule.quotes] in Hstop.
    destruct (Z.leb_spec max_total total) as [Ht | Ht].
    { rewrite Hstop by lia. cbn. rewrite Z.add_0_r. reflexivity. }
    destruct (Z.leb_spec max_doc used) as [Hu | Hu].
    { rewrite Hstop by lia. cbn. rewrite Z.add_0_r. reflexivity. }
    clear Hstop. cbv zeta.
    set (m := Z.min (max_doc - used) (max_total - total)).
    assert (Hm : 0 <= m) by lia.
    rewrite slice_to_nonneg by exact Hm.
    set (text := firstn (Z.to_nat m) (LayoutPageText.full_text p)).
    assert (Hlen : (length text <= Z.to_nat m)%nat).
    { unfold text. rewrite length_firstn. lia. }
    destruct (nonempty text) eqn:En.
    + rewrite IH.
      replace (Z.to_nat (Z.min (max_doc - (used + len text))
                               (max_total - (total + len text))))
        with (Z.to_nat m - length text)%nat by (unfold len; lia).
      cbn [total_text_length fold_right DocExcerpt.text].
      fold (total_text_length
              (ExcerptRule.quotes doc_id (Z.to_nat m - length text) rest)).
      f_equal. lia.
    + apply IH.
Qed.

Lemma excerpts_no_budget (field : FieldSpec.t) (max_doc max_pages : nat)
    (docs : list LayoutDoc.t) :
  ExcerptRule.excerpts field 0 max_doc max_pages docs = [].
Proof.
  induction docs as [|doc docs IH]; cbn [ExcerptRule.excerpts];
    [reflexivity|].
  cbv zeta. rewrite Nat.min_0_r, quotes_no_budget. cbn [app].
  exact IH.
Qed.

(** The outer loop is the rule's [excerpts], with the total budget left. *)
Lemma excerpts_of_docs_rule (field : FieldSpec.t)
    (max_total max_doc max_pages : Z) :
  0 <= max_pages ->
  forall docs total,
    excerpts_of_docs field max_total max_doc max_pages docs total
    = ExcerptRule.excerpts field (Z.to_nat (max_total - total))
        (Z.to_nat max_doc) (Z.to_nat max_pages) docs.
Proof.
  intros Hpages.
  induction docs as [|doc docs IH]; intros total;
    cbn [excerpts_of_docs ExcerptRule.excerpts]; [reflexivity|].
  destruct (Z.leb_spec max_total total) as [Ht | Ht].
  - replace (Z.to_nat (max_total - total)) with 0%nat by lia.
    cbv zeta. rewrite Nat.min_0_r, quotes_no_budget. cbn [app].
    symmetry. apply excerpts_no_budget.
  - rewrite excerpts_of_pages_rule, IH, (selected_pages_rule _ _ Hpages).
    cbv zeta.
    replace (Z.to_nat (Z.min (max_doc - 0) (max_total - total)))
      with (Nat.min (Z.to_nat max_doc) (Z.to_nat (max_total - total)))
      by lia.
    set (block := ExcerptRule.quotes (LayoutDoc.doc_id doc) _ _).
    pose proof (chars_total_text_length block) as Hc.
    replace (Z.to_nat (max_total - (total + total_text_length block)))
      with (Z.to_nat (max_total - total) - ExcerptRule.chars block)%nat
      by lia.
    reflexivity.
Qed.

(** What the rule's [quotes] amount to: put together, the texts quoted
    from a document are the start of the texts of its selected pages, cut
    at the budget. *)
Lemma quotes_text (doc_id : str) (pages : list LayoutPageText.t) :
  forall budget,
    concat (map DocExcerpt.text (ExcerptRule.quotes doc_id budget pages))
    = firstn budget (concat (map LayoutPageText.full_text pages)).
Proof.
  induction pages as [|p rest IH]; intros budget;
    cbn [ExcerptRule.quotes map concat].
  - rewrite firstn_nil. reflexivity.
  - cbv zeta. rewrite firstn_app.
    destruct (nonempty (firstn budget (LayoutPageText.full_text p))) eqn:En.
    + cbn [map concat DocExcerpt.text]. rewrite IH.
      f_equal. f_equal. rewrite length_firstn. lia.
    + destruct (firstn budget (LayoutPageText.full_text p)) as [|c t] eqn:Ef;
        [|discriminate En].
      cbn [app]. rewrite IH.
      destruct budget as [|n].
      * rewrite !firstn_0. reflexivity.
      * destruct (LayoutPageText.full_text p) as [|c t];
          [|discriminate Ef].
        cbn [length]. rewrite Nat.sub_0_r. reflexivity.
Qed.

(** C8, as amended.  With budgets that are not negative, for every field
    and list of routed documents the excerpts of
    [build_excerpts_for_field] have a total text length of at most
    [max_total_chars], none has an empty text, and the list is the
    concatenation, in routing order, of one block per routed document;
    each block has a text length of at most [max_chars_per_doc], at most
    [max_pages_per_doc] excerpts, ascending page numbers, and quotes the
    start of pages of its document that contain a keyword of the field or,
    when no page of the document does, only a page with the lowest page
    number (at most one excerpt).  And the list is the one the rule of the
    specification gives: per document, in routing order, the keyword pages
    in ascending page order (the first page when there is none), at most
    [max_pages_per_doc] of them, each quoted up to the smaller of what is
    left of the two character budgets, empty quotes dropped. *)
Theorem build_excerpts_for_field_capped :
  forall (field : FieldSpec.t) (routed_docs : list LayoutDoc.t)
         (max_total_chars max_chars_per_doc max_pages_per_doc : Z),
    0 <= max_total_chars ->
    0 <= max_chars_per_doc ->
    0 <= max_pages_per_doc ->
    total_text_length
      (build_excerpts_for_field field max_total_chars max_chars_per_doc
                                max_pages_per_doc routed_docs)
    <= max_total_chars
    /\ Forall (fun e => DocExcerpt.text e <> [])
              (build_excerpts_for_field field max_total_chars
                 max_chars_per_doc max_pages_per_doc routed_docs)
    /\ (exists blocks,
          build_excerpts_for_field field max_total_chars max_chars_per_doc
                                   max_pages_per_doc routed_docs
          = concat blocks
          /\ Forall2 (block_ok field max_chars_per_doc max_pages_per_doc)
                     routed_docs blocks)
    /\ build_excerpts_for_field field max_total_chars max_chars_per_doc
                                max_pages_per_doc routed_docs
       = ExcerptRule.excerpts field (Z.to_nat max_total_chars)
           (Z.to_nat max_chars_per_doc) (Z.to_nat max_pages_per_doc)
           routed_docs.
Proof.
  intros field docs max_total max_doc max_pages Ht Hd Hp.
  split; [|split; [|split]].
  - unfold build_excerpts_for_field. rewrite <- excerpt_blocks_concat.
    destruct (excerpt_blocks_spec field Hd Hp docs Ht) as [_ [Hsum _]]. lia.
  - unfold build_excerpts_for_field. rewrite <- excerpt_blocks_concat.
    destruct (excerpt_blocks_spec field Hd Hp docs Ht) as [_ [_ Hne]].
    exact Hne.
  - unfold build_excerpts_for_field. rewrite <- excerpt_blocks_concat.
    destruct (excerpt_blocks_spec field Hd Hp docs Ht) as [F _].
    eexists. split; [reflexivity | exact F].
  - unfold build_excerpts_for_field.
    rewrite (excerpts_of_docs_rule field max_total max_doc Hp docs 0).
    rewrite Z.sub_0_r. reflexivity.
Qed.

(* --------------------------------------------------------------------- *)
(** ** The retry protocol of the generator client *)
(* --------------------------------------------------------------------- *)

Section RetryProtocol.

Variable World : Type.
Variable _call_api : list Message.t -> Z -> World -> api_outcome * World.
Variable _parse_llm_response : FieldSpec.t -> str -> result (list Candidate.t).
Variable _build_extraction_prompt : FieldSpec.t -> list DocExcerpt.t -> str.
Variable _build_retry_prompt : FieldSpec.t -> str -> str.

Local Abbreviation run_client :=
  (extract_candidates _call_api _parse_llm_response
                      _build_extraction_prompt _build_retry_prompt).



End RetryProtocol.



(* --------------------------------------------------------------------- *)
(** ** The evidence check inside the orchestrator *)
(* --------------------------------------------------------------------- *)

Lemma evidence_check_ignores_rejected_reasons (field : FieldSpec.t)
    (c : Candidate.t) (reason : str) :
  evidence_supports_value field (Candidate.append_rejected_reason c reason)
  = evidence_supports_value field c.
Proof. reflexivity. Qed.

Lemma evidence_check_ignores_from_method (field : FieldSpec.t)
    (c : Candidate.t) (m : ExtractionMethod) :
  evidence_supports_value field (Candidate.with_from_method c m)
  = evidence_supports_value field c.
Proof. reflexivity. Qed.

Lemma apply_evidence_check_supported (field : FieldSpec.t) (c : Candidate.t) :
  evidence_supports_value field c = true -> apply_evidence_check field c = c.
Proof. unfold apply_evidence_check. intros ->. reflexivity. Qed.

Lemma apply_evidence_check_unsupported (field : FieldSpec.t)
    (c : Candidate.t) :
  evidence_supports_value field c = false ->
  apply_evidence_check field c
  = Candidate.append_rejected_reason c UNSUPPORTED_BY_EVIDENCE.
Proof. unfold apply_evidence_check. intros ->. reflexivity. Qed.

Lemma apply_evidence_check_same_answer (field : FieldSpec.t)
    (c : Candidate.t) :
  evidence_supports_value field (apply_evidence_check field c)
  = evidence_supports_value field c.
Proof.
  unfold apply_evidence_check.
  destruct (evidence_supports_value field c) eqn:E; simpl; [exact E|].
  rewrite evidence_check_ignores_rejected_reasons. exact E.
Qed.

Lemma apply_evidence_check_evidence (field : FieldSpec.t) (c : Candidate.t) :
  Candidate.evidence (apply_evidence_check field c) = Candidate.evidence c.
Proof.
  unfold apply_evidence_check.
  destruct (evidence_supports_value field c); reflexivity.
Qed.

Lemma is_accepted_true (c : Candidate.t) :
  Candidate.is_accepted c = true <-> Candidate.rejected_reasons c = [].
Proof.
  unfold Candidate.is_accepted, len.
  destruct (Candidate.rejected_reasons c); simpl; split;
    try reflexivity; try discriminate.
Qed.

Lemma fresh_candidate_accepted_iff (field : FieldSpec.t) (c : Candidate.t) :
  Candidate.rejected_reasons c = [] ->
  (Candidate.is_accepted (apply_evidence_check field c) = true
   <-> evidence_supports_value field c = true).
Proof.
  intros Hfresh. rewrite is_accepted_true. unfold apply_evidence_check.
  destruct (evidence_supports_value field c); simpl.
  - tauto.
  - rewrite Hfresh. simpl. split; discriminate.
Qed.

(* --------------------------------------------------------------------- *)
(** ** The candidates of a field and of a run *)
(* --------------------------------------------------------------------- *)

Section OrchestratorFacts.

Variable heuristic_candidates_for_field :
  FieldSpec.t -> list LayoutDoc.t -> result (list Candidate.t).
Variable Client : Type.
Variable llm_extract_candidates :
  Client -> FieldSpec.t -> list DocExcerpt.t -> RunOptions.t
  -> result (list Candidate.t) * Client.
Variable run_id : str.
Variable run_options : RunOptions.t.
Variable layout : list LayoutDoc.t.
Variable routing : list RoutingEntry.t.

Local Abbreviation State := (RunState Client).
Local Abbreviation routed field :=
  (_get_routed_docs (FieldSpec.key field) routing layout).
Local Abbreviation pass := (llm_pass llm_extract_candidates run_options).
Local Abbreviation step :=
  (process_field heuristic_candidates_for_field llm_extract_candidates
                 run_options layout routing).
Local Abbreviation loop :=
  (fields_loop heuristic_candidates_for_field llm_extract_candidates
               run_options layout routing).
Local Abbreviation run :=
  (extract_candidates_for_run heuristic_candidates_for_field
     llm_extract_candidates run_id run_options layout routing).
Local Abbreviation from_heuristics :=
  (heuristic_source heuristic_candidates_for_field layout routing).
Local Abbreviation made_by_client :=
  (client_call llm_extract_candidates run_options).

Lemma llm_pass_cases (field : FieldSpec.t) (docs : list LayoutDoc.t)
    (s : State) :
  exists new,
    llm_pass_outcome llm_extract_candidates run_options field s (fst (pass field docs s)) (snd (pass field docs s))
                     new.
Proof.
  unfold llm_pass.
  set (excerpts := build_excerpts_for_field field DEFAULT_MAX_TOTAL_CHARS
                     DEFAULT_MAX_CHARS_PER_DOC DEFAULT_MAX_PAGES_PER_DOC docs).
  destruct (nonempty excerpts) eqn:En.
  - apply nonempty_true in En. unfold invoke_client.
    destruct (llm_extract_candidates (client s) field excerpts run_options)
      as [[cs | e] c] eqn:E.
    + eexists. cbn [fst snd]. eapply pass_returned; eassumption.
    + destruct e as [m | f m | k m]; eexists; cbn [fst snd].
      * eapply pass_other_error; [exact En | discriminate | exact E].
      * eapply pass_invalid_json; eassumption.
      * eapply pass_other_error; [exact En | discriminate | exact E].
  - eexists. cbn [fst snd]. apply pass_no_excerpts.
Qed.

Lemma llm_pass_outcome_calls (field : FieldSpec.t) (s : State) r s' new :
  llm_pass_outcome llm_extract_candidates run_options field s r s' new ->
  llm_calls s' = llm_calls s ++ new
  /\ (forall call, In call new ->
        LlmCall.field call = field /\ made_by_client call)
  /\ (forall x, r = Ok x ->
        forall y, In y x <->
                  exists c, y = apply_evidence_check field c
                            /\ llm_source new field c).
Proof.
  intros H.
  destruct H as [ | excerpts cs c Hne Hcall | excerpts f m c Hne Hcall
                  | excerpts e c Hne Hother Hcall ];
    cbn [llm_calls trace_append].
  - rewrite app_nil_r. split; [reflexivity|]. split.
    + intros call [].
    + intros x Hx y. inversion Hx; subst. split.
      * intros [].
      * intros [c [_ [call [cs [[] _]]]]].
  - split; [reflexivity|]. split.
    + intros call [<- | []]. split; [reflexivity|].
      eexists _, _. exact Hcall.
    + intros x Hx y. inversion Hx; subst. rewrite in_map_iff. split.
      * intros [c' [<- Hc]]. exists c'. split; [reflexivity|].
        eexists _, cs.
        split; [left; reflexivity|]. split; [reflexivity|].
        split; [reflexivity | exact Hc].
      * intros [c' [-> [call [cs' [[<- | []] [_ [Ho Hc]]]]]]].
        cbn in Ho. inversion Ho; subst. exists c'. auto.
  - split; [reflexivity|]. split.
    + intros call [<- | []]. split; [reflexivity|].
      eexists _, _. exact Hcall.
    + intros x Hx y. inversion Hx; subst. split.
      * intros [].
      * intros [c' [-> [call [cs' [[<- | []] [_ [Ho Hc]]]]]]].
        cbn in Ho. discriminate Ho.
  - split; [reflexivity|]. split.
    + intros call [<- | []]. split; [reflexivity|].
      eexists _, _. exact Hcall.
    + intros x Hx. discriminate Hx.
Qed.

Lemma from_heuristics_iff (field : FieldSpec.t) (hs : list Candidate.t)
    (c : Candidate.t) :
  nonempty (routed field) = true ->
  heuristic_candidates_for_field field (routed field) = Ok hs ->
  (from_heuristics field c <-> In c hs).
Proof.
  intros Hr Hh. unfold heuristic_source. cbv zeta. split.
  - intros [_ [cs [E Hin]]]. rewrite Hh in E. inversion E; subst. exact Hin.
  - intros Hin. split; [apply nonempty_true; exact Hr|].
    exists hs. split; [exact Hh | exact Hin].
Qed.

(** The candidates of one field: exactly the verified heuristic candidates
    and the verified candidates the client returned for the field. *)
Lemma process_field_candidates (field : FieldSpec.t) (s s' : State)
    (fc : list Candidate.t) (stats : FieldStats.t) :
  step field s = (Ok (fc, stats), s') ->
  exists new,
    llm_calls s' = llm_calls s ++ new
    /\ (forall call, In call new ->
          LlmCall.field call = field /\ made_by_client call)
    /\ (forall x, In x fc <->
                  exists c, x = apply_evidence_check field c
                            /\ (from_heuristics field c
                                \/ llm_source new field c)).
Proof.
  unfold process_field.
  destruct (nonempty (routed field)) eqn:Hr; cbn [negb].
  2:{ intros E. inversion E; subst. exists [].
      rewrite app_nil_r. split; [reflexivity|]. split; [intros call []|].
      intros x. split; [intros []|].
      intros [c [_ [[Hne _] | [call [cs [[] _]]]]]].
      apply nonempty_true in Hne. congruence. }
  destruct (heuristic_candidates_for_field field (routed field))
    as [hs | e] eqn:Hh; [|discriminate].
  cbv zeta.
  destruct (should_call_llm (filter (evidence_supports_value field) hs)).
  - destruct (llm_pass_cases field (routed field)
                (trace_append s (heuristic_event field))) as [new Hout].
    destruct (pass field (routed field)
                (trace_append s (heuristic_event field))) as [r s''] eqn:Ep.
    cbn [fst snd] in Hout.
    destruct r as [verified | e]; [|discriminate].
    intros E. inversion E; subst; clear E.
    apply llm_pass_outcome_calls in Hout.
    destruct Hout as [Hcalls [Hfield Hiff]]. cbn [llm_calls trace_append] in Hcalls.
    exists new. split; [exact Hcalls|]. split; [exact Hfield|].
    intros x. rewrite in_app_iff, in_map_iff, (Hiff verified eq_refl x). split.
    + intros [[c [<- Hc]] | [c [-> Hc]]]; exists c; split; try reflexivity.
      * left. apply (from_heuristics_iff c Hr Hh). exact Hc.
      * right. exact Hc.
    + intros [c [-> [Hc | Hc]]].
      * left. exists c. split; [reflexivity|].
        apply (from_heuristics_iff c Hr Hh). exact Hc.
      * right. exists c. split; [reflexivity | exact Hc].
  - intros E. inversion E; subst; clear E. exists [].
    cbn [llm_calls trace_append]. rewrite app_nil_r.
    split; [reflexivity|]. split; [intros call []|].
    intros x. rewrite in_map_iff. split.
    + intros [c [<- Hc]]. exists c. split; [reflexivity|].
      left. apply (from_heuristics_iff c Hr Hh). exact Hc.
    + intros [c [-> [Hc | [call [cs [[] _]]]]]].
      exists c. split; [reflexivity|].
      apply (from_heuristics_iff c Hr Hh). exact Hc.
Qed.

Lemma llm_source_app (a b : list LlmCall.t) (field : FieldSpec.t)
    (c : Candidate.t) :
  llm_source (a ++ b) field c <-> llm_source a field c \/ llm_source b field c.
Proof.
  unfold llm_source. split.
  - intros [call [cs [Hin H]]]. apply in_app_iff in Hin.
    destruct Hin; [left | right]; exists call, cs; auto.
  - intros [[call [cs [Hin H]]] | [call [cs [Hin H]]]];
      exists call, cs; (split; [apply in_app_iff; auto | exact H]).
Qed.

Lemma llm_source_field (calls : list LlmCall.t) (field : FieldSpec.t)
    (c : Candidate.t) :
  llm_source calls field c ->
  exists call, In call calls /\ LlmCall.field call = field.
Proof. intros [call [cs [Hin [Hf _]]]]. exists call. auto. Qed.

(** The candidates the loop over the fields accumulates. *)
Lemma fields_loop_candidates (fields : list FieldSpec.t) :
  forall (acc : list Candidate.t) (st : list (str * FieldStats.t))
         (s s' : State) (all : list Candidate.t)
         (st' : list (str * FieldStats.t)),
    loop fields acc st s = (Ok (all, st'), s') ->
    exists new,
      llm_calls s' = llm_calls s ++ new
      /\ (forall call, In call new ->
            In (LlmCall.field call) fields /\ made_by_client call)
      /\ (forall x, In x all <->
                    In x acc
                    \/ exists field c,
                         In field fields
                         /\ x = apply_evidence_check field c
                         /\ (from_heuristics field c
                             \/ llm_source new field c)).
Proof.
  induction fields as [|field rest IH]; intros acc st s s' all st' E;
    cbn [fields_loop] in E.
  - inversion E; subst. exists []. rewrite app_nil_r.
    split; [reflexivity|]. split; [intros call []|].
    intros x. split; [auto|]. intros [H | [f [c [[] _]]]]. exact H.
  - destruct (step field s) as [[[fc stats] | e] s1] eqn:Es; [|discriminate].
    apply process_field_candidates in Es.
    destruct Es as [new1 [Hc1 [Hf1 Hiff1]]].
    apply IH in E. destruct E as [new2 [Hc2 [Hf2 Hiff2]]].
    exists (new1 ++ new2). split; [rewrite Hc2, Hc1, app_assoc; reflexivity|].
    split.
    { intros call Hin. apply in_app_iff in Hin. destruct Hin as [Hin | Hin].
      - destruct (Hf1 _ Hin) as [Hf Hm]. split; [left; auto | exact Hm].
      - destruct (Hf2 _ Hin) as [Hf Hm]. split; [right; exact Hf | exact Hm]. }
    intros x. rewrite Hiff2, in_app_iff, Hiff1. split.
    + intros [[Hacc | [c [-> Hsrc]]] | [f [c [Hin [-> Hsrc]]]]].
      * left. exact Hacc.
      * right. exists field, c. split; [left; reflexivity|].
        split; [reflexivity|]. rewrite llm_source_app. tauto.
      * right. exists f, c. split; [right; exact Hin|].
        split; [reflexivity|]. rewrite llm_source_app. tauto.
    + intros [Hacc | [f [c [Hin [-> Hsrc]]]]]; [tauto|].
      rewrite llm_source_app in Hsrc.
      destruct Hsrc as [Hh | [Hl | Hl]].
      * destruct Hin as [<- | Hin].
        -- left. right. exists c. auto.
        -- right. exists f, c. auto.
      * destruct (llm_source_field Hl) as [call [Hcall Hfc]].
        apply Hf1 in Hcall. destruct Hcall as [Hcall _].
        rewrite Hcall in Hfc. subst f.
        left. right. exists c. auto.
      * destruct (llm_source_field Hl) as [call [Hcall Hfc]].
        apply Hf2 in Hcall. destruct Hcall as [Hcall _].
        rewrite Hfc in Hcall.
        right. exists f, c. auto.
Qed.

(** The candidates a run returns. *)
Lemma run_candidates (schema : ResolvedSchema.t) (s s' : State)
    (out : list Candidate.t) :
  run schema s = (Ok out, s') ->
  exists new,
    llm_calls s' = llm_calls s ++ new
    /\ (forall call, In call new -> made_by_client call)
    /\ (forall x, In x out <->
                  exists field c,
                    In field (fields_to_process run_options schema)
                    /\ x = apply_evidence_check field c
                    /\ (from_heuristics field c \/ llm_source new field c)).
Proof.
  unfold extract_candidates_for_run.
  destruct (loop (fields_to_process run_options schema) [] [] s)
    as [[[all st] | e] s1] eqn:El; [|discriminate].
  intros E. inversion E; subst; clear E.
  apply fields_loop_candidates in El. destruct El as [new [Hc [Hm Hiff]]].
  exists new. cbn [llm_calls trace_append write_candidates_json].
  split; [exact Hc|]. split; [intros call Hin; apply Hm; exact Hin|].
  intros x. split.
  - intros Hin.
    apply (Permutation_in _ (Permutation_sym (_sort_candidates_perm all)))
      in Hin.
    apply Hiff in Hin. destruct Hin as [[] | H]. exact H.
  - intros H. apply (Permutation_in _ (_sort_candidates_perm all)).
    apply Hiff. right. exact H.
Qed.










End OrchestratorFacts.

(* --------------------------------------------------------------------- *)
(** ** The candidate objects of a run *)
(* --------------------------------------------------------------------- *)

Lemma store_set_same (h : Obj.Store) (r : Obj.Ref) (c : Candidate.t) :
  Obj.store_set h r c r = c.
Proof. unfold Obj.store_set. rewrite Nat.eqb_refl. reflexivity. Qed.

Lemma store_set_other (h : Obj.Store) (r r' : Obj.Ref) (c : Candidate.t) :
  r' <> r -> Obj.store_set h r c r' = h r'.
Proof.
  intros Hne. unfold Obj.store_set.
  destruct (Nat.eqb_spec r' r); [contradiction | reflexivity].
Qed.

(** One step of a verification loop writes the result of the evidence
    check into the object. *)
Lemma check_step_same (field : FieldSpec.t) (h : Obj.Store) (r : Obj.Ref) :
  (if negb (evidence_supports_value field (h r))
   then Obj.append_in_place h r UNSUPPORTED_BY_EVIDENCE
   else h) r
  = apply_evidence_check field (h r).
Proof.
  unfold apply_evidence_check, Obj.append_in_place.
  destruct (evidence_supports_value field (h r)); cbn [negb];
    [reflexivity | apply store_set_same].
Qed.

Lemma check_step_other (field : FieldSpec.t) (h : Obj.Store)
    (r r' : Obj.Ref) :
  r' <> r ->
  (if negb (evidence_supports_value field (h r))
   then Obj.append_in_place h r UNSUPPORTED_BY_EVIDENCE
   else h) r'
  = h r'.
Proof.
  intros Hne. unfold Obj.append_in_place.
  destruct (evidence_supports_value field (h r)); cbn [negb];
    [reflexivity | apply store_set_other; exact Hne].
Qed.

(** The two loops leave the same store. *)
Lemma check_heuristic_candidates_store (field : FieldSpec.t)
    (candidates : list Obj.Ref) :
  forall h,
    snd (Obj.check_heuristic_candidates field candidates h)
    = Obj.check_llm_candidates field candidates h.
Proof.
  induction candidates as [|r rest IH]; intros h;
    cbn [Obj.check_heuristic_candidates Obj.check_llm_candidates];
    [reflexivity|].
  destruct (evidence_supports_value field (h r)); cbn [negb].
  - rewrite <- IH.
    destruct (Obj.check_heuristic_candidates field rest h). reflexivity.
  - apply IH.
Qed.

Lemma checked_once_start (h0 : Obj.Store) : Obj.checked_once h0 h0 [].
Proof. split; [intros field c [] | reflexivity]. Qed.

(** A verification loop over objects none of which was gone through
    before, nor occurs twice, keeps the store in step with the log. *)
Lemma check_llm_candidates_once (h0 : Obj.Store) (field : FieldSpec.t)
    (candidates : list Obj.Ref) :
  forall (h : Obj.Store) (log : list (FieldSpec.t * Obj.Ref)),
    NoDup (map snd (log ++ map (pair field) candidates)) ->
    Obj.checked_once h0 h log ->
    Obj.checked_once h0 (Obj.check_llm_candidates field candidates h)
                     (log ++ map (pair field) candidates).
Proof.
  induction candidates as [|r rest IH]; intros h log Hnd [Hlog Hrest];
    cbn [Obj.check_llm_candidates map].
  - rewrite app_nil_r. split; assumption.
  - cbn [map] in Hnd.
    assert (E : log ++ (field, r) :: map (pair field) rest
                = (log ++ [(field, r)]) ++ map (pair field) rest)
      by (rewrite <- app_assoc; reflexivity).
    rewrite E in *. clear E.
    apply IH; [exact Hnd|].
    assert (Hprefix : NoDup (map snd (log ++ [(field, r)]))).
    { rewrite map_app in Hnd. apply NoDup_app_remove_r in Hnd. exact Hnd. }
    rewrite map_app in Hprefix. cbn [map snd] in Hprefix.
    apply NoDup_remove_2 in Hprefix. rewrite app_nil_r in Hprefix.
    assert (Hr : h r = h0 r) by (apply Hrest; exact Hprefix).
    split.
    + intros f c Hin. apply in_app_iff in Hin.
      destruct Hin as [Hin | [E | []]].
      * rewrite check_step_other; [apply Hlog; exact Hin|].
        intros ->. apply Hprefix.
        apply in_map_iff. exists (f, r). split; [reflexivity | exact Hin].
      * inversion E; subst. rewrite check_step_same, Hr. reflexivity.
    + intros c Hnot. rewrite map_app, in_app_iff in Hnot. cbn in Hnot.
      rewrite check_step_other; [apply Hrest; tauto|].
      intros ->. tauto.
Qed.

Lemma obj_llm_source_app (a b : list Obj.Call.t) (field : FieldSpec.t)
    (c : Obj.Ref) :
  Obj.llm_source (a ++ b) field c
  <-> Obj.llm_source a field c \/ Obj.llm_source b field c.
Proof.
  unfold Obj.llm_source. split.
  - intros [call [cs [Hin H]]]. apply in_app_iff in Hin.
    destruct Hin; [left | right]; exists call, cs; auto.
  - intros [[call [cs [Hin H]]] | [call [cs [Hin H]]]];
      exists call, cs; (split; [apply in_app_iff; auto | exact H]).
Qed.

Lemma obj_llm_source_field (calls : list Obj.Call.t) (field : FieldSpec.t)
    (c : Obj.Ref) :
  Obj.llm_source calls field c ->
  exists call, In call calls /\ Obj.Call.field call = field.
Proof. intros [call [cs [Hin [Hf _]]]]. exists call. auto. Qed.

Lemma obj_llm_source_none (field : FieldSpec.t) (c : Obj.Ref) :
  ~ Obj.llm_source [] field c.
Proof. intros [call [cs [[] _]]]. Qed.

Lemma obj_llm_source_one (field : FieldSpec.t)
    (excerpts : list DocExcerpt.t) (outcome : result (list Obj.Ref))
    (f : FieldSpec.t) (c : Obj.Ref) :
  Obj.llm_source [Obj.Call.make field excerpts outcome] f c
  <-> f = field /\ exists cs, outcome = Ok cs /\ In c cs.
Proof.
  split.
  - intros [call [cs [[<- | []] [Hf [Ho Hin]]]]]. cbn in Hf, Ho.
    split; [symmetry; exact Hf | exists cs; auto].
  - intros [-> [cs [-> Hin]]]. eexists _, cs.
    split; [left; reflexivity|]. cbn. auto.
Qed.

Lemma obj_heuristic_source_app (a b : list Obj.HeuristicCall.t)
    (field : FieldSpec.t) (c : Obj.Ref) :
  Obj.heuristic_source (a ++ b) field c
  <-> Obj.heuristic_source a field c \/ Obj.heuristic_source b field c.
Proof.
  unfold Obj.heuristic_source. split.
  - intros [call [cs [Hin H]]]. apply in_app_iff in Hin.
    destruct Hin; [left | right]; exists call, cs; auto.
  - intros [[call [cs [Hin H]]] | [call [cs [Hin H]]]];
      exists call, cs; (split; [apply in_app_iff; auto | exact H]).
Qed.

Lemma obj_heuristic_source_field (calls : list Obj.HeuristicCall.t)
    (field : FieldSpec.t) (c : Obj.Ref) :
  Obj.heuristic_source calls field c ->
  exists call, In call calls /\ Obj.HeuristicCall.field call = field.
Proof. intros [call [cs [Hin [Hf _]]]]. exists call. auto. Qed.

Lemma obj_heuristic_source_none (field : FieldSpec.t) (c : Obj.Ref) :
  ~ Obj.heuristic_source [] field c.
Proof. intros [call [cs [[] _]]]. Qed.

Lemma obj_heuristic_source_one (field : FieldSpec.t)
    (docs : list LayoutDoc.t) (outcome : result (list Obj.Ref))
    (f : FieldSpec.t) (c : Obj.Ref) :
  Obj.heuristic_source [Obj.HeuristicCall.make field docs outcome] f c
  <-> f = field /\ exists cs, outcome = Ok cs /\ In c cs.
Proof.
  split.
  - intros [call [cs [[<- | []] [Hf [Ho Hin]]]]]. cbn in Hf, Ho.
    split; [symmetry; exact Hf | exists cs; auto].
  - intros [-> [cs [-> Hin]]]. eexists _, cs.
    split; [left; reflexivity|]. cbn. auto.
Qed.

Section ObjectRunFacts.

Variable Extractor : Type.
Variable heuristic_candidates_for_field :
  Extractor -> FieldSpec.t -> list LayoutDoc.t
  -> result (list Obj.Ref) * Extractor.
Variable Client : Type.
Variable llm_extract_candidates :
  Client -> Obj.Store -> FieldSpec.t -> list DocExcerpt.t -> RunOptions.t
  -> result (list Obj.Ref) * Client.
Variable run_id : str.
Variable run_options : RunOptions.t.
Variable layout : list LayoutDoc.t.
Variable routing : list RoutingEntry.t.
Variable h0 : Obj.Store.

Local Abbreviation State := (Obj.RunState Extractor Client).
Local Abbreviation routed field :=
  (_get_routed_docs (FieldSpec.key field) routing layout).
Local Abbreviation pass :=
  (@Obj.llm_pass Extractor Client llm_extract_candidates run_options).
Local Abbreviation rest_of_step :=
  (@Obj.after_heuristics Extractor Client llm_extract_candidates
     run_options).
Local Abbreviation step :=
  (Obj.process_field heuristic_candidates_for_field llm_extract_candidates
                     run_options layout routing).
Local Abbreviation loop :=
  (Obj.fields_loop heuristic_candidates_for_field llm_extract_candidates
                   run_options layout routing).
Local Abbreviation run :=
  (Obj.extract_candidates_for_run heuristic_candidates_for_field
     llm_extract_candidates run_id run_options layout routing).

(** From [s] to [s'] the loops went through [handed] and the extractor
    and the client were called as [hcalls] and [calls] say; if no object
    was gone through twice, the store stayed in step with the log. *)
Local Abbreviation grew s s' handed hcalls calls :=
  (Obj.handed_over s' = Obj.handed_over s ++ handed
   /\ Obj.heuristic_calls s' = Obj.heuristic_calls s ++ hcalls
   /\ Obj.llm_calls s' = Obj.llm_calls s ++ calls
   /\ (NoDup (map snd (Obj.handed_over s')) ->
       Obj.checked_once h0 (Obj.store s) (Obj.handed_over s) ->
       Obj.checked_once h0 (Obj.store s') (Obj.handed_over s'))).

(** The LLM pass of a field that does not raise. *)
Lemma obj_llm_pass_objects (field : FieldSpec.t) (docs : list LayoutDoc.t)
    (s s' : State) (cs : list Obj.Ref) :
  pass field docs s = (Ok cs, s') ->
  exists calls,
    grew s s' (map (pair field) cs) [] calls
    /\ (forall call, In call calls -> Obj.Call.field call = field)
    /\ (forall c, In c cs <-> Obj.llm_source calls field c).
Proof.
  unfold Obj.llm_pass.
  set (excerpts := build_excerpts_for_field field DEFAULT_MAX_TOTAL_CHARS
                     DEFAULT_MAX_CHARS_PER_DOC DEFAULT_MAX_PAGES_PER_DOC docs).
  destruct (nonempty excerpts).
  - unfold Obj.invoke_client.
    destruct (llm_extract_candidates (Obj.client s) (Obj.store s) field
                excerpts run_options) as [[got | e] c] eqn:E.
    + intros H. inversion H; subst; clear H.
      exists [Obj.Call.make field excerpts (Ok cs)].
      cbn [Obj.trace_append Obj.checked Obj.handed_over Obj.llm_calls
           Obj.heuristic_calls Obj.store].
      rewrite app_nil_r.
      split; [split; [reflexivity | split; [reflexivity |
                                            split; [reflexivity|]]]|].
      * intros Hnd Hc. apply check_llm_candidates_once; assumption.
      * split.
        -- intros call [<- | []]. reflexivity.
        -- intros x. rewrite obj_llm_source_one. split.
           ++ intros Hin. split; [reflexivity | exists cs; auto].
           ++ intros [_ [cs' [Ho Hin]]]. inversion Ho; subst. exact Hin.
    + destruct e as [m | f m | k m]; intros H; inversion H; subst; clear H.
      exists [Obj.Call.make field excerpts (Raise (LLMInvalidJSONError f m))].
      cbn [Obj.trace_append Obj.handed_over Obj.llm_calls
           Obj.heuristic_calls Obj.store map].
      rewrite !app_nil_r.
      split; [split; [reflexivity | split; [reflexivity |
                                            split; [reflexivity | auto]]]|].
      split.
      * intros call [<- | []]. reflexivity.
      * intros x. rewrite obj_llm_source_one. split; [intros []|].
        intros [_ [cs' [Ho _]]]. discriminate Ho.
  - intros H. inversion H; subst; clear H. exists [].
    cbn [Obj.trace_append Obj.checked Obj.handed_over Obj.llm_calls
         Obj.heuristic_calls Obj.store Obj.check_llm_candidates map].
    rewrite !app_nil_r.
    split; [split; [reflexivity | split; [reflexivity |
                                          split; [reflexivity | auto]]]|].
    split; [intros call []|].
    intros x. split; [intros [] | intros Hs; destruct (obj_llm_source_none Hs)].
Qed.

(** What follows the heuristic pass, in terms of the two loops. *)
Lemma obj_after_heuristics_shape (field : FieldSpec.t)
    (docs : list LayoutDoc.t) (hs : list Obj.Ref) (s : State) :
  rest_of_step field docs hs s
  = let accepted :=
      fst (Obj.check_heuristic_candidates field hs (Obj.store s)) in
    let s1 :=
      Obj.trace_append
        (Obj.checked s field hs
           (Obj.check_llm_candidates field hs (Obj.store s)))
        (heuristic_event field) in
    if should_call_llm (map (Obj.store s1) accepted)
    then
      match pass field docs s1 with
      | (Ok llm_candidates, s') =>
          (Ok (hs ++ llm_candidates,
               Obj.stats_of s' hs (hs ++ llm_candidates) true),
           s')
      | (Raise e, s') => (Raise e, s')
      end
    else (Ok (hs, Obj.stats_of s1 hs hs false), s1).
Proof.
  unfold Obj.after_heuristics.
  pose proof (check_heuristic_candidates_store field hs (Obj.store s)) as Hst.
  destruct (Obj.check_heuristic_candidates field hs (Obj.store s))
    as [accepted h].
  cbn [fst snd] in *. subst h. reflexivity.
Qed.

Lemma obj_after_heuristics_objects (field : FieldSpec.t)
    (docs : list LayoutDoc.t) (hs : list Obj.Ref) (s s' : State)
    (fc : list Obj.Ref) (stats : FieldStats.t) :
  rest_of_step field docs hs s = (Ok (fc, stats), s') ->
  exists calls,
    grew s s' (map (pair field) fc) [] calls
    /\ (forall call, In call calls -> Obj.Call.field call = field)
    /\ (forall c, In c fc <-> In c hs \/ Obj.llm_source calls field c).
Proof.
  rewrite obj_after_heuristics_shape. cbv zeta.
  set (s1 := Obj.trace_append
               (Obj.checked s field hs
                  (Obj.check_llm_candidates field hs (Obj.store s)))
               (heuristic_event field)).
  assert (H1 : grew s s1 (map (pair field) hs) [] []).
  { unfold s1. cbn [Obj.trace_append Obj.checked Obj.handed_over
                    Obj.llm_calls Obj.heuristic_calls Obj.store].
    rewrite !app_nil_r.
    split; [reflexivity | split; [reflexivity | split; [reflexivity|]]].
    intros Hnd Hc. apply check_llm_candidates_once; assumption. }
  destruct H1 as [Hh1 [Hx1 [Hc1 Hs1]]].
  destruct (should_call_llm _).
  - destruct (pass field docs s1) as [[cs | e] s2] eqn:Ep; [|discriminate].
    intros E. inversion E; subst; clear E.
    apply obj_llm_pass_objects in Ep.
    destruct Ep as [calls [[Hh2 [Hx2 [Hc2 Hs2]]] [Hfield Hiff]]].
    exists calls. split; [split; [|split; [|split]]|split].
    + rewrite Hh2, Hh1, map_app, app_assoc. reflexivity.
    + rewrite Hx2, Hx1, !app_nil_r. reflexivity.
    + rewrite Hc2, Hc1, app_nil_r. reflexivity.
    + intros Hnd Hc. apply Hs2; [exact Hnd|]. apply Hs1; [|exact Hc].
      rewrite Hh2, map_app in Hnd. apply NoDup_app_remove_r in Hnd.
      exact Hnd.
    + exact Hfield.
    + intros c. rewrite in_app_iff, Hiff. reflexivity.
  - intros E. inversion E; subst; clear E. exists [].
    split; [split; [exact Hh1 | split; [exact Hx1 |
                                        split; [exact Hc1 | exact Hs1]]]|].
    split; [intros call []|].
    intros c. split; [auto|].
    intros [H | Hs]; [exact H | destruct (obj_llm_source_none Hs)].
Qed.

(** The candidate objects of one field: the objects the extractor handed
    over, then those the client returned for the field. *)
Lemma obj_process_field_objects (field : FieldSpec.t) (s s' : State)
    (fc : list Obj.Ref) (stats : FieldStats.t) :
  step field s = (Ok (fc, stats), s') ->
  exists hcalls calls,
    grew s s' (map (pair field) fc) hcalls calls
    /\ (forall call, In call hcalls -> Obj.HeuristicCall.field call = field)
    /\ (forall call, In call calls -> Obj.Call.field call = field)
    /\ (forall c, In c fc <->
                  Obj.heuristic_source hcalls field c
                  \/ Obj.llm_source calls field c).
Proof.
  unfold Obj.process_field.
  destruct (nonempty (routed field)); cbn [negb].
  2:{ intros E. inversion E; subst. exists [], []. cbn [map].
      rewrite !app_nil_r.
      split; [split; [reflexivity | split; [reflexivity |
                                            split; [reflexivity | auto]]]|].
      split; [intros call []|]. split; [intros call []|].
      intros c. split; [intros []|].
      intros [Hs | Hs];
        [destruct (obj_heuristic_source_none Hs) | destruct (obj_llm_source_none Hs)]. }
  unfold Obj.invoke_extractor.
  destruct (heuristic_candidates_for_field (Obj.extractor s) field
              (routed field)) as [[hs | e] ex]; [|discriminate].
  intros E. apply obj_after_heuristics_objects in E.
  destruct E as [calls [[Hh [Hx [Hc Hs]]] [Hfield Hiff]]].
  cbn [Obj.handed_over Obj.heuristic_calls Obj.llm_calls Obj.store]
    in Hh, Hx, Hc, Hs.
  exists [Obj.HeuristicCall.make field (routed field) (Ok hs)], calls.
  split; [split; [exact Hh | split; [|split; [exact Hc | exact Hs]]]|].
  { rewrite Hx, app_nil_r. reflexivity. }
  split; [intros call [<- | []]; reflexivity|].
  split; [exact Hfield|].
  intros c. rewrite Hiff, obj_heuristic_source_one. split.
  - intros [Hin | Hl]; [left | right; exact Hl].
    split; [reflexivity | exists hs; auto].
  - intros [[_ [cs [Ho Hin]]] | Hl]; [left | right; exact Hl].
    inversion Ho; subst. exact Hin.
Qed.

(** The candidate objects the loop over the fields accumulates. *)
Lemma obj_fields_loop_objects (fields : list FieldSpec.t) :
  forall (acc : list Obj.Ref) (st : list (str * FieldStats.t))
         (s s' : State) (all : list Obj.Ref)
         (st' : list (str * FieldStats.t)),
    loop fields acc st s = (Ok (all, st'), s') ->
    exists handed hcalls calls,
      grew s s' handed hcalls calls
      /\ all = acc ++ map snd handed
      /\ (forall field c,
            In (field, c) handed <->
            In field fields
            /\ (Obj.heuristic_source hcalls field c
                \/ Obj.llm_source calls field c)).
Proof.
  assert (Hgen : forall fields acc st (s s' : State) all st',
    loop fields acc st s = (Ok (all, st'), s') ->
    exists handed hcalls calls,
      grew s s' handed hcalls calls
      /\ all = acc ++ map snd handed
      /\ (forall call, In call hcalls ->
            In (Obj.HeuristicCall.field call) fields)
      /\ (forall call, In call calls -> In (Obj.Call.field call) fields)
      /\ (forall field c,
            In (field, c) handed <->
            In field fields
            /\ (Obj.heuristic_source hcalls field c
                \/ Obj.llm_source calls field c))).
  { clear fields.
    induction fields as [|field rest IH]; intros acc st s s' all st' E;
      cbn [Obj.fields_loop] in E.
    - inversion E; subst. exists [], [], []. cbn [map]. rewrite !app_nil_r.
      split; [split; [reflexivity | split; [reflexivity |
                                            split; [reflexivity | auto]]]|].
      split; [reflexivity|]. split; [intros call []|].
      split; [intros call []|].
      intros f c. split; [intros [] | intros [[] _]].
    - destruct (step field s) as [[[fc stats] | e] s1] eqn:Es;
        [|discriminate].
      apply obj_process_field_objects in Es.
      destruct Es as [hcalls1 [calls1 [[Hh1 [Hx1 [Hc1 Hs1]]]
                                        [Hg1 [Hf1 Hiff1]]]]].
      apply IH in E.
      destruct E as [handed2 [hcalls2 [calls2
                       [[Hh2 [Hx2 [Hc2 Hs2]]] [Hall [Hg2 [Hf2 Hiff2]]]]]]].
      exists (map (pair field) fc ++ handed2), (hcalls1 ++ hcalls2),
        (calls1 ++ calls2).
      split; [split; [|split; [|split]]|split; [|split; [|split]]].
      + rewrite Hh2, Hh1, app_assoc. reflexivity.
      + rewrite Hx2, Hx1, app_assoc. reflexivity.
      + rewrite Hc2, Hc1, app_assoc. reflexivity.
      + intros Hnd Hc. apply Hs2; [exact Hnd|]. apply Hs1; [|exact Hc].
        rewrite Hh2, map_app in Hnd. apply NoDup_app_remove_r in Hnd.
        exact Hnd.
      + rewrite Hall, map_app, map_map, app_assoc. cbn [snd].
        rewrite map_id. reflexivity.
      + intros call Hin. apply in_app_iff in Hin.
        destruct Hin as [Hin | Hin].
        * left. symmetry. apply Hg1. exact Hin.
        * right. apply Hg2. exact Hin.
      + intros call Hin. apply in_app_iff in Hin.
        destruct Hin as [Hin | Hin].
        * left. symmetry. apply Hf1. exact Hin.
        * right. apply Hf2. exact Hin.
      + intros f c.
        rewrite in_app_iff, in_map_iff, Hiff2, obj_heuristic_source_app,
          obj_llm_source_app.
        split.
        * intros [[c' [E Hin]] | [Hin Hsrc]].
          -- inversion E; subst. split; [left; reflexivity|].
             apply Hiff1 in Hin. tauto.
          -- split; [right; exact Hin | tauto].
        * intros [Hin [[Hh | Hh] | [Hl | Hl]]].
          -- destruct (obj_heuristic_source_field Hh) as [call [Hcall Hfc]].
             apply Hg1 in Hcall. rewrite Hcall in Hfc. subst f.
             left. exists c. split; [reflexivity|]. apply Hiff1. auto.
          -- destruct (obj_heuristic_source_field Hh) as [call [Hcall Hfc]].
             apply Hg2 in Hcall. rewrite Hfc in Hcall.
             right. auto.
          -- destruct (obj_llm_source_field Hl) as [call [Hcall Hfc]].
             apply Hf1 in Hcall. rewrite Hcall in Hfc. subst f.
             left. exists c. split; [reflexivity|]. apply Hiff1. auto.
          -- destruct (obj_llm_source_field Hl) as [call [Hcall Hfc]].
             apply Hf2 in Hcall. rewrite Hfc in Hcall.
             right. auto. }
  intros acc st s s' all st' E.
  destruct (Hgen fields acc st s s' all st' E)
    as [handed [hcalls [calls [Hg [Hall [_ [_ Hiff]]]]]]].
  exists handed, hcalls, calls. auto.
Qed.

(** The candidate objects a run returns. *)
Lemma obj_run_objects (schema : ResolvedSchema.t) (s s' : State)
    (out : list Obj.Ref) :
  run schema s = (Ok out, s') ->
  exists handed hcalls calls,
    grew s s' handed hcalls calls
    /\ Permutation (map snd handed) out
    /\ Obj.candidates_json s' = Some (map (Obj.store s') out)
    /\ (forall field c,
          In (field, c) handed <->
          In field (fields_to_process run_options schema)
          /\ (Obj.heuristic_source hcalls field c
              \/ Obj.llm_source calls field c)).
Proof.
  unfold Obj.extract_candidates_for_run.
  destruct (loop (fields_to_process run_options schema) [] [] s)
    as [[[all st] | e] s1] eqn:El; [|discriminate].
  intros E. inversion E; subst; clear E.
  apply obj_fields_loop_objects in El.
  destruct El as [handed [hcalls [calls [[Hh [Hx [Hc Hs]]] [Hall Hiff]]]]].
  exists handed, hcalls, calls.
  cbn [Obj.trace_append Obj.write_candidates_json Obj.handed_over
       Obj.llm_calls Obj.heuristic_calls Obj.store Obj.candidates_json].
  split; [split; [exact Hh | split; [exact Hx |
                                     split; [exact Hc | exact Hs]]]|].
  split; [|split; [reflexivity | exact Hiff]].
  cbn [app] in Hall. subst all. apply sorted_by_perm.
Qed.

End ObjectRunFacts.

(* --------------------------------------------------------------------- *)
(** ** Acceptance is the evidence check *)
(* --------------------------------------------------------------------- *)

(** C1, as amended.  Take a run on candidate objects that returns a list
    in which no object occurs twice and every object had an empty
    [rejected_reasons] list when it was built.  Then every emitted
    candidate went through the verification loop of a processed field,
    handed over by the heuristic pass or by the client for that field
    (whatever its [from_method]); at the end of the run it holds the
    result of the evidence check for that field, with its evidence
    untouched; it is accepted if and only if [evidence_supports_value]
    answers [True] for the field and the candidate, and when the answer is
    [False] its reasons are exactly ["unsupported_by_evidence"].  Every
    object of either origin is kept in the output, the output is, up to
    its order, the list of the objects the verification loops went
    through, [candidates.json] holds the emitted candidates as they are at
    the end of the run, and the answer of [evidence_supports_value] does
    not depend on [from_method]. *)
Theorem emitted_objects_accepted_iff_supported :
  forall (Extractor : Type)
         (heuristic_candidates_for_field :
            Extractor -> FieldSpec.t -> list LayoutDoc.t
            -> result (list Obj.Ref) * Extractor)
         (Client : Type)
         (llm_extract_candidates :
            Client -> Obj.Store -> FieldSpec.t -> list DocExcerpt.t
            -> RunOptions.t -> result (list Obj.Ref) * Client)
         (run_id : str) (run_options : RunOptions.t)
         (layout : list LayoutDoc.t) (routing : list RoutingEntry.t)
         (schema : ResolvedSchema.t) (e0 : Extractor) (c0 : Client)
         (h0 : Obj.Store) (out : list Obj.Ref)
         (s' : Obj.RunState Extractor Client),
    Obj.extract_candidates_for_run heuristic_candidates_for_field
      llm_extract_candidates run_id run_options layout routing schema
      (Obj.initial_state e0 c0 h0) = (Ok out, s') ->
    NoDup out ->
    Forall (fun c => fresh (h0 c)) out ->
    (forall c, In c out ->
       exists field,
         In field (fields_to_process run_options schema)
         /\ In (field, c) (Obj.handed_over s')
         /\ (Obj.heuristic_source (Obj.heuristic_calls s') field c
             \/ Obj.llm_source (Obj.llm_calls s') field c)
         /\ Obj.store s' c = apply_evidence_check field (h0 c)
         /\ Candidate.evidence (Obj.store s' c) = Candidate.evidence (h0 c)
         /\ (Candidate.is_accepted (Obj.store s' c) = true
             <-> evidence_supports_value field (Obj.store s' c) = true)
         /\ (evidence_supports_value field (Obj.store s' c) = false ->
             Candidate.rejected_reasons (Obj.store s' c)
             = [UNSUPPORTED_BY_EVIDENCE]))
    /\ (forall field c,
          In field (fields_to_process run_options schema) ->
          Obj.heuristic_source (Obj.heuristic_calls s') field c
          \/ Obj.llm_source (Obj.llm_calls s') field c ->
          In (field, c) (Obj.handed_over s') /\ In c out)
    /\ Permutation (map snd (Obj.handed_over s')) out
    /\ Obj.candidates_json s' = Some (map (Obj.store s') out)
    /\ (forall field c m,
          evidence_supports_value field (Candidate.with_from_method c m)
          = evidence_supports_value field c).
Proof.
  intros Extractor heur Client llm run_id opts layout routing schema e0 c0
         h0 out s' Erun Hnd Hfresh.
  apply (@obj_run_objects Extractor heur Client llm run_id opts layout routing
           h0) in Erun.
  destruct Erun as [handed [hcalls [calls
                     [[Hh [Hx [Hc Hs]]] [Hperm [Hjson Hiff]]]]]].
  cbn [Obj.initial_state Obj.handed_over Obj.llm_calls Obj.heuristic_calls
       Obj.store app] in Hh, Hx, Hc, Hs.
  rewrite Hh in *. rewrite Hc, Hx.
  assert (Hnd' : NoDup (map snd handed))
    by (apply (Permutation_NoDup (Permutation_sym Hperm)); exact Hnd).
  destruct (Hs Hnd' (checked_once_start h0)) as [Hlog _].
  rewrite Forall_forall in Hfresh.
  split; [|split; [|split; [|split]]].
  - intros c Hout.
    pose proof (Permutation_in _ (Permutation_sym Hperm) Hout) as Hin.
    apply in_map_iff in Hin. destruct Hin as [[field c'] [E Hin]].
    cbn [snd] in E. subst c'.
    exists field. destruct (proj1 (Hiff field c) Hin) as [Hf Hsrc].
    split; [exact Hf|]. split; [exact Hin|]. split; [exact Hsrc|].
    rewrite (Hlog field c Hin).
    split; [reflexivity|].
    split; [apply apply_evidence_check_evidence|].
    rewrite apply_evidence_check_same_answer.
    pose proof (Hfresh c Hout) as Hc0.
    split.
    + apply fresh_candidate_accepted_iff. exact Hc0.
    + intros Hno. rewrite (apply_evidence_check_unsupported _ _ Hno).
      cbn. unfold fresh in Hc0. rewrite Hc0. reflexivity.
  - intros field c Hf Hsrc.
    assert (Hin : In (field, c) handed) by (apply Hiff; tauto).
    split; [exact Hin|].
    apply (Permutation_in _ Hperm). apply in_map_iff.
    exists (field, c). split; [reflexivity | exact Hin].
  - exact Hperm.
  - exact Hjson.
  - intros field c m. apply evidence_check_ignores_from_method.
Qed.

(* --------------------------------------------------------------------- *)
(** ** The run by value and the run on objects *)
(* --------------------------------------------------------------------- *)

Lemma filter_map_swap {A B} (f : A -> B) (p : B -> bool) (l : list A) :
  filter p (map f l) = map f (filter (fun x => p (f x)) l).
Proof.
  induction l as [|x l IH]; cbn [map filter]; [reflexivity|].
  destruct (p (f x)); cbn [map]; rewrite IH; reflexivity.
Qed.

Lemma insert_by_map {A B K} (f : A -> B) (key : B -> K)
    (ltb : K -> K -> bool) (x : A) (l : list A) :
  map f (insert_by (fun a => key (f a)) ltb x l)
  = insert_by key ltb (f x) (map f l).
Proof.
  induction l as [|y l IH]; cbn [insert_by map]; [reflexivity|].
  destruct (ltb (key (f y)) (key (f x))); cbn [map]; [rewrite IH|];
    reflexivity.
Qed.

Lemma sorted_by_map {A B K} (f : A -> B) (key : B -> K)
    (ltb : K -> K -> bool) (l : list A) :
  map f (sorted_by (fun a => key (f a)) ltb l) = sorted_by key ltb (map f l).
Proof.
  induction l as [|x l IH]; cbn [sorted_by map]; [reflexivity|].
  rewrite insert_by_map, IH. reflexivity.
Qed.

(** A verification loop step on an object no loop went through before. *)
Lemma check_step_once (h0 : Obj.Store) (field : FieldSpec.t)
    (r : Obj.Ref) (rest : list Obj.Ref) (h : Obj.Store)
    (log : list (FieldSpec.t * Obj.Ref)) :
  NoDup (map snd (log ++ map (pair field) (r :: rest))) ->
  Obj.checked_once h0 h log ->
  h r = h0 r
  /\ NoDup (map snd ((log ++ [(field, r)]) ++ map (pair field) rest))
  /\ Obj.checked_once h0
       (if negb (evidence_supports_value field (h r))
        then Obj.append_in_place h r UNSUPPORTED_BY_EVIDENCE
        else h)
       (log ++ [(field, r)]).
Proof.
  intros Hnd Hc. cbn [map] in Hnd.
  assert (E : log ++ (field, r) :: map (pair field) rest
              = (log ++ [(field, r)]) ++ map (pair field) rest)
    by (rewrite <- app_assoc; reflexivity).
  rewrite E in Hnd. clear E.
  assert (Hprefix : NoDup (map snd (log ++ map (pair field) [r]))).
  { rewrite map_app in Hnd. apply NoDup_app_remove_r in Hnd. exact Hnd. }
  split; [|split; [exact Hnd|]].
  - destruct Hc as [_ Hrest]. apply Hrest.
    rewrite map_app in Hprefix. cbn [map snd] in Hprefix.
    apply NoDup_remove_2 in Hprefix. rewrite app_nil_r in Hprefix.
    exact Hprefix.
  - exact (@check_llm_candidates_once h0 field [r] h log Hprefix Hc).
Qed.

(** With no object gone through twice, [accepted_heuristic] holds the
    objects whose built contents the check supports. *)
Lemma check_heuristic_candidates_accepted (h0 : Obj.Store)
    (field : FieldSpec.t) (candidates : list Obj.Ref) :
  forall (h : Obj.Store) (log : list (FieldSpec.t * Obj.Ref)),
    NoDup (map snd (log ++ map (pair field) candidates)) ->
    Obj.checked_once h0 h log ->
    fst (Obj.check_heuristic_candidates field candidates h)
    = filter (fun c => evidence_supports_value field (h0 c)) candidates.
Proof.
  induction candidates as [|r rest IH]; intros h log Hnd Hc;
    cbn [Obj.check_heuristic_candidates filter]; [reflexivity|].
  destruct (@check_step_once h0 field r rest h log Hnd Hc)
    as [Hr [Hnd' Hc']].
  rewrite Hr in *.
  destruct (evidence_supports_value field (h0 r)); cbn [negb] in *.
  - specialize (IH h _ Hnd' Hc').
    destruct (Obj.check_heuristic_candidates field rest h) as [acc h'].
    cbn [fst] in *. rewrite IH. reflexivity.
  - apply (IH _ _ Hnd' Hc').
Qed.

Section RunsAgree.

Variable Extractor : Type.
Variable heuristic_candidates_for_field :
  Extractor -> FieldSpec.t -> list LayoutDoc.t
  -> result (list Obj.Ref) * Extractor.
Variable Client : Type.
Variable llm_extract_candidates :
  Client -> FieldSpec.t -> list DocExcerpt.t -> RunOptions.t
  -> result (list Obj.Ref) * Client.
Variable run_id : str.
Variable run_options : RunOptions.t.
Variable layout : list LayoutDoc.t.
Variable routing : list RoutingEntry.t.
Variable h0 : Obj.Store.

(** By value the extractor is a function of the field and the documents:
    whatever it did before, the objects it builds have the contents
    [heuristics_by_value] gives. *)
Variable heuristics_by_value :
  FieldSpec.t -> list LayoutDoc.t -> result (list Candidate.t).
Hypothesis extractor_by_value :
  forall e field docs,
    deref h0 (fst (heuristic_candidates_for_field e field docs))
    = heuristics_by_value field docs.

Local Abbreviation ObjState := (Obj.RunState Extractor Client).
Local Abbreviation routed field :=
  (_get_routed_docs (FieldSpec.key field) routing layout).
Local Abbreviation obj_pass :=
  (@Obj.llm_pass Extractor Client (Obj.blind llm_extract_candidates)
     run_options).
Local Abbreviation obj_rest :=
  (@Obj.after_heuristics Extractor Client (Obj.blind llm_extract_candidates)
     run_options).
Local Abbreviation obj_step :=
  (Obj.process_field heuristic_candidates_for_field
     (Obj.blind llm_extract_candidates) run_options layout routing).
Local Abbreviation obj_loop :=
  (Obj.fields_loop heuristic_candidates_for_field
     (Obj.blind llm_extract_candidates) run_options layout routing).
Local Abbreviation obj_run :=
  (Obj.extract_candidates_for_run heuristic_candidates_for_field
     (Obj.blind llm_extract_candidates) run_id run_options layout routing).
Local Abbreviation val_pass :=
  (llm_pass (client_by_value h0 llm_extract_candidates) run_options).
Local Abbreviation val_step :=
  (process_field heuristics_by_value
     (client_by_value h0 llm_extract_candidates) run_options layout routing).
Local Abbreviation val_loop :=
  (fields_loop heuristics_by_value
     (client_by_value h0 llm_extract_candidates) run_options layout routing).
Local Abbreviation val_run :=
  (extract_candidates_for_run heuristics_by_value
     (client_by_value h0 llm_extract_candidates) run_id run_options layout
     routing).

(** The outcomes of a field in the two runs: the same exception, or the
    candidates by value are what the evidence check makes of the built
    contents of the objects. *)
Local Abbreviation same_field_outcome field r_obj r_val :=
  (match r_obj, r_val with
   | Ok (cs_obj, _), Ok (cs_val, _) =>
       cs_val = map (fun c => checked_value h0 (field, c)) cs_obj
   | Raise e, Raise e' => e = e'
   | _, _ => False
   end).

Lemma obj_llm_pass_handed (field : FieldSpec.t) (docs : list LayoutDoc.t)
    (s : ObjState) :
  exists more,
    Obj.handed_over (snd (obj_pass field docs s)) = Obj.handed_over s ++ more.
Proof.
  unfold Obj.llm_pass.
  destruct (nonempty _).
  - unfold Obj.invoke_client.
    destruct (Obj.blind llm_extract_candidates _ _ _ _ _)
      as [[cs | [m | f m | k m]] c]; cbn; eexists;
      try reflexivity; symmetry; apply app_nil_r.
  - cbn. eexists. reflexivity.
Qed.

Lemma obj_after_heuristics_handed (field : FieldSpec.t)
    (docs : list LayoutDoc.t) (hs : list Obj.Ref) (s : ObjState) :
  exists more,
    Obj.handed_over (snd (obj_rest field docs hs s))
    = (Obj.handed_over s ++ map (pair field) hs) ++ more.
Proof.
  rewrite obj_after_heuristics_shape. cbv zeta.
  destruct (should_call_llm _).
  - match goal with
    | |- context [obj_pass field docs ?s1] =>
        destruct (obj_llm_pass_handed field docs s1) as [more Hm];
        destruct (obj_pass field docs s1) as [[cs | e] s']
    end;
      cbn [snd] in *; rewrite Hm; cbn [Obj.trace_append Obj.checked
                                       Obj.handed_over];
      eexists; reflexivity.
  - cbn. exists []. symmetry. apply app_nil_r.
Qed.

Lemma obj_process_field_handed (field : FieldSpec.t) (s : ObjState) :
  exists more,
    Obj.handed_over (snd (obj_step field s)) = Obj.handed_over s ++ more.
Proof.
  unfold Obj.process_field.
  destruct (negb (nonempty (routed field)));
    [exists []; symmetry; apply app_nil_r|].
  unfold Obj.invoke_extractor.
  destruct (heuristic_candidates_for_field (Obj.extractor s) field
              (routed field)) as [[hs | e] ex];
    [|exists []; symmetry; apply app_nil_r].
  match goal with
  | |- context [obj_rest field (routed field) hs ?s1] =>
      destruct (obj_after_heuristics_handed field (routed field) hs s1)
        as [more Hm]
  end.
  rewrite Hm. cbn [Obj.handed_over]. rewrite <- app_assoc.
  eexists. reflexivity.
Qed.

Lemma obj_fields_loop_handed (fields : list FieldSpec.t) :
  forall acc st (s : ObjState),
  exists more,
    Obj.handed_over (snd (obj_loop fields acc st s))
    = Obj.handed_over s ++ more.
Proof.
  induction fields as [|field rest IH]; intros acc st s;
    cbn [Obj.fields_loop].
  - exists []. symmetry. apply app_nil_r.
  - destruct (obj_process_field_handed field s) as [more1 H1].
    destruct (obj_step field s) as [[[fc stats] | e] s1]; cbn [snd] in *.
    + destruct (IH (acc ++ fc) (dict_set st (FieldSpec.key field) stats) s1)
        as [more2 H2].
      exists (more1 ++ more2). rewrite H2, H1, app_assoc. reflexivity.
    + exists more1. exact H1.
Qed.

Lemma llm_passes_agree (field : FieldSpec.t) (docs : list LayoutDoc.t)
    (s_obj : ObjState) (s_val : RunState Client) :
  same_run h0 s_obj s_val ->
  same_run h0 (snd (obj_pass field docs s_obj))
              (snd (val_pass field docs s_val))
  /\ match fst (obj_pass field docs s_obj),
           fst (val_pass field docs s_val) with
     | Ok cs_obj, Ok cs_val =>
         cs_val = map (fun c => checked_value h0 (field, c)) cs_obj
     | Raise e, Raise e' => e = e'
     | _, _ => False
     end.
Proof.
  intros [Ht [Hc [Hj Hl]]]. unfold Obj.llm_pass, llm_pass.
  destruct (nonempty _).
  - unfold Obj.invoke_client, invoke_client, Obj.blind, client_by_value.
    rewrite Hc.
    destruct (llm_extract_candidates (Obj.client s_obj) field _ run_options)
      as [[cs | [m | f m | k m]] c]; cbn [deref fst snd];
      (split;
       [ unfold same_run;
         cbn [trace client candidates_json llm_calls trace_append
              Obj.trace Obj.client Obj.candidates_json Obj.llm_calls
              Obj.trace_append Obj.checked];
         rewrite Ht, Hj, Hl, map_app;
         repeat split; reflexivity
       | try reflexivity ]).
    rewrite map_map. reflexivity.
  - cbn [fst snd]. split; [|reflexivity].
    unfold same_run.
    cbn [trace client candidates_json llm_calls trace_append
         Obj.trace Obj.client Obj.candidates_json Obj.llm_calls
         Obj.trace_append Obj.checked].
    rewrite Ht. repeat split; assumption.
Qed.

(** What follows the heuristic pass, in the two runs. *)
Lemma after_heuristics_agree (field : FieldSpec.t)
    (docs : list LayoutDoc.t) (hs : list Obj.Ref)
    (s_obj : ObjState) (s_val : RunState Client) :
  same_run h0 s_obj s_val ->
  NoDup (map snd (Obj.handed_over (snd (obj_rest field docs hs s_obj)))) ->
  Obj.checked_once h0 (Obj.store s_obj) (Obj.handed_over s_obj) ->
  let by_value :=
    if should_call_llm (filter (evidence_supports_value field) (map h0 hs))
    then
      match val_pass field docs
              (trace_append s_val (heuristic_event field)) with
      | (Ok verified, s') =>
          (Ok (map (apply_evidence_check field) (map h0 hs) ++ verified,
               field_stats_of (map h0 hs)
                 (map (apply_evidence_check field) (map h0 hs) ++ verified)
                 true),
           s')
      | (Raise e, s') => (Raise e, s')
      end
    else
      (Ok (map (apply_evidence_check field) (map h0 hs),
           field_stats_of (map h0 hs)
             (map (apply_evidence_check field) (map h0 hs)) false),
       trace_append s_val (heuristic_event field)) in
  same_run h0 (snd (obj_rest field docs hs s_obj)) (snd by_value)
  /\ same_field_outcome field (fst (obj_rest field docs hs s_obj))
                              (fst by_value).
Proof.
  intros Hsame. rewrite obj_after_heuristics_shape. cbv zeta.
  intros Hnd Hc.
  set (s1 := Obj.trace_append
               (Obj.checked s_obj field hs
                  (Obj.check_llm_candidates field hs (Obj.store s_obj)))
               (heuristic_event field)) in *.
  assert (Hsame1 : same_run h0 s1 (trace_append s_val (heuristic_event field))).
  { destruct Hsame as [Ht [Hcl [Hj Hl]]]. unfold same_run, s1.
    cbn [trace client candidates_json llm_calls trace_append
         Obj.trace Obj.client Obj.candidates_json Obj.llm_calls
         Obj.trace_append Obj.checked].
    rewrite Ht. repeat split; assumption. }
  assert (Hnd1 : NoDup (map snd (Obj.handed_over s_obj
                                 ++ map (pair field) hs))).
  { destruct (should_call_llm _) in Hnd.
    - destruct (obj_llm_pass_handed field docs s1) as [more Hm].
      destruct (obj_pass field docs s1) as [[cs | e] s'];
        cbn [snd] in *; rewrite Hm, map_app in Hnd;
        apply NoDup_app_remove_r in Hnd; exact Hnd.
    - exact Hnd. }
  pose proof (@check_llm_candidates_once h0 field hs (Obj.store s_obj)
                (Obj.handed_over s_obj) Hnd1 Hc) as [Hlog _].
  pose proof (@check_heuristic_candidates_accepted h0 field hs
                (Obj.store s_obj) (Obj.handed_over s_obj) Hnd1 Hc) as Hacc.
  assert (Hdecide :
    map (Obj.store s1)
        (fst (Obj.check_heuristic_candidates field hs (Obj.store s_obj)))
    = filter (evidence_supports_value field) (map h0 hs)).
  { rewrite Hacc, filter_map_swap. apply map_ext_in.
    intros c Hin. apply filter_In in Hin. destruct Hin as [Hin Hsup].
    unfold s1. cbn [Obj.store Obj.trace_append Obj.checked].
    rewrite (Hlog field c).
    - apply apply_evidence_check_supported. exact Hsup.
    - apply in_app_iff. right. apply in_map. exact Hin. }
  rewrite Hdecide.
  destruct (should_call_llm (filter (evidence_supports_value field)
                                    (map h0 hs))).
  - destruct (llm_passes_agree field docs Hsame1) as [Hs' Ho].
    destruct (obj_pass field docs s1) as [[cs | e] s'];
      destruct (val_pass field docs
                  (trace_append s_val (heuristic_event field)))
        as [[cv | e'] sv']; cbn [fst snd] in *;
      try contradiction; (split; [exact Hs'|]); [|exact Ho].
    rewrite Ho, map_app, map_map. reflexivity.
  - cbn [fst snd]. split; [exact Hsame1|].
    rewrite map_map. reflexivity.
Qed.

Lemma process_fields_agree (field : FieldSpec.t)
    (s_obj : ObjState) (s_val : RunState Client) :
  same_run h0 s_obj s_val ->
  NoDup (map snd (Obj.handed_over (snd (obj_step field s_obj)))) ->
  Obj.checked_once h0 (Obj.store s_obj) (Obj.handed_over s_obj) ->
  same_run h0 (snd (obj_step field s_obj)) (snd (val_step field s_val))
  /\ same_field_outcome field (fst (obj_step field s_obj))
                              (fst (val_step field s_val)).
Proof.
  intros Hsame. unfold Obj.process_field, process_field.
  destruct (negb (nonempty (routed field)));
    [intros _ _; split; [exact Hsame | reflexivity]|].
  unfold Obj.invoke_extractor.
  rewrite <- (extractor_by_value (Obj.extractor s_obj) field (routed field)).
  destruct (heuristic_candidates_for_field (Obj.extractor s_obj) field
              (routed field)) as [[hs | e] ex]; cbn [deref fst].
  - intros Hnd Hc.
    match goal with
    | |- context [obj_rest field (routed field) hs ?s_e] =>
        assert (Hsame_e : same_run h0 s_e s_val)
          by (destruct Hsame as [Ht [Hcl [Hj Hl]]]; repeat split; assumption);
        exact (@after_heuristics_agree field (routed field) hs s_e s_val
                 Hsame_e Hnd Hc)
    end.
  - intros _ _. split; [|reflexivity].
    destruct Hsame as [Ht [Hcl [Hj Hl]]]. repeat split; assumption.
Qed.

Lemma fields_loops_agree (fields : list FieldSpec.t) :
  forall (acc_obj : list Obj.Ref) (acc_val : list Candidate.t)
         (st_obj st_val : list (str * FieldStats.t))
         (s_obj : ObjState) (s_val : RunState Client),
    same_run h0 s_obj s_val ->
    NoDup (map snd (Obj.handed_over
                      (snd (obj_loop fields acc_obj st_obj s_obj)))) ->
    Obj.checked_once h0 (Obj.store s_obj) (Obj.handed_over s_obj) ->
    same_run h0 (snd (obj_loop fields acc_obj st_obj s_obj))
                (snd (val_loop fields acc_val st_val s_val))
    /\ match fst (obj_loop fields acc_obj st_obj s_obj),
             fst (val_loop fields acc_val st_val s_val) with
       | Ok (all_obj, _), Ok (all_val, _) =>
           exists handed,
             Obj.handed_over (snd (obj_loop fields acc_obj st_obj s_obj))
             = Obj.handed_over s_obj ++ handed
             /\ all_obj = acc_obj ++ map snd handed
             /\ all_val = acc_val ++ map (checked_value h0) handed
       | Raise e, Raise e' => e = e'
       | _, _ => False
       end.
Proof.
  induction fields as [|field rest IH];
    intros acc_obj acc_val st_obj st_val s_obj s_val Hsame Hnd Hc;
    cbn [Obj.fields_loop fields_loop] in *.
  - cbn [fst snd]. split; [exact Hsame|]. exists [].
    cbn [map]. rewrite !app_nil_r. auto.
  - assert (Hnd1 : NoDup (map snd (Obj.handed_over
                                     (snd (obj_step field s_obj))))).
    { destruct (obj_step field s_obj) as [[[fc stats] | e] s1] eqn:Es;
        cbn [snd] in *; [|exact Hnd].
      destruct (obj_fields_loop_handed rest (acc_obj ++ fc)
                  (dict_set st_obj (FieldSpec.key field) stats) s1)
        as [more Hm].
      rewrite Hm, map_app in Hnd. apply NoDup_app_remove_r in Hnd.
      exact Hnd. }
    destruct (process_fields_agree field Hsame Hnd1 Hc) as [Hsame1 Hout].
    destruct (obj_step field s_obj) as [[[fc stats] | e] s1] eqn:Es;
      destruct (val_step field s_val) as [[[fv stats_v] | e'] sv1];
      cbn [fst snd] in *; try contradiction.
    + apply (@obj_process_field_objects Extractor
               heuristic_candidates_for_field Client
               (Obj.blind llm_extract_candidates) run_options
               layout routing h0) in Es.
      destruct Es as [hcalls [calls [[Hh1 [_ [_ Hs1]]] _]]].
      specialize (Hs1 Hnd1 Hc).
      destruct (IH (acc_obj ++ fc) (acc_val ++ fv)
                   (dict_set st_obj (FieldSpec.key field) stats)
                   (dict_set st_val (FieldSpec.key field) stats_v)
                   s1 sv1 Hsame1 Hnd Hs1) as [Hsame2 Hout2].
      split; [exact Hsame2|].
      destruct (fst (obj_loop rest (acc_obj ++ fc) _ s1))
        as [[all_obj st_o] | e];
        destruct (fst (val_loop rest (acc_val ++ fv) _ sv1))
          as [[all_val st_v] | e']; try contradiction; [|exact Hout2].
      destruct Hout2 as [handed [Hh2 [Ho Hv]]].
      exists (map (pair field) fc ++ handed).
      split; [rewrite Hh2, Hh1, app_assoc; reflexivity|].
      split.
      * rewrite Ho, map_app, map_map, <- app_assoc. cbn [snd].
        rewrite map_id. reflexivity.
      * rewrite Hv, Hout, map_app, map_map, <- app_assoc. reflexivity.
    + split; [exact Hsame1 | exact Hout].
Qed.

(** With an extractor that by value is a function of the field and the
    documents, and a client that does not look at the objects: if no
    object went through a verification loop twice, the run by value on
    the built contents of the objects ends as the run on objects does,
    with the same trace, client, artifact and calls, and returns the
    contents the objects have at the end. *)
Lemma runs_agree (schema : ResolvedSchema.t) (e0 : Extractor) (c0 : Client) :
  NoDup (map snd (Obj.handed_over
                    (snd (obj_run schema (Obj.initial_state e0 c0 h0))))) ->
  same_run h0 (snd (obj_run schema (Obj.initial_state e0 c0 h0)))
              (snd (val_run schema (initial_state c0)))
  /\ fst (val_run schema (initial_state c0))
     = deref (Obj.store (snd (obj_run schema (Obj.initial_state e0 c0 h0))))
             (fst (obj_run schema (Obj.initial_state e0 c0 h0))).
Proof.
  unfold Obj.extract_candidates_for_run, extract_candidates_for_run.
  intros Hnd.
  assert (Hsame0 : same_run h0 (Obj.initial_state e0 c0 h0)
                            (initial_state c0))
    by (repeat split).
  assert (Hnd1 : NoDup (map snd (Obj.handed_over
            (snd (obj_loop (fields_to_process run_options schema) [] []
                           (Obj.initial_state e0 c0 h0)))))).
  { destruct (obj_loop (fields_to_process run_options schema) [] []
                       (Obj.initial_state e0 c0 h0))
      as [[[all st] | e] s1]; exact Hnd. }
  pose proof (@obj_fields_loop_objects Extractor
                heuristic_candidates_for_field Client
                (Obj.blind llm_extract_candidates) run_options layout
                routing h0 (fields_to_process run_options schema) [] []
                (Obj.initial_state e0 c0 h0)) as Hobj.
  destruct (fields_loops_agree (fields_to_process run_options schema)
              [] [] [] [] Hsame0 Hnd1 (checked_once_start h0))
    as [Hsame1 Hout].
  destruct (obj_loop (fields_to_process run_options schema) [] []
                     (Obj.initial_state e0 c0 h0))
    as [[[all_obj st_o] | e] s1];
    destruct (val_loop (fields_to_process run_options schema) [] []
                       (initial_state c0))
      as [[[all_val st_v] | e'] sv1];
    cbn [fst snd] in *; try contradiction.
  - destruct Hout as [handed [Hh [Ho Hv]]]. cbn [app] in Ho, Hv, Hh.
    destruct (Hobj _ _ _ eq_refl)
      as [handed' [hcalls [calls [[Hh' [_ [_ Hs]]] _]]]].
    cbn [Obj.initial_state Obj.handed_over Obj.store app] in Hh', Hs.
    destruct (Hs Hnd1 (checked_once_start h0)) as [Hlog _].
    assert (Hvals : all_val = map (Obj.store s1) all_obj).
    { rewrite Hv, Ho, map_map. apply map_ext_in.
      intros [field c] Hin. unfold checked_value. cbn [fst snd].
      symmetry. apply Hlog. rewrite Hh. exact Hin. }
    assert (Hsorted : _sort_candidates all_val
                      = map (Obj.store s1)
                            (Obj._sort_candidates (Obj.store s1) all_obj)).
    { rewrite Hvals. unfold _sort_candidates, Obj._sort_candidates.
      symmetry. apply sorted_by_map. }
    destruct Hsame1 as [Ht [Hc [Hj Hl]]].
    split.
    + unfold same_run.
      cbn [trace client candidates_json llm_calls trace_append
           write_candidates_json Obj.trace Obj.client Obj.candidates_json
           Obj.llm_calls Obj.trace_append Obj.write_candidates_json].
      rewrite Ht, Hsorted. repeat split; assumption.
    + cbn [deref Obj.store Obj.trace_append Obj.write_candidates_json].
      rewrite Hsorted. reflexivity.
  - subst e'. destruct Hsame1 as [Ht [Hc [Hj Hl]]]. split.
    + unfold same_run.
      cbn [trace client candidates_json llm_calls trace_append
           Obj.trace Obj.client Obj.candidates_json Obj.llm_calls
           Obj.trace_append].
      rewrite Ht. repeat split; assumption.
    + reflexivity.
Qed.

End RunsAgree.

(* --------------------------------------------------------------------- *)
(** ** Escalation to the generator *)
(* --------------------------------------------------------------------- *)

Lemma Qltb_true (a b : Q) : Qltb a b = true <-> (a < b)%Q.
Proof.
  unfold Qltb. rewrite negb_true_iff. split.
  - intros H. apply Qnot_le_lt. intros Hle.
    apply Qle_bool_iff in Hle. congruence.
  - intros H. destruct (Qle_bool b a) eqn:E; [|reflexivity].
    apply Qle_bool_iff in E. apply Qlt_not_le in H. contradiction.
Qed.

Lemma Qltb_false (a b : Q) : Qltb a b = false <-> (b <= a)%Q.
Proof.
  unfold Qltb. rewrite negb_false_iff. apply Qle_bool_iff.
Qed.

Lemma fold_max_spec (rest : list Q) :
  forall x,
    let m := fold_left (fun m y => if Qltb m y then y else m) rest x in
    (m = x \/ In m rest) /\ (x <= m)%Q /\ forall y, In y rest -> (y <= m)%Q.
Proof.
  induction rest as [|y rest IH]; intros x; cbn [fold_left].
  - split; [left; reflexivity|]. split; [apply Qle_refl | intros y []].
  - destruct (Qltb x y) eqn:E.
    + apply Qltb_true in E. destruct (IH y) as [Hin [Hle Hall]].
      split; [right; destruct Hin as [-> | Hin]; [left; reflexivity | right; exact Hin]|].
      split; [eapply Qle_trans; [apply Qlt_le_weak; exact E | exact Hle]|].
      intros z [<- | Hz]; [exact Hle | apply Hall; exact Hz].
    + apply Qltb_false in E. destruct (IH x) as [Hin [Hle Hall]].
      split; [destruct Hin as [-> | Hin]; [left; reflexivity | right; right; exact Hin]|].
      split; [exact Hle|].
      intros z [<- | Hz]; [eapply Qle_trans; eassumption | apply Hall; exact Hz].
Qed.

Lemma py_max_is_maximum (l : list Q) : l <> [] -> maximum_of (py_max l) l.
Proof.
  destruct l as [|x rest]; [congruence|]. intros _.
  unfold maximum_of, py_max.
  destruct (fold_max_spec rest x) as [Hin [Hle Hall]]. split.
  - destruct Hin as [-> | Hin]; [left; reflexivity | right; exact Hin].
  - intros y [<- | Hy]; [exact Hle | apply Hall; exact Hy].
Qed.

Lemma should_call_llm_iff (accepted : list Candidate.t) :
  should_call_llm accepted = true
  <-> accepted = []
      \/ exists best,
           maximum_of best (map _compute_provisional_confidence accepted)
           /\ (best < AUTOFILL_THRESHOLD)%Q.
Proof.
  unfold should_call_llm. destruct accepted as [|c rest].
  - cbn. split; [auto | reflexivity].
  - cbn [nonempty negb]. cbv zeta. rewrite Qltb_true.
    set (l := map _compute_provisional_confidence (c :: rest)).
    assert (Hl : l <> []) by discriminate.
    pose proof (py_max_is_maximum Hl) as Hmax. split.
    + intros H. right. exists (py_max l). split; assumption.
    + intros [H | [best [[Hin Hall] Hlt]]]; [discriminate|].
      eapply Qle_lt_trans; [|exact Hlt]. apply Hall. apply Hmax.
Qed.

Lemma process_field_escalates
    (heuristic_candidates_for_field :
       FieldSpec.t -> list LayoutDoc.t -> result (list Candidate.t))
    (Client : Type)
    (llm_extract_candidates :
       Client -> FieldSpec.t -> list DocExcerpt.t -> RunOptions.t
       -> result (list Candidate.t) * Client)
    (run_options : RunOptions.t) (layout : list LayoutDoc.t)
    (routing : list RoutingEntry.t) (field : FieldSpec.t)
    (s : RunState Client) (hs : list Candidate.t) :
  _get_routed_docs (FieldSpec.key field) routing layout <> [] ->
  heuristic_candidates_for_field
    field (_get_routed_docs (FieldSpec.key field) routing layout) = Ok hs ->
  process_field heuristic_candidates_for_field llm_extract_candidates
                run_options layout routing field s
  = if should_call_llm (filter (evidence_supports_value field) hs)
    then
      match llm_pass llm_extract_candidates run_options field
              (_get_routed_docs (FieldSpec.key field) routing layout)
              (trace_append s (heuristic_event field)) with
      | (Ok verified, s') =>
          (Ok (map (apply_evidence_check field) hs ++ verified,
               field_stats_of hs
                 (map (apply_evidence_check field) hs ++ verified) true),
           s')
      | (Raise e, s') => (Raise e, s')
      end
    else
      (Ok (map (apply_evidence_check field) hs,
           field_stats_of hs (map (apply_evidence_check field) hs) false),
       trace_append s (heuristic_event field)).
Proof.
  intros Hr Hh. unfold process_field.
  apply nonempty_true in Hr. rewrite Hr, Hh. reflexivity.
Qed.

(** C3. For a field with at least one routed document whose heuristic pass
    returned [hs], with [accepted] the heuristic candidates the evidence
    check supports: the orchestrator escalates ([should_call_llm]) if and
    only if [accepted] is empty or the maximum of [0.45 * anchor_match] over
    [accepted] is below [0.75]; when it escalates the field's outcome is
    that of the LLM pass, and otherwise the field ends after the heuristic
    pass with [llm_used] false, the client untouched and no call recorded. *)
Theorem escalation_rule :
  forall (heuristic_candidates_for_field :
            FieldSpec.t -> list LayoutDoc.t -> result (list Candidate.t))
         (Client : Type)
         (llm_extract_candidates :
            Client -> FieldSpec.t -> list DocExcerpt.t -> RunOptions.t
            -> result (list Candidate.t) * Client)
         (run_options : RunOptions.t) (layout : list LayoutDoc.t)
         (routing : list RoutingEntry.t) (field : FieldSpec.t)
         (s : RunState Client) (hs : list Candidate.t),
    _get_routed_docs (FieldSpec.key field) routing layout <> [] ->
    heuristic_candidates_for_field
      field (_get_routed_docs (FieldSpec.key field) routing layout) = Ok hs ->
    let accepted := filter (evidence_supports_value field) hs in
    let outcome :=
      process_field heuristic_candidates_for_field llm_extract_candidates
                    run_options layout routing field s in
    (should_call_llm accepted = true
     <-> accepted = []
         \/ exists best,
              maximum_of best
                (map (fun c => (45 # 100)
                               * CandidateScores.anchor_match
                                   (Candidate.scores c))%Q
                     accepted)
              /\ (best < 75 # 100)%Q)
    /\ (should_call_llm accepted = true ->
        outcome
        = match llm_pass llm_extract_candidates run_options field
                  (_get_routed_docs (FieldSpec.key field) routing layout)
                  (trace_append s (heuristic_event field)) with
          | (Ok verified, s') =>
              (Ok (map (apply_evidence_check field) hs ++ verified,
                   field_stats_of hs
                     (map (apply_evidence_check field) hs ++ verified) true),
               s')
          | (Raise e, s') => (Raise e, s')
          end)
    /\ (should_call_llm accepted = false ->
        outcome
        = (Ok (map (apply_evidence_check field) hs,
               field_stats_of hs (map (apply_evidence_check field) hs) false),
           trace_append s (heuristic_event field))
        /\ llm_calls (snd outcome) = llm_calls s
        /\ client (snd outcome) = client s).
Proof.
  intros heur Client llm opts layout routing field s hs Hr Hh accepted outcome.
  pose proof (process_field_escalates heur llm opts layout routing field s
                Hr Hh) as Hstep.
  fold accepted in Hstep. fold outcome in Hstep.
  split; [|split].
  - apply should_call_llm_iff.
  - intros Hyes. rewrite Hstep, Hyes. reflexivity.
  - intros Hno. rewrite Hstep, Hno. cbn. auto.
Qed.

Lemma in_range_bounds (v : Q) :
  CandidateScores.in_range v = true -> (0 <= v <= 1)%Q.
Proof.
  unfold CandidateScores.in_range, CandidateScores._validate_score_range.
  destruct (Qltb v 0) eqn:E0; [discriminate|].
  destruct (Qltb 1 v) eqn:E1; [discriminate|].
  intros _. apply Qltb_false in E0, E1. split; assumption.
Qed.

(** When the scores of the heuristic candidates are numbers the validator
    accepts, the provisional confidence [0.45 * anchor_match] of each is
    at most [0.45], hence below the threshold [0.75]: for a field with at
    least one routed document [should_call_llm] is true and the field's
    outcome is that of the LLM pass. *)
Lemma numeric_scores_reach_generator :
  forall (heuristic_candidates_for_field :
            FieldSpec.t -> list LayoutDoc.t -> result (list Candidate.t))
         (Client : Type)
         (llm_extract_candidates :
            Client -> FieldSpec.t -> list DocExcerpt.t -> RunOptions.t
            -> result (list Candidate.t) * Client)
         (run_options : RunOptions.t) (layout : list LayoutDoc.t)
         (routing : list RoutingEntry.t) (field : FieldSpec.t)
         (s : RunState Client) (hs : list Candidate.t),
    _get_routed_docs (FieldSpec.key field) routing layout <> [] ->
    heuristic_candidates_for_field
      field (_get_routed_docs (FieldSpec.key field) routing layout) = Ok hs ->
    Forall (fun c => CandidateScores.in_range
                       (CandidateScores.anchor_match (Candidate.scores c))
                     = true) hs ->
    Forall (fun c => (_compute_provisional_confidence c <= 45 # 100)%Q
                     /\ (_compute_provisional_confidence c
                         < AUTOFILL_THRESHOLD)%Q) hs
    /\ should_call_llm (filter (evidence_supports_value field) hs) = true
    /\ process_field heuristic_candidates_for_field llm_extract_candidates
                     run_options layout routing field s
       = match llm_pass llm_extract_candidates run_options field
                 (_get_routed_docs (FieldSpec.key field) routing layout)
                 (trace_append s (heuristic_event field)) with
         | (Ok verified, s') =>
             (Ok (map (apply_evidence_check field) hs ++ verified,
                  field_stats_of hs
                    (map (apply_evidence_check field) hs ++ verified) true),
              s')
         | (Raise e, s') => (Raise e, s')
         end.
Proof.
  intros heur Client llm opts layout routing field s hs Hr Hh Hvalid.
  assert (Hconf : Forall (fun c =>
            (_compute_provisional_confidence c <= 45 # 100)%Q
            /\ (_compute_provisional_confidence c < AUTOFILL_THRESHOLD)%Q) hs).
  { eapply Forall_impl; [|exact Hvalid].
    intros c Hc. apply in_range_bounds in Hc.
    unfold _compute_provisional_confidence, AUTOFILL_THRESHOLD.
    set (a := CandidateScores.anchor_match (Candidate.scores c)) in *.
    split; lra. }
  assert (Hyes : should_call_llm (filter (evidence_supports_value field) hs)
                 = true).
  { apply should_call_llm_iff.
    destruct (filter (evidence_supports_value field) hs) as [|c rest] eqn:Ef;
      [left; reflexivity | right].
    set (l := map _compute_provisional_confidence (c :: rest)).
    assert (Hl : l <> []) by discriminate.
    pose proof (py_max_is_maximum Hl) as Hmax.
    exists (py_max l). split; [exact Hmax|].
    destruct Hmax as [Hin _]. unfold l in Hin. apply in_map_iff in Hin.
    destruct Hin as [c' [Heq Hc']]. subst l. rewrite <- Heq.
    rewrite <- Ef in Hc'. apply filter_In in Hc'. destruct Hc' as [Hc' _].
    rewrite Forall_forall in Hconf. apply Hconf. exact Hc'. }
  split; [exact Hconf|]. split; [exact Hyes|].
  rewrite (process_field_escalates heur llm opts layout routing field s Hr Hh).
  rewrite Hyes. reflexivity.
Qed.

(* --------------------------------------------------------------------- *)
(** ** The escalation decision on floats *)
(* --------------------------------------------------------------------- *)

(** On numbers the validator and the decision on floats are the ones on
    rationals. *)
Lemma float_validator_on_numbers (q : Q) (field_name : str) :
  FloatScores._validate_score_range (PyFloat.Num q) field_name
  = match CandidateScores._validate_score_range q field_name with
    | Ok v => Ok (PyFloat.Num v)
    | Raise e => Raise e
    end.
Proof.
  unfold FloatScores._validate_score_range,
         CandidateScores._validate_score_range.
  cbn [PyFloat.ltb PyFloat.gtb].
  destruct (Qltb q 0 || Qltb 1 q); reflexivity.
Qed.

Lemma float_max_on_numbers (rest : list Q) :
  forall x,
    fold_left (fun m y => if PyFloat.gtb y m then y else m)
              (map PyFloat.Num rest) (PyFloat.Num x)
    = PyFloat.Num (fold_left (fun m y => if Qltb m y then y else m) rest x).
Proof.
  induction rest as [|y rest IH]; intros x; cbn [map fold_left];
    [reflexivity|].
  cbn [PyFloat.gtb PyFloat.ltb]. destruct (Qltb x y); apply IH.
Qed.

Lemma float_decision_on_numbers (accepted : list Candidate.t) :
  FloatScores.should_call_llm (map FloatScores.anchor_of accepted)
  = should_call_llm accepted.
Proof.
  unfold FloatScores.should_call_llm, should_call_llm.
  destruct accepted as [|c rest]; [reflexivity|].
  cbn [map nonempty negb]. cbv zeta.
  unfold FloatScores.py_max, py_max. cbn [map].
  rewrite map_map.
  replace (map (fun c' => FloatScores._compute_provisional_confidence
                            (FloatScores.anchor_of c')) rest)
    with (map PyFloat.Num (map _compute_provisional_confidence rest))
    by (rewrite map_map; reflexivity).
  change (FloatScores._compute_provisional_confidence
            (FloatScores.anchor_of c))
    with (PyFloat.Num (_compute_provisional_confidence c)).
  rewrite float_max_on_numbers. reflexivity.
Qed.

(** What the validator lets through: the numbers of [0, 1], and NaN. *)
Lemma float_validator_accepts (v : PyFloat.t) (field_name : str) :
  FloatScores._validate_score_range v field_name = Ok v
  <-> v = PyFloat.NaN \/ exists q, v = PyFloat.Num q /\ (0 <= q <= 1)%Q.
Proof.
  unfold FloatScores._validate_score_range.
  destruct v as [q | negative |]; cbn [PyFloat.ltb PyFloat.gtb].
  - destruct (Qltb q 0) eqn:E0; cbn [orb].
    + apply Qltb_true in E0. split; [discriminate|].
      intros [H | [q' [H [H0 _]]]]; [discriminate|].
      inversion H; subst. apply Qlt_not_le in E0. contradiction.
    + apply Qltb_false in E0. destruct (Qltb 1 q) eqn:E1.
      * apply Qltb_true in E1. split; [discriminate|].
        intros [H | [q' [H [_ H1]]]]; [discriminate|].
        inversion H; subst. apply Qlt_not_le in E1. contradiction.
      * apply Qltb_false in E1. split; [|reflexivity].
        intros _. right. exists q. auto.
  - destruct negative; cbn; (split; [discriminate|]);
      intros [H | [q [H _]]]; discriminate.
  - cbn. split; [auto | reflexivity].
Qed.

(** Accepted candidates whose [anchor_match] is a number the validator
    lets through send the field to the generator. *)
Lemma validated_numbers_escalate (accepted : list Candidate.t) :
  Forall (fun c => FloatScores._validate_score_range
                     (FloatScores.anchor_of c) (lit "anchor_match")
                   = Ok (FloatScores.anchor_of c)) accepted ->
  FloatScores.should_call_llm (map FloatScores.anchor_of accepted) = true.
Proof.
  intros Hvalid. rewrite float_decision_on_numbers.
  apply should_call_llm_iff.
  destruct accepted as [|c rest]; [left; reflexivity | right].
  set (l := map _compute_provisional_confidence (c :: rest)).
  assert (Hl : l <> []) by discriminate.
  pose proof (py_max_is_maximum Hl) as Hmax.
  exists (py_max l). split; [exact Hmax|].
  destruct Hmax as [Hin _]. unfold l in Hin. apply in_map_iff in Hin.
  destruct Hin as [c' [Heq Hc']]. subst l. rewrite <- Heq.
  rewrite Forall_forall in Hvalid. apply Hvalid in Hc'.
  apply float_validator_accepts in Hc'.
  destruct Hc' as [H | [q [H [H0 H1]]]]; [discriminate|].
  unfold FloatScores.anchor_of in H. inversion H as [Hq].
  unfold _compute_provisional_confidence, AUTOFILL_THRESHOLD.
  rewrite Hq. lra.
Qed.



(* --------------------------------------------------------------------- *)
(** ** A failing generator does not fail the run *)
(* --------------------------------------------------------------------- *)


(* --------------------------------------------------------------------- *)
(** ** Construction-time invariants *)
(* --------------------------------------------------------------------- *)

Lemma Evidence_new_ok (doc_id : str) (page : Z) (quoted_text : str)
    (e : Evidence.t) :
  Evidence.new doc_id page quoted_text = Ok e <->
  e = Evidence.make doc_id page quoted_text
  /\ blank doc_id = false /\ blank quoted_text = false /\ 1 <= page.
Proof.
  unfold Evidence.new.
  destruct (blank doc_id); [split; [discriminate | intros [_ [H _]]; discriminate H]|].
  destruct (Z.ltb_spec page 1);
    [split; [discriminate | intros [_ [_ [_ H']]]; lia]|].
  destruct (blank quoted_text);
    [split; [discriminate | intros [_ [_ [H' _]]]; discriminate H']|].
  split.
  - intros E. inversion E; subst. auto.
  - intros [-> _]. reflexivity.
Qed.

Lemma constructed_evidence_invariant (e : Evidence.t) :
  constructed_evidence e -> evidence_invariant e.
Proof.
  intros [d [p [q H]]]. apply Evidence_new_ok in H.
  destruct H as [-> [Hd [Hq Hp]]]. repeat split; assumption.
Qed.

Lemma Candidate_new_ok field raw_value normalized_value evidence from_method
    validators rejected_reasons scores (c : Candidate.t) :
  Candidate.new field raw_value normalized_value evidence from_method
                validators rejected_reasons scores = Ok c <->
  c = Candidate.make field raw_value normalized_value evidence from_method
                     validators rejected_reasons scores
  /\ key_is_supported field = true /\ evidence <> [].
Proof.
  unfold Candidate.new.
  destruct (key_is_supported field); cbn [negb];
    [|split; [discriminate | intros [_ [H _]]; discriminate H]].
  destruct evidence as [|e evs]; cbn [nonempty negb].
  - split; [discriminate | intros [_ [_ H]]; congruence].
  - split.
    + intros E. inversion E; subst. repeat split. discriminate.
    + intros [-> _]. reflexivity.
Qed.

Lemma constructed_candidate_invariant (c : Candidate.t) :
  constructed_candidate c -> candidate_invariant c.
Proof.
  intros [f [r [n [evs [m [v [rr [sc [Hevs H]]]]]]]]].
  apply Candidate_new_ok in H. destruct H as [-> [_ Hne]].
  split; cbn; [exact Hne|].
  eapply Forall_impl; [|exact Hevs]. apply constructed_evidence_invariant.
Qed.

(** C10. Construction refuses an [Evidence] whose [doc_id] or [quoted_text]
    is empty or only whitespace or whose [page] is below 1, and a
    [Candidate] whose evidence list is empty: what the constructors return
    has a non-blank [doc_id] and [quoted_text], [page >= 1] and a non-empty
    evidence list.  Consequently, when the heuristic extractor and the
    generator client hand over constructed candidates, every candidate in
    the output of a run has a non-empty evidence list whose items all have
    a non-blank [doc_id] and [quoted_text] and [page >= 1]. *)
Theorem evidence_invariant_by_construction :
  forall (heuristic_candidates_for_field :
            FieldSpec.t -> list LayoutDoc.t -> result (list Candidate.t))
         (Client : Type)
         (llm_extract_candidates :
            Client -> FieldSpec.t -> list DocExcerpt.t -> RunOptions.t
            -> result (list Candidate.t) * Client)
         (run_id : str) (run_options : RunOptions.t)
         (layout : list LayoutDoc.t) (routing : list RoutingEntry.t)
         (schema : ResolvedSchema.t) (c0 : Client)
         (out : list Candidate.t) (s' : RunState Client),
    (forall field docs cs,
        heuristic_candidates_for_field field docs = Ok cs ->
        Forall constructed_candidate cs) ->
    (forall c field excerpts options cs c',
        llm_extract_candidates c field excerpts options = (Ok cs, c') ->
        Forall constructed_candidate cs) ->
    extract_candidates_for_run heuristic_candidates_for_field
      llm_extract_candidates run_id run_options layout routing schema
      (initial_state c0) = (Ok out, s') ->
    (forall doc_id page quoted_text,
        (blank doc_id = true \/ page < 1 \/ blank quoted_text = true) ->
        exists e, Evidence.new doc_id page quoted_text = Raise e)
    /\ (forall doc_id page quoted_text e,
          Evidence.new doc_id page quoted_text = Ok e -> evidence_invariant e)
    /\ (forall field raw_value normalized_value from_method validators
               rejected_reasons scores,
          exists e,
            Candidate.new field raw_value normalized_value [] from_method
                          validators rejected_reasons scores = Raise e)
    /\ (forall field raw_value normalized_value evidence from_method
               validators rejected_reasons scores c,
          Candidate.new field raw_value normalized_value evidence from_method
                        validators rejected_reasons scores = Ok c ->
          Candidate.evidence c <> [])
    /\ Forall candidate_invariant out.
Proof.
  intros heur Client llm run_id opts layout routing schema c0 out s'
         Hheur Hllm Erun.
  split; [|split; [|split; [|split]]].
  - intros d p q Hbad. unfold Evidence.new.
    destruct (blank d) eqn:Ed; [eexists; reflexivity|].
    destruct (Z.ltb_spec p 1); [eexists; reflexivity|].
    destruct (blank q) eqn:Eq; [eexists; reflexivity|].
    exfalso. destruct Hbad as [H' | [H' | H']]; try discriminate; lia.
  - intros d p q e H. apply constructed_evidence_invariant.
    exists d, p, q. exact H.
  - intros f r n m v rr sc. unfold Candidate.new.
    destruct (key_is_supported f); cbn; eexists; reflexivity.
  - intros f r n evs m v rr sc c H.
    apply Candidate_new_ok in H. destruct H as [-> [_ Hne]]. exact Hne.
  - apply run_candidates in Erun.
    destruct Erun as [new [_ [Hmade Hiff]]].
    apply Forall_forall. intros x Hx. apply Hiff in Hx.
    destruct Hx as [field [c [_ [-> Hsrc]]]].
    assert (Hc : constructed_candidate c).
    { destruct Hsrc as [[_ [cs [Hcs Hin]]] | [call [cs [Hin [_ [Ho Hc]]]]]].
      - apply Hheur in Hcs. rewrite Forall_forall in Hcs. auto.
      - destruct (Hmade call Hin) as [cl [cl' Hcall]]. rewrite Ho in Hcall.
        apply Hllm in Hcall. rewrite Forall_forall in Hcall. auto. }
    apply constructed_candidate_invariant in Hc.
    unfold candidate_invariant in *.
    rewrite apply_evidence_check_evidence. exact Hc.
Qed.

(* --------------------------------------------------------------------- *)
(** ** Text normalisation *)
(* --------------------------------------------------------------------- *)

(** C2 (the code departs from the claim). [normalize_text] is a total
    function, but it is not idempotent: it collapses whitespace before it
    strips punctuation, so punctuation standing between two spaces leaves
    two adjacent spaces behind, which a second application collapses.  On
    ["a . b"] the first application gives ["a  b"] and the second
    ["a b"]. *)
Theorem normalize_text_not_idempotent :
  normalize_text (lit "a . b") = lit "a  b"
  /\ normalize_text (normalize_text (lit "a . b")) = lit "a b"
  /\ normalize_text (normalize_text (lit "a . b"))
     <> normalize_text (lit "a . b").
Proof.
  assert (H1 : normalize_text (lit "a . b") = lit "a  b")
    by (vm_compute; reflexivity).
  assert (H2 : normalize_text (lit "a  b") = lit "a b")
    by (vm_compute; reflexivity).
  split; [exact H1|]. rewrite H1, H2. split; [reflexivity|].
  vm_compute. discriminate.
Qed.

(** The defect reaches the evidence check: the heuristic extractors store
    [normalize_text raw_value] as the normalized value, the check normalizes
    it once more, and a value quoted literally by its evidence is rejected. *)
Example normalize_text_defect_rejects_supported_value :
  let raw_value := lit "Smith , John" in
  let quoted_text := lit "Name: Smith , John" in
  contains raw_value quoted_text = true
  /\ _evidence_supports_string (normalize_text raw_value) [quoted_text]
     = false.
Proof. vm_compute. split; reflexivity. Qed.

(* --------------------------------------------------------------------- *)
(** ** The theorems at the sample run *)
(* --------------------------------------------------------------------- *)

Lemma sample_run :
  extract_candidates_for_run Sample.heuristics Sample.client Sample.run_id
    Sample.options Sample.layout Sample.routing Sample.schema
    (initial_state 0%nat)
  = (Ok Sample.output, snd Sample.run_result).
Proof. vm_compute. reflexivity. Qed.

Example sample_output_value :
  Sample.output
  = [ Sample.dob_candidate;
      Sample.jane_candidate;
      Candidate.append_rejected_reason Sample.john_candidate
                                       UNSUPPORTED_BY_EVIDENCE ].
Proof. vm_compute. reflexivity. Qed.

Example sample_trace_steps :
  map TraceEvent.step (trace (snd Sample.run_result))
  = [ lit "field:dob:heuristic"; lit "field:dob:llm";
      lit "field:full_name:heuristic"; lit "field:full_name:llm";
      lit "extract_candidates" ]
  /\ map TraceEvent.status (trace (snd Sample.run_result))
     = [status_ok; status_error; status_ok; status_ok; status_ok].
Proof. vm_compute. split; reflexivity. Qed.



Lemma sample_evidence_constructed :
  constructed_evidence Sample.dob_evidence
  /\ constructed_evidence Sample.name_evidence.
Proof.
  split.
  - exists (lit "doc_001"), 1, (lit "Patient DOB: 1978-10-05").
    vm_compute. reflexivity.
  - exists (lit "doc_001"), 2, (lit "Name: Jane Roe").
    vm_compute. reflexivity.
Qed.

Lemma sample_candidates_constructed :
  constructed_candidate Sample.dob_candidate
  /\ constructed_candidate Sample.jane_candidate
  /\ constructed_candidate Sample.john_candidate.
Proof.
  destruct sample_evidence_constructed as [Hd Hn].
  split; [|split].
  - exists (lit "dob"), (lit "1978-10-05"), (lit "1978-10-05"),
      [Sample.dob_evidence], heuristic, [], [], (Sample.scores 1).
    split; [repeat constructor; exact Hd | vm_compute; reflexivity].
  - exists (lit "full_name"), (lit "Jane Roe"), (lit "jane roe"),
      [Sample.name_evidence], llm, [], [], (Sample.scores 1).
    split; [repeat constructor; exact Hn | vm_compute; reflexivity].
  - exists (lit "full_name"), (lit "John Doe"), (lit "john doe"),
      [Sample.name_evidence], llm, [], [], (Sample.scores 1).
    split; [repeat constructor; exact Hn | vm_compute; reflexivity].
Qed.

Lemma sample_heuristics_constructed :
  forall field docs cs,
    Sample.heuristics field docs = Ok cs -> Forall constructed_candidate cs.
Proof.
  intros field docs cs. unfold Sample.heuristics.
  destruct (PyStr.eqb (FieldSpec.key field) (lit "dob") && nonempty docs);
    intros H; inversion H; subst; repeat constructor.
  apply sample_candidates_constructed.
Qed.

Lemma sample_client_constructed :
  forall c field excerpts options cs c',
    Sample.client c field excerpts options = (Ok cs, c') ->
    Forall constructed_candidate cs.
Proof.
  intros c field excerpts options cs c'. unfold Sample.client.
  destruct c; intros H; inversion H; subst; repeat constructor;
    apply sample_candidates_constructed.
Qed.

Lemma sample_routed_docs :
  _get_routed_docs (FieldSpec.key Sample.dob_field) Sample.routing
                   Sample.layout = [Sample.doc].
Proof. vm_compute. reflexivity. Qed.

Lemma sample_dob_heuristics :
  Sample.heuristics Sample.dob_field
    (_get_routed_docs (FieldSpec.key Sample.dob_field) Sample.routing
                      Sample.layout)
  = Ok [Sample.dob_candidate].
Proof. vm_compute. reflexivity. Qed.

Lemma sample_dob_routed :
  _get_routed_docs (FieldSpec.key Sample.dob_field) Sample.routing
                   Sample.layout <> [].
Proof. rewrite sample_routed_docs. discriminate. Qed.


Lemma sample_dob_processed :
  In Sample.dob_field (fields_to_process Sample.options Sample.schema).
Proof. vm_compute. left. reflexivity. Qed.

Lemma sample_object_run :
  Obj.extract_candidates_for_run (Obj.stateless SampleObjects.heuristics)
    SampleObjects.client Sample.run_id Sample.options Sample.layout
    Sample.routing Sample.schema
    (Obj.initial_state tt 0%nat SampleObjects.objects)
  = (Ok [0%nat; 1%nat; 2%nat], snd SampleObjects.run_result).
Proof. vm_compute. reflexivity. Qed.

Lemma sample_objects_once : NoDup [0%nat; 1%nat; 2%nat].
Proof.
  repeat (constructor; [cbn; intuition discriminate|]). constructor.
Qed.

Lemma sample_objects_fresh :
  Forall (fun c => fresh (SampleObjects.objects c)) [0%nat; 1%nat; 2%nat].
Proof. repeat constructor. Qed.

Lemma sample_dob_object_source :
  Obj.heuristic_source (Obj.heuristic_calls (snd SampleObjects.run_result))
                       Sample.dob_field 0%nat.
Proof.
  exists (Obj.HeuristicCall.make Sample.dob_field [Sample.doc] (Ok [0%nat])),
    [0%nat].
  split; [vm_compute; left; reflexivity|].
  split; [reflexivity|]. split; [reflexivity | left; reflexivity].
Qed.

(** C1, as amended, at the sample run on objects. *)
Lemma emitted_objects_accepted_iff_supported_witness :
  NoDup [0%nat; 1%nat; 2%nat]
  /\ Forall (fun c => fresh (SampleObjects.objects c))
            [0%nat; 1%nat; 2%nat]
  /\ (forall c, In c [0%nat; 1%nat; 2%nat] ->
        exists field,
          In field (fields_to_process Sample.options Sample.schema)
          /\ (Candidate.is_accepted
                (Obj.store (snd SampleObjects.run_result) c) = true
              <-> evidence_supports_value field
                    (Obj.store (snd SampleObjects.run_result) c) = true))
  /\ In 0%nat [0%nat; 1%nat; 2%nat].
Proof.
  pose proof (@emitted_objects_accepted_iff_supported
                unit (Obj.stateless SampleObjects.heuristics)
                nat SampleObjects.client
                Sample.run_id Sample.options Sample.layout Sample.routing
                Sample.schema tt 0%nat SampleObjects.objects
                [0%nat; 1%nat; 2%nat] (snd SampleObjects.run_result)
                sample_object_run sample_objects_once sample_objects_fresh)
    as [Hall [Hkept _]].
  split; [exact sample_objects_once|].
  split; [exact sample_objects_fresh|].
  split.
  - intros c Hc.
    destruct (Hall c Hc) as [field [Hf [_ [_ [_ [_ [Hiff _]]]]]]].
    exists field. split; [exact Hf | exact Hiff].
  - apply (Hkept Sample.dob_field);
      [exact sample_dob_processed | left; exact sample_dob_object_source].
Defined.

Example sample_objects_at_the_end :
  map (Obj.store (snd SampleObjects.run_result)) [0%nat; 1%nat; 2%nat]
  = [ Sample.dob_candidate;
      Sample.jane_candidate;
      Candidate.append_rejected_reason Sample.john_candidate
                                       UNSUPPORTED_BY_EVIDENCE ]
  /\ Obj.candidates_json (snd SampleObjects.run_result)
     = Some [ Sample.dob_candidate;
              Sample.jane_candidate;
              Candidate.append_rejected_reason Sample.john_candidate
                                               UNSUPPORTED_BY_EVIDENCE ].
Proof. vm_compute. split; reflexivity. Qed.

(** C1 as the specification words it fails on two runs with the test
    double.  In the first the test scripts the same candidate object as
    the answer for the phone field and for the name field: both times the
    object arrives with an empty [rejected_reasons] list, the phone rule
    supports it and the string rule does not, and the run emits the object
    twice, for the phone field too, with the reason
    ["unsupported_by_evidence"]: a candidate that its field's check
    supports and that is not accepted.  In the second the object the
    client answers with already carries a reason: the check supports it,
    appends nothing, and the candidate is emitted not accepted. *)
Lemma shared_object_emitted_rejected :
  (let s' := snd SharedObject.run_result in
   let emitted := Obj.store s' 0%nat in
   fst SharedObject.run_result = Ok [0%nat; 0%nat]
   /\ Obj.handed_over s'
      = [(SharedObject.phone_field, 0%nat); (Sample.name_field, 0%nat)]
   /\ Obj.candidates_json s' = Some [emitted; emitted]
   /\ Candidate.field emitted = FieldSpec.key SharedObject.phone_field
   /\ fresh (SharedObject.objects 0%nat)
   /\ evidence_supports_value SharedObject.phone_field emitted = true
   /\ Candidate.rejected_reasons emitted = [UNSUPPORTED_BY_EVIDENCE]
   /\ ~ (Candidate.is_accepted emitted = true
         <-> evidence_supports_value SharedObject.phone_field emitted = true))
  /\ (let s' := snd SharedObject.stale_run_result in
      let emitted := Obj.store s' 0%nat in
      fst SharedObject.stale_run_result = Ok [0%nat]
      /\ Obj.handed_over s' = [(SharedObject.phone_field, 0%nat)]
      /\ Obj.candidates_json s' = Some [emitted]
      /\ evidence_supports_value SharedObject.phone_field emitted = true
      /\ Candidate.rejected_reasons emitted = [lit "stale"]
      /\ ~ (Candidate.is_accepted emitted = true
            <-> evidence_supports_value SharedObject.phone_field emitted
                = true)).
Proof.
  split; cbv zeta.
  - split; [vm_compute; reflexivity|].
    split; [vm_compute; reflexivity|].
    split; [vm_compute; reflexivity|].
    split; [vm_compute; reflexivity|].
    split; [reflexivity|].
    split; [vm_compute; reflexivity|].
    split; [vm_compute; reflexivity|].
    intros [_ H].
    assert (Hs : evidence_supports_value SharedObject.phone_field
                   (Obj.store (snd SharedObject.run_result) 0%nat) = true)
      by (vm_compute; reflexivity).
    apply H in Hs. vm_compute in Hs. discriminate Hs.
  - split; [vm_compute; reflexivity|].
    split; [vm_compute; reflexivity|].
    split; [vm_compute; reflexivity|].
    split; [vm_compute; reflexivity|].
    split; [vm_compute; reflexivity|].
    intros [_ H].
    assert (Hs : evidence_supports_value SharedObject.phone_field
                   (Obj.store (snd SharedObject.stale_run_result) 0%nat)
                 = true)
      by (vm_compute; reflexivity).
    apply H in Hs. vm_compute in Hs. discriminate Hs.
Qed.

(** C3 at the DOB field of the sample run. *)
Lemma escalation_rule_witness :
  _get_routed_docs (FieldSpec.key Sample.dob_field) Sample.routing
                   Sample.layout <> []
  /\ (should_call_llm
        (filter (evidence_supports_value Sample.dob_field)
                [Sample.dob_candidate]) = true
      <-> filter (evidence_supports_value Sample.dob_field)
                 [Sample.dob_candidate] = []
          \/ exists best,
               maximum_of best
                 (map (fun c => (45 # 100)
                                * CandidateScores.anchor_match
                                    (Candidate.scores c))%Q
                      (filter (evidence_supports_value Sample.dob_field)
                              [Sample.dob_candidate]))
               /\ (best < 75 # 100)%Q).
Proof.
  split; [exact sample_dob_routed|].
  exact (proj1 (@escalation_rule Sample.heuristics nat Sample.client
                  Sample.options Sample.layout Sample.routing
                  Sample.dob_field (initial_state 0%nat)
                  [Sample.dob_candidate]
                  sample_dob_routed sample_dob_heuristics)).
Defined.






(** A transport that itself raises [ValueError] twice: no response is ever
    parsed, and the client still raises [LLMInvalidJSONError]. *)
Example transport_value_error_counts_as_failed_attempt :
  extract_candidates
    (fun (_ : list Message.t) (_ : Z) (w : unit) =>
       (ApiRaise (ValueError (lit "bad gateway")), w))
    Sample.parse Sample.extraction_prompt Sample.retry_prompt
    Sample.dob_field [Sample.excerpt] Sample.options tt
  = (Raise (LLMInvalidJSONError (lit "dob") (lit "bad gateway")), tt,
     [ [Message.make (lit "user") (lit "Extract dob")];
       [Message.make (lit "user") (lit "Extract dob");
        Message.make (lit "assistant") [];
        Message.make (lit "user") (lit "Not valid JSON: bad gateway")] ]).
Proof. vm_compute. reflexivity. Qed.


(** C8, as amended, at the sample document with the default budgets. *)
Lemma build_excerpts_for_field_capped_witness :
  0 <= DEFAULT_MAX_TOTAL_CHARS
  /\ 0 <= DEFAULT_MAX_CHARS_PER_DOC
  /\ 0 <= DEFAULT_MAX_PAGES_PER_DOC
  /\ total_text_length
       (build_excerpts_for_field Sample.dob_field DEFAULT_MAX_TOTAL_CHARS
          DEFAULT_MAX_CHARS_PER_DOC DEFAULT_MAX_PAGES_PER_DOC [Sample.doc])
     <= DEFAULT_MAX_TOTAL_CHARS
  /\ build_excerpts_for_field Sample.dob_field DEFAULT_MAX_TOTAL_CHARS
       DEFAULT_MAX_CHARS_PER_DOC DEFAULT_MAX_PAGES_PER_DOC [Sample.doc]
     = ExcerptRule.excerpts Sample.dob_field
         (Z.to_nat DEFAULT_MAX_TOTAL_CHARS)
         (Z.to_nat DEFAULT_MAX_CHARS_PER_DOC)
         (Z.to_nat DEFAULT_MAX_PAGES_PER_DOC) [Sample.doc].
Proof.
  assert (H1 : 0 <= DEFAULT_MAX_TOTAL_CHARS) by (vm_compute; discriminate).
  assert (H2 : 0 <= DEFAULT_MAX_CHARS_PER_DOC) by (vm_compute; discriminate).
  assert (H3 : 0 <= DEFAULT_MAX_PAGES_PER_DOC) by (vm_compute; discriminate).
  split; [exact H1|]. split; [exact H2|]. split; [exact H3|].
  pose proof (@build_excerpts_for_field_capped Sample.dob_field
                [Sample.doc] DEFAULT_MAX_TOTAL_CHARS
                DEFAULT_MAX_CHARS_PER_DOC DEFAULT_MAX_PAGES_PER_DOC
                H1 H2 H3) as [Htotal [_ [_ Hrule]]].
  split; [exact Htotal | exact Hrule].
Defined.

(** The excerpts of the rule for the sample document, and for a document
    whose keyword pages do not fit the per-document budget. *)
Example rule_excerpts :
  ExcerptRule.excerpts Sample.dob_field (Z.to_nat 8000) (Z.to_nat 4000) 3
                       [Sample.doc]
  = [Sample.excerpt]
  /\ ExcerptRule.excerpts Sample.dob_field (Z.to_nat 8000) 20 3
       [ LayoutDoc.make (lit "doc_002")
           [ LayoutPageText.make 2 (lit "DOB again");
             LayoutPageText.make 3 (lit "no keyword here");
             LayoutPageText.make 1 (lit "dob: 1978-10-05") ] ]
     = [ DocExcerpt.make (lit "doc_002") 1 (lit "dob: 1978-10-05");
         DocExcerpt.make (lit "doc_002") 2 (lit "DOB a") ].
Proof. vm_compute. split; reflexivity. Qed.

(** C8 as the specification words it, for every budget, fails for
    negative ones: a page budget of [-1] is a slice that drops the last
    selected page and leaves one excerpt, more than [-1]; and with a
    character budget of [-1] the total length, 0, is above the budget. *)
Lemma negative_budgets_exceeded :
  let two_pages :=
    LayoutDoc.make (lit "doc_002")
      [ LayoutPageText.make 1 (lit "dob: 1978-10-05");
        LayoutPageText.make 2 (lit "DOB again") ] in
  build_excerpts_for_field Sample.dob_field 8000 4000 (-1) [two_pages]
  = [DocExcerpt.make (lit "doc_002") 1 (lit "dob: 1978-10-05")]
  /\ ~ (len (build_excerpts_for_field Sample.dob_field 8000 4000 (-1)
                                      [two_pages]) <= -1)
  /\ ~ (total_text_length
          (build_excerpts_for_field Sample.dob_field (-1) 4000 3 [two_pages])
        <= -1)
  /\ ~ (total_text_length
          (build_excerpts_for_field Sample.dob_field 8000 (-1) 3 [two_pages])
        <= -1).
Proof.
  cbv zeta. split; [vm_compute; reflexivity|].
  split; [|split]; vm_compute; intros H; apply H; reflexivity.
Qed.

Example sample_excerpts :
  build_excerpts_for_field Sample.dob_field DEFAULT_MAX_TOTAL_CHARS
    DEFAULT_MAX_CHARS_PER_DOC DEFAULT_MAX_PAGES_PER_DOC [Sample.doc]
  = [Sample.excerpt]
  /\ build_excerpts_for_field Sample.dob_field 10 4000 3 [Sample.doc]
     = [DocExcerpt.make (lit "doc_001") 1 (lit "Patient DO")]
  /\ build_excerpts_for_field
       (FieldSpec.make (lit "phone") None TPhone) 8000 4000 3 [Sample.doc]
     = [DocExcerpt.make (lit "doc_001") 1 (lit "Patient DOB: 1978-10-05")].
Proof. vm_compute. repeat split; reflexivity. Qed.

(** C10 at the sample run. *)
Lemma evidence_invariant_by_construction_witness :
  (forall field docs cs,
      Sample.heuristics field docs = Ok cs ->
      Forall constructed_candidate cs)
  /\ (forall c field excerpts options cs c',
        Sample.client c field excerpts options = (Ok cs, c') ->
        Forall constructed_candidate cs)
  /\ Forall candidate_invariant Sample.output.
Proof.
  split; [exact sample_heuristics_constructed|].
  split; [exact sample_client_constructed|].
  exact (proj2 (proj2 (proj2 (proj2
           (@evidence_invariant_by_construction
              Sample.heuristics nat Sample.client Sample.run_id
              Sample.options Sample.layout Sample.routing Sample.schema
              0%nat Sample.output (snd Sample.run_result)
              sample_heuristics_constructed sample_client_constructed
              sample_run))))).
Defined.

Example sample_sorted_order :
  _sort_candidates
    [Sample.john_candidate; Sample.jane_candidate; Sample.dob_candidate]
  = [Sample.dob_candidate; Sample.jane_candidate; Sample.john_candidate].
Proof. vm_compute. reflexivity. Qed.

(* --------------------------------------------------------------------- *)
(** ** Edge cases of the statements above, evaluated *)
(* --------------------------------------------------------------------- *)

(** The date rule parses the value with [re.match]: characters after the
    day are ignored.  A day [00] has no digits left once its zeros are
    stripped, so the month-name rule then asks for the year and the month
    name only. *)
Example date_rule_edges :
  _evidence_supports_date (lit "1978-10-05T00:00") [lit "DOB 1978-10-05"]
  = true
  /\ _evidence_supports_date (lit "1999-01-00") [lit "Jan 1999"] = true
  /\ _evidence_supports_date (lit "1999-01-07") [lit "Jan 1999"] = false
  /\ _evidence_supports_date (lit "78-10-05") [lit "78-10-05"] = false.
Proof. vm_compute. repeat split; reflexivity. Qed.

(** The budgets of the excerpt builder are Python ints.  A negative page
    budget is a slice that counts from the end, and a negative character
    budget stops the loop at once. *)
Example negative_budgets :
  let two_pages :=
    LayoutDoc.make (lit "doc_002")
      [ LayoutPageText.make 1 (lit "dob: 1978-10-05");
        LayoutPageText.make 2 (lit "DOB again") ] in
  build_excerpts_for_field Sample.dob_field 8000 4000 (-1) [two_pages]
  = [DocExcerpt.make (lit "doc_002") 1 (lit "dob: 1978-10-05")]
  /\ build_excerpts_for_field Sample.dob_field (-1) 4000 3 [two_pages] = [].
Proof. vm_compute. split; reflexivity. Qed.

(** A document with pages out of order and no keyword page: the page with
    the lowest number is quoted. *)
Example fallback_to_first_page :
  build_excerpts_for_field
    (FieldSpec.make (lit "phone") None TPhone) 8000 4000 3
    [ LayoutDoc.make (lit "doc_003")
        [ LayoutPageText.make 3 (lit "third");
          LayoutPageText.make 1 (lit "first");
          LayoutPageText.make 2 (lit "second") ] ]
  = [DocExcerpt.make (lit "doc_003") 1 (lit "first")].
Proof. vm_compute. reflexivity. Qed.

(* ===================================================================== *)
(** * Further properties of the code *)
(* ===================================================================== *)

Example normalize_date_examples :
  normalize_date (lit "1978-10-05") = Some (lit "1978-10-05")
  /\ normalize_date (lit "1978/1/5 and more") = Some (lit "1978-01-05")
  /\ normalize_date (lit "10/5/1978") = Some (lit "1978-10-05")
  /\ normalize_date (lit "January 15, 1990") = Some (lit "1990-01-15")
  /\ normalize_date (lit "Jan 11990") = Some (lit "1990-01-01")
  /\ normalize_date (lit "15 march 1990") = Some (lit "1990-03-15")
  /\ normalize_date (lit "Foo 15, 1990") = None
  /\ normalize_date (lit " 1978-10-05") = None
  /\ normalize_date (lit "1978-100-05") = None
  /\ normalize_date (lit "99/99/1978") = Some (lit "1978-99-99").
Proof. vm_compute. repeat split; reflexivity. Qed.

Example normalize_phone_examples :
  normalize_phone (lit "555-123-4567") = (lit "15551234567", true)
  /\ normalize_phone (lit "+1 (555) 123-4567") = (lit "15551234567", false)
  /\ normalize_phone (lit "123") = (lit "123", false).
Proof. vm_compute. repeat split; reflexivity. Qed.

(* --------------------------------------------------------------------- *)
(** ** The backtracking matcher *)
(* --------------------------------------------------------------------- *)

Lemma count_prefix_firstn (p : ascii -> bool) (s : str) (m : nat) :
  (m <= BRe.count_prefix p s)%nat ->
  Forall (fun c => p c = true) (firstn m s) /\ length (firstn m s) = m.
Proof.
  revert m. induction s as [|c s IH]; intros m H; simpl in H.
  - assert (m = 0%nat) by lia. subst. simpl. split; constructor.
  - destruct m as [|m]; [simpl; split; constructor|].
    destruct (p c) eqn:E; [|lia].
    destruct (IH m) as [F L]; [lia|]. simpl. split.
    + constructor; assumption.
    + f_equal. exact L.
Qed.

Lemma give_back_sound (it : BRe.item) (continue : str -> option (list str))
    (s : str) :
  forall n groups,
    BRe.give_back it continue s n = Some groups ->
    exists m rest_groups,
      (m <= n)%nat /\ (BRe.lo it <= m)%nat
      /\ continue (skipn m s) = Some rest_groups
      /\ groups = if BRe.group it then firstn m s :: rest_groups
                  else rest_groups.
Proof.
  induction n as [|n IH]; intros groups H; cbn [BRe.give_back] in H.
  - destruct (BRe.lo it <=? 0)%nat eqn:El.
    + destruct (continue (skipn 0 s)) as [gs|] eqn:Ek; [|discriminate].
      inversion H; subst. apply Nat.leb_le in El.
      exists 0%nat, gs. auto.
    + discriminate.
  - destruct (BRe.lo it <=? S n)%nat eqn:El.
    + destruct (continue (skipn (S n) s)) as [gs|] eqn:Ek.
      * inversion H; subst. apply Nat.leb_le in El.
        exists (S n), gs. auto.
      * apply IH in H. destruct H as [m [gs [Hm H]]].
        exists m, gs. split; [lia | exact H].
    + apply IH in H. destruct H as [m [gs [Hm H]]].
      exists m, gs. split; [lia | exact H].
Qed.

Lemma most_bounds (it : BRe.item) (s : str) :
  (BRe.most it s <= BRe.count_prefix (BRe.cls it) s)%nat
  /\ match BRe.hi it with
     | Some h => (BRe.most it s <= h)%nat
     | None => True
     end.
Proof. unfold BRe.most. destruct (BRe.hi it); split; auto; lia. Qed.

(** A successful match splits the start of the string into one piece per
    item, each piece made of characters of the item's class and within the
    item's bounds; the groups are the pieces of the capturing items. *)
Lemma match_items_sound (pattern : list BRe.item) :
  forall s groups,
    BRe.match_items pattern s = Some groups ->
    exists pieces rest,
      s = concat pieces ++ rest
      /\ Forall2 piece_ok pattern pieces
      /\ groups = captures pattern pieces.
Proof.
  induction pattern as [|it pattern IH]; intros s groups H;
    cbn [BRe.match_items] in H.
  - inversion H; subst. exists [], s. repeat split. constructor.
  - apply give_back_sound in H.
    destruct H as [m [gs [Hm [Hlo [Hk ->]]]]].
    apply IH in Hk. destruct Hk as [pieces [rest [Hs [F ->]]]].
    destruct (most_bounds it s) as [Hc Hh].
    destruct (count_prefix_firstn (BRe.cls it) s (m := m)) as [Fp Lp]; [lia|].
    exists (firstn m s :: pieces), rest. split; [|split].
    + cbn [concat]. rewrite <- app_assoc, <- Hs. symmetry. apply firstn_skipn.
    + constructor; [|exact F]. unfold piece_ok. rewrite Lp.
      split; [exact Fp|]. split; [exact Hlo|].
      destruct (BRe.hi it); [lia | exact I].
    + reflexivity.
Qed.

(* --------------------------------------------------------------------- *)
(** ** Two-digit formatting *)
(* --------------------------------------------------------------------- *)

Lemma isdigit_cases (c : ascii) :
  isdigit c = true -> In c (lit "0123456789").
Proof.
  destruct c as [[] [] [] [] [] [] [] []]; vm_compute; intros H;
    try discriminate H; tauto.
Qed.

Lemma format_02d_two_digits (a b : ascii) :
  isdigit a = true -> isdigit b = true ->
  format_02d (int_of_digits [a; b]) = [a; b].
Proof.
  intros Ha Hb. apply isdigit_cases in Ha, Hb. cbn in Ha, Hb.
  repeat match goal with
         | H : _ \/ _ |- _ => destruct H as [<- | H]
         | H : False |- _ => destruct H
         end; vm_compute; reflexivity.
Qed.

Lemma format_02d_one_digit (a : ascii) :
  isdigit a = true -> format_02d (int_of_digits [a]) = ["0"%char; a].
Proof.
  intros Ha. apply isdigit_cases in Ha. cbn in Ha.
  repeat match goal with
         | H : _ \/ _ |- _ => destruct H as [<- | H]
         | H : False |- _ => destruct H
         end; vm_compute; reflexivity.
Qed.

Lemma format_02d_digits (s : str) :
  digits_1_2 s -> DateRule.digits 2 (format_02d (int_of_digits s)).
Proof.
  intros [[Hlo Hhi] F].
  destruct s as [|a [|b [|c s]]]; simpl in Hlo, Hhi; try lia.
  - inversion F; subst. rewrite format_02d_one_digit by assumption.
    split; [reflexivity|]. repeat constructor. assumption.
  - inversion F as [|? ? Ha F']; subst. inversion F'; subst.
    rewrite format_02d_two_digits by assumption.
    split; [reflexivity|]. repeat constructor; assumption.
Qed.

Lemma months_get_digits (name : str) (n : Z) :
  months_get months name = Some n ->
  n <> 0 /\ DateRule.digits 2 (format_02d n).
Proof.
  unfold months. cbn [months_get].
  repeat match goal with
         | |- (if PyStr.eqb ?k name then _ else _) = _ -> _ =>
             destruct (PyStr.eqb k name);
             [ intros H; inversion H; subst; split;
               [ discriminate
               | split; [reflexivity | repeat constructor] ] | ]
         end.
  discriminate.
Qed.

(* --------------------------------------------------------------------- *)
(** ** normalize_date: what the four patterns capture *)
(* --------------------------------------------------------------------- *)

Lemma piece_year4 (p : str) : piece_ok BRe.year4 p -> DateRule.digits 4 p.
Proof. intros [F [Lo Hi]]. cbn in *. split; [lia | exact F]. Qed.

Lemma piece_num12 (p : str) : piece_ok BRe.num12 p -> digits_1_2 p.
Proof. intros [F [Lo Hi]]. cbn in *. split; [lia | exact F]. Qed.

Lemma piece_sep (p : str) :
  piece_ok BRe.sep p -> exists c, p = [c] /\ DateRule.separator c.
Proof.
  intros [F [Lo Hi]]. cbn in *.
  destruct p as [|c [|]]; simpl in *; try lia.
  exists c. split; [reflexivity|]. inversion F as [|? ? Hc]; subst.
  unfold BRe.is_date_sep in Hc. apply orb_true_iff in Hc.
  rewrite !eqb_char_true in Hc. exact Hc.
Qed.

Lemma piece_word (p : str) :
  piece_ok BRe.word p ->
  p <> [] /\ Forall (fun c => BRe.isalpha_ascii c = true) p.
Proof.
  intros [F [Lo Hi]]. cbn in *. split; [|exact F].
  destruct p; simpl in *; [lia | discriminate].
Qed.

Ltac invert_pieces :=
  repeat match goal with
         | H : Forall2 piece_ok (_ :: _) _ |- _ => inversion H; subst; clear H
         | H : Forall2 piece_ok [] _ |- _ => inversion H; subst; clear H
         | H : piece_ok BRe.year4 _ |- _ => apply piece_year4 in H
         | H : piece_ok BRe.num12 _ |- _ => apply piece_num12 in H
         | H : piece_ok BRe.word _ |- _ => apply piece_word in H
         | H : piece_ok BRe.sep _ |- _ =>
             let c := fresh "c" in
             let E := fresh "E" in
             apply piece_sep in H; destruct H as [c [E H]]; subst
         end.

Lemma ymd_match (raw : str) (groups : list str) :
  BRe.match_items [BRe.year4; BRe.sep; BRe.num12; BRe.sep; BRe.num12] raw
  = Some groups ->
  exists year month day s1 s2 rest,
    groups = [year; month; day]
    /\ DateRule.digits 4 year /\ digits_1_2 month /\ digits_1_2 day
    /\ DateRule.separator s1 /\ DateRule.separator s2
    /\ raw = year ++ [s1] ++ month ++ [s2] ++ day ++ rest.
Proof.
  intros H. apply match_items_sound in H.
  destruct H as [pieces [rest [-> [F ->]]]]. invert_pieces.
  match goal with
  | |- context [concat [?y; [?s1]; ?m; [?s2]; ?d]] =>
      exists y, m, d, s1, s2, rest
  end.
  cbn [captures BRe.group BRe.year4 BRe.sep BRe.num12 concat].
  rewrite app_nil_r, <- !app_assoc. auto 10.
Qed.

Lemma mdy_match (raw : str) (groups : list str) :
  BRe.match_items [BRe.num12; BRe.sep; BRe.num12; BRe.sep; BRe.year4] raw
  = Some groups ->
  exists month day year s1 s2 rest,
    groups = [month; day; year]
    /\ DateRule.digits 4 year /\ digits_1_2 month /\ digits_1_2 day
    /\ DateRule.separator s1 /\ DateRule.separator s2
    /\ raw = month ++ [s1] ++ day ++ [s2] ++ year ++ rest.
Proof.
  intros H. apply match_items_sound in H.
  destruct H as [pieces [rest [-> [F ->]]]]. invert_pieces.
  match goal with
  | |- context [concat [?m; [?s1]; ?d; [?s2]; ?y]] =>
      exists m, d, y, s1, s2, rest
  end.
  cbn [captures BRe.group BRe.year4 BRe.sep BRe.num12 concat].
  rewrite app_nil_r, <- !app_assoc. auto 10.
Qed.

Lemma month_first_match (raw : str) (groups : list str) :
  BRe.match_items
    [BRe.word; BRe.spaces0; BRe.num12; BRe.comma_opt; BRe.spaces0; BRe.year4]
    raw = Some groups ->
  exists month_str day year gap1 gap2 gap3 rest,
    groups = [month_str; day; year]
    /\ DateRule.digits 4 year /\ digits_1_2 day
    /\ raw = month_str ++ gap1 ++ day ++ gap2 ++ gap3 ++ year ++ rest.
Proof.
  intros H. apply match_items_sound in H.
  destruct H as [pieces [rest [-> [F ->]]]]. invert_pieces.
  match goal with
  | |- context [concat [?w; ?g1; ?d; ?g2; ?g3; ?y]] =>
      exists w, d, y, g1, g2, g3, rest
  end.
  cbn [captures BRe.group BRe.year4 BRe.word BRe.num12 BRe.spaces0
       BRe.comma_opt concat].
  rewrite app_nil_r, <- !app_assoc. auto 10.
Qed.

Lemma day_first_match (raw : str) (groups : list str) :
  BRe.match_items
    [BRe.num12; BRe.spaces1; BRe.word; BRe.spaces1; BRe.year4] raw
  = Some groups ->
  exists day month_str year gap1 gap2 rest,
    groups = [day; month_str; year]
    /\ DateRule.digits 4 year /\ digits_1_2 day
    /\ raw = day ++ gap1 ++ month_str ++ gap2 ++ year ++ rest.
Proof.
  intros H. apply match_items_sound in H.
  destruct H as [pieces [rest [-> [F ->]]]]. invert_pieces.
  match goal with
  | |- context [concat [?d; ?g1; ?w; ?g2; ?y]] =>
      exists d, w, y, g1, g2, rest
  end.
  cbn [captures BRe.group BRe.year4 BRe.word BRe.num12 BRe.spaces1 concat].
  rewrite app_nil_r, <- !app_assoc. auto 10.
Qed.

(** The branches of [normalize_date], with what the matched pattern
    captured. *)
Lemma normalize_date_cases (raw date : str) :
  normalize_date raw = Some date ->
  (exists year month day,
      DateRule.digits 4 year /\ digits_1_2 month /\ digits_1_2 day
      /\ date = iso_date year month day
      /\ numeric_month_day raw = Some (month, day)
      /\ exists s1 s2 rest,
          DateRule.separator s1 /\ DateRule.separator s2
          /\ (raw = year ++ [s1] ++ month ++ [s2] ++ day ++ rest
              \/ raw = month ++ [s1] ++ day ++ [s2] ++ year ++ rest))
  \/ (exists year month_str month_num day,
         DateRule.digits 4 year /\ digits_1_2 day
         /\ months_get months (lower month_str) = Some month_num
         /\ date = iso_date_named year month_num day
         /\ numeric_month_day raw = None
         /\ exists gap1 gap2 rest,
             raw = month_str ++ gap1 ++ day ++ gap2 ++ year ++ rest
             \/ raw = day ++ gap1 ++ month_str ++ gap2 ++ year ++ rest).
Proof.
  unfold normalize_date, numeric_month_day.
  destruct (BRe.match_items
              [BRe.year4; BRe.sep; BRe.num12; BRe.sep; BRe.num12] raw)
    as [g1|] eqn:E1.
  { apply ymd_match in E1.
    destruct E1 as [y [m [d [s1 [s2 [rest [-> [Hy [Hm [Hd [H1 [H2 ->]]]]]]]]]]]].
    intros H. inversion H; subst. left. exists y, m, d.
    repeat (split; [assumption || reflexivity|]).
    exists s1, s2, rest. auto. }
  destruct (BRe.match_items
              [BRe.num12; BRe.sep; BRe.num12; BRe.sep; BRe.year4] raw)
    as [g2|] eqn:E2.
  { apply mdy_match in E2.
    destruct E2 as [m [d [y [s1 [s2 [rest [-> [Hy [Hm [Hd [H1 [H2 ->]]]]]]]]]]]].
    intros H. inversion H; subst. left. exists y, m, d.
    repeat (split; [assumption || reflexivity|]).
    exists s1, s2, rest. auto. }
  unfold date_month_first, date_day_first.
  destruct (BRe.match_items
              [BRe.word; BRe.spaces0; BRe.num12; BRe.comma_opt; BRe.spaces0;
               BRe.year4] raw) as [g3|] eqn:E3.
  { apply month_first_match in E3.
    destruct E3 as [w [d [y [a [b [c [rest [-> [Hy [Hd ->]]]]]]]]]].
    destruct (months_get months (lower w)) as [n|] eqn:En.
    - destruct (n =? 0) eqn:Ez.
      + apply months_get_digits in En. lia.
      + intros H. inversion H; subst. right. exists y, w, n, d.
        repeat (split; [assumption || reflexivity|]).
        exists a, (b ++ c), rest. left. rewrite <- !app_assoc. reflexivity.
    - destruct (BRe.match_items
                  [BRe.num12; BRe.spaces1; BRe.word; BRe.spaces1; BRe.year4]
                  (w ++ a ++ d ++ b ++ c ++ y ++ rest)) as [g4|] eqn:E4;
        [|discriminate].
      apply day_first_match in E4.
      destruct E4 as [d' [w' [y' [a' [b' [rest' [-> [Hy' [Hd' Hraw]]]]]]]]].
      destruct (months_get months (lower w')) as [n|] eqn:En'; [|discriminate].
      destruct (n =? 0); [discriminate|].
      intros H. inversion H; subst. right. exists y', w', n, d'.
      repeat (split; [assumption || reflexivity|]).
      exists a', b', rest'. right. exact Hraw. }
  destruct (BRe.match_items
              [BRe.num12; BRe.spaces1; BRe.word; BRe.spaces1; BRe.year4] raw)
    as [g4|] eqn:E4; [|discriminate].
  apply day_first_match in E4.
  destruct E4 as [d [w [y [a [b [rest [-> [Hy [Hd ->]]]]]]]]].
  destruct (months_get months (lower w)) as [n|] eqn:En; [|discriminate].
  destruct (n =? 0); [discriminate|].
  intros H. inversion H; subst. right. exists y, w, n, d.
  repeat (split; [assumption || reflexivity|]).
  exists a, b, rest. right. reflexivity.
Qed.

(* --------------------------------------------------------------------- *)
(** ** normalize_date: matching a date that is written out *)
(* --------------------------------------------------------------------- *)

Lemma count_prefix_app (p : ascii -> bool) (a r : str) :
  Forall (fun c => p c = true) a ->
  BRe.count_prefix p (a ++ r) = (length a + BRe.count_prefix p r)%nat.
Proof.
  induction 1 as [|c a Hc F IH]; simpl; [reflexivity|].
  rewrite Hc, IH. reflexivity.
Qed.

Lemma skipn_length_app (a r : str) : skipn (length a) (a ++ r) = r.
Proof. induction a; simpl; auto. Qed.

Lemma firstn_length_app (a r : str) : firstn (length a) (a ++ r) = a.
Proof. induction a; simpl; f_equal; auto. Qed.

Lemma give_back_first (it : BRe.item) (continue : str -> option (list str))
    (s : str) (n : nat) (groups : list str) :
  (BRe.lo it <= n)%nat ->
  continue (skipn n s) = Some groups ->
  BRe.give_back it continue s n
  = Some (if BRe.group it then firstn n s :: groups else groups).
Proof.
  intros Hlo Hk. destruct n; cbn [BRe.give_back];
    (apply Nat.leb_le in Hlo; rewrite Hlo, Hk; reflexivity).
Qed.

Lemma give_back_below (it : BRe.item) (continue : str -> option (list str))
    (s : str) (n : nat) :
  (n < BRe.lo it)%nat -> BRe.give_back it continue s n = None.
Proof.
  induction n as [|n IH]; intros H; cbn [BRe.give_back];
    (destruct (BRe.lo it <=? _)%nat eqn:E; [apply Nat.leb_le in E; lia|]).
  - reflexivity.
  - apply IH. lia.
Qed.

(** An item with a fixed upper bound in front of exactly that many
    characters of its class takes them all. *)
Lemma match_exact (it : BRe.item) (pattern : list BRe.item) (a r : str)
    (groups : list str) :
  BRe.hi it = Some (length a) ->
  (BRe.lo it <= length a)%nat ->
  Forall (fun c => BRe.cls it c = true) a ->
  BRe.match_items pattern r = Some groups ->
  BRe.match_items (it :: pattern) (a ++ r)
  = Some (if BRe.group it then a :: groups else groups).
Proof.
  intros Hhi Hlo F Hk. cbn [BRe.match_items].
  assert (Hm : BRe.most it (a ++ r) = length a).
  { unfold BRe.most. rewrite Hhi, count_prefix_app by exact F. lia. }
  rewrite Hm.
  rewrite (@give_back_first it (BRe.match_items pattern) (a ++ r) (length a)
             groups Hlo).
  - rewrite firstn_length_app. reflexivity.
  - rewrite skipn_length_app. exact Hk.
Qed.

(** An item that needs more characters of its class than the string starts
    with does not match. *)
Lemma match_too_few (it : BRe.item) (pattern : list BRe.item) (s : str) :
  (BRe.count_prefix (BRe.cls it) s < BRe.lo it)%nat ->
  BRe.match_items (it :: pattern) s = None.
Proof.
  intros H. cbn [BRe.match_items]. apply give_back_below.
  destruct (most_bounds it s) as [Hm _]. lia.
Qed.

Lemma separator_is_date_sep (c : ascii) :
  DateRule.separator c -> BRe.is_date_sep c = true /\ isdigit c = false.
Proof. intros [-> | ->]; split; reflexivity. Qed.

Lemma ymd_match_padded (year month day rest : str) (s1 s2 : ascii) :
  DateRule.digits 4 year -> DateRule.digits 2 month -> DateRule.digits 2 day ->
  DateRule.separator s1 -> DateRule.separator s2 ->
  BRe.match_items [BRe.year4; BRe.sep; BRe.num12; BRe.sep; BRe.num12]
    (year ++ [s1] ++ month ++ [s2] ++ day ++ rest)
  = Some [year; month; day].
Proof.
  intros [Ly Fy] [Lm Fm] [Ld Fd] H1 H2.
  apply separator_is_date_sep in H1, H2. destruct H1 as [H1 _], H2 as [H2 _].
  rewrite (@match_exact BRe.year4 _ year _ [month; day]);
    [reflexivity | cbn; congruence | cbn; lia | exact Fy |].
  rewrite (@match_exact BRe.sep _ [s1] _ [month; day]);
    [reflexivity | reflexivity | cbn; lia | repeat constructor; exact H1 |].
  rewrite (@match_exact BRe.num12 _ month _ [day]);
    [reflexivity | cbn; congruence | cbn; lia | exact Fm |].
  rewrite (@match_exact BRe.sep _ [s2] _ [day]);
    [reflexivity | reflexivity | cbn; lia | repeat constructor; exact H2 |].
  rewrite (@match_exact BRe.num12 _ day _ []);
    [reflexivity | cbn; congruence | cbn; lia | exact Fd |].
  reflexivity.
Qed.

Lemma mdy_match_padded (year month day rest : str) (s1 s2 : ascii) :
  DateRule.digits 4 year -> DateRule.digits 2 month -> DateRule.digits 2 day ->
  DateRule.separator s1 -> DateRule.separator s2 ->
  BRe.match_items [BRe.year4; BRe.sep; BRe.num12; BRe.sep; BRe.num12]
    (month ++ [s1] ++ day ++ [s2] ++ year ++ rest) = None
  /\ BRe.match_items [BRe.num12; BRe.sep; BRe.num12; BRe.sep; BRe.year4]
       (month ++ [s1] ++ day ++ [s2] ++ year ++ rest)
     = Some [month; day; year].
Proof.
  intros [Ly Fy] [Lm Fm] [Ld Fd] H1 H2.
  apply separator_is_date_sep in H1, H2.
  destruct H1 as [H1 N1], H2 as [H2 _]. split.
  - apply match_too_few. cbn [BRe.cls BRe.lo BRe.year4].
    rewrite count_prefix_app by exact Fm. cbn [app BRe.count_prefix].
    rewrite N1. lia.
  - rewrite (@match_exact BRe.num12 _ month _ [day; year]);
      [reflexivity | cbn; congruence | cbn; lia | exact Fm |].
    rewrite (@match_exact BRe.sep _ [s1] _ [day; year]);
      [reflexivity | reflexivity | cbn; lia | repeat constructor; exact H1 |].
    rewrite (@match_exact BRe.num12 _ day _ [year]);
      [reflexivity | cbn; congruence | cbn; lia | exact Fd |].
    rewrite (@match_exact BRe.sep _ [s2] _ [year]);
      [reflexivity | reflexivity | cbn; lia | repeat constructor; exact H2 |].
    rewrite (@match_exact BRe.year4 _ year _ []);
      [reflexivity | cbn; congruence | cbn; lia | exact Fy |].
    reflexivity.
Qed.

Lemma iso_date_padded (year month day : str) :
  DateRule.digits 2 month -> DateRule.digits 2 day ->
  iso_date year month day = year ++ lit "-" ++ month ++ lit "-" ++ day.
Proof.
  intros [Lm Fm] [Ld Fd]. unfold iso_date.
  destruct month as [|m1 [|m2 [|]]]; try discriminate Lm.
  destruct day as [|d1 [|d2 [|]]]; try discriminate Ld.
  invert_Forall. rewrite !format_02d_two_digits by assumption. reflexivity.
Qed.

(** A date already in the form YYYY-MM-DD is returned as it is, whatever
    follows it. *)
Lemma normalize_date_of_iso (year month day rest : str) :
  DateRule.digits 4 year -> DateRule.digits 2 month -> DateRule.digits 2 day ->
  normalize_date (year ++ lit "-" ++ month ++ lit "-" ++ day ++ rest)
  = Some (year ++ lit "-" ++ month ++ lit "-" ++ day).
Proof.
  intros Hy Hm Hd. unfold normalize_date.
  change (year ++ lit "-" ++ month ++ lit "-" ++ day ++ rest)
    with (year ++ ["-"%char] ++ month ++ ["-"%char] ++ day ++ rest).
  rewrite ymd_match_padded; [|assumption|assumption|assumption|left; reflexivity|left; reflexivity].
  rewrite iso_date_padded by assumption. reflexivity.
Qed.

(** The shape of every date [normalize_date] returns. *)
Lemma normalize_date_shape (raw date : str) :
  normalize_date raw = Some date ->
  exists year month day,
    DateRule.digits 4 year /\ DateRule.digits 2 month /\ DateRule.digits 2 day
    /\ date = year ++ lit "-" ++ month ++ lit "-" ++ day.
Proof.
  intros H. apply normalize_date_cases in H.
  destruct H as [[y [m [d [Hy [Hm [Hd [-> _]]]]]]]
                | [y [w [n [d [Hy [Hd [Hn [-> _]]]]]]]]].
  - exists y, (format_02d (int_of_digits m)), (format_02d (int_of_digits d)).
    repeat split; try apply Hy; apply format_02d_digits; assumption.
  - exists y, (format_02d n), (format_02d (int_of_digits d)).
    apply months_get_digits in Hn. destruct Hn as [_ Hn].
    repeat split; try apply Hy; try apply Hn; apply format_02d_digits;
      assumption.
Qed.

(** X1. Every date [normalize_date] returns is written YYYY-MM-DD: four
    digits, a hyphen, two digits, a hyphen, two digits and nothing else;
    so the parse [_evidence_supports_date] starts with never fails on it,
    and gives back these three components. *)
Theorem normalize_date_returns_iso_date (raw date : str) :
  normalize_date raw = Some date ->
  exists year month day,
    date = year ++ lit "-" ++ month ++ lit "-" ++ day
    /\ DateRule.digits 4 year /\ DateRule.digits 2 month
    /\ DateRule.digits 2 day
    /\ match_ymd date = Some (year, month, day).
Proof.
  intros H. apply normalize_date_shape in H.
  destruct H as [y [m [d [Hy [Hm [Hd ->]]]]]]. exists y, m, d.
  repeat (split; [assumption || reflexivity|]).
  apply match_ymd_parses. repeat (split; [assumption|]).
  exists []. rewrite app_nil_r. reflexivity.
Qed.

Lemma normalize_date_returns_iso_date_witness :
  normalize_date (lit "March 5, 1990") = Some (lit "1990-03-05")
  /\ exists year month day,
       lit "1990-03-05" = year ++ lit "-" ++ month ++ lit "-" ++ day
       /\ DateRule.digits 4 year /\ DateRule.digits 2 month
       /\ DateRule.digits 2 day
       /\ match_ymd (lit "1990-03-05") = Some (year, month, day).
Proof.
  split; [vm_compute; reflexivity|].
  apply (@normalize_date_returns_iso_date (lit "March 5, 1990")).
  vm_compute. reflexivity.
Defined.

(** X2. [normalize_date] is idempotent on what it accepts: a date it
    returns is returned unchanged when normalised again. *)
Theorem normalize_date_fixed_point (raw date : str) :
  normalize_date raw = Some date -> normalize_date date = Some date.
Proof.
  intros H. apply normalize_date_shape in H.
  destruct H as [y [m [d [Hy [Hm [Hd ->]]]]]].
  rewrite <- (app_nil_r d) at 1.
  apply normalize_date_of_iso; assumption.
Qed.

Lemma normalize_date_fixed_point_witness :
  normalize_date (lit "3/5/1990") = Some (lit "1990-03-05")
  /\ normalize_date (lit "1990-03-05") = Some (lit "1990-03-05").
Proof.
  split; [vm_compute; reflexivity|].
  apply (@normalize_date_fixed_point (lit "3/5/1990")).
  vm_compute. reflexivity.
Defined.

(* --------------------------------------------------------------------- *)
(** ** normalize_date and the date rule of the verifier *)
(* --------------------------------------------------------------------- *)

Lemma occurs_in_prefix (a r text : str) :
  DateRule.occurs_in (a ++ r) text -> DateRule.occurs_in a text.
Proof.
  intros [before [after ->]]. exists before, (r ++ after).
  rewrite <- !app_assoc. reflexivity.
Qed.

Lemma occurs_in_trans (a b c : str) :
  DateRule.occurs_in a b -> DateRule.occurs_in b c -> DateRule.occurs_in a c.
Proof.
  intros [p [q ->]] [p' [q' ->]]. exists (p' ++ p), (q ++ q').
  rewrite <- !app_assoc. reflexivity.
Qed.

Lemma occurs_in_lower (a text : str) :
  DateRule.occurs_in a text -> DateRule.occurs_in (lower a) (lower text).
Proof.
  intros [p [q ->]]. exists (lower p), (lower q).
  unfold lower. rewrite !map_app. reflexivity.
Qed.

Ltac enumerate_digits :=
  repeat match goal with
         | H : isdigit _ = true |- _ => apply isdigit_cases in H; cbn in H
         end;
  repeat match goal with
         | H : _ \/ _ |- _ => destruct H as [<- | H]
         | H : False |- _ => destruct H
         end.

Lemma unpadded_one_digit (a : ascii) :
  isdigit a = true -> unpadded (format_02d (int_of_digits [a])) = [a].
Proof. intros Ha. enumerate_digits; vm_compute; reflexivity. Qed.

Lemma unpadded_two_digits (a b : ascii) :
  isdigit a = true -> isdigit b = true ->
  zero_padded [a; b] = false ->
  unpadded (format_02d (int_of_digits [a; b])) = [a; b].
Proof.
  intros Ha Hb. enumerate_digits; vm_compute; intros H;
    try discriminate H; reflexivity.
Qed.

Lemma unpadded_day_occurs (day : str) :
  digits_1_2 day ->
  DateRule.occurs_in
    (DateRule.unpadded_day (format_02d (int_of_digits day))) day.
Proof.
  intros [[Hlo Hhi] F].
  destruct day as [|a [|b [|c s]]]; simpl in Hlo, Hhi; try lia;
    invert_Forall; apply contains_true; enumerate_digits;
    vm_compute; reflexivity.
Qed.

Lemma months_get_month_name (name : str) (n : Z) :
  months_get months name = Some n ->
  DateRule.month_name (format_02d n) name.
Proof.
  unfold months. cbn [months_get].
  repeat match goal with
         | |- (if PyStr.eqb ?k name then _ else _) = _ -> _ =>
             let E := fresh "E" in
             destruct (PyStr.eqb k name) eqn:E;
             [ apply str_eqb_true in E; subst name;
               intros H; inversion H; subst;
               apply month_strs_spec; vm_compute;
               first [ left; reflexivity | right; left; reflexivity ] | ]
         end.
  discriminate.
Qed.

(** A numeric date as written, month and day padded alike, is one of the
    four written forms the verifier looks for. *)
Lemma numeric_date_supported (year month day text : str) :
  DateRule.digits 4 year -> digits_1_2 month -> digits_1_2 day ->
  ((len month =? 1) && zero_padded day)
  || (zero_padded month && (len day =? 1)) = false ->
  DateRule.written year month day text
  \/ DateRule.written month day year text ->
  DateRule.text_supports year (format_02d (int_of_digits month))
    (format_02d (int_of_digits day)) text.
Proof.
  intros Hy [[Lm1 Lm2] Fm] [[Ld1 Ld2] Fd] Hmix Hw.
  unfold DateRule.text_supports, DateRule.without_padding.
  fold (unpadded (format_02d (int_of_digits month))).
  fold (unpadded (format_02d (int_of_digits day))).
  destruct month as [|m1 [|m2 [|]]]; simpl in Lm1, Lm2; try lia;
    destruct day as [|d1 [|d2 [|]]]; simpl in Ld1, Ld2; try lia;
    invert_Forall.
  - rewrite !unpadded_one_digit by assumption. tauto.
  - assert (Hz : zero_padded [d1; d2] = false).
    { cbn in Hmix. apply orb_false_iff in Hmix. destruct Hmix as [Hmix _].
      exact Hmix. }
    rewrite unpadded_one_digit, unpadded_two_digits by assumption. tauto.
  - assert (Hz : zero_padded [m1; m2] = false).
    { apply orb_false_iff in Hmix. destruct Hmix as [_ Hmix].
      cbn [len length Z.of_nat] in Hmix. cbn in Hmix |- *.
      rewrite andb_true_r in Hmix. exact Hmix. }
    rewrite unpadded_one_digit, unpadded_two_digits by assumption. tauto.
  - rewrite !format_02d_two_digits by assumption. tauto.
Qed.

(** A date with a month name, as written, has what the month-name rule of
    the verifier looks for. *)
Lemma named_date_supported (year month_str day text : str) (month_num : Z) :
  digits_1_2 day ->
  months_get months (lower month_str) = Some month_num ->
  DateRule.occurs_in year text -> DateRule.occurs_in day text ->
  DateRule.occurs_in month_str text ->
  DateRule.text_supports year (format_02d month_num)
    (format_02d (int_of_digits day)) text.
Proof.
  intros Hd Hn Hy Hday Hw. unfold DateRule.text_supports.
  right; right; right; right. split; [exact Hy|]. split.
  - apply occurs_in_trans with (b := day); [|exact Hday].
    apply unpadded_day_occurs. exact Hd.
  - exists (lower month_str). split.
    + apply months_get_month_name. exact Hn.
    + apply occurs_in_lower. exact Hw.
Qed.

(** The normalised date parses, and a text that contains the raw date
    has what the verifier looks for. *)
Lemma normalized_date_in_text (raw date text : str) :
  normalize_date raw = Some date ->
  mixed_padding raw = false ->
  DateRule.occurs_in raw text ->
  exists year month day,
    match_ymd date = Some (year, month, day)
    /\ DateRule.text_supports year month day text.
Proof.
  intros Hn Hmix Hoc.
  pose proof (normalize_date_shape _ Hn) as Hshape.
    apply normalize_date_cases in Hn.
    destruct Hn as [[y [m [d [Hy [Hm [Hd [-> [Hg [s1 [s2 [rest [H1 [H2 Hraw]]]]]]]]]]]]]
                   | [y [w [n [d [Hy [Hd [Hw [-> [_ [g1 [g2 [rest Hraw]]]]]]]]]]]]].
    - exists y, (format_02d (int_of_digits m)),
        (format_02d (int_of_digits d)). split.
      + apply match_ymd_parses. split; [exact Hy|].
        split; [apply format_02d_digits; exact Hm|].
        split; [apply format_02d_digits; exact Hd|].
        exists []. unfold iso_date. rewrite app_nil_r. reflexivity.
      + unfold mixed_padding in Hmix. rewrite Hg in Hmix.
        apply numeric_date_supported; try assumption.
        destruct Hraw as [-> | ->]; [left | right]; exists s1, s2;
          (split; [exact H1|]); (split; [exact H2|]);
          apply occurs_in_prefix with (r := rest);
          repeat rewrite <- app_assoc; exact Hoc.
    - exists y, (format_02d n), (format_02d (int_of_digits d)). split.
      + apply months_get_digits in Hw. destruct Hw as [_ Hw].
        apply match_ymd_parses. split; [exact Hy|]. split; [exact Hw|].
        split; [apply format_02d_digits; exact Hd|].
        exists []. unfold iso_date_named. rewrite app_nil_r. reflexivity.
      + apply named_date_supported with (month_str := w); try assumption;
          (eapply occurs_in_trans; [|exact Hoc]);
          destruct Hraw as [-> | ->].
        * exists (w ++ g1 ++ d ++ g2), rest.
          repeat rewrite <- app_assoc. reflexivity.
        * exists (d ++ g1 ++ w ++ g2), rest.
          repeat rewrite <- app_assoc. reflexivity.
        * exists (w ++ g1), (g2 ++ y ++ rest).
          repeat rewrite <- app_assoc. reflexivity.
        * exists [], (g1 ++ w ++ g2 ++ y ++ rest). reflexivity.
        * exists [], (g1 ++ d ++ g2 ++ y ++ rest). reflexivity.
        * exists (d ++ g1), (g2 ++ y ++ rest).
          repeat rewrite <- app_assoc. reflexivity.
Qed.

(** X3. On text of the code points U+0000..U+00FF, where the digits of
    [\d] and of [int] are the ASCII digits, the heuristic normaliser and
    the verifier agree on dates: when [normalize_date] turns a raw date
    into [date], any evidence text that contains the raw date as written
    supports [date], for the year-first and month-first numeric forms and
    for both month-name forms, unless the raw date is a numeric date that
    mixes a single-digit month or day with a zero-padded one (1978-1-05),
    which the verifier looks for neither in its padded nor in its unpadded
    form.  (A date written with other decimal digits, which Python's [\d]
    and [int] also take, is outside the statement: its normal form is in
    ASCII digits, which the text does not contain.) *)
Theorem normalized_date_supported_by_its_source
    (raw date text : str) (evidence_texts : list str) :
  normalize_date raw = Some date ->
  mixed_padding raw = false ->
  In text evidence_texts ->
  DateRule.occurs_in raw text ->
  _evidence_supports_date date evidence_texts = true.
Proof.
  intros Hn Hmix Hin Hoc.
  destruct (normalized_date_in_text Hn Hmix Hoc) as [y [m [d [Hp Ht]]]].
  unfold _evidence_supports_date. rewrite Hp.
  apply existsb_exists. exists text. split; [exact Hin|].
  apply date_in_text_spec. exact Ht.
Qed.

Lemma normalized_date_supported_by_its_source_witness :
  normalize_date (lit "5 March 1990") = Some (lit "1990-03-05")
  /\ _evidence_supports_date (lit "1990-03-05")
       [lit "Born: 5 March 1990 in Leeds"] = true.
Proof.
  split; [vm_compute; reflexivity|].
  apply (@normalized_date_supported_by_its_source (lit "5 March 1990")
           (lit "1990-03-05") (lit "Born: 5 March 1990 in Leeds")).
  - vm_compute. reflexivity.
  - vm_compute. reflexivity.
  - left. reflexivity.
  - exists (lit "Born: "), (lit " in Leeds"). reflexivity.
Defined.

(** The mixed-padding exception is real: the heuristic value of such a
    date is rejected against the very text it was read from. *)
Example mixed_padding_date_rejected :
  normalize_date (lit "1978-1-05") = Some (lit "1978-01-05")
  /\ mixed_padding (lit "1978-1-05") = true
  /\ _evidence_supports_date (lit "1978-01-05") [lit "DOB: 1978-1-05"]
     = false.
Proof. vm_compute. auto. Qed.

(* --------------------------------------------------------------------- *)
(** ** normalize_phone and the phone rule of the verifier *)
(* --------------------------------------------------------------------- *)

Lemma extract_digits_all_digits (text : str) :
  Forall (fun c => isdigit c = true) (extract_digits text).
Proof.
  unfold extract_digits. apply Forall_forall. intros c Hc.
  apply filter_In in Hc. tauto.
Qed.

Lemma extract_digits_of_digits (s : str) :
  Forall (fun c => isdigit c = true) s -> extract_digits s = s.
Proof.
  unfold extract_digits. induction 1 as [|c s Hc F IH]; simpl;
    [reflexivity|]. rewrite Hc, IH. reflexivity.
Qed.

Lemma extract_digits_app (a b : str) :
  extract_digits (a ++ b) = extract_digits a ++ extract_digits b.
Proof. unfold extract_digits. apply filter_app. Qed.

Lemma normalize_phone_digits (raw : str) :
  Forall (fun c => isdigit c = true) (fst (normalize_phone raw)).
Proof.
  unfold normalize_phone.
  pose proof (extract_digits_all_digits raw) as F.
  destruct (len (extract_digits raw) =? 10); [|destruct (_ && _); exact F].
  cbn [fst]. constructor; [reflexivity | exact F].
Qed.

Lemma normalize_phone_length (raw : str) :
  len (fst (normalize_phone raw))
  = if len (extract_digits raw) =? 10 then 11 else len (extract_digits raw).
Proof.
  unfold normalize_phone.
  destruct (len (extract_digits raw) =? 10) eqn:E.
  - apply Z.eqb_eq in E. cbn [fst]. unfold len in *.
    cbn [app length lit list_ascii_of_string]. lia.
  - destruct (_ && _); reflexivity.
Qed.

(** X4. [normalize_phone] returns decimal digits only and never exactly ten
    of them (ten digits get the country code 1 in front); normalising its
    result again returns it unchanged and assumes no country code. *)
Theorem normalize_phone_canonical (raw : str) :
  let normalized := fst (normalize_phone raw) in
  Forall (fun c => isdigit c = true) normalized
  /\ len normalized <> 10
  /\ normalize_phone normalized = (normalized, false).
Proof.
  cbn zeta. pose proof (normalize_phone_digits raw) as F.
  pose proof (normalize_phone_length raw) as L.
  assert (Hne : len (fst (normalize_phone raw)) <> 10).
  { rewrite L. destruct (len (extract_digits raw) =? 10) eqn:E; [lia|].
    apply Z.eqb_neq in E. exact E. }
  split; [exact F|]. split; [exact Hne|].
  unfold normalize_phone at 1.
  rewrite (extract_digits_of_digits F).
  apply Z.eqb_neq in Hne. rewrite Hne.
  destruct (_ && _); reflexivity.
Qed.

(** Ten digits or more in the raw text: the digits of the evidence hold
    the normalised number, with or without the country code put in front. *)
Lemma phone_digits_in_text (raw before after : str) :
  10 <= len (extract_digits raw) ->
  let norm_digits := fst (normalize_phone raw) in
  let ev_digits := extract_digits (before ++ raw ++ after) in
  contains norm_digits ev_digits
  || (startswith (lit "1") norm_digits
      && contains (tail_from_1 norm_digits) ev_digits)
  || ((len norm_digits =? 11) && startswith (lit "1") norm_digits
      && contains (tail_from_1 norm_digits) ev_digits) = true.
Proof.
  intros _. cbv zeta. rewrite !extract_digits_app.
  assert (Hc : contains (extract_digits raw)
                 (extract_digits before ++ extract_digits raw
                  ++ extract_digits after) = true).
  { apply contains_true.
    exists (extract_digits before), (extract_digits after). reflexivity. }
  unfold normalize_phone.
  destruct (len (extract_digits raw) =? 10).
  - cbn [fst]. apply orb_true_iff. left. apply orb_true_iff. right.
    cbn. exact Hc.
  - destruct (_ && _); cbn [fst]; rewrite Hc; reflexivity.
Qed.

(** X5. The heuristic normaliser and the verifier agree on phone numbers:
    against evidence that contains the raw text, the value
    [normalize_phone] makes of it is supported exactly when the raw text
    has at least ten digits; whatever separators, brackets or other
    characters the evidence has around and between the digits. *)
Theorem normalized_phone_supported_by_its_source
    (raw text : str) (evidence_texts : list str) :
  In text evidence_texts ->
  DateRule.occurs_in raw text ->
  _evidence_supports_phone (fst (normalize_phone raw)) evidence_texts = true
  <-> 10 <= len (extract_digits raw).
Proof.
  intros Hin [before [after ->]].
  unfold _evidence_supports_phone.
  rewrite (extract_digits_of_digits (normalize_phone_digits raw)).
  pose proof (normalize_phone_length raw) as L.
  destruct (len (fst (normalize_phone raw)) <? 10) eqn:E.
  - apply Z.ltb_lt in E. split; [discriminate|]. intros H.
    destruct (len (extract_digits raw) =? 10); lia.
  - apply Z.ltb_ge in E.
    assert (Hten : 10 <= len (extract_digits raw)).
    { destruct (len (extract_digits raw) =? 10) eqn:E10; [|lia].
      apply Z.eqb_eq in E10. lia. }
    split; [intros _; exact Hten|].
    intros _. apply existsb_exists.
    exists (before ++ raw ++ after). split; [exact Hin|].
    apply (@phone_digits_in_text raw before after Hten).
Qed.

Lemma normalized_phone_supported_by_its_source_witness :
  _evidence_supports_phone (fst (normalize_phone (lit "(555) 123-4567")))
    [lit "Phone: (555) 123-4567 (home)"] = true
  <-> 10 <= len (extract_digits (lit "(555) 123-4567")).
Proof.
  apply (@normalized_phone_supported_by_its_source (lit "(555) 123-4567")
           (lit "Phone: (555) 123-4567 (home)")).
  - left. reflexivity.
  - exists (lit "Phone: "), (lit " (home)"). reflexivity.
Defined.

(* --------------------------------------------------------------------- *)
(** ** What a run does to the trace, the artifact and the client *)
(* --------------------------------------------------------------------- *)

Section RunEffects.

Variable heuristic_candidates_for_field :
  FieldSpec.t -> list LayoutDoc.t -> result (list Candidate.t).
Variable Client : Type.
Variable llm_extract_candidates :
  Client -> FieldSpec.t -> list DocExcerpt.t -> RunOptions.t
  -> result (list Candidate.t) * Client.
Variable run_id : str.
Variable run_options : RunOptions.t.
Variable layout : list LayoutDoc.t.
Variable routing : list RoutingEntry.t.

Local Abbreviation State := (RunState Client).
Local Abbreviation routed field :=
  (_get_routed_docs (FieldSpec.key field) routing layout).
Local Abbreviation pass := (llm_pass llm_extract_candidates run_options).
Local Abbreviation step :=
  (process_field heuristic_candidates_for_field llm_extract_candidates
                 run_options layout routing).
Local Abbreviation loop :=
  (fields_loop heuristic_candidates_for_field llm_extract_candidates
               run_options layout routing).
Local Abbreviation needed :=
  (needs_generator heuristic_candidates_for_field layout routing).
Local Abbreviation shown := (excerpts_for layout routing).

Lemma effect_refl (s : State) : effect s s [].
Proof.
  split; [reflexivity|]. split.
  - exists []. rewrite app_nil_r. split; [reflexivity | constructor].
  - rewrite app_nil_r. reflexivity.
Qed.

Lemma effect_trans (s1 s2 s3 : State) (a b : list LlmCall.t) :
  effect s1 s2 a -> effect s2 s3 b -> effect s1 s3 (a ++ b).
Proof.
  intros [J1 [[e1 [T1 F1]] C1]] [J2 [[e2 [T2 F2]] C2]].
  split; [congruence|]. split.
  - exists (e1 ++ e2). rewrite T2, T1, app_assoc.
    split; [reflexivity | apply Forall_app; auto].
  - rewrite C2, C1, app_assoc. reflexivity.
Qed.

Lemma effect_trace_append (s : State) (event : TraceEvent.t) :
  is_field_event event -> effect s (trace_append s event) [].
Proof.
  intros H. split; [reflexivity|]. split.
  - exists [event]. split; [reflexivity | repeat constructor; exact H].
  - cbn. rewrite app_nil_r. reflexivity.
Qed.

Lemma llm_event_is_field_event (field : FieldSpec.t) err :
  is_field_event (llm_event field err).
Proof. exists field. right. exists err. reflexivity. Qed.

Lemma heuristic_event_is_field_event (field : FieldSpec.t) :
  is_field_event (heuristic_event field).
Proof. exists field. left. reflexivity. Qed.

Lemma llm_pass_effect (field : FieldSpec.t) (s : State) :
  exists calls,
    effect s (snd (pass field (routed field) s)) calls
    /\ map LlmCall.field calls
       = (if nonempty (shown field) then [field] else [])
    /\ Forall (fun call =>
                 LlmCall.excerpts call = shown (LlmCall.field call)) calls.
Proof.
  unfold llm_pass. fold (shown field).
  destruct (nonempty (shown field)) eqn:En.
  - unfold invoke_client.
    destruct (llm_extract_candidates (client s) field (shown field)
                run_options) as [outcome c] eqn:E.
    exists [LlmCall.make field (shown field) outcome].
    split; [|split; [reflexivity | repeat constructor]].
    assert (Hcall : effect s
              (mkRunState (trace s) c
                 (llm_calls s ++ [LlmCall.make field (shown field) outcome])
                 (candidates_json s))
              [LlmCall.make field (shown field) outcome]).
    { split; [reflexivity|]. split; [|reflexivity].
      exists []. cbn. rewrite app_nil_r. split; [reflexivity | constructor]. }
    destruct outcome as [cs | [m | f m | k m]]; cbn [snd]; try exact Hcall.
    + rewrite <- (app_nil_r [_]).
      eapply effect_trans; [exact Hcall|].
      apply effect_trace_append, llm_event_is_field_event.
    + rewrite <- (app_nil_r [_]).
      eapply effect_trans; [exact Hcall|].
      apply effect_trace_append, llm_event_is_field_event.
  - exists []. split; [|split; [reflexivity | constructor]].
    cbn [snd]. apply effect_trace_append, llm_event_is_field_event.
Qed.

Lemma process_field_effect (field : FieldSpec.t) (s : State) :
  exists calls,
    effect s (snd (step field s)) calls
    /\ map LlmCall.field calls = (if needed field then [field] else [])
    /\ Forall (fun call =>
                 LlmCall.excerpts call = shown (LlmCall.field call)) calls.
Proof.
  unfold process_field, needs_generator. cbv zeta.
  destruct (nonempty (routed field)) eqn:Er; cbn [negb andb].
  - destruct (heuristic_candidates_for_field field (routed field))
      as [hs | e] eqn:Eh.
    + destruct (should_call_llm (filter (evidence_supports_value field) hs))
        eqn:Ec; cbn [andb].
      * destruct (llm_pass_effect field (trace_append s (heuristic_event field)))
          as [calls [He [Hm Hx]]].
        exists calls. split; [|split; assumption].
        destruct (pass field (routed field)
                    (trace_append s (heuristic_event field)))
          as [[verified | e] s1]; cbn [snd] in *;
          (change calls with ([] ++ calls);
           eapply effect_trans; [|exact He];
           apply effect_trace_append, heuristic_event_is_field_event).
      * exists []. split; [|split; [reflexivity | constructor]].
        cbn [snd]. apply effect_trace_append, heuristic_event_is_field_event.
    + exists []. split; [|split; [reflexivity | constructor]].
      cbn [snd]. apply effect_refl.
  - exists []. split; [|split; [reflexivity | constructor]].
    cbn [snd]. apply effect_refl.
Qed.

Lemma fields_loop_effect (fields : list FieldSpec.t) :
  forall all_candidates field_stats (s : State),
  exists processed rest calls,
    fields = processed ++ rest
    /\ effect s (snd (loop fields all_candidates field_stats s)) calls
    /\ map LlmCall.field calls = filter needed processed
    /\ Forall (fun call =>
                 LlmCall.excerpts call = shown (LlmCall.field call)) calls
    /\ (is_ok (fst (loop fields all_candidates field_stats s)) = true ->
        rest = []).
Proof.
  induction fields as [|field fields IH]; intros acc stats s.
  - exists [], [], []. cbn [fields_loop fst snd app map filter].
    split; [reflexivity|]. split; [apply effect_refl|].
    split; [reflexivity|]. split; [constructor | reflexivity].
  - cbn [fields_loop].
    destruct (process_field_effect field s) as [calls [He [Hm Hx]]].
    destruct (step field s) as [[[cs st] | e] s1] eqn:E; cbn [snd] in He.
    + destruct (IH (acc ++ cs) (dict_set stats (FieldSpec.key field) st) s1)
        as [processed [rest [calls' [-> [He' [Hm' [Hx' Hok]]]]]]].
      exists (field :: processed), rest, (calls ++ calls').
      split; [reflexivity|]. split; [eapply effect_trans; eassumption|].
      split; [|split; [apply Forall_app; auto | exact Hok]].
      rewrite map_app, Hm, Hm'. cbn [filter].
      destruct (needed field); reflexivity.
    + exists [field], fields, calls. cbn [fst snd is_ok].
      split; [reflexivity|]. split; [exact He|].
      split; [|split; [exact Hx | discriminate]].
      rewrite Hm. cbn [filter]. destruct (needed field); reflexivity.
Qed.


End RunEffects.


(** X7. The client calls of a run.  The fields to process split into the
    ones the run reached and the ones it did not; the run invoked the
    generator client once for each reached field that needs it (documents
    routed, heuristic candidates below the threshold, excerpts not empty),
    in schema order and for no other field, each time with exactly the
    excerpts built from the field's routed documents under the default
    budgets; a run that returns reached every field. *)
Theorem client_calls_of_a_run :
  forall (heuristic_candidates_for_field :
            FieldSpec.t -> list LayoutDoc.t -> result (list Candidate.t))
         (Client : Type)
         (llm_extract_candidates :
            Client -> FieldSpec.t -> list DocExcerpt.t -> RunOptions.t
            -> result (list Candidate.t) * Client)
         (run_id : str) (run_options : RunOptions.t)
         (layout : list LayoutDoc.t) (routing : list RoutingEntry.t)
         (schema : ResolvedSchema.t) (s : RunState Client),
    let r := extract_candidates_for_run heuristic_candidates_for_field
               llm_extract_candidates run_id run_options layout routing
               schema s in
    exists reached not_reached calls,
      fields_to_process run_options schema = reached ++ not_reached
      /\ llm_calls (snd r) = llm_calls s ++ calls
      /\ map LlmCall.field calls
         = filter (needs_generator heuristic_candidates_for_field layout
                     routing) reached
      /\ Forall (fun call =>
                   LlmCall.excerpts call
                   = excerpts_for layout routing (LlmCall.field call)
                   /\ LlmCall.excerpts call <> [])
                calls
      /\ (is_ok (fst r) = true -> not_reached = []).
Proof.
  intros hc Client lc run_id run_options layout routing schema s.
  cbv zeta. unfold extract_candidates_for_run.
  destruct (fields_loop_effect hc lc run_options layout routing
              (fields_to_process run_options schema) [] [] s)
    as [processed [rest [calls [Hsplit [[_ [_ Hc]] [Hm [Hx Hok]]]]]]].
  exists processed, rest, calls.
  assert (Hne : Forall (fun call =>
                   LlmCall.excerpts call
                   = excerpts_for layout routing (LlmCall.field call)
                   /\ LlmCall.excerpts call <> []) calls).
  { apply Forall_forall. intros call Hin.
    pose proof (proj1 (Forall_forall _ _) Hx call Hin) as Hex.
    split; [exact Hex|].
    assert (Hf : In (LlmCall.field call)
                   (filter (needs_generator hc layout routing) processed)).
    { rewrite <- Hm. apply in_map. exact Hin. }
    apply filter_In in Hf. destruct Hf as [_ Hf].
    unfold needs_generator in Hf. cbv zeta in Hf.
    apply andb_true_iff in Hf. destruct Hf as [_ Hf].
    destruct (hc (LlmCall.field call) _); [|discriminate].
    apply andb_true_iff in Hf. destruct Hf as [_ Hf].
    rewrite Hex. destruct (excerpts_for layout routing (LlmCall.field call));
      [discriminate Hf | discriminate]. }
  destruct (fields_loop hc lc run_options layout routing
              (fields_to_process run_options schema) [] [] s)
    as [[[cs st] | e] s1]; cbn [fst snd] in *.
  - repeat (split; [assumption|]). exact Hok.
  - repeat (split; [assumption|]). discriminate.
Qed.

(* --------------------------------------------------------------------- *)
(** ** The evidence check on validated candidates *)
(* --------------------------------------------------------------------- *)

Lemma blank_false (v : str) : blank v = false -> nonempty v = true.
Proof.
  unfold blank. intros H. apply orb_false_iff in H. destruct H as [H _].
  destruct (nonempty v); [reflexivity | discriminate H].
Qed.

Lemma collect_evidence_texts_valid (evidence : list Evidence.t) :
  Forall evidence_invariant evidence ->
  collect_evidence_texts evidence = Some (map Evidence.quoted_text evidence).
Proof.
  induction 1 as [|ev evs [Hd [Hq Hp]] F IH]; cbn [collect_evidence_texts map];
    [reflexivity|].
  rewrite (blank_false _ Hd), (blank_false _ Hq), IH.
  assert (Hz : (Evidence.page ev =? 0) = false) by (apply Z.eqb_neq; lia).
  rewrite Hz. reflexivity.
Qed.

(** X8. On a candidate that satisfies the evidence invariant (as every
    constructed candidate does) the structural guards of
    [evidence_supports_value] never fire: its answer is the rule of the
    field's type applied to the normalized value and the quoted texts, in
    evidence order, and depends on nothing else of the candidate. *)
Theorem evidence_check_of_valid_candidate
    (field : FieldSpec.t) (c : Candidate.t) :
  candidate_invariant c ->
  evidence_supports_value field c
  = supports_by_type (FieldSpec.type field) (Candidate.normalized_value c)
      (map Evidence.quoted_text (Candidate.evidence c)).
Proof.
  intros [Hne F]. unfold evidence_supports_value.
  rewrite (collect_evidence_texts_valid F).
  destruct (Candidate.evidence c) as [|ev evs]; [congruence|].
  cbn [nonempty negb map]. reflexivity.
Qed.

Lemma evidence_check_of_valid_candidate_witness :
  evidence_supports_value Sample.dob_field Sample.dob_candidate
  = supports_by_type TDate (Candidate.normalized_value Sample.dob_candidate)
      (map Evidence.quoted_text (Candidate.evidence Sample.dob_candidate)).
Proof.
  apply (@evidence_check_of_valid_candidate Sample.dob_field
           Sample.dob_candidate).
  split; [discriminate|].
  repeat constructor; vm_compute; try reflexivity; discriminate.
Defined.

(* --------------------------------------------------------------------- *)
(** ** _get_routed_docs *)
(* --------------------------------------------------------------------- *)

Lemma layout_map_get_some (layout : list LayoutDoc.t) (doc_id : str)
    (doc : LayoutDoc.t) :
  layout_map_get layout doc_id = Some doc ->
  In doc layout /\ LayoutDoc.doc_id doc = doc_id.
Proof.
  unfold layout_map_get. intros H. apply find_some in H.
  destruct H as [Hin He]. apply str_eqb_true in He.
  split; [apply in_rev; exact Hin | exact He].
Qed.

Lemma layout_map_get_none (layout : list LayoutDoc.t) (doc_id : str) :
  layout_map_get layout doc_id = None -> in_layout layout doc_id = false.
Proof.
  unfold layout_map_get, in_layout. intros H.
  destruct (existsb _ layout) eqn:E; [|reflexivity].
  apply existsb_exists in E. destruct E as [doc [Hin He]].
  apply in_rev in Hin.
  pose proof (find_none _ _ H doc Hin) as Hn. cbv beta in Hn. congruence.
Qed.

Lemma routed_ids (layout : list LayoutDoc.t) (doc_ids : list str) :
  let docs :=
    flat_map (fun doc_id =>
                match layout_map_get layout doc_id with
                | Some doc => [doc]
                | None => []
                end) doc_ids in
  map LayoutDoc.doc_id docs = filter (in_layout layout) doc_ids
  /\ Forall (fun doc => In doc layout) docs.
Proof.
  cbv zeta. induction doc_ids as [|id ids [IHm IHf]]; cbn [flat_map filter].
  - split; [reflexivity | constructor].
  - destruct (layout_map_get layout id) as [doc|] eqn:E.
    + apply layout_map_get_some in E as E'. destruct E' as [Hin Hid].
      assert (Hl : in_layout layout id = true).
      { apply existsb_exists. exists doc. split; [exact Hin|].
        apply str_eqb_true. exact Hid. }
      rewrite Hl. cbn [app map]. split.
      * rewrite Hid, IHm. reflexivity.
      * constructor; assumption.
    + rewrite (layout_map_get_none _ _ E). cbn [app]. split; assumption.
Qed.

(** X9. [_get_routed_docs] returns documents of the layout only; their ids
    are the ids of the first routing entry of the field that the layout
    knows, in routing order and as often as the entry lists them; without a
    routing entry for the field the result is empty. *)
Theorem get_routed_docs_follow_routing :
  forall (field_key : str) (routing : list RoutingEntry.t)
         (layout : list LayoutDoc.t),
    let docs := _get_routed_docs field_key routing layout in
    Forall (fun doc => In doc layout) docs
    /\ map LayoutDoc.doc_id docs
       = match find (fun r => PyStr.eqb (RoutingEntry.field r) field_key)
                    routing with
         | Some entry => filter (in_layout layout) (RoutingEntry.doc_ids entry)
         | None => []
         end.
Proof.
  intros key routing layout. cbv zeta. unfold _get_routed_docs.
  destruct (find _ routing) as [entry|]; [|split; [constructor | reflexivity]].
  destruct (RoutingEntry.doc_ids entry) as [|id ids] eqn:E;
    cbn [nonempty negb]; [split; [constructor | reflexivity]|].
  destruct (routed_ids layout (id :: ids)) as [Hm Hf]. split; assumption.
Qed.

(* --------------------------------------------------------------------- *)
(** ** _sort_candidates: a stable sort *)
(* --------------------------------------------------------------------- *)

Section StableSort.

Variables (A K : Type) (key : A -> K) (ltb : K -> K -> bool).

Lemma insert_by_head (x : A) (l : list A) :
  Forall (in_order key ltb x) l -> insert_by key ltb x l = x :: l.
Proof.
  intros F. destruct l as [|y l]; [reflexivity|]. cbn [insert_by].
  inversion F as [|? ? Hy _]; subst. unfold in_order in Hy.
  rewrite Hy. reflexivity.
Qed.

Lemma sorted_by_of_sorted (l : list A) :
  StronglySorted (in_order key ltb) l -> sorted_by key ltb l = l.
Proof.
  induction 1 as [|x l S IH F]; cbn [sorted_by]; [reflexivity|].
  rewrite IH. apply insert_by_head. exact F.
Qed.

(** [p] picks elements whose key no element with a smaller key shares. *)
Variable p : A -> bool.
Hypothesis p_key :
  forall x y, p x = true -> p y = true -> ltb (key y) (key x) = false.

Lemma filter_insert_by (x : A) (l : list A) :
  filter p (insert_by key ltb x l) = filter p (x :: l).
Proof.
  induction l as [|y l IH]; [reflexivity|]. cbn [insert_by].
  destruct (ltb (key y) (key x)) eqn:E; [|reflexivity].
  cbn [filter] in *. rewrite IH.
  destruct (p x) eqn:Px; [|reflexivity].
  destruct (p y) eqn:Py; [|reflexivity].
  rewrite (p_key Px Py) in E. discriminate E.
Qed.

Lemma filter_sorted_by (l : list A) :
  filter p (sorted_by key ltb l) = filter p l.
Proof.
  induction l as [|x l IH]; [reflexivity|]. cbn [sorted_by].
  rewrite filter_insert_by. cbn [filter]. rewrite IH. reflexivity.
Qed.

End StableSort.

Lemma has_key_same (k : sort_key) (a b : Candidate.t) :
  has_key k a = true -> has_key k b = true ->
  key_ltb (candidate_key b) (candidate_key a) = false.
Proof.
  unfold has_key. intros Ha Hb.
  destruct (key_compare (candidate_key a) k) eqn:Ea; try discriminate.
  destruct (key_compare (candidate_key b) k) eqn:Eb; try discriminate.
  apply key_compare_eq in Ea, Eb. rewrite Ea, Eb.
  unfold key_ltb.
  destruct (key_compare k k) eqn:E; try reflexivity.
  assert (H : key_ltb k k = true) by (unfold key_ltb; rewrite E; reflexivity).
  apply key_ltb_asym in H as H'. congruence.
Qed.

(** X10. [_sort_candidates] is a stable sort: its result is a permutation
    of the input (no candidate is lost, added or duplicated), candidates
    with the same key (field, method, normalized value) keep the order they
    had in the input, and sorting a sorted list again changes nothing. *)
Theorem sort_candidates_stable :
  forall (candidates : list Candidate.t),
    Permutation candidates (_sort_candidates candidates)
    /\ (forall k, filter (has_key k) (_sort_candidates candidates)
                  = filter (has_key k) candidates)
    /\ _sort_candidates (_sort_candidates candidates)
       = _sort_candidates candidates.
Proof.
  intros candidates. split; [apply _sort_candidates_perm|]. split.
  - intros k. unfold _sort_candidates. apply filter_sorted_by.
    intros x y Hx Hy. eapply has_key_same; eassumption.
  - unfold _sort_candidates at 1. apply sorted_by_of_sorted.
    apply _sort_candidates_sorted.
Qed.

(* --------------------------------------------------------------------- *)
(** ** When there is nothing to show the generator *)
(* --------------------------------------------------------------------- *)

Lemma slice_to_nil {A} (n : Z) : slice_to (@nil A) n = [].
Proof. unfold slice_to. destruct (0 <=? n); apply firstn_nil. Qed.

Lemma slice_to_empty {A} (l : list A) (n : Z) :
  0 < n -> slice_to l n = [] -> l = [].
Proof.
  intros Hn. rewrite slice_to_nonneg by lia.
  destruct (Z.to_nat n) as [|k] eqn:E; [lia|].
  destruct l; [reflexivity | discriminate].
Qed.

Lemma excerpts_of_pages_no_text (max_total max_doc : Z) (doc_id : str)
    (selected : list LayoutPageText.t) :
  Forall (fun p => LayoutPageText.full_text p = []) selected ->
  forall used total,
    excerpts_of_pages max_total max_doc doc_id selected used total
    = ([], total).
Proof.
  induction 1 as [|p rest Hp F IH]; intros used total;
    cbn [excerpts_of_pages]; [reflexivity|].
  destruct (max_total <=? total); [reflexivity|].
  destruct (max_doc <=? used); [reflexivity|].
  cbv zeta. rewrite Hp, slice_to_nil. cbn [nonempty]. apply IH.
Qed.

Lemma excerpts_of_pages_none (max_total max_doc : Z) (doc_id : str) :
  0 < max_total -> 0 < max_doc ->
  forall selected total,
    excerpts_of_pages max_total max_doc doc_id selected 0 0 = ([], total) ->
    total = 0
    /\ Forall (fun p => LayoutPageText.full_text p = []) selected.
Proof.
  intros Ht Hd. induction selected as [|p rest IH]; intros total E;
    cbn [excerpts_of_pages] in E.
  - inversion E. split; [reflexivity | constructor].
  - destruct (Z.leb_spec max_total 0); [lia|].
    destruct (Z.leb_spec max_doc 0); [lia|].
    cbv zeta in E.
    destruct (nonempty (slice_to (LayoutPageText.full_text p)
                          (Z.min (max_doc - 0) (max_total - 0)))) eqn:En.
    + match type of E with
      | context [excerpts_of_pages ?a ?b ?c ?d ?e ?f] =>
          destruct (excerpts_of_pages a b c d e f)
      end.
      discriminate E.
    + apply IH in E. destruct E as [-> F]. split; [reflexivity|].
      constructor; [|exact F].
      apply slice_to_empty with (n := Z.min (max_doc - 0) (max_total - 0));
        [lia|].
      destruct (slice_to _ _); [reflexivity | discriminate En].
Qed.

(** X11. With positive character budgets, [build_excerpts_for_field]
    returns no excerpt at all exactly when every page it selects, in every
    routed document, has an empty text.  So the orchestrator skips the
    generator client for an escalated field only when the selected pages
    of its routed documents hold no text. *)
Theorem no_excerpts_iff_no_text :
  forall (field : FieldSpec.t) (routed_docs : list LayoutDoc.t)
         (max_total_chars max_chars_per_doc max_pages_per_doc : Z),
    0 < max_total_chars ->
    0 < max_chars_per_doc ->
    (build_excerpts_for_field field max_total_chars max_chars_per_doc
       max_pages_per_doc routed_docs = []
     <-> forall doc page,
           In doc routed_docs ->
           In page (selected_pages field max_pages_per_doc doc) ->
           LayoutPageText.full_text page = []).
Proof.
  intros field docs mt mc mp Ht Hc. unfold build_excerpts_for_field. split.
  - induction docs as [|doc docs IH]; cbn [excerpts_of_docs];
      [intros _ doc page []|].
    destruct (Z.leb_spec mt 0) as [Hle | Hlt]; [lia|].
    destruct (excerpts_of_pages mt mc (LayoutDoc.doc_id doc)
                (selected_pages field mp doc) 0 0) as [es total] eqn:E.
    intros Hnil. apply app_eq_nil in Hnil. destruct Hnil as [-> Hrest].
    apply excerpts_of_pages_none in E; [|assumption|assumption].
    destruct E as [-> F]. intros d page [<- | Hin] Hp.
    + exact (proj1 (Forall_forall _ _) F page Hp).
    + exact (IH Hrest d page Hin Hp).
  - intros H. generalize 0. induction docs as [|doc docs IH];
      intros total; cbn [excerpts_of_docs]; [reflexivity|].
    destruct (mt <=? total); [reflexivity|].
    rewrite excerpts_of_pages_no_text.
    + cbn [app]. apply IH. intros d page Hin. apply H. right. exact Hin.
    + apply Forall_forall. intros page Hp. apply (H doc); [left; reflexivity|].
      exact Hp.
Qed.

Lemma no_excerpts_iff_no_text_witness :
  build_excerpts_for_field Sample.dob_field 8000 4000 3 [Sample.doc] = []
  <-> forall doc page,
        In doc [Sample.doc] ->
        In page (selected_pages Sample.dob_field 3 doc) ->
        LayoutPageText.full_text page = [].
Proof.
  apply (@no_excerpts_iff_no_text Sample.dob_field [Sample.doc] 8000 4000 3);
    lia.
Defined.

(* --------------------------------------------------------------------- *)
(** ** normalize_text keeps substrings *)
(* --------------------------------------------------------------------- *)

Lemma occurs_in_nil (text : str) : DateRule.occurs_in [] text.
Proof. exists [], text. reflexivity. Qed.

Lemma occurs_in_refl (text : str) : DateRule.occurs_in text text.
Proof. exists [], []. rewrite app_nil_r. reflexivity. Qed.

Lemma collapse_whitespace_from_app (v b : str) :
  forall in_run : bool, exists rest,
    collapse_whitespace_from in_run (v ++ b)
    = collapse_whitespace_from in_run v ++ rest.
Proof.
  induction v as [|c v IH]; intros r; cbn [app collapse_whitespace_from].
  - eexists. reflexivity.
  - destruct (isspace c).
    + destruct r; destruct (IH true) as [rest ->]; exists rest; reflexivity.
    + destruct (IH false) as [rest ->]. exists rest. reflexivity.
Qed.

Lemma collapse_whitespace_from_true (v : str) :
  exists before,
    " "%char :: collapse_whitespace_from true v
    = before ++ collapse_whitespace_from false v.
Proof.
  destruct v as [|c v]; cbn [collapse_whitespace_from].
  - exists [" "%char]. reflexivity.
  - destruct (isspace c).
    + exists []. reflexivity.
    + exists [" "%char]. reflexivity.
Qed.

(** What the whitespace collapse has written when it reaches [v] after some
    text, the pending space included, ends with the collapse of [v]. *)
Lemma collapse_whitespace_from_context (a v : str) :
  forall in_run : bool, exists before,
    (if in_run
     then " "%char :: collapse_whitespace_from true (a ++ v)
     else collapse_whitespace_from false (a ++ v))
    = before ++ collapse_whitespace_from false v.
Proof.
  induction a as [|c a IH]; intros r.
  - cbn [app]. destruct r; [apply collapse_whitespace_from_true|].
    exists []. reflexivity.
  - cbn [app collapse_whitespace_from]. destruct (isspace c).
    + destruct (IH true) as [before H]. destruct r; exists before; exact H.
    + destruct (IH false) as [before H]. rewrite H.
      destruct r; eexists; rewrite ?app_comm_cons; reflexivity.
Qed.

Lemma collapse_whitespace_occurs (a b : str) :
  DateRule.occurs_in a b ->
  DateRule.occurs_in (collapse_whitespace a) (collapse_whitespace b).
Proof.
  intros [p [q ->]]. unfold collapse_whitespace.
  destruct (collapse_whitespace_from_context p (a ++ q) false) as [before ->].
  destruct (collapse_whitespace_from_app a q false) as [rest ->].
  exists before, rest. reflexivity.
Qed.

Lemma strip_punctuation_occurs (a b : str) :
  DateRule.occurs_in a b ->
  DateRule.occurs_in (strip_punctuation a) (strip_punctuation b).
Proof.
  intros [p [q ->]]. unfold strip_punctuation. rewrite !filter_app.
  eexists _, _. reflexivity.
Qed.

Lemma lstrip_by_suffix (p : ascii -> bool) (s : str) :
  exists removed, s = removed ++ lstrip_by p s
                  /\ Forall (fun c => p c = true) removed.
Proof.
  induction s as [|c s [removed [IH F]]]; cbn [lstrip_by].
  - exists []. split; [reflexivity | constructor].
  - destruct (p c) eqn:E.
    + exists (c :: removed). split; [cbn; f_equal; exact IH|].
      constructor; assumption.
    + exists []. split; [reflexivity | constructor].
Qed.

Lemma lstrip_by_head (p : ascii -> bool) (s : str) :
  match lstrip_by p s with
  | [] => True
  | c :: _ => p c = false
  end.
Proof.
  induction s as [|c s IH]; cbn [lstrip_by]; [exact I|].
  destruct (p c) eqn:E; [exact IH | exact E].
Qed.

Lemma lstrip_by_keeps (p : ascii -> bool) (a : str) (c : ascii) (r : str) :
  p c = false ->
  exists a', lstrip_by p (a ++ c :: r) = a' ++ c :: r.
Proof.
  intros Hc. induction a as [|x a [a' IH]]; cbn [app lstrip_by].
  - rewrite Hc. exists []. reflexivity.
  - destruct (p x).
    + exists a'. exact IH.
    + exists (x :: a). reflexivity.
Qed.

Lemma rstrip_by_keeps (p : ascii -> bool) (a : str) (c : ascii) (r : str) :
  p c = false ->
  exists r', rstrip_by p (a ++ c :: r) = a ++ c :: r'.
Proof.
  intros Hc. unfold rstrip_by.
  rewrite rev_app_distr. cbn [rev]. rewrite <- app_assoc. cbn [app].
  destruct (@lstrip_by_keeps p (rev r) c (rev a) Hc) as [r' ->].
  exists (rev r'). rewrite rev_app_distr. cbn [rev].
  rewrite rev_involutive, <- app_assoc. reflexivity.
Qed.

Lemma rstrip_by_prefix (p : ascii -> bool) (s : str) :
  exists removed, s = rstrip_by p s ++ removed.
Proof.
  unfold rstrip_by.
  destruct (lstrip_by_suffix p (rev s)) as [removed [H _]].
  exists (rev removed).
  rewrite <- rev_app_distr, <- H, rev_involutive. reflexivity.
Qed.

Lemma rstrip_by_last (p : ascii -> bool) (s : str) :
  rstrip_by p s = [] \/ exists front c, rstrip_by p s = front ++ [c]
                                        /\ p c = false.
Proof.
  unfold rstrip_by. pose proof (lstrip_by_head p (rev s)) as H.
  destruct (lstrip_by p (rev s)) as [|c t]; [left; reflexivity|].
  right. exists (rev t), c. split; [reflexivity | exact H].
Qed.

(** The stripped string is empty, or it starts and ends with a character
    that is not whitespace; and it is a part of the string. *)
Lemma strip_shape (s : str) :
  DateRule.occurs_in (strip s) s
  /\ (strip s = []
      \/ exists first rest front last,
           strip s = first :: rest /\ strip s = front ++ [last]
           /\ isspace first = false /\ isspace last = false).
Proof.
  unfold strip.
  destruct (lstrip_by_suffix isspace s) as [removed [Hs _]].
  destruct (rstrip_by_prefix isspace (lstrip_by isspace s)) as [removed' Hr].
  split.
  - exists removed, removed'. rewrite <- Hr. exact Hs.
  - destruct (rstrip_by_last isspace (lstrip_by isspace s))
      as [E | [front [last [E Hl]]]]; [left; exact E|].
    right. pose proof (lstrip_by_head isspace s) as Hh.
    destruct (rstrip_by isspace (lstrip_by isspace s)) as [|first rest] eqn:Er.
    + destruct front; discriminate E.
    + exists first, rest, front, last.
      split; [reflexivity|]. split; [exact E|]. split; [|exact Hl].
      rewrite Hr in Hh. exact Hh.
Qed.

Lemma strip_keeps_core (p core q : str) (first last : ascii)
    (rest front : str) :
  core = first :: rest -> core = front ++ [last] ->
  isspace first = false -> isspace last = false ->
  DateRule.occurs_in core (strip (p ++ core ++ q)).
Proof.
  intros E1 E2 Hf Hl. unfold strip.
  destruct (@lstrip_by_keeps isspace p first (rest ++ q) Hf) as [p' Hp].
  assert (H1 : lstrip_by isspace (p ++ core ++ q) = p' ++ core ++ q)
    by (rewrite E1; exact Hp).
  rewrite H1.
  destruct (@rstrip_by_keeps isspace (p' ++ front) last q Hl) as [q' Hq].
  assert (H2 : rstrip_by isspace (p' ++ core ++ q) = p' ++ core ++ q').
  { rewrite E2. rewrite <- !app_assoc in *. cbn [app] in *. exact Hq. }
  rewrite H2. exists p', q'. reflexivity.
Qed.

Lemma strip_occurs (a b : str) :
  DateRule.occurs_in a b -> DateRule.occurs_in (strip a) (strip b).
Proof.
  intros Hab. destruct (strip_shape a) as [Ha Hcore].
  destruct Hcore as [E | [first [rest [front [last [E1 [E2 [Hf Hl]]]]]]]].
  - rewrite E. apply occurs_in_nil.
  - destruct (occurs_in_trans Ha Hab) as [p [q ->]].
    eapply strip_keeps_core; eassumption.
Qed.

(** [normalize_text] keeps substrings: what occurs in a text occurs, once
    normalised, in the normalised text. *)
Lemma normalize_text_occurs (a b : str) :
  DateRule.occurs_in a b ->
  DateRule.occurs_in (normalize_text a) (normalize_text b).
Proof.
  intros H. unfold normalize_text.
  apply strip_occurs, strip_punctuation_occurs, collapse_whitespace_occurs,
    occurs_in_lower. exact H.
Qed.

(* --------------------------------------------------------------------- *)
(** ** The string rule and the list rule on quoted values *)
(* --------------------------------------------------------------------- *)

Lemma string_rule_from_occurrence (value text : str)
    (evidence_texts : list str) :
  In text evidence_texts ->
  DateRule.occurs_in (normalize_text value) (normalize_text text) ->
  _evidence_supports_string value evidence_texts = true.
Proof.
  intros Hin Hoc. unfold _evidence_supports_string,
    _normalize_for_evidence_check.
  apply existsb_exists. exists text. split; [exact Hin|].
  apply contains_true. exact Hoc.
Qed.

(** X12. On text of the code points U+0000..U+00FF, where [str.lower]
    maps character by character, the string rule accepts every value
    quoted from the evidence: a value that occurs verbatim in one of the
    evidence texts is supported; and so is its normalised form
    [normalize_text value] (what the heuristic extractors store as
    [normalized_value]) whenever normalising that form again leaves it
    unchanged.  (Outside that range [str.lower] looks at the neighbours of
    a character, a capital sigma at the end of a word for one, and a value
    can occur verbatim in a text without its normal form occurring in the
    normal form of the text.) *)
Theorem string_rule_accepts_quoted_value
    (value text : str) (evidence_texts : list str) :
  In text evidence_texts ->
  DateRule.occurs_in value text ->
  _evidence_supports_string value evidence_texts = true
  /\ (normalize_text (normalize_text value) = normalize_text value ->
      _evidence_supports_string (normalize_text value) evidence_texts = true).
Proof.
  intros Hin Hoc. split.
  - apply string_rule_from_occurrence with (text := text); [exact Hin|].
    apply normalize_text_occurs. exact Hoc.
  - intros Hstable.
    apply string_rule_from_occurrence with (text := text); [exact Hin|].
    rewrite Hstable. apply normalize_text_occurs. exact Hoc.
Qed.

Lemma string_rule_accepts_quoted_value_witness :
  _evidence_supports_string (lit "Jane Q. Doe") [lit "Name: Jane Q. Doe"]
  = true
  /\ (normalize_text (normalize_text (lit "Jane Q. Doe"))
      = normalize_text (lit "Jane Q. Doe") ->
      _evidence_supports_string (normalize_text (lit "Jane Q. Doe"))
        [lit "Name: Jane Q. Doe"] = true).
Proof.
  apply (@string_rule_accepts_quoted_value (lit "Jane Q. Doe")
           (lit "Name: Jane Q. Doe")).
  - left. reflexivity.
  - exists (lit "Name: "), []. reflexivity.
Defined.

Lemma join_app_prefix (sep : str) (a b : list str) :
  exists rest, join sep (a ++ b) = join sep a ++ rest.
Proof.
  induction a as [|p a [rest IH]].
  - eexists. reflexivity.
  - destruct a as [|p' a].
    + destruct b as [|q b]; cbn [app join].
      * exists []. rewrite app_nil_r. reflexivity.
      * eexists. reflexivity.
    + cbn [app join] in *. rewrite IH. exists rest.
      rewrite <- !app_assoc. reflexivity.
Qed.

Lemma join_app_suffix (sep : str) (a b : list str) :
  exists before, join sep (a ++ b) = before ++ join sep b.
Proof.
  induction a as [|p a [before IH]].
  - exists []. reflexivity.
  - destruct a as [|p' a].
    + destruct b as [|q b]; cbn [app join].
      * exists p. rewrite app_nil_r. reflexivity.
      * exists (p ++ sep). rewrite <- app_assoc. reflexivity.
    + cbn [app join] in *. rewrite IH. exists (p ++ sep ++ before).
      rewrite <- !app_assoc. reflexivity.
Qed.

Lemma join_occurs (sep : str) (before texts after : list str) :
  DateRule.occurs_in (join sep texts) (join sep (before ++ texts ++ after)).
Proof.
  destruct (join_app_suffix sep before (texts ++ after)) as [b ->].
  destruct (join_app_prefix sep texts after) as [r ->].
  exists b, r. reflexivity.
Qed.

Lemma join_member_occurs (sep : str) (text : str) (texts : list str) :
  In text texts -> DateRule.occurs_in text (join sep texts).
Proof.
  intros Hin. apply in_split in Hin. destruct Hin as [l1 [l2 ->]].
  change (l1 ++ text :: l2) with (l1 ++ [text] ++ l2).
  apply (@join_occurs sep l1 [text] l2).
Qed.

(** X13. On text of the code points U+0000..U+00FF, where [str.lower]
    maps character by character, the list rule accepts a list quoted from
    the evidence: when the value has a comma or a semicolon and at least
    one non-blank item, and every non-blank item occurs verbatim in some
    evidence text, the value is supported. *)
Theorem list_rule_accepts_quoted_items
    (value : str) (evidence_texts : list str) :
  contains (lit ",") value || contains (lit ";") value = true ->
  filter nonempty (map strip (split_on is_list_separator value)) <> [] ->
  (forall item,
      In item (filter nonempty (map strip (split_on is_list_separator value)))
      -> exists text, In text evidence_texts /\ DateRule.occurs_in item text)
  ->
  _evidence_supports_list value evidence_texts = true.
Proof.
  intros Hsep Hne Hitems. unfold _evidence_supports_list.
  rewrite Hsep. cbv zeta.
  apply nonempty_true in Hne. rewrite Hne. cbn [negb].
  apply forallb_forall. intros item Hin.
  destruct (Hitems item Hin) as [text [Ht Hoc]].
  assert (Hc : contains (_normalize_for_evidence_check item)
                 (_normalize_for_evidence_check
                    (join (lit " ") evidence_texts)) = true).
  { apply contains_true. unfold _normalize_for_evidence_check.
    apply normalize_text_occurs.
    eapply occurs_in_trans; [exact Hoc|]. apply join_member_occurs. exact Ht. }
  rewrite Hc. cbn [negb]. rewrite andb_false_r. reflexivity.
Qed.

Lemma list_rule_accepts_quoted_items_witness :
  _evidence_supports_list (lit "penicillin, latex")
    [lit "Allergies: latex"; lit "penicillin (severe)"] = true.
Proof.
  apply (@list_rule_accepts_quoted_items (lit "penicillin, latex")
           [lit "Allergies: latex"; lit "penicillin (severe)"]).
  - vm_compute. reflexivity.
  - vm_compute. discriminate.
  - vm_compute. intros item [<- | [<- | []]].
    + eexists. split; [right; left; reflexivity|].
      exists [], (lit " (severe)"). reflexivity.
    + eexists. split; [left; reflexivity|].
      exists (lit "Allergies: "), []. reflexivity.
Defined.

(* --------------------------------------------------------------------- *)
(** ** More evidence never hurts *)
(* --------------------------------------------------------------------- *)

Lemma existsb_more {A} (f : A -> bool) (before l after : list A) :
  existsb f l = true -> existsb f (before ++ l ++ after) = true.
Proof.
  intros H. rewrite !existsb_app, H. rewrite orb_true_l, orb_true_r.
  reflexivity.
Qed.

(** X14. Adding evidence texts, before or after the ones a value is
    supported by, never makes the value unsupported: each of the four
    rules (string, date, phone, list) that answers [True] on some evidence
    texts answers [True] on every list of evidence texts that contains them
    as a contiguous part. *)
Theorem more_evidence_never_hurts
    (type : FieldType) (value : str) (before texts after : list str) :
  supports_by_type type value texts = true ->
  supports_by_type type value (before ++ texts ++ after) = true.
Proof.
  destruct type; cbn [supports_by_type].
  - apply existsb_more.
  - unfold _evidence_supports_date.
    destruct (match_ymd value) as [[[y m] d]|]; [apply existsb_more | auto].
  - unfold _evidence_supports_phone. cbv zeta.
    destruct (len (extract_digits value) <? 10); [auto | apply existsb_more].
  - unfold _evidence_supports_list.
    destruct (contains (lit ",") value || contains (lit ";") value);
      [|apply existsb_more].
    cbv zeta.
    destruct (negb (nonempty (filter nonempty
                (map strip (split_on is_list_separator value)))));
      [auto|].
    rewrite !forallb_forall. intros H item Hin. specialize (H item Hin).
    destruct (nonempty (_normalize_for_evidence_check item));
      [|reflexivity].
    cbn [andb] in *. apply negb_true_iff in H. apply negb_false_iff in H.
    apply contains_true in H.
    assert (Hc : contains (_normalize_for_evidence_check item)
                   (_normalize_for_evidence_check
                      (join (lit " ") (before ++ texts ++ after))) = true).
    { apply contains_true. eapply occurs_in_trans; [exact H|].
      unfold _normalize_for_evidence_check. apply normalize_text_occurs.
      apply join_occurs. }
    rewrite Hc. reflexivity.
Qed.

Lemma more_evidence_never_hurts_witness :
  supports_by_type TPhone (lit "15551234567")
    ([lit "page 1"] ++ [lit "Tel. 555-123-4567"] ++ [lit "page 3"]) = true.
Proof.
  apply (@more_evidence_never_hurts TPhone (lit "15551234567")
           [lit "page 1"] [lit "Tel. 555-123-4567"] [lit "page 3"]).
  vm_compute. reflexivity.
Defined.

(* --------------------------------------------------------------------- *)
(** ** _find_line_containing *)
(* --------------------------------------------------------------------- *)

Lemma index_of_spec (c : ascii) (s : str) :
  match index_of c s with
  | Some i => exists l q, s = l ++ c :: q /\ length l = i /\ ~ In c l
  | None => ~ In c s
  end.
Proof.
  induction s as [|x s IH]; cbn [index_of]; [intros []|].
  destruct (eqb_char x c) eqn:E.
  - apply eqb_char_true in E. subst x. exists [], s. auto.
  - assert (Hx : x <> c) by (intros ->; unfold eqb_char in E;
                             rewrite Ascii.eqb_refl in E; discriminate).
    destruct (index_of c s) as [i|]; cbn [option_map].
    + destruct IH as [l [q [-> [Hl Hn]]]]. exists (x :: l), q.
      split; [reflexivity|]. split; [cbn; lia|].
      intros [H | H]; [exact (Hx H) | exact (Hn H)].
    + intros [H | H]; [exact (Hx H) | exact (IH H)].
Qed.

Lemma rindex_of_spec (c : ascii) (s : str) :
  match rindex_of c s with
  | Some i => exists p l, s = p ++ c :: l /\ length p = i /\ ~ In c l
  | None => ~ In c s
  end.
Proof.
  induction s as [|x s IH]; cbn [rindex_of]; [intros []|].
  destruct (rindex_of c s) as [i|].
  - destruct IH as [p [l [-> [Hp Hn]]]]. exists (x :: p), l.
    split; [reflexivity|]. split; [cbn; lia | exact Hn].
  - destruct (eqb_char x c) eqn:E.
    + apply eqb_char_true in E. subst x. exists [], s. auto.
    + assert (Hx : x <> c) by (intros ->; unfold eqb_char in E;
                               rewrite Ascii.eqb_refl in E; discriminate).
      intros [H | H]; [exact (Hx H) | exact (IH H)].
Qed.

Lemma first_occurrence_after (c : ascii) (m : str) :
  forall l q after,
    l ++ c :: q = m ++ after -> ~ In c m -> exists l', l = m ++ l'.
Proof.
  induction m as [|x m IH]; intros l q after E Hm.
  - exists l. reflexivity.
  - destruct l as [|y l]; cbn [app] in E.
    + inversion E; subst. exfalso. apply Hm. left. reflexivity.
    + inversion E; subst.
      destruct (IH l q after) as [l' ->]; [assumption | |].
      * intros H. apply Hm. right. exact H.
      * exists l'. reflexivity.
Qed.

(** The slice [_find_line_containing] strips: the end of the text before
    the position and the start of the text from the position on, up to the
    nearest newline on either side. *)
Lemma line_slice (before rest : str) :
  let text := before ++ rest in
  let line_start := str_rfind newline text (length before) in
  let line_start := if line_start =? -1 then 0 else line_start + 1 in
  let line_end := str_find newline text (length before) in
  let line_end := if line_end =? -1 then len text else line_end in
  exists p l1 l2 q,
    before = p ++ l1 /\ rest = l2 ++ q
    /\ ~ In newline l1 /\ ~ In newline l2
    /\ (q = [] \/ exists q', q = newline :: q')
    /\ slice text line_start line_end = l1 ++ l2.
Proof.
  cbv zeta. unfold str_rfind, str_find.
  rewrite firstn_app, Nat.sub_diag, firstn_all, firstn_O, app_nil_r.
  rewrite skipn_app, Nat.sub_diag, skipn_all, skipn_O. cbn [app].
  pose proof (rindex_of_spec newline before) as Hb.
  pose proof (index_of_spec newline rest) as Hr.
  destruct (rindex_of newline before) as [i|];
    destruct (index_of newline rest) as [j|].
  - destruct Hb as [p [l1 [-> [Hp H1]]]]. destruct Hr as [l2 [q [-> [Hl H2]]]].
    exists (p ++ [newline]), l1, l2, (newline :: q).
    split; [rewrite <- app_assoc; reflexivity|]. split; [reflexivity|].
    split; [exact H1|]. split; [exact H2|]. split; [right; eauto|].
    destruct (Z.eqb_spec (Z.of_nat i) (-1)); [lia|].
    destruct (Z.eqb_spec (Z.of_nat (length (p ++ newline :: l1) + j)) (-1));
      [lia|].
    unfold slice.
    replace (Z.to_nat (Z.of_nat i + 1)) with (length (p ++ [newline]))
      by (rewrite length_app; cbn; lia).
    replace ((p ++ newline :: l1) ++ l2 ++ newline :: q)
      with ((p ++ [newline]) ++ (l1 ++ l2) ++ newline :: q)
      by (rewrite <- !app_assoc; reflexivity).
    rewrite skipn_app, Nat.sub_diag, skipn_all, skipn_O. cbn [app].
    replace (Z.to_nat (Z.of_nat (length (p ++ newline :: l1) + j)
                       - (Z.of_nat i + 1)))
      with (length (l1 ++ l2))
      by (rewrite !length_app; cbn [length]; lia).
    rewrite firstn_app, Nat.sub_diag, firstn_all, firstn_O, app_nil_r.
    reflexivity.
  - destruct Hb as [p [l1 [-> [Hp H1]]]].
    exists (p ++ [newline]), l1, rest, [].
    split; [rewrite <- app_assoc; reflexivity|].
    split; [rewrite app_nil_r; reflexivity|].
    split; [exact H1|]. split; [exact Hr|]. split; [left; reflexivity|].
    destruct (Z.eqb_spec (Z.of_nat i) (-1)); [lia|].
    change (-1 =? -1) with true. cbv iota. unfold slice, len.
    replace (Z.to_nat (Z.of_nat i + 1)) with (length (p ++ [newline]))
      by (rewrite length_app; cbn; lia).
    replace ((p ++ newline :: l1) ++ rest)
      with ((p ++ [newline]) ++ (l1 ++ rest))
      by (rewrite <- !app_assoc; reflexivity).
    rewrite skipn_app, Nat.sub_diag, skipn_all, skipn_O. cbn [app].
    rewrite firstn_all2; [reflexivity|].
    repeat rewrite length_app. cbn [length]. lia.
  - destruct Hr as [l2 [q [-> [Hl H2]]]].
    exists [], before, l2, (newline :: q).
    split; [reflexivity|]. split; [reflexivity|].
    split; [exact Hb|]. split; [exact H2|]. split; [right; eauto|].
    change (-1 =? -1) with true. cbv iota.
    destruct (Z.eqb_spec (Z.of_nat (length before + j)) (-1)); [lia|].
    unfold slice. cbn [Z.to_nat skipn]. rewrite Z.sub_0_r, Nat2Z.id.
    replace (before ++ l2 ++ newline :: q)
      with ((before ++ l2) ++ newline :: q)
      by (rewrite <- app_assoc; reflexivity).
    replace (length before + j)%nat with (length (before ++ l2))
      by (rewrite length_app; lia).
    rewrite firstn_app, Nat.sub_diag, firstn_all, firstn_O, app_nil_r.
    reflexivity.
  - exists [], before, rest, [].
    split; [reflexivity|]. split; [rewrite app_nil_r; reflexivity|].
    split; [exact Hb|]. split; [exact Hr|]. split; [left; reflexivity|].
    change (-1 =? -1) with true. cbv iota. unfold slice, len. cbn [Z.to_nat skipn].
    rewrite Z.sub_0_r, Nat2Z.id. apply firstn_all.
Qed.

Lemma not_in_occurs (c : ascii) (a b : str) :
  DateRule.occurs_in a b -> ~ In c b -> ~ In c a.
Proof.
  intros [p [q ->]] Hn Hin. apply Hn.
  apply in_or_app. right. apply in_or_app. left. exact Hin.
Qed.

(** X15. The line [_find_line_containing] returns for a match that does
    not run over a newline contains the match, stripped as the extractors
    strip it; the line has no newline, and it is a part of the text. *)
Theorem find_line_containing_quotes_match (before matched after : str) :
  ~ In newline matched ->
  let line :=
    _find_line_containing (before ++ matched ++ after) (length before) in
  DateRule.occurs_in (strip matched) line
  /\ ~ In newline line
  /\ DateRule.occurs_in line (before ++ matched ++ after).
Proof.
  intros Hm. cbv zeta. unfold _find_line_containing.
  destruct (line_slice before (matched ++ after))
    as [p [l1 [l2 [q [Hb [Hr [H1 [H2 [Hq Hs]]]]]]]]].
  cbv zeta in Hs. rewrite Hs.
  assert (Hl2 : exists l', l2 = matched ++ l').
  { destruct Hq as [-> | [q' ->]].
    - exists after. rewrite app_nil_r in Hr. symmetry. exact Hr.
    - apply (@first_occurrence_after newline matched l2 q' after);
        [symmetry; exact Hr | exact Hm]. }
  destruct Hl2 as [l' ->].
  assert (Hline : ~ In newline (l1 ++ matched ++ l')).
  { intros H. apply in_app_or in H. destruct H as [H | H]; auto. }
  assert (Hstrip : DateRule.occurs_in (strip (l1 ++ matched ++ l'))
                     (l1 ++ matched ++ l'))
    by apply strip_shape.
  split; [|split].
  - apply strip_occurs. exists l1, l'. reflexivity.
  - eapply not_in_occurs; eassumption.
  - eapply occurs_in_trans; [exact Hstrip|].
    exists p, q. rewrite Hb, Hr, <- !app_assoc. reflexivity.
Qed.

Lemma find_line_containing_quotes_match_witness :
  let text :=
    (lit "Name: Jane Doe" ++ [newline] ++ lit "DOB: ")
    ++ lit "1990-03-05 " ++ ([newline] ++ lit "Phone: 555") in
  let line :=
    _find_line_containing text
      (length (lit "Name: Jane Doe" ++ [newline] ++ lit "DOB: ")) in
  line = lit "DOB: 1990-03-05"
  /\ DateRule.occurs_in (strip (lit "1990-03-05 ")) line
  /\ ~ In newline line
  /\ DateRule.occurs_in line text.
Proof.
  split; [vm_compute; reflexivity|].
  apply (@find_line_containing_quotes_match
           (lit "Name: Jane Doe" ++ [newline] ++ lit "DOB: ")
           (lit "1990-03-05 ") ([newline] ++ lit "Phone: 555")).
  vm_compute. intuition discriminate.
Defined.

(* --------------------------------------------------------------------- *)
(** ** The client's state during a run *)
(* --------------------------------------------------------------------- *)

Section ObjectClientThreading.

Variable Extractor : Type.
Variable heuristic_candidates_for_field :
  Extractor -> FieldSpec.t -> list LayoutDoc.t
  -> result (list Obj.Ref) * Extractor.
Variable Client : Type.
Variable llm_extract_candidates :
  Client -> Obj.Store -> FieldSpec.t -> list DocExcerpt.t -> RunOptions.t
  -> result (list Obj.Ref) * Client.
Variable run_id : str.
Variable run_options : RunOptions.t.
Variable layout : list LayoutDoc.t.
Variable routing : list RoutingEntry.t.

Local Abbreviation State := (Obj.RunState Extractor Client).
Local Abbreviation pass :=
  (@Obj.llm_pass Extractor Client llm_extract_candidates run_options).
Local Abbreviation step :=
  (Obj.process_field heuristic_candidates_for_field llm_extract_candidates
                     run_options layout routing).
Local Abbreviation loop :=
  (Obj.fields_loop heuristic_candidates_for_field llm_extract_candidates
                   run_options layout routing).
Local Abbreviation chain :=
  (Obj.threaded llm_extract_candidates run_options).
Local Abbreviation rest_of_step :=
  (@Obj.after_heuristics Extractor Client llm_extract_candidates
     run_options).

Lemma threaded_app (c1 c2 c3 : Client) (a b : list Obj.Call.t) :
  chain c1 a c2 -> chain c2 b c3 -> chain c1 (a ++ b) c3.
Proof.
  induction 1 as [c | c h call c' calls c'' Hcall Hrest IH]; intros Hb.
  - exact Hb.
  - cbn [app]. econstructor; [exact Hcall | apply IH; exact Hb].
Qed.

Lemma llm_pass_threads (field : FieldSpec.t) (docs : list LayoutDoc.t)
    (s : State) :
  exists calls,
    Obj.llm_calls (snd (pass field docs s)) = Obj.llm_calls s ++ calls
    /\ chain (Obj.client s) calls (Obj.client (snd (pass field docs s))).
Proof.
  unfold Obj.llm_pass.
  destruct (nonempty (build_excerpts_for_field field DEFAULT_MAX_TOTAL_CHARS
                        DEFAULT_MAX_CHARS_PER_DOC DEFAULT_MAX_PAGES_PER_DOC
                        docs)).
  - unfold Obj.invoke_client.
    destruct (llm_extract_candidates (Obj.client s) (Obj.store s) field _
                run_options) as [outcome c] eqn:E.
    exists [Obj.Call.make field
              (build_excerpts_for_field field DEFAULT_MAX_TOTAL_CHARS
                 DEFAULT_MAX_CHARS_PER_DOC DEFAULT_MAX_PAGES_PER_DOC docs)
              outcome].
    assert (Hc : chain (Obj.client s)
                   [Obj.Call.make field
                      (build_excerpts_for_field field DEFAULT_MAX_TOTAL_CHARS
                         DEFAULT_MAX_CHARS_PER_DOC DEFAULT_MAX_PAGES_PER_DOC
                         docs) outcome] c).
    { econstructor; [exact E | constructor]. }
    destruct outcome as [cs | [m | f m | k m]]; cbn [snd];
      (split; [reflexivity | exact Hc]).
  - exists []. cbn [snd Obj.trace_append Obj.checked Obj.llm_calls
                    Obj.client].
    rewrite app_nil_r. split; [reflexivity | constructor].
Qed.

Lemma process_field_threads (field : FieldSpec.t) (s : State) :
  exists calls,
    Obj.llm_calls (snd (step field s)) = Obj.llm_calls s ++ calls
    /\ chain (Obj.client s) calls (Obj.client (snd (step field s))).
Proof.
  assert (Hsame : exists calls,
             Obj.llm_calls s = Obj.llm_calls s ++ calls
             /\ chain (Obj.client s) calls (Obj.client s)).
  { exists []. rewrite app_nil_r. split; [reflexivity | constructor]. }
  unfold Obj.process_field. cbv zeta.
  destruct (negb (nonempty _)); [exact Hsame|].
  unfold Obj.invoke_extractor.
  destruct (heuristic_candidates_for_field (Obj.extractor s) field _)
    as [[hs | e] ex]; [|exact Hsame].
  unfold Obj.after_heuristics.
  destruct (Obj.check_heuristic_candidates field hs _) as [accepted h].
  cbv zeta. cbn [Obj.store].
  destruct (should_call_llm _); [|exact Hsame].
  match goal with
  | |- context [pass field ?docs ?s1] =>
      destruct (llm_pass_threads field docs s1) as [calls [Hc Ht]];
      exists calls;
      destruct (pass field docs s1) as [[verified | e] s2]
  end;
    cbn [snd] in *; split; assumption.
Qed.

Lemma fields_loop_threads (fields : list FieldSpec.t) :
  forall all_candidates field_stats (s : State),
  exists calls,
    Obj.llm_calls (snd (loop fields all_candidates field_stats s))
    = Obj.llm_calls s ++ calls
    /\ chain (Obj.client s) calls
         (Obj.client (snd (loop fields all_candidates field_stats s))).
Proof.
  induction fields as [|field fields IH]; intros acc stats s.
  - exists []. cbn [Obj.fields_loop snd]. rewrite app_nil_r.
    split; [reflexivity | constructor].
  - cbn [Obj.fields_loop].
    destruct (process_field_threads field s) as [calls [Hc Ht]].
    destruct (step field s) as [[[cs st] | e] s1]; cbn [snd] in *.
    + destruct (IH (acc ++ cs) (dict_set stats (FieldSpec.key field) st) s1)
        as [calls' [Hc' Ht']].
      exists (calls ++ calls'). split.
      * rewrite Hc', Hc, app_assoc. reflexivity.
      * eapply threaded_app; eassumption.
    + exists calls. split; assumption.
Qed.

End ObjectClientThreading.

(* --------------------------------------------------------------------- *)
(** ** FakeLLMClient *)
(* --------------------------------------------------------------------- *)

Lemma fake_client_chain (run_options : RunOptions.t)
    (c c' : FakeLLMClient.t) (calls : list Obj.Call.t) :
  Obj.threaded (Obj.blind FakeLLMClient.extract_candidates) run_options
               c calls c' ->
  FakeLLMClient.get_calls c'
  = FakeLLMClient.get_calls c
    ++ map (fun call => (Obj.Call.field call, Obj.Call.excerpts call)) calls
  /\ map Obj.Call.outcome calls
     = scripted_answers (FakeLLMClient._responses c) (length calls)
  /\ FakeLLMClient._responses c'
     = skipn (length calls) (FakeLLMClient._responses c).
Proof.
  induction 1 as [c | c h call c1 calls c2 Hcall Hrest [IHc [IHo IHr]]].
  - cbn. rewrite app_nil_r. auto.
  - unfold Obj.blind, FakeLLMClient.extract_candidates in Hcall.
    cbn in Hcall.
    unfold FakeLLMClient.get_calls in *.
    destruct (FakeLLMClient._responses c) as [|response rest] eqn:Er;
      inversion Hcall as [[Ho Hc1]]; subst c1;
      cbn [FakeLLMClient._calls FakeLLMClient._responses] in *;
      cbn [map length scripted_answers skipn].
    + split; [rewrite IHc, <- app_assoc; reflexivity|].
      split; [rewrite <- Ho, IHo; reflexivity|].
      rewrite IHr. destruct (length calls); reflexivity.
    + split; [rewrite IHc, <- app_assoc; reflexivity|].
      split; [rewrite <- Ho, IHo; reflexivity | exact IHr].
Qed.

(** X17. [FakeLLMClient] in a run on candidate objects.  With the test
    double as the client, the calls it records during a run are exactly
    the invocations the orchestrator made, in order, each with its field
    and excerpts; the invocations were answered by the scripted responses
    in queue order, object for object (the candidate objects the test put
    in the queue, in whatever state the run has left them by then), and by
    an empty candidate list once the queue was used up; and the queue left
    over is the script without the responses consumed.  This holds whether
    the run returns or raises. *)
Theorem fake_client_in_a_run :
  forall (Extractor : Type)
         (heuristic_candidates_for_field :
            Extractor -> FieldSpec.t -> list LayoutDoc.t
            -> result (list Obj.Ref) * Extractor)
         (run_id : str) (run_options : RunOptions.t)
         (layout : list LayoutDoc.t) (routing : list RoutingEntry.t)
         (schema : ResolvedSchema.t)
         (s : Obj.RunState Extractor FakeLLMClient.t),
    let s' := snd (Obj.extract_candidates_for_run
                     heuristic_candidates_for_field
                     (Obj.blind FakeLLMClient.extract_candidates) run_id
                     run_options layout routing schema s) in
    exists calls,
      Obj.llm_calls s' = Obj.llm_calls s ++ calls
      /\ FakeLLMClient.get_calls (Obj.client s')
         = FakeLLMClient.get_calls (Obj.client s)
           ++ map (fun call => (Obj.Call.field call, Obj.Call.excerpts call))
                  calls
      /\ map Obj.Call.outcome calls
         = scripted_answers (FakeLLMClient._responses (Obj.client s))
                            (length calls)
      /\ FakeLLMClient._responses (Obj.client s')
         = skipn (length calls) (FakeLLMClient._responses (Obj.client s)).
Proof.
  intros Extractor hc run_id run_options layout routing schema s. cbv zeta.
  unfold Obj.extract_candidates_for_run.
  destruct (fields_loop_threads hc
              (Obj.blind FakeLLMClient.extract_candidates)
              run_options layout routing
              (fields_to_process run_options schema) [] [] s)
    as [calls [Hc Ht]].
  exists calls.
  destruct (Obj.fields_loop hc (Obj.blind FakeLLMClient.extract_candidates)
              run_options layout routing
              (fields_to_process run_options schema) [] [] s)
    as [[[cs st] | e] s1]; cbn [snd] in *;
    (split; [exact Hc | apply (fake_client_chain Ht)]).
Qed.

(* --------------------------------------------------------------------- *)
(** ** A run with the transport as shipped *)
(* --------------------------------------------------------------------- *)

Section UnpatchedTransport.

Variable heuristic_candidates_for_field :
  FieldSpec.t -> list LayoutDoc.t -> result (list Candidate.t).
Variable World : Type.
Variable _parse_llm_response : FieldSpec.t -> str -> result (list Candidate.t).
Variable _build_extraction_prompt : FieldSpec.t -> list DocExcerpt.t -> str.
Variable _build_retry_prompt : FieldSpec.t -> str -> str.
Variable run_id : str.
Variable run_options : RunOptions.t.
Variable layout : list LayoutDoc.t.
Variable routing : list RoutingEntry.t.

Hypothesis heuristics_return :
  forall field docs, exists cs,
    heuristic_candidates_for_field field docs = Ok cs.

Local Abbreviation shipped :=
  (api_client (@_call_api_unpatched World) _parse_llm_response
              _build_extraction_prompt _build_retry_prompt).
Local Abbreviation step :=
  (process_field heuristic_candidates_for_field shipped run_options layout
                 routing).
Local Abbreviation loop :=
  (fields_loop heuristic_candidates_for_field shipped run_options layout
               routing).
Local Abbreviation needed :=
  (needs_generator heuristic_candidates_for_field layout routing).

Lemma shipped_client_raises (w : World) (field : FieldSpec.t)
    (excerpts : list DocExcerpt.t) :
  excerpts <> [] ->
  shipped w field excerpts run_options = (Raise NOT_IMPLEMENTED, w).
Proof.
  intros Hne. unfold api_client, extract_candidates, attempt,
    _call_api_unpatched.
  apply nonempty_true in Hne. rewrite Hne. reflexivity.
Qed.

Lemma unpatched_step (field : FieldSpec.t) (s : RunState World) :
  if needed field
  then fst (step field s) = Raise NOT_IMPLEMENTED
  else is_ok (fst (step field s)) = true.
Proof.
  unfold needs_generator, process_field. cbv zeta.
  destruct (nonempty (_get_routed_docs (FieldSpec.key field) routing layout));
    cbn [negb andb]; [|reflexivity].
  destruct (heuristics_return field
              (_get_routed_docs (FieldSpec.key field) routing layout))
    as [hs ->].
  destruct (should_call_llm (filter (evidence_supports_value field) hs));
    cbn [andb]; [|reflexivity].
  unfold llm_pass, excerpts_for.
  destruct (nonempty (build_excerpts_for_field field DEFAULT_MAX_TOTAL_CHARS
                        DEFAULT_MAX_CHARS_PER_DOC DEFAULT_MAX_PAGES_PER_DOC
                        (_get_routed_docs (FieldSpec.key field) routing
                           layout))) eqn:En; [|reflexivity].
  unfold invoke_client. cbn [client trace_append].
  rewrite shipped_client_raises by (apply nonempty_true; exact En).
  reflexivity.
Qed.

Lemma unpatched_loop (fields : list FieldSpec.t) :
  forall all_candidates field_stats (s : RunState World),
    if existsb needed fields
    then fst (loop fields all_candidates field_stats s)
         = Raise NOT_IMPLEMENTED
    else is_ok (fst (loop fields all_candidates field_stats s)) = true.
Proof.
  induction fields as [|field fields IH]; intros acc stats s;
    cbn [existsb fields_loop]; [reflexivity|].
  pose proof (unpatched_step field s) as Hs.
  destruct (needed field); cbn [orb].
  - destruct (step field s) as [[[cs st] | e] s1]; cbn [fst] in *;
      [discriminate Hs | inversion Hs; reflexivity].
  - destruct (step field s) as [[[cs st] | e] s1]; cbn [fst is_ok] in *;
      [apply IH | discriminate Hs].
Qed.

End UnpatchedTransport.

(** X18. [ApiLLMClient] as it ships (its transport [_call_api] raises
    [NotImplementedError]) fails every run that escalates: when the
    heuristic pass does not raise, a run with this client raises
    [NotImplementedError] if some field to process needs the generator
    (documents routed, accepted heuristic confidence below the threshold,
    excerpts not empty), whatever the response parser and the prompt
    builders are, and returns its candidates if no field does. *)
Theorem unpatched_client_fails_escalating_runs :
  forall (heuristic_candidates_for_field :
            FieldSpec.t -> list LayoutDoc.t -> result (list Candidate.t))
         (World : Type)
         (_parse_llm_response :
            FieldSpec.t -> str -> result (list Candidate.t))
         (_build_extraction_prompt : FieldSpec.t -> list DocExcerpt.t -> str)
         (_build_retry_prompt : FieldSpec.t -> str -> str)
         (run_id : str) (run_options : RunOptions.t)
         (layout : list LayoutDoc.t) (routing : list RoutingEntry.t)
         (schema : ResolvedSchema.t) (s : RunState World),
    (forall field docs, exists cs,
        heuristic_candidates_for_field field docs = Ok cs) ->
    let r := extract_candidates_for_run heuristic_candidates_for_field
               (api_client (@_call_api_unpatched World) _parse_llm_response
                           _build_extraction_prompt _build_retry_prompt)
               run_id run_options layout routing schema s in
    if existsb (needs_generator heuristic_candidates_for_field layout routing)
               (fields_to_process run_options schema)
    then fst r = Raise NOT_IMPLEMENTED
         /\ candidates_json (snd r) = candidates_json s
    else exists all_candidates,
           fst r = Ok all_candidates
           /\ candidates_json (snd r) = Some all_candidates.
Proof.
  intros hc World parse p1 p2 run_id run_options layout routing schema s Hh.
  cbv zeta. unfold extract_candidates_for_run.
  pose proof (@unpatched_loop hc World parse p1 p2 run_options layout
                routing Hh (fields_to_process run_options schema) [] [] s)
    as Hl.
  destruct (fields_loop_effect hc
              (api_client (@_call_api_unpatched World) parse p1 p2)
              run_options layout routing
              (fields_to_process run_options schema) [] [] s)
    as [_ [_ [calls [_ [[Hj _] _]]]]].
  destruct (existsb _ (fields_to_process run_options schema));
    destruct (fields_loop hc _ run_options layout routing
                (fields_to_process run_options schema) [] [] s)
      as [[[cs st] | e] s1]; cbn [fst snd is_ok] in *;
      try discriminate Hl.
  - inversion Hl; subst. split; [reflexivity | exact Hj].
  - eexists. split; reflexivity.
Qed.

Lemma unpatched_client_fails_escalating_runs_witness :
  fst (extract_candidates_for_run Sample.heuristics
         (api_client (@_call_api_unpatched unit) Sample.parse
                     Sample.extraction_prompt Sample.retry_prompt)
         Sample.run_id Sample.options Sample.layout Sample.routing
         Sample.schema (initial_state tt))
  = Raise NOT_IMPLEMENTED.
Proof.
  pose proof (@unpatched_client_fails_escalating_runs Sample.heuristics unit
                Sample.parse Sample.extraction_prompt Sample.retry_prompt
                Sample.run_id Sample.options Sample.layout Sample.routing
                Sample.schema (initial_state tt)) as H.
  cbv zeta in H.
  assert (Hh : forall field docs, exists cs,
               Sample.heuristics field docs = Ok cs).
  { intros field docs. unfold Sample.heuristics.
    destruct (_ && _); eexists; reflexivity. }
  specialize (H Hh).
  assert (He : existsb (needs_generator Sample.heuristics Sample.layout
                          Sample.routing)
                 (fields_to_process Sample.options Sample.schema) = true)
    by (vm_compute; reflexivity).
  rewrite He in H. exact (proj1 H).
Defined.

(* --------------------------------------------------------------------- *)
(** ** When normalize_text is stable *)
(* --------------------------------------------------------------------- *)

Lemma lower_char_idempotent (c : ascii) :
  lower_char (lower_char c) = lower_char c.
Proof. destruct c as [[] [] [] [] [] [] [] []]; vm_compute; reflexivity. Qed.

Lemma lower_char_keeps (c : ascii) :
  keeps (lower_char c) = keeps c /\ isspace (lower_char c) = isspace c.
Proof.
  destruct c as [[] [] [] [] [] [] [] []]; vm_compute; split; reflexivity.
Qed.

Lemma collapse_whitespace_from_chars (P : ascii -> Prop) (text : str) :
  P " "%char ->
  Forall P text ->
  forall in_run,
    Forall (fun c => P c /\ (isspace c = true -> c = " "%char))
           (collapse_whitespace_from in_run text).
Proof.
  intros Hsp F. induction F as [|c text Hc F IH]; intros r;
    cbn [collapse_whitespace_from]; [constructor|].
  destruct (isspace c) eqn:E.
  - destruct r; [apply IH|]. constructor; [|apply IH]. auto.
  - constructor; [|apply IH]. split; [exact Hc|]. congruence.
Qed.

Lemma Forall_occurs (P : ascii -> Prop) (a b : str) :
  DateRule.occurs_in a b -> Forall P b -> Forall P a.
Proof.
  intros [p [q ->]] F. apply Forall_app in F. destruct F as [_ F].
  apply Forall_app in F. tauto.
Qed.

Lemma normalize_text_chars (text : str) :
  Forall normal_char (normalize_text text).
Proof.
  unfold normalize_text.
  apply Forall_occurs with (b := strip_punctuation
                                   (collapse_whitespace (lower text)));
    [apply strip_shape|].
  unfold strip_punctuation, collapse_whitespace.
  assert (F : Forall (fun c => lower_char c = c
                               /\ (isspace c = true -> c = " "%char))
                (collapse_whitespace_from false (lower text))).
  { apply collapse_whitespace_from_chars; [reflexivity|].
    unfold lower. apply Forall_forall. intros c Hc.
    apply in_map_iff in Hc. destruct Hc as [c' [<- _]].
    apply lower_char_idempotent. }
  apply Forall_forall. intros c Hc. apply filter_In in Hc.
  destruct Hc as [Hin Hk].
  pose proof (proj1 (Forall_forall _ _) F c Hin) as [Hl Hs].
  split; [exact Hl|]. split; [exact Hk | exact Hs].
Qed.

Lemma lower_of_normal (s : str) : Forall normal_char s -> lower s = s.
Proof.
  unfold lower. induction 1 as [|c s [Hc _] F IH]; cbn [map];
    [reflexivity|]. rewrite Hc, IH. reflexivity.
Qed.

Lemma strip_punctuation_of_kept (s : str) :
  Forall (fun c => keeps c = true) s -> strip_punctuation s = s.
Proof.
  unfold strip_punctuation. induction 1 as [|c s Hc F IH]; cbn [filter];
    [reflexivity|]. rewrite Hc, IH. reflexivity.
Qed.

Lemma strip_idempotent (s : str) : strip (strip s) = strip s.
Proof.
  destruct (strip_shape s)
    as [_ [E | [first [rest [front [last [E1 [E2 [Hf Hl]]]]]]]]].
  - rewrite E. reflexivity.
  - unfold strip at 1. rewrite E1 at 1. cbn [lstrip_by]. rewrite Hf.
    rewrite <- E1, E2. unfold rstrip_by.
    rewrite rev_app_distr. cbn [rev app lstrip_by]. rewrite Hl.
    change (last :: rev front) with (rev [last] ++ rev front).
    rewrite <- rev_app_distr, rev_involutive. reflexivity.
Qed.

Lemma adjacent_spaces_cons (a b : ascii) (rest : str) :
  adjacent_spaces (a :: b :: rest)
  = (isspace a && isspace b) || adjacent_spaces (b :: rest).
Proof. reflexivity. Qed.

Lemma collapse_whitespace_from_stable (s : str) :
  Forall (fun c => isspace c = true -> c = " "%char) s ->
  forall in_run,
    adjacent_spaces s = false ->
    (in_run = true -> match s with
                      | [] => True
                      | c :: _ => isspace c = false
                      end) ->
    collapse_whitespace_from in_run s = s.
Proof.
  induction 1 as [|c s Hc F IH]; intros r Hadj Hhead;
    cbn [collapse_whitespace_from]; [reflexivity|].
  assert (Hrest : adjacent_spaces s = false).
  { destruct s as [|d s]; [reflexivity|]. rewrite adjacent_spaces_cons in Hadj.
    apply orb_false_iff in Hadj. tauto. }
  destruct (isspace c) eqn:E.
  - destruct r; [specialize (Hhead eq_refl); congruence|].
    rewrite <- (Hc eq_refl). f_equal. apply IH; [exact Hrest|].
    intros _. destruct s as [|d s]; [exact I|].
    rewrite adjacent_spaces_cons in Hadj. apply orb_false_iff in Hadj.
    destruct Hadj as [Hadj _]. rewrite E in Hadj. exact Hadj.
  - f_equal. apply IH; [exact Hrest | discriminate].
Qed.

Lemma collapse_whitespace_from_no_adjacent (text : str) :
  forall in_run,
    adjacent_spaces (collapse_whitespace_from in_run text) = false
    /\ (in_run = true ->
        match collapse_whitespace_from in_run text with
        | [] => True
        | c :: _ => isspace c = false
        end).
Proof.
  induction text as [|c text IH]; intros r; cbn [collapse_whitespace_from].
  - split; [reflexivity | intros _; exact I].
  - destruct (isspace c) eqn:E.
    + destruct r; [apply IH|].
      destruct (IH true) as [Hadj Hhead]. split; [|discriminate].
      specialize (Hhead eq_refl).
      destruct (collapse_whitespace_from true text) as [|d rest];
        [reflexivity|].
      rewrite adjacent_spaces_cons, Hhead, Hadj, andb_false_r. reflexivity.
    + destruct (IH false) as [Hadj _]. split; [|intros _; exact E].
      destruct (collapse_whitespace_from false text) as [|d rest];
        [reflexivity|].
      rewrite adjacent_spaces_cons, E, Hadj. reflexivity.
Qed.

Lemma adjacent_spaces_app (a b : str) :
  adjacent_spaces (a ++ b) = false ->
  adjacent_spaces a = false /\ adjacent_spaces b = false.
Proof.
  induction a as [|x a IH]; cbn [app]; intros H; [split; [reflexivity|exact H]|].
  assert (Hrest : adjacent_spaces (a ++ b) = false).
  { destruct (a ++ b) as [|y r]; [reflexivity|]. rewrite adjacent_spaces_cons in H.
    apply orb_false_iff in H. tauto. }
  destruct (IH Hrest) as [Ha Hb]. split; [|exact Hb].
  destruct a as [|y a]; [reflexivity|].
  cbn [app] in *. rewrite adjacent_spaces_cons in H |- *.
  apply orb_false_iff in H.
  destruct H as [H _]. rewrite H, Ha. reflexivity.
Qed.

Lemma adjacent_spaces_occurs (a b : str) :
  DateRule.occurs_in a b ->
  adjacent_spaces b = false -> adjacent_spaces a = false.
Proof.
  intros [p [q ->]] H. apply adjacent_spaces_app in H. destruct H as [_ H].
  apply adjacent_spaces_app in H. tauto.
Qed.

(** Normalising a normalised text only collapses its whitespace again. *)
Lemma normalize_text_again (text : str) :
  normalize_text (normalize_text text)
  = strip (collapse_whitespace (normalize_text text)).
Proof.
  pose proof (normalize_text_chars text) as F.
  unfold normalize_text at 1.
  rewrite (lower_of_normal F). f_equal.
  apply strip_punctuation_of_kept.
  unfold collapse_whitespace.
  eapply Forall_impl;
    [|apply (@collapse_whitespace_from_chars (fun c => keeps c = true));
      [reflexivity|]].
  - intros c [Hc _]. exact Hc.
  - eapply Forall_impl; [|exact F]. intros c [_ [Hk _]]. exact Hk.
Qed.

Lemma normalize_text_stable (text : str) :
  adjacent_spaces (normalize_text text) = false ->
  normalize_text (normalize_text text) = normalize_text text.
Proof.
  intros H. pose proof (normalize_text_chars text) as F.
  rewrite normalize_text_again. unfold collapse_whitespace.
  rewrite collapse_whitespace_from_stable;
    [| eapply Forall_impl; [|exact F]; intros c [_ [_ Hs]]; exact Hs
     | exact H | discriminate ].
  unfold normalize_text. apply strip_idempotent.
Qed.

(** X19. When does normalising twice differ from normalising once?
    [normalize_text] leaves its own result unchanged exactly when that
    result has no two whitespace characters next to each other; in
    particular on every text none of whose characters the punctuation
    filter removes. *)
Theorem normalize_text_stable_iff :
  forall (text : str),
    (normalize_text (normalize_text text) = normalize_text text
     <-> adjacent_spaces (normalize_text text) = false)
    /\ (Forall (fun c => keeps c = true) text ->
        normalize_text (normalize_text text) = normalize_text text).
Proof.
  intros text.
  pose proof (normalize_text_chars text) as F.
  assert (Hiff : normalize_text (normalize_text text) = normalize_text text
                 <-> adjacent_spaces (normalize_text text) = false).
  { rewrite normalize_text_again. split.
    - intros H. rewrite <- H.
      apply adjacent_spaces_occurs
        with (b := collapse_whitespace (normalize_text text));
        [apply strip_shape|].
      apply collapse_whitespace_from_no_adjacent.
    - intros H. rewrite <- normalize_text_again.
      apply normalize_text_stable. exact H. }
  split; [exact Hiff|].
  intros Hk. apply Hiff. unfold normalize_text.
  apply adjacent_spaces_occurs
    with (b := strip_punctuation (collapse_whitespace (lower text)));
    [apply strip_shape|].
  rewrite strip_punctuation_of_kept.
  - apply collapse_whitespace_from_no_adjacent.
  - unfold collapse_whitespace.
    eapply Forall_impl;
      [|apply (@collapse_whitespace_from_chars (fun c => keeps c = true));
        [reflexivity|]].
    + intros c [Hc _]. exact Hc.
    + unfold lower. apply Forall_forall. intros c Hc.
      apply in_map_iff in Hc. destruct Hc as [c' [<- Hc']].
      rewrite (proj1 (lower_char_keeps c')).
      exact (proj1 (Forall_forall _ _) Hk c' Hc').
Qed.

(* --------------------------------------------------------------------- *)
(** ** _order_and_cap_fields *)
(* --------------------------------------------------------------------- *)

Lemma field_map_get_some (fields : list FieldSpec.t) (key : str)
    (f : FieldSpec.t) :
  field_map_get fields key = Some f ->
  In f fields /\ FieldSpec.key f = key.
Proof.
  unfold field_map_get. intros H. apply find_some in H.
  destruct H as [Hin He]. apply str_eqb_true in He.
  split; [apply in_rev; exact Hin | exact He].
Qed.

Lemma field_map_get_none (fields : list FieldSpec.t) (key : str) :
  field_map_get fields key = None <-> has_field fields key = false.
Proof.
  unfold field_map_get, has_field. split; intros H.
  - destruct (existsb _ fields) eqn:E; [|reflexivity].
    apply existsb_exists in E. destruct E as [f [Hin He]].
    apply in_rev in Hin.
    pose proof (find_none _ _ H f Hin) as Hn. cbv beta in Hn. congruence.
  - destruct (find _ (rev fields)) as [f|] eqn:E; [|reflexivity].
    apply find_some in E. destruct E as [Hin He]. apply in_rev in Hin.
    assert (Ht : existsb (fun f => PyStr.eqb (FieldSpec.key f) key) fields
                 = true) by (apply existsb_exists; eauto).
    congruence.
Qed.

Lemma ordered_by_keys (keys : list str) (fields : list FieldSpec.t) :
  map FieldSpec.key (ordered_by keys fields)
  = filter (has_field fields) keys
  /\ Forall (fun f => In f fields) (ordered_by keys fields).
Proof.
  unfold ordered_by.
  induction keys as [|k keys [IHm IHf]]; cbn [flat_map filter].
  - split; [reflexivity | constructor].
  - destruct (field_map_get fields k) as [f|] eqn:E.
    + apply field_map_get_some in E as E'. destruct E' as [Hin Hk].
      assert (Hh : has_field fields k = true).
      { destruct (has_field fields k) eqn:Eh; [reflexivity|].
        apply field_map_get_none in Eh. congruence. }
      rewrite Hh. cbn [app map]. split.
      * rewrite Hk, IHm. reflexivity.
      * constructor; assumption.
    + apply field_map_get_none in E. rewrite E. cbn [app].
      split; assumption.
Qed.

Lemma picked_from_filter (p : str -> bool) (keys : list str) :
  picked_from (filter p keys) keys.
Proof.
  induction keys as [|k keys IH]; cbn [filter]; [constructor|].
  destruct (p k); constructor; exact IH.
Qed.

Lemma picked_from_firstn (n : nat) (l keys : list str) :
  picked_from l keys -> picked_from (firstn n l) keys.
Proof.
  intros H. revert n. induction H as [keys | k l keys H IH | k l keys H IH];
    intros n.
  - rewrite firstn_nil. constructor.
  - destruct n; cbn [firstn]; constructor. apply IH.
  - constructor. apply IH.
Qed.

Lemma picked_from_In (l keys : list str) (k : str) :
  picked_from l keys -> In k l -> In k keys.
Proof.
  induction 1 as [keys | k' l keys H IH | k' l keys H IH]; intros Hin.
  - destruct Hin.
  - destruct Hin as [-> | Hin]; [left; reflexivity | right; auto].
  - right. auto.
Qed.

Lemma field_map_get_absent (fields : list FieldSpec.t) (key : str) :
  ~ In key (map FieldSpec.key fields) -> field_map_get fields key = None.
Proof.
  intros Hn. apply field_map_get_none. unfold has_field.
  destruct (existsb _ fields) eqn:E; [|reflexivity].
  apply existsb_exists in E. destruct E as [f [Hin He]].
  apply str_eqb_true in He. exfalso. apply Hn. rewrite <- He.
  apply in_map. exact Hin.
Qed.

Lemma field_map_get_cons (f : FieldSpec.t) (fields : list FieldSpec.t)
    (key : str) :
  field_map_get (f :: fields) key
  = match field_map_get fields key with
    | Some g => Some g
    | None => if PyStr.eqb (FieldSpec.key f) key then Some f else None
    end.
Proof.
  unfold field_map_get. cbn [rev].
  induction (rev fields) as [|g l IH]; cbn [app find]; [reflexivity|].
  destruct (PyStr.eqb (FieldSpec.key g) key); [reflexivity | exact IH].
Qed.

Lemma ordered_by_cons (k : str) (keys : list str)
    (fields : list FieldSpec.t) :
  ordered_by (k :: keys) fields
  = match field_map_get fields k with
    | Some g => [g]
    | None => []
    end ++ ordered_by keys fields.
Proof. reflexivity. Qed.

Lemma ordered_by_nil (keys : list str) : ordered_by keys [] = [].
Proof.
  induction keys as [|k keys IH]; [reflexivity|].
  rewrite ordered_by_cons, IH. reflexivity.
Qed.

Lemma ordered_by_absent (f : FieldSpec.t) (fields : list FieldSpec.t)
    (keys : list str) :
  ~ In (FieldSpec.key f) keys ->
  ordered_by keys (f :: fields) = ordered_by keys fields.
Proof.
  intros Hn. induction keys as [|k keys IH]; [reflexivity|].
  rewrite !ordered_by_cons.
  rewrite IH by (intros H; apply Hn; right; exact H).
  rewrite field_map_get_cons.
  destruct (field_map_get fields k); [reflexivity|].
  destruct (PyStr.eqb (FieldSpec.key f) k) eqn:E; [|reflexivity].
  apply str_eqb_true in E. exfalso. apply Hn. left. symmetry. exact E.
Qed.

(** Fields whose keys are picked, in order, from keys without repetition
    come back unchanged from the ordering loop. *)
Lemma ordered_by_fixed (keys : list str) :
  NoDup keys ->
  forall fields,
    picked_from (map FieldSpec.key fields) keys ->
    ordered_by keys fields = fields.
Proof.
  induction 1 as [|k keys Hk Hnd IH]; intros fields Hp.
  - inversion Hp as [? E | |]. destruct fields; [reflexivity | discriminate].
  - inversion Hp as [? E | k' l ? Hl E1 E2 | k' ? ? Hl E1 E2]; subst.
    + destruct fields; [|discriminate]. apply ordered_by_nil.
    + destruct fields as [|f fields]; [discriminate|].
      cbn [map] in E1. inversion E1; subst.
      assert (Hf : ~ In (FieldSpec.key f) keys) by exact Hk.
      assert (Hl' : ~ In (FieldSpec.key f) (map FieldSpec.key fields)).
      { intros Hin. apply Hk. eapply picked_from_In; eassumption. }
      rewrite ordered_by_cons.
      rewrite field_map_get_cons, (@field_map_get_absent fields _ Hl').
      assert (He : PyStr.eqb (FieldSpec.key f) (FieldSpec.key f) = true)
        by (apply str_eqb_true; reflexivity).
      rewrite He, (@ordered_by_absent f fields keys Hf), (IH fields Hl).
      reflexivity.
    + assert (Hl' : ~ In k (map FieldSpec.key fields)).
      { intros Hin. apply Hk. eapply picked_from_In; eassumption. }
      rewrite ordered_by_cons.
      rewrite (@field_map_get_absent fields k Hl'), (IH fields Hl).
      reflexivity.
Qed.

Lemma FIELD_ORDER_NoDup : NoDup FIELD_ORDER.
Proof.
  unfold FIELD_ORDER.
  repeat (constructor; [cbn; intuition discriminate|]). constructor.
Qed.

(** X20. [_order_and_cap_fields], for a cap that is not negative: the keys
    of its result are the keys of [FIELD_ORDER] some field has, in that
    order and cut after [max_fields] (so they are distinct and at most
    [max_fields]); every field returned is one of the fields given;
    ordering and capping the result again returns it unchanged; and so does
    the cap the orchestrator applies to the schema's fields with the same
    [max_fields]. *)
Theorem order_and_cap_fields_canonical
    (fields : list FieldSpec.t) (max_fields : Z) :
  0 <= max_fields ->
  let out := _order_and_cap_fields fields max_fields in
  map FieldSpec.key out
  = firstn (Z.to_nat max_fields) (filter (has_field fields) FIELD_ORDER)
  /\ Forall (fun f => In f fields) out
  /\ len out <= max_fields
  /\ _order_and_cap_fields out max_fields = out
  /\ slice_to out max_fields = out.
Proof.
  intros Hmax. cbv zeta. unfold _order_and_cap_fields.
  destruct (ordered_by_keys FIELD_ORDER fields) as [Hm Hf].
  rewrite !slice_to_nonneg by exact Hmax.
  set (ordered := ordered_by FIELD_ORDER fields) in *.
  assert (Hlen : (length (firstn (Z.to_nat max_fields) ordered)
                  <= Z.to_nat max_fields)%nat)
    by (rewrite length_firstn; lia).
  assert (Hcap : firstn (Z.to_nat max_fields)
                   (firstn (Z.to_nat max_fields) ordered)
                 = firstn (Z.to_nat max_fields) ordered)
    by (apply firstn_all2; exact Hlen).
  split; [rewrite <- Hm; symmetry; apply firstn_map|].
  split.
  { apply Forall_forall. intros f Hin.
    apply (proj1 (Forall_forall _ _) Hf). eapply In_firstn. exact Hin. }
  split; [unfold len; lia|].
  split; [|exact Hcap].
  rewrite ordered_by_fixed; [exact Hcap | apply FIELD_ORDER_NoDup |].
  rewrite <- firstn_map, Hm.
  apply picked_from_firstn, picked_from_filter.
Qed.

Lemma order_and_cap_fields_canonical_witness :
  let out := _order_and_cap_fields
               [Sample.name_field; Sample.dob_field; Sample.name_field] 7 in
  out = [Sample.name_field; Sample.dob_field]
  /\ map FieldSpec.key out
     = firstn (Z.to_nat 7)
         (filter (has_field [Sample.name_field; Sample.dob_field;
                             Sample.name_field]) FIELD_ORDER)
  /\ Forall (fun f => In f [Sample.name_field; Sample.dob_field;
                            Sample.name_field]) out
  /\ len out <= 7
  /\ _order_and_cap_fields out 7 = out
  /\ slice_to out 7 = out.
Proof.
  split; [vm_compute; reflexivity|].
  apply (@order_and_cap_fields_canonical
           [Sample.name_field; Sample.dob_field; Sample.name_field] 7).
  lia.
Defined.

(* --------------------------------------------------------------------- *)
(** ** Routing: scores and entries *)
(* --------------------------------------------------------------------- *)


Lemma filter_length_le {A} (p : A -> bool) (l : list A) :
  (length (filter p l) <= length l)%nat.
Proof.
  induction l as [|x l IH]; cbn [filter length]; [lia|].
  destruct (p x); cbn [length]; lia.
Qed.



Lemma str_ltb_asym (a b : str) : str_ltb a b = true -> str_ltb b a = false.
Proof.
  unfold str_ltb. rewrite (str_compare_antisym a b).
  destruct (str_compare a b); cbn; congruence.
Qed.

Lemma str_ltb_negtrans (a b c : str) :
  str_ltb b a = false -> str_ltb c b = false -> str_ltb c a = false.
Proof.
  unfold str_ltb. intros Hba Hcb.
  destruct (str_compare c a) eqn:Eca; cbn; try reflexivity.
  destruct (str_compare c b) eqn:Ecb; cbn in Hcb; try discriminate.
  - apply str_compare_eq in Ecb. subst. rewrite Eca in Hba. discriminate.
  - assert (Ebc : str_compare b c = Lt)
      by (rewrite (str_compare_antisym c b), Ecb; reflexivity).
    rewrite (str_compare_lt_trans _ _ _ Ebc Eca) in Hba. discriminate.
Qed.

Lemma score_key_ltb_false (a b : score_key) :
  score_key_ltb b a = false
  <-> (fst a <= fst b)%Q
      /\ ((fst b == fst a)%Q -> str_ltb (snd b) (snd a) = false).
Proof.
  unfold score_key_ltb. rewrite orb_false_iff, Qltb_false. split.
  - intros [Hle H]. split; [exact Hle|]. intros He.
    apply Qeq_bool_iff in He. rewrite He in H. exact H.
  - intros [Hle H]. split; [exact Hle|].
    destruct (Qeq_bool (fst b) (fst a)) eqn:E; [|reflexivity].
    apply Qeq_bool_iff in E. cbn [andb]. auto.
Qed.

Lemma score_key_ltb_asym (a b : score_key) :
  score_key_ltb a b = true -> score_key_ltb b a = false.
Proof.
  unfold score_key_ltb at 1. intros H. apply score_key_ltb_false.
  apply orb_true_iff in H. destruct H as [H | H].
  - apply Qltb_true in H. split; [lra|]. intros He. lra.
  - apply andb_true_iff in H. destruct H as [He Hs].
    apply Qeq_bool_iff in He. split; [lra|]. intros _.
    apply str_ltb_asym. exact Hs.
Qed.

Lemma score_key_ltb_negtrans (a b c : score_key) :
  score_key_ltb b a = false -> score_key_ltb c b = false ->
  score_key_ltb c a = false.
Proof.
  rewrite !score_key_ltb_false. intros [H1 S1] [H2 S2].
  split; [lra|]. intros He.
  apply str_ltb_negtrans with (b := snd b); [apply S1 | apply S2]; lra.
Qed.

Lemma sorted_fields_perm (fields : list FieldSpec.t) :
  Permutation fields (sorted_by FieldSpec.key str_ltb fields).
Proof. apply sorted_by_perm. Qed.

Lemma sorted_fields_sorted (fields : list FieldSpec.t) :
  StronglySorted (in_order FieldSpec.key str_ltb)
                 (sorted_by FieldSpec.key str_ltb fields).
Proof.
  apply sorted_by_sorted; [apply str_ltb_asym | apply str_ltb_negtrans].
Qed.

Lemma ranked_ids (query : str) (layout : list LayoutDoc.t)
    (scored : list (str * Q)) :
  Forall (fun x => snd x = doc_score query layout (fst x)) scored ->
  StronglySorted (in_order scored_key score_key_ltb) scored ->
  StronglySorted (ranked_before query layout) (map fst scored).
Proof.
  intros F S. induction S as [|x l S IH Fx]; cbn [map]; [constructor|].
  inversion F as [|? ? Hx Fl]; subst.
  constructor; [apply IH; exact Fl|].
  apply Forall_forall. intros id Hid. apply in_map_iff in Hid.
  destruct Hid as [y [<- Hy]].
  pose proof (proj1 (Forall_forall _ _) Fx y Hy) as Ho.
  pose proof (proj1 (Forall_forall _ _) Fl y Hy) as Hsy.
  unfold in_order in Ho. apply score_key_ltb_false in Ho.
  unfold scored_key in Ho. cbn [fst snd] in Ho. destruct Ho as [Hle Hs].
  unfold ranked_before. rewrite <- Hx, <- Hsy.
  destruct (Qlt_le_dec (snd y) (snd x)) as [Hlt | Hge]; [left; exact Hlt|].
  right. assert (He : (snd x == snd y)%Q) by lra.
  split; [exact He|]. apply Hs. rewrite He. reflexivity.
Qed.

(** What [route_field] puts in the entry of a field. *)
Lemma route_field_entry (doc_index : list DocIndexItem.t)
    (layout : list LayoutDoc.t) (top_k : Z) (field : FieldSpec.t) :
  0 <= top_k ->
  let entry :=
    route_field (filter _is_readable doc_index) layout top_k field in
  RoutingEntry.field entry = FieldSpec.key field
  /\ len (RoutingEntry.doc_ids entry) <= top_k
  /\ Forall (readable_id doc_index) (RoutingEntry.doc_ids entry)
  /\ StronglySorted (ranked_before (_build_field_query field) layout)
                    (RoutingEntry.doc_ids entry).
Proof.
  intros Hk. cbv zeta. unfold route_field.
  destruct (nonempty (filter _is_readable doc_index)); cbn [negb].
  2:{ cbn [RoutingEntry.field RoutingEntry.doc_ids].
      split; [reflexivity|]. split; [unfold len; cbn; lia|].
      split; constructor. }
  cbn [RoutingEntry.field RoutingEntry.doc_ids].
  set (query := _build_field_query field).
  set (scored := map (fun doc => (DocIndexItem.doc_id doc,
                                  doc_score query layout
                                    (DocIndexItem.doc_id doc)))
                     (filter _is_readable doc_index)).
  set (sorted := sorted_by scored_key score_key_ltb scored).
  rewrite slice_to_nonneg by exact Hk.
  assert (Hin : forall x, In x sorted ->
                  snd x = doc_score query layout (fst x)
                  /\ readable_id doc_index (fst x)).
  { intros x Hx.
    apply (Permutation_in x (Permutation_sym (sorted_by_perm scored_key
             score_key_ltb scored))) in Hx.
    unfold scored in Hx. apply in_map_iff in Hx.
    destruct Hx as [doc [<- Hdoc]]. apply filter_In in Hdoc.
    destruct Hdoc as [Hd Hr]. cbn [fst snd]. split; [reflexivity|].
    exists doc. auto. }
  split; [reflexivity|]. split; [|split].
  - unfold len. rewrite length_map, length_firstn. lia.
  - apply Forall_forall. intros id Hid. apply in_map_iff in Hid.
    destruct Hid as [x [<- Hx]]. apply In_firstn in Hx.
    apply (Hin x Hx).
  - apply ranked_ids.
    + apply Forall_forall. intros x Hx. apply In_firstn in Hx.
      apply (Hin x Hx).
    + apply StronglySorted_firstn_keeps.
      apply sorted_by_sorted;
        [apply score_key_ltb_asym | apply score_key_ltb_negtrans].
Qed.

(** X22. [route_docs], for a [top_k] that is not negative, returns one entry
    per resolved field, the fields taken in ascending key order; the entry
    of a field names at most [top_k] documents, each of them a readable
    document of the index, ranked best first: by descending score for the
    field's query, and by ascending id among equal scores. *)
Theorem route_docs_entries :
  forall (schema : ResolvedSchema.t) (doc_index : list DocIndexItem.t)
         (layout : list LayoutDoc.t) (top_k : Z),
    0 <= top_k ->
    exists sorted_fields,
      Permutation (ResolvedSchema.resolved_fields schema) sorted_fields
      /\ StronglySorted (in_order FieldSpec.key str_ltb) sorted_fields
      /\ Forall2
           (fun field entry =>
              RoutingEntry.field entry = FieldSpec.key field
              /\ len (RoutingEntry.doc_ids entry) <= top_k
              /\ Forall (readable_id doc_index) (RoutingEntry.doc_ids entry)
              /\ StronglySorted
                   (ranked_before (_build_field_query field) layout)
                   (RoutingEntry.doc_ids entry))
           sorted_fields
           (route_docs schema doc_index layout top_k).
Proof.
  intros schema doc_index layout top_k Hk.
  exists (sorted_by FieldSpec.key str_ltb
            (ResolvedSchema.resolved_fields schema)).
  split; [apply sorted_fields_perm|]. split; [apply sorted_fields_sorted|].
  unfold route_docs. cbv zeta.
  induction (sorted_by FieldSpec.key str_ltb
               (ResolvedSchema.resolved_fields schema)) as [|f l IH];
    cbn [map]; constructor; [|exact IH].
  apply route_field_entry. exact Hk.
Qed.

Lemma route_docs_entries_witness :
  exists sorted_fields,
    Permutation (ResolvedSchema.resolved_fields Sample.schema) sorted_fields
    /\ StronglySorted (in_order FieldSpec.key str_ltb) sorted_fields
    /\ Forall2
         (fun field entry =>
            RoutingEntry.field entry = FieldSpec.key field
            /\ len (RoutingEntry.doc_ids entry) <= 3
            /\ Forall (readable_id
                         [DocIndexItem.make (lit "doc_001") true None])
                      (RoutingEntry.doc_ids entry)
            /\ StronglySorted
                 (ranked_before (_build_field_query field) Sample.layout)
                 (RoutingEntry.doc_ids entry))
         sorted_fields
         (route_docs Sample.schema
            [DocIndexItem.make (lit "doc_001") true None] Sample.layout 3).
Proof.
  apply (@route_docs_entries Sample.schema
           [DocIndexItem.make (lit "doc_001") true None] Sample.layout 3).
  lia.
Defined.

(** X23. Routing and the orchestrator together: with the routing
    [route_docs] computes (for a [top_k] that is not negative), the
    documents [_get_routed_docs] hands to the extractors for any field key
    are at most [top_k], all of them documents of the layout that the index
    lists as readable. *)
Theorem routed_docs_are_readable :
  forall (field_key : str) (schema : ResolvedSchema.t)
         (doc_index : list DocIndexItem.t) (layout : list LayoutDoc.t)
         (top_k : Z),
    0 <= top_k ->
    let docs :=
      _get_routed_docs field_key
        (route_docs schema doc_index layout top_k) layout in
    len docs <= top_k
    /\ Forall (fun doc =>
                 In doc layout
                 /\ readable_id doc_index (LayoutDoc.doc_id doc))
              docs.
Proof.
  intros key schema doc_index layout top_k Hk. cbv zeta.
  unfold _get_routed_docs.
  destruct (find (fun r => PyStr.eqb (RoutingEntry.field r) key)
                 (route_docs schema doc_index layout top_k))
    as [entry|] eqn:E;
    [|split; [unfold len; cbn; lia | constructor]].
  apply find_some in E. destruct E as [Hentry _].
  unfold route_docs in Hentry. cbv zeta in Hentry.
  apply in_map_iff in Hentry. destruct Hentry as [field [<- _]].
  destruct (@route_field_entry doc_index layout top_k field Hk)
    as [_ [Hlen [Hread _]]].
  set (entry := route_field (filter _is_readable doc_index) layout top_k
                            field) in *.
  destruct (RoutingEntry.doc_ids entry) as [|id ids] eqn:Eids;
    cbn [nonempty negb];
    [split; [unfold len; cbn; lia | constructor]|].
  destruct (routed_ids layout (id :: ids)) as [Hm Hf].
  cbv zeta in Hm, Hf.
  set (docs := flat_map _ (id :: ids)) in *.
  split.
  - pose proof (filter_length_le (in_layout layout) (id :: ids)) as Hle.
    rewrite <- Hm, length_map in Hle. unfold len in *. lia.
  - apply Forall_forall. intros doc Hdoc.
    split; [exact (proj1 (Forall_forall _ _) Hf doc Hdoc)|].
    assert (Hid : In (LayoutDoc.doc_id doc) (id :: ids)).
    { assert (H : In (LayoutDoc.doc_id doc) (map LayoutDoc.doc_id docs))
        by (apply in_map; exact Hdoc).
      rewrite Hm in H. apply filter_In in H. tauto. }
    exact (proj1 (Forall_forall _ _) Hread _ Hid).
Qed.

Lemma routed_docs_are_readable_witness :
  let docs :=
    _get_routed_docs (lit "dob")
      (route_docs Sample.schema
         [DocIndexItem.make (lit "doc_001") true None] Sample.layout 3)
      Sample.layout in
  len docs <= 3
  /\ Forall (fun doc =>
               In doc Sample.layout
               /\ readable_id [DocIndexItem.make (lit "doc_001") true None]
                              (LayoutDoc.doc_id doc))
            docs.
Proof.
  apply (@routed_docs_are_readable (lit "dob") Sample.schema
           [DocIndexItem.make (lit "doc_001") true None] Sample.layout 3).
  lia.
Defined.

Example route_docs_sample :
  route_docs Sample.schema [DocIndexItem.make (lit "doc_001") true None]
             Sample.layout 3
  = [ RoutingEntry.make (lit "dob") [lit "doc_001"];
      RoutingEntry.make (lit "full_name") [lit "doc_001"] ]
  /\ tokenize (lit "Date-of-birth: 5 MAY 1990, a DOB")
     = [lit "date"; lit "of"; lit "birth"; lit "may"; lit "1990"; lit "dob"].
Proof. vm_compute. split; reflexivity. Qed.

(* --------------------------------------------------------------------- *)
(** ** The value the response parser normalises itself *)
(* --------------------------------------------------------------------- *)

Lemma normalized_has_no (c : ascii) (text : str) :
  keeps c = false -> contains [c] (normalize_text text) = false.
Proof.
  intros Hc. destruct (contains [c] (normalize_text text)) eqn:E;
    [|reflexivity].
  apply contains_true in E.
  pose proof (Forall_occurs E (normalize_text_chars text)) as F.
  inversion F as [|? ? [_ [Hk _]] _]; subst. congruence.
Qed.

Lemma phone_supported_by_digits (raw text : str)
    (evidence_texts : list str) :
  In text evidence_texts ->
  DateRule.occurs_in raw text ->
  10 <= len (extract_digits raw) ->
  _evidence_supports_phone (fst (normalize_phone raw)) evidence_texts = true.
Proof.
  intros Hin [before [after ->]] Hten.
  unfold _evidence_supports_phone.
  rewrite (extract_digits_of_digits (normalize_phone_digits raw)).
  pose proof (normalize_phone_length raw) as L.
  destruct (Z.ltb_spec (len (fst (normalize_phone raw))) 10) as [Hlt | Hge].
  - destruct (len (extract_digits raw) =? 10); lia.
  - apply existsb_exists. exists (before ++ raw ++ after).
    split; [exact Hin|].
    apply (@phone_digits_in_text raw before after Hten).
Qed.

(** X24. On text of the code points U+0000..U+00FF, where the digits of
    [\d] and of [int] are the ASCII digits and [str.lower] maps character
    by character: the value the response parser computes for an item
    without [normalized_value] passes the evidence check against evidence
    that quotes the item's raw value: for a date field when
    [normalize_date] parses the raw value and it is not a mixed-padding
    numeric date; for a phone field when the raw value has at least ten
    digits; for a string or list field when the normalised text has no two
    whitespace characters next to each other. *)
Theorem parser_normalized_value_is_supported
    (field : FieldSpec.t) (raw text : str) (evidence_texts : list str) :
  In text evidence_texts ->
  DateRule.occurs_in raw text ->
  match FieldSpec.type field with
  | TDate => normalize_date raw <> None /\ mixed_padding raw = false
  | TPhone => 10 <= len (extract_digits raw)
  | TString | TStringOrList => adjacent_spaces (normalize_text raw) = false
  end ->
  supports_by_type (FieldSpec.type field)
    (_normalize_value_for_field field raw) evidence_texts = true.
Proof.
  intros Hin Hoc. unfold _normalize_value_for_field.
  assert (Hstring :
    adjacent_spaces (normalize_text raw) = false ->
    _evidence_supports_string (normalize_text raw) evidence_texts = true).
  { intros H. apply string_rule_from_occurrence with (text := text);
      [exact Hin|].
    rewrite (normalize_text_stable _ H). apply normalize_text_occurs.
    exact Hoc. }
  destruct (FieldSpec.type field); cbn [supports_by_type].
  - exact Hstring.
  - intros [Hsome Hmix].
    destruct (normalize_date raw) as [date|] eqn:En; [|congruence].
    destruct (normalize_date_shape _ En) as [y [m [d [[Ly _] [_ [_ Hd]]]]]].
    assert (Hne : nonempty date = true).
    { rewrite Hd. destruct y; [discriminate Ly | reflexivity]. }
    rewrite Hne.
    destruct (normalized_date_in_text En Hmix Hoc) as [y' [m' [d' [Hp Ht]]]].
    unfold _evidence_supports_date. rewrite Hp.
    apply existsb_exists. exists text. split; [exact Hin|].
    apply date_in_text_spec. exact Ht.
  - intros Hten. apply phone_supported_by_digits with (text := text);
      assumption.
  - intros H. unfold _evidence_supports_list.
    change (lit ",") with [","%char]. change (lit ";") with [";"%char].
    rewrite !normalized_has_no by reflexivity. cbn [orb].
    apply Hstring. exact H.
Qed.

Lemma parser_normalized_value_is_supported_witness :
  supports_by_type TDate
    (_normalize_value_for_field Sample.dob_field (lit "May 5, 1990"))
    [lit "Date of birth: May 5, 1990"] = true.
Proof.
  apply (@parser_normalized_value_is_supported Sample.dob_field
           (lit "May 5, 1990") (lit "Date of birth: May 5, 1990")).
  - left. reflexivity.
  - exists (lit "Date of birth: "), []. reflexivity.
  - cbn. split; [vm_compute; discriminate | vm_compute; reflexivity].
Defined.
